(** * ATao-Blog: the Markdown extension preprocessor and the chat parser

    A shallow embedding of the text-transform code of
    [src/components/MarkdownRenderer] ([parseOrderedListNumbers],
    [processContent], the video dispatch of the [div] handler) and of
    [src/components/Chat.tsx] ([getMinecraftAvatar], [parseChatContent]).

    JavaScript strings are sequences of UTF-16 code units: a string is a
    [list N].  The source is written almost entirely with regular
    expressions, so the embedding contains a backtracking matcher with the
    priorities of ECMAScript ([RepeatMatcher], greedy and lazy quantifiers,
    capture groups, back-references) and every regular expression of the
    source is transcribed as a term of [regex]. *)

From Stdlib Require Import String Ascii List NArith Arith Bool Lia DecimalNat.
Import ListNotations.
Open Scope N_scope.
Open Scope list_scope.

(** ** Strings *)

Definition jsstr := list N.

(** [U "..."] is the JavaScript string with the given ASCII characters. *)
Definition U (s : string) : jsstr :=
  map N_of_ascii (list_ascii_of_string s).

Definition dq : jsstr := [34].     (* the double quote character *)
Definition nl : jsstr := [10].     (* "\n" *)

Fixpoint str_eqb (a b : jsstr) : bool :=
  match a, b with
  | [], [] => true
  | x :: a', y :: b' => (x =? y) && str_eqb a' b'
  | _, _ => false
  end.

(** [strip_prefix p s] is [Some t] when [s = p ++ t]. *)
Fixpoint strip_prefix (p s : jsstr) : option jsstr :=
  match p with
  | [] => Some s
  | x :: p' =>
      match s with
      | y :: s' => if x =? y then strip_prefix p' s' else None
      | [] => None
      end
  end.

Definition startsWith (s p : jsstr) : bool :=
  match strip_prefix p s with Some _ => true | None => false end.

(** [s.includes(p)] *)
Fixpoint includes (s p : jsstr) : bool :=
  startsWith s p ||
  match s with
  | [] => false
  | _ :: s' => includes s' p
  end.

(** ** Character classes *)

Definition is_digit (c : N) : bool := (48 <=? c) && (c <=? 57).
Definition is_upper (c : N) : bool := (65 <=? c) && (c <=? 90).
Definition is_lower (c : N) : bool := (97 <=? c) && (c <=? 122).

(** [\w] is [A-Za-z0-9_]; without the [u] flag the [i] flag does not
    enlarge it. *)
Definition is_word (c : N) : bool :=
  is_digit c || is_upper c || is_lower c || (c =? 95).

(** [\s]: WhiteSpace and LineTerminator of ECMAScript; [trim] and
    [trimEnd] strip the same set. *)
Definition is_space (c : N) : bool :=
  ((9 <=? c) && (c <=? 13)) || (c =? 32) || (c =? 160) || (c =? 5760) ||
  ((8192 <=? c) && (c <=? 8202)) || (c =? 8232) || (c =? 8233) ||
  (c =? 8239) || (c =? 8287) || (c =? 12288) || (c =? 65279).

(** [.] excludes the four line terminators. *)
Definition is_dot (c : N) : bool :=
  negb ((c =? 10) || (c =? 13) || (c =? 8232) || (c =? 8233)).

Definition is_c (x : N) (c : N) : bool := c =? x.
Definition none_of (l : list N) (c : N) : bool :=
  negb (existsb (N.eqb c) l).
Definition any_char (_ : N) : bool := true.      (* [\s\S] *)

(** ASCII case folding.  [toLowerCase] is applied by the source to
    [\w+] captures (ASCII by construction) and to a value that is compared
    with the ASCII literal 'minecraft'; no code unit outside ASCII folds to
    one of its letters, so the ASCII table decides both uses. *)
Definition lower_c (c : N) : N := if is_upper c then c + 32 else c.
Definition toLowerCase (s : jsstr) : jsstr := map lower_c s.

(** A literal letter under the [i] flag. *)
Definition is_ci (x : N) (c : N) : bool := lower_c c =? lower_c x.

Fixpoint dropWhile (p : N -> bool) (s : jsstr) : jsstr :=
  match s with
  | [] => []
  | c :: s' => if p c then dropWhile p s' else s
  end.

Definition trimStart (s : jsstr) : jsstr := dropWhile is_space s.
Definition trimEnd (s : jsstr) : jsstr := rev (dropWhile is_space (rev s)).
Definition trim (s : jsstr) : jsstr := trimEnd (trimStart s).

(** ** The regular-expression matcher *)

Inductive regex : Type :=
| Eps
| Chr (p : N -> bool)                 (* one code unit of a class *)
| Seq (a b : regex)
| Alt (a b : regex)
| Rep (greedy : bool) (mn : nat) (mx : option nat) (a : regex)
| Grp (i : nat) (a : regex)           (* capture group number [i] *)
| Ref (i : nat)                       (* back-reference [\i] *)
| Bol                                 (* [^], no [m] flag *)
| Eol                                 (* [$], no [m] flag *)
| PrevNot (p : N -> bool)             (* [(?<!c)] for a one-unit class *)
| NextNot (p : N -> bool).            (* [(?!c)] for a one-unit class *)

(** A matcher state: the input before the current position (reversed),
    the input from the current position on, and the captures so far. *)
Record mstate : Type := MState {
  before : jsstr;
  rest : jsstr;
  caps : list (nat * jsstr)
}.

Fixpoint getcap (i : nat) (cs : list (nat * jsstr)) : option jsstr :=
  match cs with
  | [] => None
  | (j, v) :: cs' => if Nat.eqb i j then Some v else getcap i cs'
  end.

Definition pred_max (mx : option nat) : option nat :=
  match mx with Some n => Some (Nat.pred n) | None => None end.

Definition is_zero_max (mx : option nat) : bool :=
  match mx with Some O => true | _ => false end.

Section Repeat.
Variable m : mstate -> list mstate.

(** ECMAScript [RepeatMatcher]: the results in backtracking order.  An
    iteration of a quantifier whose minimum is exhausted must consume
    input; [fuel] bounds the number of iterations and is taken larger
    than the minimum plus the remaining input. *)
Fixpoint rep (greedy : bool) (mn : nat) (mx : option nat)
    (fuel : nat) (st : mstate) : list mstate :=
  match fuel with
  | O => []
  | S f =>
      match mn with
      | S mn' => flat_map (rep greedy mn' (pred_max mx) f) (m st)
      | O =>
          if is_zero_max mx then [st]
          else
            let more :=
              flat_map
                (fun st' =>
                   if Nat.ltb (length (rest st')) (length (rest st))
                   then rep greedy O (pred_max mx) f st'
                   else [])
                (m st) in
            if greedy then more ++ [st] else st :: more
      end
  end.
End Repeat.

Definition advance (c : N) (t : jsstr) (st : mstate) : mstate :=
  MState (c :: before st) t (caps st).

Definition consumed (st st' : mstate) : jsstr :=
  firstn (length (rest st) - length (rest st')) (rest st).

Definition setcap (i : nat) (st st' : mstate) : mstate :=
  MState (before st') (rest st') ((i, consumed st st') :: caps st').

(** All the ways [r] matches at the position of [st], most preferred
    first: the head is what a backtracking matcher returns. *)
Fixpoint mt (r : regex) (st : mstate) : list mstate :=
  match r with
  | Eps => [st]
  | Chr p =>
      match rest st with
      | c :: t => if p c then [advance c t st] else []
      | [] => []
      end
  | Seq a b => flat_map (mt b) (mt a st)
  | Alt a b => mt a st ++ mt b st
  | Rep g mn mx a =>
      rep (mt a) g mn mx (S (mn + length (rest st))) st
  | Grp i a => map (setcap i st) (mt a st)
  | Ref i =>
      match getcap i (caps st) with
      | None => [st]
      | Some v =>
          match strip_prefix v (rest st) with
          | Some t => [MState (rev v ++ before st) t (caps st)]
          | None => []
          end
      end
  | Bol => match before st with [] => [st] | _ => [] end
  | Eol => match rest st with [] => [st] | _ => [] end
  | PrevNot p =>
      match before st with
      | c :: _ => if p c then [] else [st]
      | [] => [st]
      end
  | NextNot p =>
      match rest st with
      | c :: _ => if p c then [] else [st]
      | [] => [st]
      end
  end.

(** Regular-expression syntax as the source writes it. *)
Definition star (a : regex) : regex := Rep true 0 None a.
Definition plus (a : regex) : regex := Rep true 1 None a.
Definition opt (a : regex) : regex := Rep true 0 (Some 1%nat) a.
Definition lazy_star (a : regex) : regex := Rep false 0 None a.
Definition lazy_plus (a : regex) : regex := Rep false 1 None a.
Definition at_least (n : nat) (a : regex) : regex := Rep true n None a.
Definition between (n k : nat) (a : regex) : regex := Rep true n (Some k) a.

Fixpoint seqs (l : list regex) : regex :=
  match l with
  | [] => Eps
  | [a] => a
  | a :: l' => Seq a (seqs l')
  end.

(** A literal, and a literal under the [i] flag. *)
Definition lit (s : jsstr) : regex := seqs (map (fun x => Chr (is_c x)) s).
Definition lit_i (s : jsstr) : regex := seqs (map (fun x => Chr (is_ci x)) s).

Definition ws : regex := Chr is_space.           (* [\s] *)

(** The result of one successful match: where it starts, the text, the
    captures and what follows. *)
Record rmatch : Type := RMatch {
  m_pre : jsstr;      (* reversed input before the match *)
  m_text : jsstr;     (* [match[0]] *)
  m_caps : list (nat * jsstr);
  m_post : jsstr      (* input after the match *)
}.

Definition group (i : nat) (m : rmatch) : option jsstr := getcap i (m_caps m).

(** [undefined] captures print as the empty string where the source
    only uses groups that took part in the match. *)
Definition group_s (i : nat) (m : rmatch) : jsstr :=
  match group i m with Some v => v | None => [] end.

Definition match_at (r : regex) (bef s : jsstr) : option rmatch :=
  match mt r (MState bef s []) with
  | st :: _ =>
      Some (RMatch bef (firstn (length s - length (rest st)) s)
                   (caps st) (rest st))
  | [] => None
  end.

(** [search_from r bef s]: the leftmost match at or after the current
    position; the position after the end of the input is tried too. *)
Fixpoint search_from (r : regex) (bef s : jsstr) : option rmatch :=
  match match_at r bef s with
  | Some m => Some m
  | None =>
      match s with
      | [] => None
      | c :: s' => search_from r (c :: bef) s'
      end
  end.

(** [s.match(r)] for a regular expression without the [g] flag. *)
Definition exec (r : regex) (s : jsstr) : option rmatch := search_from r [] s.

(** [r.test(s)] *)
Definition test (r : regex) (s : jsstr) : bool :=
  match exec r s with Some _ => true | None => false end.

(** ** [String.prototype.replace], [split], [join] *)

Definition bind {A B : Type} (x : option A) (f : A -> option B) : option B :=
  match x with Some a => f a | None => None end.

Notation "x <- e ;; k" := (bind e (fun x => k))
  (at level 61, e at next level, right associativity).
Notation "' p <- e ;; k" := (bind e (fun p => k))
  (at level 61, p pattern, e at next level, right associativity).

Section ReplaceAll.
Context {St : Type}.
Variable r : regex.
(** The replacer function.  It may update the variables it closes over
    (the state [St]) and it may throw ([None]). *)
Variable f : St -> rmatch -> option (jsstr * St).

(** [s.replace(r, f)] for a regular expression with the [g] flag: the
    matches are looked for from left to right, each search starting
    where the previous match ended (one unit further after an empty
    match).  [skip] counts the units of the current match that are
    still to be passed over. *)
Fixpoint replace_loop (skip : nat) (bef s : jsstr) (st : St)
    : option (jsstr * St) :=
  match skip with
  | S k =>
      match s with
      | c :: s' => replace_loop k (c :: bef) s' st
      | [] => Some ([], st)
      end
  | O =>
      match match_at r bef s with
      | Some m =>
          '(out, st') <- f st m ;;
          match s with
          | c :: s' =>
              match m_text m with
              | [] =>
                  '(tl, st'') <- replace_loop O (c :: bef) s' st' ;;
                  Some (out ++ c :: tl, st'')
              | _ :: t =>
                  '(tl, st'') <-
                    replace_loop (length t) (c :: bef) s' st' ;;
                  Some (out ++ tl, st'')
              end
          | [] => Some (out, st')
          end
      | None =>
          match s with
          | c :: s' =>
              '(tl, st') <- replace_loop O (c :: bef) s' st ;;
              Some (c :: tl, st')
          | [] => Some ([], st)
          end
      end
  end.

Definition replace_all_st (s : jsstr) (st : St) : option (jsstr * St) :=
  replace_loop O [] s st.
End ReplaceAll.

(** A replacer without state that may throw. *)
Definition replace_all_opt (r : regex) (f : rmatch -> option jsstr)
    (s : jsstr) : option jsstr :=
  '(out, _) <- replace_all_st r
      (fun (_ : unit) m => o <- f m ;; Some (o, tt)) s tt ;;
  Some out.

(** A replacer without state that does not throw. *)
Definition replace_all (r : regex) (f : rmatch -> jsstr) (s : jsstr)
    : jsstr :=
  match replace_all_opt r (fun m => Some (f m)) s with
  | Some out => out
  | None => s
  end.

(** [s.replace(r, f)] without the [g] flag: the first match only. *)
Definition replace_first (r : regex) (f : rmatch -> jsstr) (s : jsstr)
    : jsstr :=
  match exec r s with
  | Some m => rev (m_pre m) ++ f m ++ m_post m
  | None => s
  end.

Definition digit_val (c : N) : nat := N.to_nat (c - 48).

(** ECMAScript [GetSubstitution] without named groups: the expansion of
    a replacement string.  [ngroups] is the number of capture groups of
    the pattern (0 for a string pattern). *)
Fixpoint getSubstitution (matched pre post : jsstr)
    (cs : list (nat * jsstr)) (ngroups : nat) (t : jsstr) : jsstr :=
  let cap i := match getcap i cs with Some v => v | None => [] end in
  let valid i := andb (Nat.leb 1 i) (Nat.leb i ngroups) in
  match t with
  | [] => []
  | c :: t1 =>
      if negb (c =? 36) then
        c :: getSubstitution matched pre post cs ngroups t1
      else
        match t1 with
        | [] => [c]
        | d :: t2 =>
            if d =? 36 then
              36 :: getSubstitution matched pre post cs ngroups t2
            else if d =? 38 then
              matched ++ getSubstitution matched pre post cs ngroups t2
            else if d =? 96 then
              pre ++ getSubstitution matched pre post cs ngroups t2
            else if d =? 39 then
              post ++ getSubstitution matched pre post cs ngroups t2
            else if is_digit d then
              let one := digit_val d in
              match t2 with
              | e :: t3 =>
                  let two := (10 * one + digit_val e)%nat in
                  if is_digit e && valid two then
                    cap two ++
                    getSubstitution matched pre post cs ngroups t3
                  else if valid one then
                    cap one ++
                    getSubstitution matched pre post cs ngroups t2
                  else
                    c :: getSubstitution matched pre post cs ngroups t1
              | [] =>
                  if valid one then cap one
                  else c :: getSubstitution matched pre post cs ngroups t1
              end
            else
              c :: getSubstitution matched pre post cs ngroups t1
        end
  end.

(** [s.replace(r, template)] with the [g] flag and a replacement
    string. *)
Definition replace_all_tpl (r : regex) (ngroups : nat) (tpl : jsstr)
    (s : jsstr) : jsstr :=
  replace_all r
    (fun m =>
       getSubstitution (m_text m) (rev (m_pre m)) (m_post m) (m_caps m)
         ngroups tpl) s.

(** The first occurrence of [pat] in [s]: what precedes it (reversed)
    and what follows it. *)
Fixpoint find_str (pat bef s : jsstr) : option (jsstr * jsstr) :=
  match strip_prefix pat s with
  | Some post => Some (bef, post)
  | None =>
      match s with
      | [] => None
      | c :: s' => find_str pat (c :: bef) s'
      end
  end.

(** [s.replace(pat, repl)] with a string pattern and a replacement
    string: the first occurrence only, [repl] expanded by
    [GetSubstitution]. *)
Definition replace_str (pat repl s : jsstr) : jsstr :=
  match find_str pat [] s with
  | Some (bef, post) =>
      rev bef ++ getSubstitution pat (rev bef) post [] 0 repl ++ post
  | None => s
  end.

(** [s.split(sep)] for a one-unit separator. *)
Fixpoint split_chr (sep : N) (cur : jsstr) (s : jsstr) : list jsstr :=
  match s with
  | [] => [rev cur]
  | c :: s' =>
      if c =? sep then rev cur :: split_chr sep [] s'
      else split_chr sep (c :: cur) s'
  end.

Definition split_nl (s : jsstr) : list jsstr := split_chr 10 [] s.

Definition groups_of (n : nat) (m : rmatch) : list jsstr :=
  map (fun i => group_s i m) (seq 1 n).

(** [s.split(r)] for a non-empty [s]: the pieces between the matches
    with the captures of each match after the piece that precedes it. *)
Fixpoint split_loop (r : regex) (ngroups : nat) (skip : nat)
    (bef s cur : jsstr) : list jsstr :=
  match s with
  | [] => [rev cur]
  | c :: s' =>
      match skip with
      | S k => split_loop r ngroups k (c :: bef) s' cur
      | O =>
          match match_at r bef s with
          | Some m =>
              match m_text m with
              | _ :: t =>
                  rev cur :: groups_of ngroups m ++
                  split_loop r ngroups (length t) (c :: bef) s' []
              | [] =>
                  match cur with
                  | [] => split_loop r ngroups O (c :: bef) s' [c]
                  | _ =>
                      rev cur :: groups_of ngroups m ++
                      split_loop r ngroups O (c :: bef) s' [c]
                  end
              end
          | None => split_loop r ngroups O (c :: bef) s' (c :: cur)
          end
      end
  end.

Definition split_re (r : regex) (ngroups : nat) (s : jsstr) : list jsstr :=
  match s with
  | [] => match match_at r [] [] with Some _ => [] | None => [[]] end
  | _ => split_loop r ngroups O [] s []
  end.

(** [l.join(sep)] *)
Fixpoint join (sep : jsstr) (l : list jsstr) : jsstr :=
  match l with
  | [] => []
  | [a] => a
  | a :: l' => a ++ sep ++ join sep l'
  end.

(** ** [encodeURIComponent] *)

Definition hex_digit (n : N) : N := if n <? 10 then 48 + n else 55 + n.
Definition pct (b : N) : jsstr := [37; hex_digit (b / 16); hex_digit (b mod 16)].

Definition utf8 (cp : N) : list N :=
  if cp <? 128 then [cp]
  else if cp <? 2048 then [192 + cp / 64; 128 + cp mod 64]
  else if cp <? 65536 then
    [224 + cp / 4096; 128 + (cp / 64) mod 64; 128 + cp mod 64]
  else
    [240 + cp / 262144; 128 + (cp / 4096) mod 64;
     128 + (cp / 64) mod 64; 128 + cp mod 64].

Definition is_lead (c : N) : bool := (55296 <=? c) && (c <=? 56319).
Definition is_trail (c : N) : bool := (56320 <=? c) && (c <=? 57343).

(** [A-Za-z0-9] and [-_.!~*'()] *)
Definition uri_unreserved (c : N) : bool :=
  is_digit c || is_upper c || is_lower c ||
  existsb (N.eqb c) [45; 95; 46; 33; 126; 42; 39; 40; 41].

(** [None] is the [URIError] thrown at an unpaired surrogate. *)
Fixpoint encodeURIComponent (s : jsstr) : option jsstr :=
  match s with
  | [] => Some []
  | c :: s' =>
      if uri_unreserved c then
        t <- encodeURIComponent s' ;; Some (c :: t)
      else if is_trail c then None
      else if is_lead c then
        match s' with
        | d :: s'' =>
            if is_trail d then
              t <- encodeURIComponent s'' ;;
              Some (flat_map pct
                      (utf8 ((c - 55296) * 1024 + (d - 56320) + 65536))
                    ++ t)
            else None
        | [] => None
        end
      else
        t <- encodeURIComponent s' ;; Some (flat_map pct (utf8 c) ++ t)
  end.

(** ** Chat.tsx *)

Module Chat.

Record Person : Type := mkPerson {
  name : jsstr;
  avatar : option jsstr     (* [undefined] is [None] *)
}.

Record ChatMessage : Type := mkMessage {
  person : Person;
  content : jsstr
}.

(** [/^[a-zA-Z0-9_]{3,16}$/] *)
Definition minecraftNamePattern : regex :=
  seqs [Bol; between 3 16 (Chr is_word); Eol].

(** [getMinecraftAvatar]: the avatar URL of a player name, the empty
    string for a name that is not a Minecraft user name. *)
Definition getMinecraftAvatar (username : jsstr) : option jsstr :=
  if test minecraftNamePattern username then
    e <- encodeURIComponent username ;;
    Some (U "https://mc-heads.net/avatar/" ++ e)
  else Some [].

Definition quote : N -> bool := fun c => (c =? 39) || (c =? 34).
Definition value_chr : N -> bool := none_of [44; 39; 34].   (* [^,'\x22] *)

(** [/^@person\s+(.+)$/] *)
Definition personRe : regex :=
  seqs [Bol; lit (U "@person"); plus ws; Grp 1 (plus (Chr is_dot)); Eol].

(** [/name:\s*['\x22]?([^,'\x22]+)['\x22]?/i] *)
Definition nameRe1 : regex :=
  seqs [lit_i (U "name:"); star ws; opt (Chr quote);
        Grp 1 (plus (Chr value_chr)); opt (Chr quote)].

(** [/name:\s*([^,]+?)(?:\s*,\s*|$)/i] *)
Definition nameRe2 : regex :=
  seqs [lit_i (U "name:"); star ws; Grp 1 (lazy_plus (Chr (none_of [44])));
        Alt (seqs [star ws; Chr (is_c 44); star ws]) Eol].

(** [/name:\s*(\S+)/i] *)
Definition nameRe3 : regex :=
  seqs [lit_i (U "name:"); star ws;
        Grp 1 (plus (Chr (fun c => negb (is_space c))))].

(** [/avatar:\s*['\x22]?([^,'\x22]+)['\x22]?/i] *)
Definition avatarRe : regex :=
  seqs [lit_i (U "avatar:"); star ws; opt (Chr quote);
        Grp 1 (plus (Chr value_chr)); opt (Chr quote)].

Definition orElse {A : Type} (x y : option A) : option A :=
  match x with Some _ => x | None => y end.

(** The person declared by the attribute text of an [@person] line. *)
Definition parsePerson (attrs0 : jsstr) : option Person :=
  let attrs := trim attrs0 in
  let nameMatch :=
    orElse (exec nameRe1 attrs)
      (orElse (exec nameRe2 attrs) (exec nameRe3 attrs)) in
  let avatarMatch := exec avatarRe attrs in
  let name :=
    match nameMatch with
    | Some m => trim (group_s 1 m)
    | None => U "Unknown"
    end in
  let avatar :=
    match avatarMatch with
    | Some m => Some (trim (group_s 1 m))
    | None => None
    end in
  match avatar with
  | Some ((_ :: _) as a) =>
      if str_eqb (toLowerCase a) (U "minecraft") then
        mc <- getMinecraftAvatar name ;;
        match mc with
        | [] => Some (mkPerson name None)
        | _ => Some (mkPerson name (Some mc))
        end
      else Some (mkPerson name avatar)
  | _ => Some (mkPerson name avatar)
  end.

(** The variables of the loop of [parseChatContent]. *)
Record LoopState : Type := mkLoop {
  messages : list ChatMessage;
  currentPerson : option Person;
  currentContent : list jsstr
}.

(** [messages.push(...)] guarded by [if (messageContent)]. *)
Definition pushMessage (p : Person) (cc : list jsstr)
    (ms : list ChatMessage) : list ChatMessage :=
  match trim (join nl cc) with
  | [] => ms
  | mc => ms ++ [mkMessage p mc]
  end.

(** One iteration of the [for] loop. *)
Definition step (st : LoopState) (line : jsstr) : option LoopState :=
  match exec personRe line with
  | Some pm =>
      let '(ms, cc) :=
        match currentPerson st with
        | Some p => (pushMessage p (currentContent st) (messages st), [])
        | None => (messages st, currentContent st)
        end in
      p <- parsePerson (group_s 1 pm) ;;
      Some (mkLoop ms (Some p) cc)
  | None =>
      match currentPerson st with
      | Some _ =>
          Some (mkLoop (messages st) (currentPerson st)
                  (currentContent st ++ [line]))
      | None => Some st
      end
  end.

Fixpoint loop (st : LoopState) (lines : list jsstr) : option LoopState :=
  match lines with
  | [] => Some st
  | l :: ls => st' <- step st l ;; loop st' ls
  end.

(** [content.split(/\r?\n/).map(line => line.replace(/\r$/, '').trimEnd())] *)
Definition chatLines (content : jsstr) : list jsstr :=
  map (fun line =>
         trimEnd (replace_first (Seq (Chr (is_c 13)) Eol) (fun _ => []) line))
      (split_re (Seq (opt (Chr (is_c 13))) (Chr (is_c 10))) 0 content).

(** [parseChatContent]; [None] when an exception leaves the function. *)
Definition parseChatContent (content : jsstr) : option (list ChatMessage) :=
  match trim content with
  | [] => Some []
  | _ =>
      st <- loop (mkLoop [] None []) (chatLines content) ;;
      match currentPerson st, currentContent st with
      | Some p, _ :: _ => Some (pushMessage p (currentContent st) (messages st))
      | _, _ => Some (messages st)
      end
  end.

End Chat.

Definition chat_input : jsstr :=
  U "@person name:A" ++ nl ++ U "hi" ++ nl ++
  U "@person name:B, avatar:minecraft" ++ nl ++ U "yo".

(** ** MarkdownRenderer: the ordered-list scan *)

(** [parseInt(s, 10)] on a string of decimal digits, before the result
    is made a Number: the integer that the numeral writes.  The built-in
    returns [toNumber] of it.  Where the result only serves as the index
    of an array ([lookupBlock]) the rounding is left out: it changes no
    integer below 2^53, and an array has fewer elements than that. *)
Definition parseInt (s : jsstr) : N :=
  fold_left (fun a c => 10 * a + (c - 48)) s 0.

(** The Numbers that [parseInt] returns for a numeral: the integers that
    a double represents, and [Infinity]. *)
Inductive Number : Type :=
| Finite (n : N)
| Infinity.

(** The Number value of an integer: the nearest double, the one with
    the even significand when two are equally near, and [Infinity] from
    2^1024 - 2^970 on.  (For a numeral of more than twenty digits the
    language also allows the value of its first twenty digits followed
    by zeros; the engines round the numeral itself.) *)
Definition toNumber (n : N) : Number :=
  let e := N.log2 n in
  if e <? 53 then Finite n
  else
    let k := e - 52 in
    let q := N.shiftr n k in
    let r := N.land n (N.ones k) in
    let half := N.shiftl 1 (k - 1) in
    let q' :=
      if (half <? r) || ((r =? half) && N.odd q) then q + 1 else q in
    let v := N.shiftl q' k in
    if 2 ^ 1024 <=? v then Infinity else Finite v.

Fixpoint uint_digits (u : Decimal.uint) : jsstr :=
  match u with
  | Decimal.Nil => []
  | Decimal.D0 u' => 48 :: uint_digits u'
  | Decimal.D1 u' => 49 :: uint_digits u'
  | Decimal.D2 u' => 50 :: uint_digits u'
  | Decimal.D3 u' => 51 :: uint_digits u'
  | Decimal.D4 u' => 52 :: uint_digits u'
  | Decimal.D5 u' => 53 :: uint_digits u'
  | Decimal.D6 u' => 54 :: uint_digits u'
  | Decimal.D7 u' => 55 :: uint_digits u'
  | Decimal.D8 u' => 56 :: uint_digits u'
  | Decimal.D9 u' => 57 :: uint_digits u'
  end.

(** The decimal numeral of an array length or index. *)
Definition num_str (n : nat) : jsstr := uint_digits (Nat.to_uint n).

Definition backtick : N := 96.
Definition tilde : N := 126.

(** [(`{3,}|~{3,})] as capture group [i] *)
Definition fence_grp (i : nat) : regex :=
  Grp i (Alt (at_least 3 (Chr (is_c backtick)))
             (at_least 3 (Chr (is_c tilde)))).

(** [/^(`{3,}|~{3,})/] *)
Definition codeFenceRe : regex := Seq Bol (fence_grp 1).

(** [/^(\s{0,})(\d+)\.\s+/] *)
Definition listItemRe : regex :=
  seqs [Bol; Grp 1 (star ws); Grp 2 (plus (Chr is_digit));
        Chr (is_c 46); plus ws].

Record ListEntry : Type := mkEntry { number : Number; indent : nat }.

Record ScanState : Type := mkScan {
  numbers : list ListEntry;
  inCodeBlock : bool;
  codeBlockFence : jsstr
}.

(** One iteration of the loop of [parseOrderedListNumbers]. *)
Definition scanLine (st : ScanState) (line : jsstr) : ScanState :=
  match exec codeFenceRe line with
  | Some cm =>
      if negb (inCodeBlock st) then mkScan (numbers st) true (group_s 1 cm)
      else if startsWith line (codeBlockFence st)
           then mkScan (numbers st) false []
           else st
  | None =>
      if inCodeBlock st then st
      else
        match exec listItemRe line with
        | Some m =>
            mkScan (numbers st ++
                      [mkEntry (toNumber (parseInt (group_s 2 m)))
                               (length (group_s 1 m))])
                   (inCodeBlock st) (codeBlockFence st)
        | None => st
        end
  end.

(** The loop over the lines. *)
Definition scanLines (lines : list jsstr) : list ListEntry :=
  numbers (fold_left scanLine lines (mkScan [] false [])).

Definition parseOrderedListNumbers (content : jsstr) : list ListEntry :=
  scanLines (split_nl content).

(** ** MarkdownRenderer: [processContent] *)

(** *** Nested-list indentation *)

(** [/(^|\n)(`{3,}|~{3,})([\s\S]*?)\2/g] *)
Definition anyFenceBlockRe : regex :=
  seqs [Grp 1 (Alt Bol (Chr (is_c 10))); fence_grp 2;
        Grp 3 (lazy_star (Chr any_char)); Ref 2].

Definition listPlaceholder (n : nat) : jsstr :=
  U "___CODE_BLOCK_PLACEHOLDER_" ++ num_str n ++ U "___".

(** The replacer of the first pass: the whole match is stored. *)
Definition protectForLists (cbs : list jsstr) (m : rmatch)
    : option (jsstr * list jsstr) :=
  Some (listPlaceholder (length cbs), cbs ++ [m_text m]).

(** [/^(\s{0,})(\d+\.\s+.{0,})$/] *)
Definition listLineRe : regex :=
  seqs [Bol; Grp 1 (star ws);
        Grp 2 (seqs [plus (Chr is_digit); Chr (is_c 46); plus ws;
                     star (Chr is_dot)]);
        Eol].

Definition spaces (n : nat) : jsstr := repeat 32 n.

(** The body of the loop over the lines: what is pushed on [fixedLines]
    for [line], whose predecessor is [prevLine] (the empty string for the
    first line). *)
Definition fixLine (first : bool) (prevLine line : jsstr) : list jsstr :=
  match exec listLineRe line with
  | Some lm =>
      let content := group_s 2 lm in
      let indentLength := length (group_s 1 lm) in
      let prevListMatch := exec listLineRe prevLine in
      let prevIndentLength :=
        match prevListMatch with
        | Some pm => length (group_s 1 pm)
        | None => O
        end in
      let blank :=
        match prevListMatch with
        | Some _ =>
            if Nat.ltb 0 indentLength
               && Nat.ltb prevIndentLength indentLength
               && negb first
               && negb (str_eqb (trim prevLine) [])
            then [[]] else []
        | None => []
        end in
      blank ++
      (if Nat.ltb 0 indentLength then
         if Nat.leb 2 indentLength && Nat.leb indentLength 4
         then [spaces 4 ++ content]
         else if Nat.leb 5 indentLength && Nat.leb indentLength 6
         then [spaces 7 ++ content]
         else [line]
       else [line])
  | None => [line]
  end.

Fixpoint fixLines (first : bool) (prevLine : jsstr) (lines : list jsstr)
    : list jsstr :=
  match lines with
  | [] => []
  | line :: ls => fixLine first prevLine line ++ fixLines false line ls
  end.

(** [codeBlockPlaceholders.forEach((codeBlock, index) => result =
    result.replace(placeholder(index), codeBlock))]: a string pattern and
    a replacement string. *)
Fixpoint restoreForLists (index : nat) (cbs : list jsstr) (result : jsstr)
    : jsstr :=
  match cbs with
  | [] => result
  | cb :: cbs' =>
      restoreForLists (S index) cbs'
        (replace_str (listPlaceholder index) cb result)
  end.

Definition fixNestedLists (text : jsstr) : jsstr :=
  match replace_all_st anyFenceBlockRe protectForLists text [] with
  | Some (masked, cbs) =>
      restoreForLists 0 cbs
        (join nl (fixLines true [] (split_nl masked)))
  | None => text
  end.

(** *** Protection of code *)

(** [/(^|\n)(`{3,})([\s\S]*?)\2/g] *)
Definition fencedCodeRe : regex :=
  seqs [Grp 1 (Alt Bol (Chr (is_c 10)));
        Grp 2 (at_least 3 (Chr (is_c backtick)));
        Grp 3 (lazy_star (Chr any_char)); Ref 2].

(** [/(`+)([^`\n]+?)\1/g] *)
Definition inlineCodeRe : regex :=
  seqs [Grp 1 (plus (Chr (is_c backtick)));
        Grp 2 (lazy_plus (Chr (none_of [backtick; 10]))); Ref 1].

Definition marker : jsstr := U "___CODE_BLOCK_".

Definition placeholder (n : nat) : jsstr :=
  marker ++ num_str n ++ U "___".

(** The replacer of the fenced pass: the match without its prefix is
    stored, the prefix is kept in front of the placeholder. *)
Definition protectFenced (codeBlocks : list jsstr) (m : rmatch)
    : option (jsstr * list jsstr) :=
  let prefix := group_s 1 m in
  let codeBlock := skipn (length prefix) (m_text m) in
  Some (prefix ++ placeholder (length codeBlocks), codeBlocks ++ [codeBlock]).

(** The replacer of the inline pass. *)
Definition protectInline (codeBlocks : list jsstr) (m : rmatch)
    : option (jsstr * list jsstr) :=
  if includes (m_text m) marker then Some (m_text m, codeBlocks)
  else Some (placeholder (length codeBlocks), codeBlocks ++ [m_text m]).

(** The masked document and the protected spans. *)
Definition protect (d : jsstr) : jsstr * list jsstr :=
  match replace_all_st fencedCodeRe protectFenced d [] with
  | Some (r1, cbs1) =>
      match replace_all_st inlineCodeRe protectInline r1 cbs1 with
      | Some res => res
      | None => (r1, cbs1)
      end
  | None => (d, [])
  end.

(** [/___CODE_BLOCK_(\d+)___/g] *)
Definition placeholderRe : regex :=
  seqs [lit marker; Grp 1 (plus (Chr is_digit)); lit (U "___")].

(** [codeBlocks[parseInt(id)]] as a replacement: an index past the end
    gives [undefined], printed as such. *)
Definition lookupBlock (codeBlocks : list jsstr) (m : rmatch) : jsstr :=
  nth (N.to_nat (parseInt (group_s 1 m))) codeBlocks (U "undefined").

(** [result.replace(/___CODE_BLOCK_(\d+)___/g, (match, id) =>
    codeBlocks[parseInt(id)])] *)
Definition restore (masked : jsstr) (codeBlocks : list jsstr) : jsstr :=
  replace_all placeholderRe (lookupBlock codeBlocks) masked.

(** *** HTML fragments *)

(** [name="value"] *)
Definition attr (k v : jsstr) : jsstr := k ++ U "=" ++ dq ++ v ++ dq.

(** [s.replace(/\x22/g, '&quot;')] *)
Definition escapeQuot (s : jsstr) : jsstr :=
  flat_map (fun c => if c =? 34 then U "&quot;" else [c]) s.

(** [s.replace(/'/g, '&#39;')] *)
Definition escapeApos (s : jsstr) : jsstr :=
  flat_map (fun c => if c =? 39 then U "&#39;" else [c]) s.

Definition crlf_opt : regex := opt (Chr (is_c 13)).          (* [\r?] *)
Definition newline : regex := Seq crlf_opt (Chr (is_c 10)).  (* [\r?\n] *)
Definition lazy_any : regex := lazy_star (Chr any_char).     (* [[\s\S]*?] *)
Definition fence3 : regex := lit (U ":::").

(** *** Charts *)

(** [/:::chart\s*\r?\n([\s\S]*?)\r?\n:::/g] *)
Definition chartRe : regex :=
  seqs [lit (U ":::chart"); star ws; newline; Grp 1 lazy_any; newline; fence3].

(** The replacer catches the exception of [encodeURIComponent]. *)
Definition chartReplacer (m : rmatch) : jsstr :=
  match encodeURIComponent (trim (group_s 1 m)) with
  | Some encodedData =>
      U "<div " ++ attr (U "data-chart-type") (U "echarts") ++ U " " ++
      attr (U "data-chart-data") encodedData ++ U "></div>"
  | None => m_text m
  end.

(** *** Videos *)

Record VideoAttrs : Type := mkVideoAttrs {
  v_width : jsstr;
  v_align : jsstr;
  v_autoplay : bool;
  v_controls : bool;
  v_loop : bool;
  v_muted : bool;
  v_caption : jsstr
}.

(** [/key:\s*(\w+)/i] *)
Definition wordAttrRe (key : jsstr) : regex :=
  seqs [lit_i key; star ws; Grp 1 (plus (Chr is_word))].

(** [/key:\s*([^,}]+)/i] *)
Definition bareAttrRe (key : jsstr) : regex :=
  seqs [lit_i key; star ws; Grp 1 (plus (Chr (none_of [44; 125])))].

Fixpoint alts (l : list regex) : regex :=
  match l with
  | [] => Eps
  | [a] => a
  | a :: l' => Alt a (alts l')
  end.

(** [/\s*,\s*(k1|k2|...):.*$/i] *)
Definition trailingAttrsRe (keys : list jsstr) : regex :=
  seqs [star ws; Chr (is_c 44); star ws; Grp 1 (alts (map lit_i keys));
        Chr (is_c 58); star (Chr is_dot); Eol].

(** The free-text [caption]: everything after the key up to the next
    recognised key. *)
Definition parseCaption (keys : list jsstr) (attrs : jsstr) : jsstr :=
  match exec (Seq (lit_i (U "caption:")) (star ws)) attrs with
  | Some cm =>
      let captionIndex := length (m_pre cm) in
      let afterCaption := skipn (captionIndex + 8) attrs in
      trim (replace_first (trailingAttrsRe keys) (fun _ => []) afterCaption)
  | None => []
  end.

Definition videoKeys : list jsstr :=
  [U "align"; U "width"; U "autoplay"; U "controls"; U "loop"; U "muted"].

Definition flagIs (key value : jsstr) (attrs : jsstr) : option bool :=
  match exec (wordAttrRe key) attrs with
  | Some m => Some (str_eqb (toLowerCase (group_s 1 m)) value)
  | None => None
  end.

Definition parseVideoAttrs (attrs : jsstr) : VideoAttrs :=
  let width :=
    match exec (bareAttrRe (U "width:")) attrs with
    | Some m => trim (group_s 1 m)
    | None => []
    end in
  let align :=
    match exec (wordAttrRe (U "align:")) attrs with
    | Some m => toLowerCase (group_s 1 m)
    | None => U "center"
    end in
  let autoplay :=
    match flagIs (U "autoplay:") (U "true") attrs with
    | Some b => b | None => false end in
  let controls :=
    match flagIs (U "controls:") (U "false") attrs with
    | Some b => negb b | None => true end in
  let loop :=
    match flagIs (U "loop:") (U "true") attrs with
    | Some b => b | None => false end in
  let muted :=
    match flagIs (U "muted:") (U "true") attrs with
    | Some b => b | None => false end in
  mkVideoAttrs width align autoplay controls loop muted
    (parseCaption videoKeys attrs).

Definition nonEmpty (s : jsstr) : bool :=
  match s with [] => false | _ => true end.

Definition buildVideoAttrs (url : jsstr) (a : VideoAttrs) : jsstr :=
  attr (U "data-video-url") (escapeQuot url) ++
  U " " ++ attr (U "data-video-align") (v_align a) ++
  (if nonEmpty (v_width a)
   then U " " ++ attr (U "data-video-width") (v_width a) else []) ++
  (if v_autoplay a then U " " ++ attr (U "data-video-autoplay") (U "true")
   else []) ++
  (if negb (v_controls a)
   then U " " ++ attr (U "data-video-controls") (U "false") else []) ++
  (if v_loop a then U " " ++ attr (U "data-video-loop") (U "true") else []) ++
  (if v_muted a then U " " ++ attr (U "data-video-muted") (U "true")
   else []) ++
  (if nonEmpty (v_caption a)
   then U " " ++ attr (U "data-video-caption") (escapeQuot (v_caption a))
   else []).

(** [[^}]*] and [[^}]+] of the block headers *)
Definition not_brace : N -> bool := none_of [125].

(** [/:::video\{([^}]{0,})\}\r?\n([\s\S]*?)\r?\n:::/g] *)
Definition videoRe1 : regex :=
  seqs [lit (U ":::video{"); Grp 1 (star (Chr not_brace)); Chr (is_c 125);
        newline; Grp 2 lazy_any; newline; fence3].

(** [/:::video\{([^}]{0,})\}([^\n]+?):::/g] *)
Definition videoRe2 : regex :=
  seqs [lit (U ":::video{"); Grp 1 (star (Chr not_brace)); Chr (is_c 125);
        Grp 2 (lazy_plus (Chr (none_of [10]))); fence3].

Definition videoReplacer (m : rmatch) : jsstr :=
  match trim (group_s 2 m) with
  | [] => m_text m
  | cleanUrl =>
      U "<div " ++ buildVideoAttrs cleanUrl (parseVideoAttrs (group_s 1 m)) ++
      U " " ++ attr (U "class") (U "video-block") ++ U "></div>"
  end.

(** *** Alerts *)

Definition validTypes : list jsstr :=
  [U "info"; U "success"; U "warning"; U "error"].

Definition str_in (s : jsstr) (l : list jsstr) : bool := existsb (str_eqb s) l.

Record AlertAttrs : Type := mkAlertAttrs {
  normalizedType : jsstr;
  title : jsstr
}.

Definition parseAlertAttrs (attrs : jsstr) : AlertAttrs :=
  let type :=
    match exec (wordAttrRe (U "type:")) attrs with
    | Some m => toLowerCase (group_s 1 m)
    | None => U "info"
    end in
  mkAlertAttrs
    (if str_in type validTypes then type else U "info")
    (match exec (bareAttrRe (U "title:")) attrs with
     | Some m => trim (group_s 1 m)
     | None => []
     end).

Definition buildAlertHtml (type title content : jsstr) : jsstr :=
  let titleAttr :=
    if nonEmpty title
    then U " " ++ attr (U "data-alert-title") (escapeQuot title) else [] in
  nl ++ U "<div " ++ attr (U "data-alert-type") type ++ titleAttr ++ U " " ++
  attr (U "class") (U "alert-block alert-" ++ type) ++ U ">" ++ nl ++ nl ++
  content ++ nl ++ nl ++ U "</div>" ++ nl.

(** [/:::alert\{([^}]{0,})\}\r?\n([\s\S]*?)\r?\n:::/g] *)
Definition alertRe1 : regex :=
  seqs [lit (U ":::alert{"); Grp 1 (star (Chr not_brace)); Chr (is_c 125);
        newline; Grp 2 lazy_any; newline; fence3].

(** [/:::alert\{([^}]{0,})\}([^\n]+?):::/g] *)
Definition alertRe2 : regex :=
  seqs [lit (U ":::alert{"); Grp 1 (star (Chr not_brace)); Chr (is_c 125);
        Grp 2 (lazy_plus (Chr (none_of [10]))); fence3].

Definition alertReplacer (m : rmatch) : jsstr :=
  let a := parseAlertAttrs (group_s 1 m) in
  match trim (group_s 2 m) with
  | [] => m_text m
  | cleanContent => buildAlertHtml (normalizedType a) (title a) cleanContent
  end.

(** *** Inline extensions *)

(** [/==([^=]+)==/g] *)
Definition highlightRe : regex :=
  seqs [lit (U "=="); Grp 1 (plus (Chr (none_of [61]))); lit (U "==")].

(** [/\^([^^]+)\^/g] *)
Definition supRe : regex :=
  seqs [Chr (is_c 94); Grp 1 (plus (Chr (none_of [94]))); Chr (is_c 94)].

(** [/(?<!~)~([^~\n]+)~(?!~)/g] *)
Definition subRe : regex :=
  seqs [PrevNot (is_c tilde); Chr (is_c tilde);
        Grp 1 (plus (Chr (none_of [tilde; 10]))); Chr (is_c tilde);
        NextNot (is_c tilde)].

(** [/!\[([^\]]{0,})\]\(([^)]+)\)\s*\{([^}]+)\}/g] *)
Definition imageRe : regex :=
  seqs [lit (U "!["); Grp 1 (star (Chr (none_of [93]))); lit (U "](");
        Grp 2 (plus (Chr (none_of [41]))); Chr (is_c 41); star ws;
        Chr (is_c 123); Grp 3 (plus (Chr not_brace)); Chr (is_c 125)].

Definition imageReplacer (m : rmatch) : jsstr :=
  let alt := group_s 1 m in
  let url := group_s 2 m in
  let attrs := group_s 3 m in
  let caption := parseCaption [U "align"; U "width"] attrs in
  let align :=
    match exec (wordAttrRe (U "align:")) attrs with
    | Some am => toLowerCase (group_s 1 am)
    | None => U "center"
    end in
  let width :=
    match exec (bareAttrRe (U "width:")) attrs with
    | Some wm => trim (group_s 1 wm)
    | None => []
    end in
  U "<img " ++ attr (U "src") url ++ U " " ++
  attr (U "alt") (escapeQuot alt) ++ U " " ++
  attr (U "data-image-align") align ++
  (if nonEmpty width then U " " ++ attr (U "data-image-width") width
   else []) ++
  (if nonEmpty caption
   then U " " ++ attr (U "data-image-caption") (escapeQuot caption)
   else []) ++
  U " />".

(** [/\[([^\]]+)\]\(([^)]+?)\s+\x22([^\x22]+)\x22\)/g] *)
Definition titledLinkRe : regex :=
  seqs [Chr (is_c 91); Grp 1 (plus (Chr (none_of [93]))); lit (U "](");
        Grp 2 (lazy_plus (Chr (none_of [41]))); plus ws; Chr (is_c 34);
        Grp 3 (plus (Chr (none_of [34]))); Chr (is_c 34); Chr (is_c 41)].

Definition titledLinkReplacer (m : rmatch) : jsstr :=
  U "<a " ++ attr (U "href") (group_s 2 m) ++ U " " ++
  attr (U "data-link-title") (escapeApos (escapeQuot (group_s 3 m))) ++
  U ">" ++ group_s 1 m ++ U "</a>".

(** [/\[([^\]]+)\]\(([^)]+)\)\s*\{([^}]+)\}/g] *)
Definition iconLinkRe : regex :=
  seqs [Chr (is_c 91); Grp 1 (plus (Chr (none_of [93]))); lit (U "](");
        Grp 2 (plus (Chr (none_of [41]))); Chr (is_c 41); star ws;
        Chr (is_c 123); Grp 3 (plus (Chr not_brace)); Chr (is_c 125)].

(** ['<a href=\x22$2\x22 data-icon=\x22$3\x22>$1</a>'] *)
Definition iconLinkTemplate : jsstr :=
  U "<a " ++ attr (U "href") (U "$2") ++ U " " ++
  attr (U "data-icon") (U "$3") ++ U ">$1</a>".

(** *** Chat blocks *)

(** [/:::chat\s*\r?\n([\s\S]*?)\r?\n:::/g] *)
Definition chatRe1 : regex :=
  seqs [lit (U ":::chat"); star ws; newline; Grp 1 lazy_any; newline; fence3].

(** [/:::chat\s*\r?\n([\s\S]*?):::/g] *)
Definition chatRe2 : regex :=
  seqs [lit (U ":::chat"); star ws; newline; Grp 1 lazy_any; fence3].

Definition chatDiv (encodedContent : jsstr) : jsstr :=
  U "<div " ++ attr (U "data-chat") (U "true") ++ U " " ++
  attr (U "data-chat-content") encodedContent ++ U "></div>".

Definition chatReplacer1 (m : rmatch) : option jsstr :=
  match trim (group_s 1 m) with
  | [] => Some (m_text m)
  | trimmedContent => e <- encodeURIComponent trimmedContent ;; Some (chatDiv e)
  end.

Definition chatReplacer2 (m : rmatch) : option jsstr :=
  if includes (m_text m) (attr (U "data-chat") (U "true")) then Some (m_text m)
  else
    match trim (replace_first (seqs [fence3; star ws; Eol]) (fun _ => [])
                  (group_s 1 m)) with
    | [] => Some (m_text m)
    | cleanContent => e <- encodeURIComponent cleanContent ;; Some (chatDiv e)
    end.

(** *** Tabs and timelines *)

(** The loop [for (let i = 1; i < parts.length; i += 2)] over the
    result of a [split] with one capture: the pairs
    [(parts[i], parts[i+1] || '')]. *)
Fixpoint pairs_of (parts : list jsstr) : list (jsstr * jsstr) :=
  match parts with
  | h :: c :: tl => (h, c) :: pairs_of tl
  | [h] => [(h, [])]
  | [] => []
  end.

Definition partsLoop (parts : list jsstr) : list (jsstr * jsstr) :=
  pairs_of (tl parts).

(** [/@tab\s+([^\n\r]+)\r?\n/] and [/@item\s+([^\n\r]+)\r?\n/] *)
Definition markerLineRe (kw : jsstr) : regex :=
  seqs [lit kw; plus ws; Grp 1 (plus (Chr (none_of [10; 13]))); newline].

(** [/:::tabs\s*\r?\n([\s\S]*?):::/g] *)
Definition tabsRe : regex :=
  seqs [lit (U ":::tabs"); star ws; newline; Grp 1 lazy_any; fence3].

Fixpoint concat_opt (l : list (option jsstr)) : option jsstr :=
  match l with
  | [] => Some []
  | x :: l' => a <- x ;; b <- concat_opt l' ;; Some (a ++ b)
  end.

Definition tabsReplacer (codeBlocks : list jsstr) (m : rmatch)
    : option jsstr :=
  let parts := split_re (markerLineRe (U "@tab")) 1 (group_s 1 m) in
  body <- concat_opt
    (map (fun '(lbl, c) =>
            let label := trim lbl in
            let tabContent := restore c codeBlocks in
            e <- encodeURIComponent tabContent ;;
            Some (U "<div " ++ attr (U "data-tab-label") (escapeQuot label) ++
                  U " " ++ attr (U "data-tab-content") e ++ U "></div>" ++ nl))
         (partsLoop parts)) ;;
  Some (U "<div " ++ attr (U "data-tabs") (U "true") ++ U ">" ++ nl ++
        body ++ U "</div>").

(** [/:::timeline\s*\r?\n([\s\S]*?):::/g] *)
Definition timelineRe : regex :=
  seqs [lit (U ":::timeline"); star ws; newline; Grp 1 lazy_any; fence3].

(** [/^\d{4}[-/]\d{1,2}[-/]\d{1,2}/] *)
Definition fullDateRe : regex :=
  seqs [Bol; between 4 4 (Chr is_digit); Chr (fun c => (c =? 45) || (c =? 47));
        between 1 2 (Chr is_digit); Chr (fun c => (c =? 45) || (c =? 47));
        between 1 2 (Chr is_digit)].

(** [/^\d{4}/] *)
Definition yearRe : regex := seqs [Bol; between 4 4 (Chr is_digit)].

(** The date and the title of an [@item] header. *)
Definition parseItemHeader (header : jsstr) : jsstr * jsstr :=
  if includes header [124] then
    match map trim (split_chr 124 [] header) with
    | datePart :: titlePart :: _ => (datePart, titlePart)
    | [datePart] => (datePart, [])
    | [] => ([], [])
    end
  else if test fullDateRe header || test yearRe header then (header, [])
  else ([], header).

Definition timelineReplacer (codeBlocks : list jsstr) (m : rmatch)
    : option jsstr :=
  let parts := split_re (markerLineRe (U "@item")) 1 (group_s 1 m) in
  body <- concat_opt
    (map (fun '(hd, c) =>
            let '(date, title) := parseItemHeader (trim hd) in
            let itemContent := restore c codeBlocks in
            e <- encodeURIComponent itemContent ;;
            Some (U "<div " ++
                  attr (U "data-timeline-date") (escapeQuot date) ++ U " " ++
                  attr (U "data-timeline-title") (escapeQuot title) ++ U " " ++
                  attr (U "data-timeline-content") e ++ U "></div>" ++ nl))
         (partsLoop parts)) ;;
  Some (U "<div " ++ attr (U "data-timeline") (U "true") ++ U ">" ++ nl ++
        body ++ U "</div>").

(** *** Link cards *)

(** [/:::link-card\{([^}]+)\}\s*\r?\n?([\s\S]*?):::/g] *)
Definition linkCardRe : regex :=
  seqs [lit (U ":::link-card{"); Grp 1 (plus (Chr not_brace)); Chr (is_c 125);
        star ws; crlf_opt; opt (Chr (is_c 10)); Grp 2 lazy_any; fence3].

(** [/key:\s*['\x22]?([^,'\x22]+)['\x22]?/i] *)
Definition quotedAttrRe (key : jsstr) : regex :=
  seqs [lit_i key; star ws; opt (Chr Chat.quote);
        Grp 1 (plus (Chr Chat.value_chr)); opt (Chr Chat.quote)].

(** The value of [key] in a link-card attribute list, the empty string
    when the key does not match. *)
Definition cardAttr (key attrs : jsstr) : jsstr :=
  match exec (quotedAttrRe key) attrs with
  | Some m => trim (group_s 1 m)
  | None => []
  end.

Definition linkCardReplacer (m : rmatch) : option jsstr :=
  let attrs := group_s 1 m in
  let content := group_s 2 m in
  let url := cardAttr (U "url:") attrs in
  let title := cardAttr (U "title:") attrs in
  let description := cardAttr (U "description:") attrs in
  let image := cardAttr (U "image:") attrs in
  match url with
  | [] => Some (m_text m)
  | _ =>
      let finalTitle := if nonEmpty title then title else trim content in
      eu <- encodeURIComponent url ;;
      et <- encodeURIComponent finalTitle ;;
      ed <- encodeURIComponent description ;;
      ei <- encodeURIComponent image ;;
      Some (U "<div " ++ attr (U "data-link-card") (U "true") ++ U " " ++
            attr (U "data-link-url") eu ++ U " " ++
            attr (U "data-link-title") et ++ U " " ++
            attr (U "data-link-description") ed ++ U " " ++
            attr (U "data-link-image") ei ++ U "></div>")
  end.

(** *** The whole transform *)

(** [processContent]; [None] when an exception leaves the function. *)
Definition processContent (text : jsstr) : option jsstr :=
  match trim text with
  | [] => Some text
  | _ =>
      let r0 := fixNestedLists text in
      let '(r1, codeBlocks) := protect r0 in
      let r2 := replace_all chartRe chartReplacer r1 in
      let r3 := replace_all videoRe1 videoReplacer r2 in
      let r4 := replace_all videoRe2 videoReplacer r3 in
      let r5 := replace_all alertRe1 alertReplacer r4 in
      let r6 := replace_all alertRe2 alertReplacer r5 in
      let r7 := replace_all_tpl highlightRe 1 (U "<mark>$1</mark>") r6 in
      let r8 := replace_all_tpl supRe 1 (U "<sup>$1</sup>") r7 in
      let r9 := replace_all_tpl subRe 1 (U "<sub>$1</sub>") r8 in
      let r10 := replace_all imageRe imageReplacer r9 in
      let r11 := replace_all titledLinkRe titledLinkReplacer r10 in
      let r12 := replace_all_tpl iconLinkRe 3 iconLinkTemplate r11 in
      r13 <- replace_all_opt chatRe1 chatReplacer1 r12 ;;
      r14 <- replace_all_opt chatRe2 chatReplacer2 r13 ;;
      r15 <- replace_all_opt tabsRe (tabsReplacer codeBlocks) r14 ;;
      r16 <- replace_all_opt linkCardRe linkCardReplacer r15 ;;
      r17 <- replace_all_opt chatRe1 chatReplacer1 r16 ;;
      r18 <- replace_all_opt chatRe2 chatReplacer2 r17 ;;
      r19 <- replace_all_opt timelineRe (timelineReplacer codeBlocks) r18 ;;
      Some (restore r19 codeBlocks)
  end.

(** ** MarkdownRenderer: the video branch of the [div] handler *)

Module Dispatch.

(** The properties of a node: attribute names and values. *)
Definition Props := list (jsstr * jsstr).

Fixpoint getProp (k : jsstr) (ps : Props) : option jsstr :=
  match ps with
  | [] => None
  | (k', v) :: ps' => if str_eqb k k' then Some v else getProp k ps'
  end.

(** [a || b] on values that are strings or [undefined]. *)
Definition orElse (a b : option jsstr) : option jsstr :=
  match a with
  | Some (_ :: _) => a
  | _ => b
  end.

Definition orDefault (a : option jsstr) (d : jsstr) : jsstr :=
  match a with
  | Some ((_ :: _) as v) => v
  | _ => d
  end.

(** [x === 'lit'] *)
Definition is_lit (a : option jsstr) (l : jsstr) : bool :=
  match a with Some v => str_eqb v l | None => false end.

Record VideoElement : Type := mkVideo {
  src : jsstr;
  controls : bool;
  autoPlay : bool;
  loop : bool;
  muted : bool;
  className : jsstr;
  style_width : option jsstr;
  preload : jsstr
}.

Inductive Rendered : Type :=
| Video (v : VideoElement)
| Figure (figClass : jsstr) (figWidth : option jsstr) (v : VideoElement)
         (figcaption : jsstr).

Section Handler.
(** [!isNaN(Number(width))], a built-in of the language. *)
Variable isNumeric : jsstr -> bool.

Definition widthStyle (width : jsstr) : option jsstr :=
  match width with
  | [] => None
  | _ =>
      if includes width (U "%") then Some width
      else if includes width (U "px") then Some width
      else if isNumeric width then Some (width ++ U "%")
      else Some width
  end.

(** The video branch: [None] when the node carries no video URL and the
    handler goes on to its other branches. *)
Definition videoBranch (nodeProps props : Props) : option Rendered :=
  let get k := orElse (getProp k nodeProps) (getProp k props) in
  match get (U "data-video-url") with
  | Some ((_ :: _) as videoUrl) =>
      let align := orDefault (get (U "data-video-align")) (U "center") in
      let width := orDefault (get (U "data-video-width")) [] in
      let flag k :=
        is_lit (getProp k nodeProps) (U "true")
        || is_lit (getProp k props) (U "true") in
      let autoplay := flag (U "data-video-autoplay") in
      let controls :=
        negb (is_lit (getProp (U "data-video-controls") nodeProps) (U "false"))
        && negb (is_lit (getProp (U "data-video-controls") props) (U "false")) in
      let loop := flag (U "data-video-loop") in
      let muted := flag (U "data-video-muted") in
      let caption := orDefault (get (U "data-video-caption")) [] in
      let alignClass :=
        if str_eqb align (U "left") then U "ml-0 mr-auto"
        else if str_eqb align (U "right") then U "ml-auto mr-0"
        else U "mx-auto" in
      let videoElement :=
        mkVideo videoUrl controls autoplay loop muted
          (U "block my-8 rounded-lg shadow-lg " ++ alignClass)
          (widthStyle width)
          (if autoplay then U "auto" else U "metadata") in
      match caption with
      | [] => Some (Video videoElement)
      | _ =>
          Some (Figure (U "my-8 " ++ alignClass) (widthStyle width)
                  videoElement caption)
      end
  | _ => None
  end.
End Handler.

End Dispatch.

(** ** Notions used to state the properties *)

(** [key] occurs in [s], letter case ignored. *)
Fixpoint starts_ci (key s : jsstr) : bool :=
  match key with
  | [] => true
  | k :: key' =>
      match s with
      | c :: s' => is_ci k c && starts_ci key' s'
      | [] => false
      end
  end.

Fixpoint includes_ci (s key : jsstr) : bool :=
  starts_ci key s ||
  match s with
  | [] => false
  | _ :: s' => includes_ci s' key
  end.

Fixpoint takeWhile (p : N -> bool) (s : jsstr) : jsstr :=
  match s with
  | [] => []
  | c :: s' => if p c then c :: takeWhile p s' else []
  end.

(** A line of the shape [<indent><digits>.<space>]: its number and its
    indentation, as the specification words it. *)
Definition list_item (line : jsstr) : option ListEntry :=
  let ind := takeWhile is_space line in
  let ds := takeWhile is_digit (dropWhile is_space line) in
  match ds, dropWhile is_digit (dropWhile is_space line) with
  | _ :: _, dot :: sp :: _ =>
      if (dot =? 46) && is_space sp
      then Some (mkEntry (toNumber (parseInt ds)) (length ind))
      else None
  | _, _ => None
  end.

(** A line that opens or closes a fence: three backticks or three tildes
    at its start. *)
Definition is_fence_line (line : jsstr) : bool :=
  startsWith line (U "```") || startsWith line (U "~~~").

(** A string of the shape [___CODE_BLOCK_<digits>___...]: the digits and
    what follows the token. *)
Definition placeholder_at (s : jsstr) : option (jsstr * jsstr) :=
  match strip_prefix marker s with
  | Some t =>
      match takeWhile is_digit t with
      | [] => None
      | ds =>
          match strip_prefix (U "___") (dropWhile is_digit t) with
          | Some post => Some (ds, post)
          | None => None
          end
      end
  | None => None
  end.

(** ** The inputs of the examples *)

(** A fenced shell snippet that prints the process id. *)
Definition shell_block : jsstr :=
  U "```" ++ nl ++ U "echo $$" ++ nl ++ U "```".

(** A block fenced with tildes that contains highlight syntax. *)
Definition tilde_block : jsstr :=
  U "~~~" ++ nl ++ U "==x==" ++ nl ++ U "~~~".

Definition nested_list_source : jsstr :=
  U "1. a" ++ nl ++ U "2. b" ++ nl ++ U "    1. c" ++ nl ++
  U "    2. d" ++ nl ++ U "3. e".




Definition blank_name_chat : jsstr := U "@person name: ,x" ++ nl ++ U "hi".

(** ** Notions used in the statements and in the proofs *)

(** [moved st k st']: the matcher went from [st] to [st'] over the
    text [k]. *)
Definition moved (st : mstate) (k : jsstr) (st' : mstate) : Prop :=
  rest st = k ++ rest st' /\ before st' = rev k ++ before st.

(** What [match_at] returns for the result [st] of the matcher. *)
Definition match_of (bef s : jsstr) (st : mstate) : rmatch :=
  RMatch bef (firstn (length s - length (rest st)) s) (caps st) (rest st).

Definition adv_by (k t : jsstr) (st : mstate) : mstate :=
  MState (rev k ++ before st) t (caps st).

(** The head of the remaining input does not belong to the class. *)
Definition stops (p : N -> bool) (t : jsstr) : Prop :=
  match t with [] => True | c :: _ => p c = false end.

(** [hd_is r st x]: [x] is the result that the backtracking matcher
    returns for [r] at [st]. *)
Definition hd_is (r : regex) (st x : mstate) : Prop :=
  exists l, mt r st = x :: l.

(** The text that a literal under the [i] flag matches at the head of
    [s], and what follows it. *)
Fixpoint strip_ci (key s : jsstr) : option (jsstr * jsstr) :=
  match key with
  | [] => Some ([], s)
  | x :: key' =>
      match s with
      | c :: s' =>
          if is_ci x c then
            match strip_ci key' s' with
            | Some (k, t) => Some (c :: k, t)
            | None => None
            end
          else None
      | [] => None
      end
  end.






Definition steve_chat : jsstr :=
  U "@person name:A" ++ nl ++ U "hi" ++ nl ++
  U "@person name:Steve, avatar:minecraft" ++ nl ++ U "yo".

(** The entry of a line, as a list with at most one element. *)
Definition item_of (line : jsstr) : list ListEntry :=
  match list_item line with Some e => [e] | None => [] end.

(** The run of fence characters at the start of a fence line. *)
Definition fence_of (line : jsstr) : jsstr :=
  match line with
  | c :: _ => takeWhile (is_c c) line
  | [] => []
  end.

(** A document with a fenced block between two numbered lines. *)
Definition fenced_list_source : jsstr :=
  U "1. a" ++ nl ++ U "```" ++ nl ++ U "7. not an item" ++ nl ++ U "```" ++
  nl ++ U "2. b".

(** [needs Q r]: the text of every match of [r] satisfies [Q]. *)
Definition needs (Q : jsstr -> Prop) (r : regex) : Prop :=
  forall st x k, In x (mt r st) -> moved st k x -> Q k.

(** [Q] holds of a text as soon as it holds of a part of it. *)
Definition mono (Q : jsstr -> Prop) : Prop :=
  forall a k b, Q k -> Q (a ++ k ++ b).

Definition has (L : jsstr) (k : jsstr) : Prop := includes k L = true.

Definition no_match (r : regex) (s : jsstr) : Prop :=
  forall bef suf, rev bef ++ suf = s -> match_at r bef suf = None.

Fixpoint no_grp (r : regex) : bool :=
  match r with
  | Seq a b | Alt a b => no_grp a && no_grp b
  | Rep _ _ _ a => no_grp a
  | Grp _ _ => false
  | _ => true
  end.

(** A line that does not begin with white space. *)
Definition unindented (line : jsstr) : bool :=
  match line with
  | c :: _ => negb (is_space c)
  | [] => true
  end.

(** The texts that start an extension, a code region or a placeholder. *)
Definition triggers : list jsstr :=
  [[backtick]; [tilde]; U "^"; U "["; U "=="; U ":::"; marker].

(** A document without triggers and without indented lines. *)
Definition inert (x : jsstr) : bool :=
  forallb (fun L => negb (includes x L)) triggers &&
  forallb unindented (split_nl x).


(** The units of which a placeholder is made. *)
Definition ph_chr (c : N) : bool := is_digit c || existsb (N.eqb c) marker.

Definition ph_text (ds : jsstr) : jsstr := marker ++ ds ++ U "___".

(** [Dec cbs s out]: the restoring pass turns [s] into [out]. *)
Inductive Dec (cbs : list jsstr) : jsstr -> jsstr -> Prop :=
| Dec_nil : Dec cbs [] []
| Dec_hit s ds post out :
    placeholder_at s = Some (ds, post) -> Dec cbs post out ->
    Dec cbs s (nth (N.to_nat (parseInt ds)) cbs (U "undefined") ++ out)
| Dec_miss c s out :
    placeholder_at (c :: s) = None -> Dec cbs s out ->
    Dec cbs (c :: s) (c :: out).

(** [Masked cbs s out]: [s] is made of placeholders for spans of [cbs]
    and of other units, no placeholder marker begins at one of these
    other units, and [out] is [s] with the spans put back. *)
Inductive Masked (cbs : list jsstr) : jsstr -> jsstr -> Prop :=
| Masked_nil : Masked cbs [] []
| Masked_hit s ds post out :
    placeholder_at s = Some (ds, post) ->
    (N.to_nat (parseInt ds) < length cbs)%nat ->
    Masked cbs post out ->
    Masked cbs s (nth (N.to_nat (parseInt ds)) cbs (U "undefined") ++ out)
| Masked_miss c s out :
    startsWith (c :: s) marker = false -> Masked cbs s out ->
    Masked cbs (c :: s) (c :: out).

Definition placeholder_text : jsstr := U "___CODE_BLOCK_0___".

Definition code_sample : jsstr :=
  U "a `x` b" ++ nl ++ U "```" ++ nl ++ U "==c==" ++ nl ++ U "```" ++ nl ++
  U "snake_case `y`".

(* ================================================================== *)
(** ** The rest of the components

    What follows embeds the code around the functions above: the
    built-in [decodeURIComponent] that undoes the encoding of
    [processContent], the whole [div] handler of [MarkdownRenderer],
    the tab list and the [div] handler of [Tabs.tsx], and the text that
    [CodeBlock.tsx] shows. *)

(** ** [decodeURIComponent] *)

(** The value of a hexadecimal digit. *)
Definition hex_val (c : N) : option N :=
  if is_digit c then Some (c - 48)
  else if (65 <=? c) && (c <=? 70) then Some (c - 55)
  else if (97 <=? c) && (c <=? 102) then Some (c - 87)
  else None.

(** The octet written by two hexadecimal digits. *)
Definition hex_byte (h l : N) : option N :=
  hi <- hex_val h ;; lo <- hex_val l ;; Some (16 * hi + lo).

(** A continuation octet: a percent sign, two hexadecimal digits and a
    value whose two most significant bits are 10. *)
Definition cont_byte (p h l : N) : option N :=
  if p =? 37 then
    b <- hex_byte h l ;;
    if b / 64 =? 2 then Some (b - 128) else None
  else None.

(** The code units of a code point. *)
Definition utf16 (v : N) : jsstr :=
  if v <? 65536 then [v]
  else [55296 + (v - 65536) / 1024; 56320 + (v - 65536) mod 1024].

(** The code points that two, three and four octets may encode: no
    overlong form, no surrogate, nothing above U+10FFFF. *)
Definition valid2 (v : N) : bool := 128 <=? v.
Definition valid3 (v : N) : bool :=
  (2048 <=? v) && negb ((55296 <=? v) && (v <=? 57343)).
Definition valid4 (v : N) : bool := (65536 <=? v) && (v <=? 1114111).

Definition checked (ok : bool) (v : N) : option jsstr :=
  if ok then Some (utf16 v) else None.

(** [None] is the [URIError] thrown at a malformed escape sequence. *)
Fixpoint decodeURIComponent (s : jsstr) : option jsstr :=
  match s with
  | [] => Some []
  | c :: s1 =>
      if negb (c =? 37) then
        t <- decodeURIComponent s1 ;; Some (c :: t)
      else
        match s1 with
        | h :: l :: s2 =>
            b <- hex_byte h l ;;
            if b <? 128 then
              t <- decodeURIComponent s2 ;; Some (b :: t)
            else if b <? 192 then None
            else if b <? 224 then
              match s2 with
              | p1 :: h1 :: l1 :: s3 =>
                  b1 <- cont_byte p1 h1 l1 ;;
                  let v := (b - 192) * 64 + b1 in
                  u <- checked (valid2 v) v ;;
                  t <- decodeURIComponent s3 ;; Some (u ++ t)
              | _ => None
              end
            else if b <? 240 then
              match s2 with
              | p1 :: h1 :: l1 :: p2 :: h2 :: l2 :: s3 =>
                  b1 <- cont_byte p1 h1 l1 ;;
                  b2 <- cont_byte p2 h2 l2 ;;
                  let v := (b - 224) * 4096 + b1 * 64 + b2 in
                  u <- checked (valid3 v) v ;;
                  t <- decodeURIComponent s3 ;; Some (u ++ t)
              | _ => None
              end
            else if b <? 248 then
              match s2 with
              | p1 :: h1 :: l1 :: p2 :: h2 :: l2 :: p3 :: h3 :: l3 :: s3 =>
                  b1 <- cont_byte p1 h1 l1 ;;
                  b2 <- cont_byte p2 h2 l2 ;;
                  b3 <- cont_byte p3 h3 l3 ;;
                  let v := (b - 240) * 262144 + b1 * 4096 + b2 * 64 + b3 in
                  u <- checked (valid4 v) v ;;
                  t <- decodeURIComponent s3 ;; Some (u ++ t)
              | _ => None
              end
            else None
        | _ => None
        end
  end.

(** A string of the language: every unit is a 16-bit value. *)
Definition units (s : jsstr) : bool := forallb (fun c => c <? 65536) s.

(** ** MarkdownRenderer: the [div] handler *)

Module Div.
Import Dispatch.

(** A class name is a string or an array of strings. *)
Inductive ClassName : Type :=
| ClassStr (s : jsstr)
| ClassArr (l : list jsstr).

(** What the handler receives: the properties of the node with its
    class name apart, the [className] property and the other
    properties of the element. *)
Record Args : Type := mkArgs {
  nodeProps : Props;
  nodeClass : option ClassName;
  className : option ClassName;
  props : Props
}.

(** [/alert-(\w+)/] *)
Definition alertClassRe : regex :=
  seqs [lit (U "alert-"); Grp 1 (plus (Chr is_word))].

(** The type that a class string names: the word after the first
    [alert-], [info] when it is not one of the four types. *)
Definition classAlertType (classStr : jsstr) : jsstr :=
  let type :=
    match exec alertClassRe classStr with
    | Some m => group_s 1 m
    | None => U "info"
    end in
  if str_in type validTypes then type else U "info".

(** [Array.isArray(c) ? c.join(' ') : (c || '')] *)
Definition classText (c : option ClassName) : jsstr :=
  match c with
  | Some (ClassArr l) => join (U " ") l
  | Some (ClassStr s) => s
  | None => []
  end.

(** A class name that is not [undefined] and not the empty string. *)
Definition classGiven (c : option ClassName) : bool :=
  match c with
  | Some (ClassArr _) => true
  | Some (ClassStr (_ :: _)) => true
  | _ => false
  end.

Section Handler.
(** Built-ins of the language: [!isNaN(Number(s))] and [JSON.parse]
    ([None] when it throws). *)
Variable isNumeric : jsstr -> bool.
Variable Json : Type.
Variable jsonParse : jsstr -> option Json.

Inductive Element : Type :=
| Null
| ChartNotJson                       (* Chart data must be valid JSON *)
| ChartUnknown (chartType : jsstr)   (* Unknown chart type: ... *)
| ChartError                         (* Error rendering chart *)
| ECharts (option : Json)
| Alert (type : jsstr) (title : option jsstr)
| VideoBlock (v : Rendered)
| TabsBlock
| TimelineBlock
| ChatBlock (content : jsstr)
| LinkCard (url : jsstr) (title description image : option jsstr)
           (body : jsstr)
| PlainDiv.

(** [s || undefined] *)
Definition given (s : jsstr) : option jsstr :=
  match s with [] => None | _ => Some s end.

Definition chartBranch (chartType : jsstr) (a : Args) : Element :=
  let get k := orElse (getProp k (nodeProps a)) (getProp k (props a)) in
  match get (U "data-chart-data") with
  | Some ((_ :: _) as dataStr) =>
      match decodeURIComponent dataStr with
      | Some decodedData =>
          match jsonParse decodedData with
          | Some data =>
              if str_eqb chartType (U "echarts") then ECharts data
              else ChartUnknown chartType
          | None => ChartNotJson
          end
      | None => ChartError
      end
  | _ => Null
  end.

Definition chatBranch (a : Args) : Element :=
  let get k := orElse (getProp k (nodeProps a)) (getProp k (props a)) in
  match orDefault (get (U "data-chat-content")) [] with
  | [] => Null
  | chatContent =>
      match decodeURIComponent chatContent with
      | Some decodedContent => ChatBlock decodedContent
      | None => Null
      end
  end.

Definition linkCardBranch (a : Args) : Element :=
  let get k := orElse (getProp k (nodeProps a)) (getProp k (props a)) in
  let url := orDefault (get (U "data-link-url")) [] in
  let title := orDefault (get (U "data-link-title")) [] in
  let description := orDefault (get (U "data-link-description")) [] in
  let image := orDefault (get (U "data-link-image")) [] in
  match
    decodedUrl <- decodeURIComponent url ;;
    decodedTitle <- decodeURIComponent title ;;
    decodedDescription <- decodeURIComponent description ;;
    decodedImage <- decodeURIComponent image ;;
    Some (LinkCard decodedUrl (given decodedTitle)
            (given decodedDescription) (given decodedImage) decodedTitle)
  with
  | Some e => e
  | None => Null
  end.

(** The handler of [div] elements. *)
Definition div (a : Args) : Element :=
  let get k := orElse (getProp k (nodeProps a)) (getProp k (props a)) in
  let flag k :=
    is_lit (getProp k (nodeProps a)) (U "true")
    || is_lit (getProp k (props a)) (U "true") in
  match get (U "data-chart-type") with
  | Some ((_ :: _) as chartType) => chartBranch chartType a
  | _ =>
  match get (U "data-alert-type") with
  | Some ((_ :: _) as alertType) =>
      Alert (if str_in alertType validTypes then alertType else U "info")
        (get (U "data-alert-title"))
  | _ =>
  if includes (classText (className a)) (U "alert-block") then
    Alert (classAlertType (classText (className a))) None
  else if classGiven (nodeClass a)
          && includes (classText (nodeClass a)) (U "alert-block") then
    Alert (classAlertType (classText (nodeClass a))) None
  else
  match videoBranch isNumeric (nodeProps a) (props a) with
  | Some v => VideoBlock v
  | None =>
  if flag (U "data-tabs") then TabsBlock
  else if flag (U "data-timeline") then TimelineBlock
  else if flag (U "data-chat") then chatBranch a
  else if flag (U "data-link-card") then linkCardBranch a
  else PlainDiv
  end
  end
  end.
End Handler.

End Div.

(** ** Tabs.tsx *)

Module TabsPanel.
Import Dispatch.

Section Panel.
(** The children of an element, which the component hands on as they
    are. *)
Variable Node : Type.

(** A child of the panel: an element with its properties and children,
    or something that is not an element (a string, a number). *)
Inductive Child : Type :=
| Elem (ps : Props) (children : Node)
| Leaf.

Inductive Content : Type :=
| Decoded (text : jsstr)
| Original (children : Node).

Record Tab : Type := mkTab { label : jsstr; content : Content }.

Definition tabOf (ps : Props) (children : Node) : Tab :=
  mkTab (orDefault (getProp (U "data-tab-label") ps) (U "Tab"))
    match getProp (U "data-tab-content") ps with
    | Some ((_ :: _) as dataContent) =>
        match decodeURIComponent dataContent with
        | Some text => Decoded text
        | None => Original children
        end
    | _ => Original children
    end.

(** The tabs of the panel: one for each child that is an element. *)
Fixpoint tabs (children : list Child) : list Tab :=
  match children with
  | [] => []
  | Elem ps ch :: rest => tabOf ps ch :: tabs rest
  | Leaf :: rest => tabs rest
  end.
End Panel.

(** *** The [div] handler inside a tab *)

Record VideoElement : Type := mkVideo {
  src : jsstr;
  controls : bool;
  autoPlay : bool;
  loop : bool;
  muted : bool;
  className : jsstr;
  style_width : option jsstr
}.

Inductive Rendered : Type :=
| Video (v : VideoElement)
| Figure (figClass : jsstr) (figWidth : option jsstr) (v : VideoElement)
         (figcaption : jsstr).

Section Handler.
Variable isNumeric : jsstr -> bool.
Variable Json : Type.
Variable jsonParse : jsstr -> option Json.

Inductive Element : Type :=
| Null
| ChartNotJson
| ECharts (option : Json)
| Alert (type : jsstr) (title : option jsstr)
| VideoBlock (v : Rendered)
| PlainDiv.

Definition widthStyle (width : jsstr) : option jsstr :=
  match width with
  | [] => None
  | _ =>
      if includes width (U "%") || includes width (U "px") then Some width
      else if isNumeric width then Some (width ++ U "%")
      else Some width
  end.

Definition videoBranch (nodeProps props : Props) : option Rendered :=
  let get k := orElse (getProp k nodeProps) (getProp k props) in
  match get (U "data-video-url") with
  | Some ((_ :: _) as videoUrl) =>
      let align := orDefault (get (U "data-video-align")) (U "center") in
      let width := orDefault (get (U "data-video-width")) [] in
      let flag k :=
        is_lit (getProp k nodeProps) (U "true")
        || is_lit (getProp k props) (U "true") in
      let autoplay := flag (U "data-video-autoplay") in
      let controls :=
        negb (is_lit (getProp (U "data-video-controls") nodeProps) (U "false"))
        && negb (is_lit (getProp (U "data-video-controls") props) (U "false")) in
      let loop := flag (U "data-video-loop") in
      let muted := flag (U "data-video-muted") in
      let caption := orDefault (get (U "data-video-caption")) [] in
      let alignClass :=
        if str_eqb align (U "left") then U "ml-0 mr-auto"
        else if str_eqb align (U "right") then U "ml-auto mr-0"
        else U "mx-auto" in
      let videoElement :=
        mkVideo videoUrl controls autoplay loop muted
          (U "block my-8 rounded-lg shadow-lg " ++ alignClass)
          (widthStyle width) in
      match caption with
      | [] => Some (Video videoElement)
      | _ =>
          Some (Figure (U "my-8 " ++ alignClass) (widthStyle width)
                  videoElement caption)
      end
  | _ => None
  end.

(** The rest of the handler, after the chart branch. *)
Definition afterChart (a : Div.Args) : Element :=
  let get k :=
    orElse (getProp k (Div.nodeProps a)) (getProp k (Div.props a)) in
  match get (U "data-alert-type") with
  | Some ((_ :: _) as alertType) =>
      Alert (if str_in alertType validTypes then alertType else U "info")
        (get (U "data-alert-title"))
  | _ =>
  if includes (Div.classText (Div.className a)) (U "alert-block") then
    Alert (Div.classAlertType (Div.classText (Div.className a))) None
  else if Div.classGiven (Div.nodeClass a)
          && includes (Div.classText (Div.nodeClass a)) (U "alert-block")
  then
    Alert (Div.classAlertType (Div.classText (Div.nodeClass a))) None
  else
  match videoBranch (Div.nodeProps a) (Div.props a) with
  | Some v => VideoBlock v
  | None => PlainDiv
  end
  end.

(** The handler of [div] elements inside a tab.  A chart of a type
    other than [echarts] goes on to the other branches. *)
Definition div (a : Div.Args) : Element :=
  let get k :=
    orElse (getProp k (Div.nodeProps a)) (getProp k (Div.props a)) in
  match get (U "data-chart-type") with
  | Some ((_ :: _) as chartType) =>
      match get (U "data-chart-data") with
      | Some ((_ :: _) as dataStr) =>
          match decodeURIComponent dataStr with
          | Some decodedData =>
              match jsonParse decodedData with
              | Some data =>
                  if str_eqb chartType (U "echarts") then ECharts data
                  else afterChart a
              | None => ChartNotJson
              end
          | None => Null
          end
      | _ => Null
      end
  | _ => afterChart a
  end.
End Handler.

End TabsPanel.

(** ** CodeBlock.tsx *)

(** [String(children).replace(/\n$/, '')]: the text that the block
    shows. *)
Definition finalNewlineRe : regex := Seq (Chr (is_c 10)) Eol.

Definition shownCode (code : jsstr) : jsstr :=
  replace_first finalNewlineRe (fun _ => []) code.

(** ** Notions used in the statements about the rest of the code *)

(** The units of an encoded string: unreserved characters and the
    percent sign. *)
Definition uri_char (c : N) : bool := uri_unreserved c || (c =? 37).

(** A text with a pair of surrogates, outside the Basic Multilingual
    Plane. *)
Definition emoji_text : jsstr := [20320; 32; 55357; 56832; 97].

(** Every unit of every capture satisfies [P]. *)
Definition caps_all (P : N -> Prop) (cs : list (nat * jsstr)) : Prop :=
  Forall (fun kv => Forall P (snd kv)) cs.

Arguments Div.Null {Json}.
Arguments Div.ChartNotJson {Json}.
Arguments Div.ChartUnknown {Json} chartType.
Arguments Div.ChartError {Json}.
Arguments Div.ECharts {Json} option.
Arguments Div.Alert {Json} type title.
Arguments Div.VideoBlock {Json} v.
Arguments Div.TabsBlock {Json}.
Arguments Div.TimelineBlock {Json}.
Arguments Div.ChatBlock {Json} content.
Arguments Div.LinkCard {Json} url title description image body.
Arguments Div.PlainDiv {Json}.
Arguments Div.div isNumeric {Json} jsonParse a.
Arguments TabsPanel.Null {Json}.
Arguments TabsPanel.ChartNotJson {Json}.
Arguments TabsPanel.ECharts {Json} option.
Arguments TabsPanel.Alert {Json} type title.
Arguments TabsPanel.VideoBlock {Json} v.
Arguments TabsPanel.PlainDiv {Json}.
Arguments TabsPanel.div isNumeric {Json} jsonParse a.
Arguments TabsPanel.Elem {Node} ps children.
Arguments TabsPanel.Leaf {Node}.
Arguments TabsPanel.Decoded {Node} text.
Arguments TabsPanel.Original {Node} children.
Arguments TabsPanel.tabOf {Node} ps children.
Arguments TabsPanel.tabs {Node} children.
Arguments TabsPanel.label {Node} t.
Arguments TabsPanel.content {Node} t.

(** The properties of the elements that [processContent] writes for a
    chat block, a link card and a tab. *)
Definition chatProps (e : jsstr) : Dispatch.Props :=
  [(U "data-chat", U "true"); (U "data-chat-content", e)].



(** An element without class names that carries the properties [ps]. *)
Definition plainArgs (ps : Dispatch.Props) : Div.Args :=
  Div.mkArgs [] None None ps.

(** Neither the node nor the element has a non-empty property [k]. *)
Definition unset (k : jsstr) (a : Div.Args) : Prop :=
  Dispatch.orElse (Dispatch.getProp k (Div.nodeProps a))
    (Dispatch.getProp k (Div.props a)) = None \/
  Dispatch.orElse (Dispatch.getProp k (Div.nodeProps a))
    (Dispatch.getProp k (Div.props a)) = Some [].

(** What the handler inside a tab makes of an element of the main
    handler: alerts and videos are kept, the video without its
    [preload] property; the other blocks are plain [div]s. *)
Definition inTabVideo (v : Dispatch.VideoElement) : TabsPanel.VideoElement :=
  TabsPanel.mkVideo (Dispatch.src v) (Dispatch.controls v)
    (Dispatch.autoPlay v) (Dispatch.loop v) (Dispatch.muted v)
    (Dispatch.className v) (Dispatch.style_width v).

Definition inTab {Json : Type} (e : Div.Element Json)
    : TabsPanel.Element Json :=
  match e with
  | Div.Alert type title => TabsPanel.Alert type title
  | Div.VideoBlock (Dispatch.Video v) =>
      TabsPanel.VideoBlock (TabsPanel.Video (inTabVideo v))
  | Div.VideoBlock (Dispatch.Figure c w v caption) =>
      TabsPanel.VideoBlock (TabsPanel.Figure c w (inTabVideo v) caption)
  | _ => TabsPanel.PlainDiv
  end.

(** A chat block and the match of its pattern. *)
Definition chat_block : jsstr :=
  U ":::chat" ++ nl ++ U "@person name:A" ++ nl ++ U "hi" ++ nl ++ U ":::".

Definition first_match (r : regex) (s : jsstr) : rmatch :=
  match exec r s with
  | Some m => m
  | None => RMatch [] [] [] []
  end.


(** What holds of every message of a chat: its content is not empty
    and has no white space around it, and its avatar is not the word
    [minecraft]. *)
Definition message_ok (m : Chat.ChatMessage) : Prop :=
  Chat.content m <> [] /\
  trim (Chat.content m) = Chat.content m /\
  forall a, Chat.avatar (Chat.person m) = Some a ->
    str_eqb (toLowerCase a) (U "minecraft") = false.

Definition person_ok (p : Chat.Person) : Prop :=
  forall a, Chat.avatar p = Some a ->
    str_eqb (toLowerCase a) (U "minecraft") = false.

Definition state_ok (st : Chat.LoopState) : Prop :=
  Forall message_ok (Chat.messages st) /\
  match Chat.currentPerson st with Some p => person_ok p | None => True end.

(** The lines of a chat that declare a person. *)
Definition personLines (lines : list jsstr) : list jsstr :=
  filter (fun l => test Chat.personRe l) lines.

(** The messages of a state of the loop, the one in the making
    counted. *)
Definition pending (st : Chat.LoopState) : nat :=
  (length (Chat.messages st) +
   match Chat.currentPerson st with Some _ => 1 | None => 0 end)%nat.

Definition two_person_chat : jsstr :=
  U "intro" ++ nl ++ U "@person name:A" ++ nl ++ nl ++
  U "@person name:B" ++ nl ++ U "yo".

(** A tilde that may open a subscript: the unit before it is not a
    tilde and the unit after it exists and is not a tilde. *)
Fixpoint lone_tilde (prev : N) (s : jsstr) : bool :=
  match s with
  | [] => false
  | c :: t =>
      match t with
      | d :: _ =>
          (c =? tilde) && negb (prev =? tilde) && negb (d =? tilde)
      | [] => false
      end || lone_tilde c t
  end.

(** No tilde in a text. *)
Definition tilde_free (s : jsstr) : bool := forallb (fun c => negb (c =? tilde)) s.

(** The unit in front of the current position, 0 at the start. *)
Definition prev_unit (bef : jsstr) : N :=
  match bef with b :: _ => b | [] => 0 end.

Definition strike_sample : jsstr := U "a ~~gone~~ b".

(** The first four units of a header are digits. *)
Definition four_digits (header : jsstr) : bool :=
  match header with
  | a :: b :: c :: d :: _ => is_digit a && is_digit b && is_digit c && is_digit d
  | _ => false
  end.

(** No vertical bar in a text. *)
Definition bar_free (s : jsstr) : bool := forallb (fun c => negb (c =? 124)) s.

(** The containers without any tab and without any item. *)
Definition emptyTabs : jsstr :=
  U "<div " ++ attr (U "data-tabs") (U "true") ++ U ">" ++ nl ++ U "</div>".

Definition emptyTimeline : jsstr :=
  U "<div " ++ attr (U "data-timeline") (U "true") ++ U ">" ++ nl ++
  U "</div>".

Definition tabs_without_marker : jsstr :=
  U ":::tabs" ++ nl ++ U "some text" ++ nl ++ U ":::".

(** The indentation of a line, and the indentations that the
    nested-list pass leaves: 0, 1, 4 and 7 or more. *)
Definition indent_of (line : jsstr) : nat := length (takeWhile is_space line).

Definition settled (n : nat) : Prop := (n <= 1 \/ n = 4 \/ 7 <= n)%nat.

(** The lines without their leading white space, the empty ones
    left out. *)
Definition visible (lines : list jsstr) : list jsstr :=
  filter nonEmpty (map trimStart lines).

Definition nl_free (s : jsstr) : bool := forallb (fun c => negb (c =? 10)) s.

Definition loose_list : jsstr :=
  U "1. a" ++ nl ++ U "  1. b" ++ nl ++ U "      2. c".

(** A unit that is not a surrogate, and a text without surrogates. *)
Definition not_surrogate (c : N) : Prop :=
  c < 55296 \/ (57343 < c /\ c < 65536).

Definition plain (s : jsstr) : Prop := Forall not_surrogate s.

Definition plainb (s : jsstr) : bool :=
  forallb (fun c => (c <? 55296) || ((57343 <? c) && (c <? 65536))) s.

(** A chat block whose text is half a surrogate pair. *)
Definition broken_chat : jsstr :=
  U ":::chat" ++ nl ++ [55357] ++ nl ++ U ":::".

(** A match in a text without surrogates. *)
Definition plain_match (m : rmatch) : Prop :=
  plain (m_pre m) /\ plain (m_text m) /\ plain (m_post m) /\
  caps_all not_surrogate (m_caps m).

(** The properties of the element that the chart replacer writes. *)
Definition chartDiv (e : jsstr) : jsstr :=
  U "<div " ++ attr (U "data-chart-type") (U "echarts") ++ U " " ++
  attr (U "data-chart-data") e ++ U "></div>".



(** A pattern whose matches depend neither on what precedes the
    position nor on the captures. *)
Fixpoint blind (r : regex) : bool :=
  match r with
  | Eps | Chr _ | Eol | NextNot _ => true
  | Seq a b | Alt a b => blind a && blind b
  | Rep _ _ _ a => blind a
  | _ => false
  end.

(** Two states at the same place of the same remaining input. *)
Definition same_rest (x y : mstate) : Prop := rest x = rest y.

(** The line that the nested-list pass writes for a line, and whether
    it writes an empty line in front of it. *)
Definition reindent (line : jsstr) : jsstr :=
  match exec listLineRe line with
  | Some lm =>
      let n := length (group_s 1 lm) in
      if Nat.leb 2 n && Nat.leb n 4 then spaces 4 ++ group_s 2 lm
      else if Nat.leb 5 n && Nat.leb n 6 then spaces 7 ++ group_s 2 lm
      else line
  | None => line
  end.

Definition needsBlank (first : bool) (prev line : jsstr) : bool :=
  match exec listLineRe line, exec listLineRe prev with
  | Some lm, Some pm =>
      Nat.ltb 0 (length (group_s 1 lm))
      && Nat.ltb (length (group_s 1 pm)) (length (group_s 1 lm))
      && negb first
      && negb (str_eqb (trim prev) [])
  | _, _ => false
  end.

(** The indentation that the pass gives to an item indented by [n]. *)
Definition settle (n : nat) : nat :=
  if Nat.leb 2 n && Nat.leb n 4 then 4
  else if Nat.leb 5 n && Nat.leb n 6 then 7
  else n.

(** The part of the list-item pattern behind the indentation:
    [\d+\.\s+.{0,}] *)
Definition itemBodyRe : regex :=
  seqs [plus (Chr is_digit); Chr (is_c 46); plus ws; star (Chr is_dot)].

(** The line ending of Windows, and lines without line endings. *)
Definition crlf : jsstr := [13; 10].

Definition eol_free (l : jsstr) : bool :=
  forallb (fun c => negb (c =? 10) && negb (c =? 13)) l.

(** [/\r?\n/] *)
Definition lineEndRe : regex := Seq (opt (Chr (is_c 13))) (Chr (is_c 10)).

Definition steve_lines : list jsstr :=
  [U "@person name:Steve, avatar:minecraft"; U "hi  "; U "there"].

(** Every match of [r] starts with the unit [c]. *)
Definition starts_with_unit (r : regex) (c : N) : Prop :=
  forall bef s m, match_at r bef s = Some m -> exists t, s = c :: t.

(** The unit [c] does not occur in a text. *)
Definition free_of (c : N) (s : jsstr) : bool :=
  forallb (fun x => negb (x =? c)) s.

Definition marks_sample : jsstr := U "a ==b $1== c".

(** The numbers of the list items among the lines. *)
Definition itemNumbers (lines : list jsstr) : list Number :=
  map number (flat_map item_of lines).









(** The texts with which the blocks other than link cards open. *)
Definition block_openers : list jsstr :=
  [U ":::chart"; U ":::video{"; U ":::alert{"; U ":::chat"; U ":::tabs";
   U ":::timeline"].

(** A text without the syntax of an extension other than a link card:
    no tilde, no caret, no [==], no opening of another block, and no
    link or image that is followed by a brace or has a quoted title (no
    [](] at all, or neither a brace nor a double quote). *)
Definition calm (x : jsstr) : bool :=
  forallb (fun L => negb (includes x L))
    ([[tilde]; U "^"; U "=="] ++ block_openers) &&
  (negb (includes x (U "](")) ||
   (negb (includes x (U "{")) && negb (includes x dq))).




(** A block on lines of its own: the opening line, the body and the
    closing line. *)
Definition block (opener body : jsstr) : jsstr :=
  opener ++ nl ++ body ++ nl ++ U ":::".






(** Blocks with a code span that holds a percent sign, and a chart
    with two tildes. *)
Definition chat_with_code : jsstr :=
  block (U ":::chat")
    (U "@person name:A" ++ nl ++ U "sale " ++
     [backtick] ++ U "100%" ++ [backtick]).


Definition chart_with_tildes : jsstr :=
  block (U ":::chart")
    (U "{" ++ dq ++ U "a" ++ dq ++ U ":" ++ dq ++ U "~1" ++ dq ++ U "," ++
     dq ++ U "b" ++ dq ++ U ":" ++ dq ++ U "~2" ++ dq ++ U "}").


(** The lines that the nested-list pass makes of the lines of a text:
    every line as [reindent] writes it, with an empty line in front of a
    list item that is indented more than the list item before it. *)
Definition blankBefore (prev line : jsstr) : bool :=
  test listLineRe prev && test listLineRe line &&
  Nat.ltb (indent_of prev) (indent_of line).

Fixpoint relined (prev : jsstr) (lines : list jsstr) : list jsstr :=
  match lines with
  | [] => []
  | l :: ls =>
      (if blankBefore prev l then [[]] else []) ++ reindent l :: relined l ls
  end.

(** * Properties *)

(** ** C1: code regions and the transform *)

(** C1 (the code departs from the claim).  The text of a fenced code
    block does not always come out of [processContent] unchanged: the
    block of [shell_block] loses one of its two dollar signs, because
    the nested-list pass puts the block back with a replacement string
    in which [$$] stands for one dollar; and the block of [tilde_block],
    which the list pass and the list scan treat as a code fence, is not
    protected from the highlight rewrite. *)
Theorem C1_code_block_corrupted :
  processContent shell_block =
    Some (U "```" ++ nl ++ U "echo $" ++ nl ++ U "```") /\
  processContent shell_block <> Some shell_block /\
  processContent tilde_block =
    Some (U "~~~" ++ nl ++ U "<mark>x</mark>" ++ nl ++ U "~~~").
Proof.
  split; [ vm_compute; reflexivity | split ].
  - vm_compute. discriminate.
  - vm_compute. reflexivity.
Qed.

(** ** C10: the messages of [parseChatContent] *)

(** C10 (the code departs from the claim).  For the body of
    [blank_name_chat] the name pattern captures a single blank, which
    [trim] empties: the message that is returned has an empty person
    name, neither a parsed name nor the default 'Unknown'. *)
Theorem C10_empty_person_name :
  Chat.parseChatContent blank_name_chat =
    Some [Chat.mkMessage (Chat.mkPerson [] None) (U "hi")].
Proof. vm_compute. reflexivity. Qed.

(* ================================================================== *)
(** * The matcher: general facts *)

Lemma moved_refl st : moved st [] st.
Proof. split; reflexivity. Qed.

Lemma moved_trans st1 st2 st3 k1 k2 :
  moved st1 k1 st2 -> moved st2 k2 st3 -> moved st1 (k1 ++ k2) st3.
Proof.
  intros [H1 H2] [H3 H4]. split.
  - rewrite H1, H3, app_assoc. reflexivity.
  - rewrite H4, H2, rev_app_distr, app_assoc. reflexivity.
Qed.

Lemma strip_prefix_app p s t : strip_prefix p s = Some t -> s = p ++ t.
Proof.
  revert s; induction p as [|x p IH]; intros s H; simpl in *.
  - congruence.
  - destruct s as [|y s]; [discriminate|].
    destruct (N.eqb_spec x y); [|discriminate].
    subst. f_equal. apply IH, H.
Qed.

Lemma strip_prefix_refl p t : strip_prefix p (p ++ t) = Some t.
Proof.
  induction p as [|x p IH]; simpl; [reflexivity|].
  rewrite N.eqb_refl. exact IH.
Qed.

Lemma moved_length st k st' :
  moved st k st' -> length (rest st) = (length k + length (rest st'))%nat.
Proof. intros [H _]. rewrite H, length_app. reflexivity. Qed.

Lemma moved_consumed st k st' : moved st k st' -> consumed st st' = k.
Proof.
  intros H. unfold consumed. rewrite (moved_length _ _ _ H).
  destruct H as [H _]. rewrite H.
  replace (length k + length (rest st') - length (rest st'))%nat
    with (length k + 0)%nat by lia.
  rewrite firstn_app_2. simpl. apply app_nil_r.
Qed.

Lemma moved_setcap i st0 st k st' :
  moved st k st' -> moved st k (setcap i st0 st').
Proof. intros [H1 H2]. split; simpl; assumption. Qed.

Section RepeatFacts.
Variable m : mstate -> list mstate.
Hypothesis m_moved :
  forall st st', In st' (m st) -> exists k, moved st k st'.

Lemma rep_moved g fuel : forall mn mx st st',
  In st' (rep m g mn mx fuel st) -> exists k, moved st k st'.
Proof.
  induction fuel as [|f IH]; intros mn mx st st' Hin; simpl in Hin.
  - contradiction.
  - destruct mn as [|mn'].
    + destruct (is_zero_max mx).
      * destruct Hin as [<-|[]]. exists []. apply moved_refl.
      * assert (Hmore :
          In st' (flat_map
            (fun st1 =>
               if Nat.ltb (length (rest st1)) (length (rest st))
               then rep m g 0 (pred_max mx) f st1 else []) (m st))
          -> exists k, moved st k st').
        { intros H. apply in_flat_map in H. destruct H as [st1 [H1 H2]].
          destruct (Nat.ltb _ _); [|contradiction].
          destruct (m_moved _ _ H1) as [k1 Hk1].
          destruct (IH _ _ _ _ H2) as [k2 Hk2].
          exists (k1 ++ k2). eapply moved_trans; eassumption. }
        destruct g.
        -- apply in_app_or in Hin. destruct Hin as [H|[<-|[]]].
           ++ apply Hmore, H.
           ++ exists []. apply moved_refl.
        -- destruct Hin as [<-|H].
           ++ exists []. apply moved_refl.
           ++ apply Hmore, H.
    + apply in_flat_map in Hin. destruct Hin as [st1 [H1 H2]].
      destruct (m_moved _ _ H1) as [k1 Hk1].
      destruct (IH _ _ _ _ H2) as [k2 Hk2].
      exists (k1 ++ k2). eapply moved_trans; eassumption.
Qed.
End RepeatFacts.

(** Every result of the matcher is a later position of the same input. *)
Lemma mt_moved r : forall st st',
  In st' (mt r st) -> exists k, moved st k st'.
Proof.
  induction r; intros st st' Hin; cbn [mt] in Hin.
  - destruct Hin as [<-|[]]. exists []. apply moved_refl.
  - destruct (rest st) as [|c t] eqn:E; [contradiction|].
    destruct (p c); [|contradiction]. destruct Hin as [<-|[]].
    exists [c]. split; simpl; [exact E|reflexivity].
  - apply in_flat_map in Hin. destruct Hin as [st1 [H1 H2]].
    destruct (IHr1 _ _ H1) as [k1 Hk1]. destruct (IHr2 _ _ H2) as [k2 Hk2].
    exists (k1 ++ k2). eapply moved_trans; eassumption.
  - apply in_app_or in Hin. destruct Hin; eauto.
  - eapply rep_moved; [|exact Hin]. exact IHr.
  - apply in_map_iff in Hin. destruct Hin as [st1 [<- H1]].
    destruct (IHr _ _ H1) as [k Hk]. exists k. apply moved_setcap, Hk.
  - destruct (getcap i (caps st)) as [v|].
    + destruct (strip_prefix v (rest st)) as [t|] eqn:E; [|contradiction].
      destruct Hin as [<-|[]]. exists v. split; simpl; [|reflexivity].
      apply strip_prefix_app, E.
    + destruct Hin as [<-|[]]. exists []. apply moved_refl.
  - destruct (before st); [|contradiction]. destruct Hin as [<-|[]].
    exists []. apply moved_refl.
  - destruct (rest st); [|contradiction]. destruct Hin as [<-|[]].
    exists []. apply moved_refl.
  - destruct (before st) as [|c ?].
    + destruct Hin as [<-|[]]. exists []. apply moved_refl.
    + destruct (p c); [contradiction|]. destruct Hin as [<-|[]].
      exists []. apply moved_refl.
  - destruct (rest st) as [|c ?].
    + destruct Hin as [<-|[]]. exists []. apply moved_refl.
    + destruct (p c); [contradiction|]. destruct Hin as [<-|[]].
      exists []. apply moved_refl.
Qed.

(** ** The fuel of the repetition is never exhausted *)

Lemma flat_map_eq_in {A B : Type} (f g : A -> list B) (l : list A) :
  (forall x, In x l -> f x = g x) -> flat_map f l = flat_map g l.
Proof.
  induction l as [|a l IH]; intros H; simpl; [reflexivity|].
  rewrite (H a (or_introl eq_refl)), IH; [reflexivity|].
  intros x Hx. apply H. right. exact Hx.
Qed.

Section RepeatFuel.
Variable m : mstate -> list mstate.
Hypothesis m_moved :
  forall st st', In st' (m st) -> exists k, moved st k st'.

(** With more fuel than the minimum plus the remaining input the
    result does not depend on the fuel: [mt] never cuts a repetition
    short. *)
Lemma rep_fuel g : forall fuel1 fuel2 mn mx st,
  (mn + length (rest st) < fuel1)%nat ->
  (mn + length (rest st) < fuel2)%nat ->
  rep m g mn mx fuel1 st = rep m g mn mx fuel2 st.
Proof.
  induction fuel1 as [|f1 IH]; intros fuel2 mn mx st H1 H2; [lia|].
  destruct fuel2 as [|f2]; [lia|]. cbn [rep].
  destruct mn as [|mn'].
  - destruct (is_zero_max mx); [reflexivity|].
    assert (E : flat_map
        (fun st' => if Nat.ltb (length (rest st')) (length (rest st))
                    then rep m g 0 (pred_max mx) f1 st' else []) (m st) =
      flat_map
        (fun st' => if Nat.ltb (length (rest st')) (length (rest st))
                    then rep m g 0 (pred_max mx) f2 st' else []) (m st)).
    { apply flat_map_eq_in. intros x Hx.
      destruct (Nat.ltb (length (rest x)) (length (rest st))) eqn:El;
        [|reflexivity].
      apply Nat.ltb_lt in El. apply IH; simpl in *; lia. }
    rewrite E. reflexivity.
  - apply flat_map_eq_in. intros x Hx.
    destruct (m_moved _ _ Hx) as [k Hk]. apply moved_length in Hk.
    apply IH; simpl in *; lia.
Qed.
End RepeatFuel.

Lemma mt_rep_fuel g mn mx a st extra :
  mt (Rep g mn mx a) st =
  rep (mt a) g mn mx (S (mn + length (rest st)) + extra) st.
Proof.
  cbn [mt]. apply rep_fuel; [apply mt_moved|lia|lia].
Qed.

(** ** Matches *)

Lemma match_at_inv r bef s m :
  match_at r bef s = Some m ->
  exists st k, In st (mt r (MState bef s [])) /\
    moved (MState bef s []) k st /\
    m = RMatch bef k (caps st) (rest st).
Proof.
  unfold match_at. intros H.
  destruct (mt r (MState bef s [])) as [|st l] eqn:E; [discriminate|].
  injection H as <-.
  assert (Hin : In st (mt r (MState bef s []))) by (rewrite E; left; reflexivity).
  destruct (mt_moved _ _ _ Hin) as [k Hk].
  exists st, k. split; [rewrite <- E; exact Hin|]. split; [exact Hk|].
  f_equal. pose proof (moved_consumed _ _ _ Hk) as Hc.
  unfold consumed in Hc. simpl in Hc. exact Hc.
Qed.

Lemma match_at_split r bef s m :
  match_at r bef s = Some m -> s = m_text m ++ m_post m /\ m_pre m = bef.
Proof.
  intros H. destruct (match_at_inv _ _ _ _ H) as [st [k [_ [[Hk _] ->]]]].
  simpl in *. split; [exact Hk|reflexivity].
Qed.

Lemma match_at_none r bef s :
  mt r (MState bef s []) = [] -> match_at r bef s = None.
Proof. unfold match_at. intros ->. reflexivity. Qed.

Lemma match_at_head r bef s st l :
  mt r (MState bef s []) = st :: l ->
  match_at r bef s = Some (match_of bef s st).
Proof. unfold match_at. intros ->. reflexivity. Qed.

Section ReplaceFacts.
Context {St : Type}.
Variable r : regex.
Variable f : St -> rmatch -> option (jsstr * St).

Lemma replace_loop_skip : forall k bef s st,
  replace_loop r f (length k) bef (k ++ s) st =
  replace_loop r f 0 (rev k ++ bef) s st.
Proof.
  induction k as [|c k IH]; intros bef s st.
  - reflexivity.
  - simpl. rewrite IH, <- app_assoc. reflexivity.
Qed.

Lemma replace_loop_nil bef st :
  match_at r bef [] = None -> replace_loop r f 0 bef [] st = Some ([], st).
Proof. intros H. simpl. rewrite H. reflexivity. Qed.

Lemma replace_loop_miss bef c s st :
  match_at r bef (c :: s) = None ->
  replace_loop r f 0 bef (c :: s) st =
  ('(tl, st') <- replace_loop r f 0 (c :: bef) s st ;; Some (c :: tl, st')).
Proof. intros H. simpl. rewrite H. reflexivity. Qed.

(** After a non-empty match the loop goes on behind it. *)
Lemma replace_loop_hit bef s st m :
  match_at r bef s = Some m -> m_text m <> [] ->
  replace_loop r f 0 bef s st =
  ('(out, st1) <- f st m ;;
   '(tl, st2) <- replace_loop r f 0 (rev (m_text m) ++ bef) (m_post m) st1 ;;
   Some (out ++ tl, st2)).
Proof.
  intros H Hne. destruct (match_at_split _ _ _ _ H) as [Hs _].
  destruct (m_text m) as [|c t] eqn:Et; [contradiction|].
  subst s. simpl in H |- *. rewrite H.
  destruct (f st m) as [[out st1]|]; simpl; [|reflexivity].
  rewrite Et. rewrite replace_loop_skip.
  rewrite <- app_assoc. reflexivity.
Qed.

Lemma replace_loop_hit_empty bef c s st m :
  match_at r bef (c :: s) = Some m -> m_text m = [] ->
  replace_loop r f 0 bef (c :: s) st =
  ('(out, st1) <- f st m ;;
   '(tl, st2) <- replace_loop r f 0 (c :: bef) s st1 ;;
   Some (out ++ c :: tl, st2)).
Proof.
  intros H He. simpl. rewrite H.
  destruct (f st m) as [[out st1]|]; simpl; [|reflexivity].
  rewrite He. reflexivity.
Qed.

(** A replacer that returns every match as it is leaves the string
    and the state as they are. *)
Lemma replace_loop_id : forall n s bef st,
  (length s <= n)%nat ->
  (forall b1 s1 m st1, rev b1 ++ s1 = rev bef ++ s ->
     match_at r b1 s1 = Some m -> f st1 m = Some (m_text m, st1)) ->
  replace_loop r f 0 bef s st = Some (s, st).
Proof.
  induction n as [|n IH]; intros s bef st Hlen Hf.
  - destruct s; [|simpl in Hlen; lia]. simpl.
    destruct (match_at r bef []) as [m|] eqn:Em; [|reflexivity].
    rewrite (Hf bef [] m st eq_refl Em). simpl.
    destruct (match_at_split _ _ _ _ Em) as [Hs _].
    destruct (m_text m); [reflexivity|discriminate].
  - destruct s as [|c s].
    + simpl. destruct (match_at r bef []) as [m|] eqn:Em; [|reflexivity].
      rewrite (Hf bef [] m st eq_refl Em). simpl.
      destruct (match_at_split _ _ _ _ Em) as [Hs _].
      destruct (m_text m); [reflexivity|discriminate].
    + destruct (match_at r bef (c :: s)) as [m|] eqn:Em.
      * destruct (match_at_split _ _ _ _ Em) as [Hs _].
        destruct (m_text m) as [|c' t] eqn:Et.
        -- rewrite (replace_loop_hit_empty _ _ _ _ _ Em Et).
           rewrite (Hf bef (c :: s) m st eq_refl Em). simpl.
           rewrite IH; [rewrite Et; reflexivity|simpl in Hlen; lia|].
           intros b1 s1 m1 st1 E. apply Hf. rewrite E. simpl.
           rewrite <- app_assoc. reflexivity.
        -- rewrite (replace_loop_hit _ _ _ _ Em) by (rewrite Et; discriminate).
           rewrite (Hf bef (c :: s) m st eq_refl Em). simpl.
           rewrite IH.
           ++ simpl. rewrite Hs, Et. reflexivity.
           ++ apply (f_equal (@length N)) in Hs.
              rewrite length_app in Hs. simpl in Hs, Hlen. lia.
           ++ intros b1 s1 m1 st1 E. apply Hf. rewrite E.
              rewrite rev_app_distr, rev_involutive, <- app_assoc, Et, <- Hs.
              reflexivity.
      * rewrite (replace_loop_miss _ _ _ _ Em).
        rewrite IH; [reflexivity|simpl in Hlen; lia|].
        intros b1 s1 m1 st1 E. apply Hf. rewrite E. simpl.
        rewrite <- app_assoc. reflexivity.
Qed.
End ReplaceFacts.

(** ** Repetition of a character class *)

Lemma adv_by_nil st : adv_by [] (rest st) st = st.
Proof. destruct st; reflexivity. Qed.

Lemma adv_by_adv_by k1 t1 k2 t2 st :
  adv_by k2 t2 (adv_by k1 t1 st) = adv_by (k1 ++ k2) t2 st.
Proof.
  unfold adv_by. simpl. rewrite rev_app_distr, app_assoc. reflexivity.
Qed.

Lemma mt_chr_hit p c t st :
  rest st = c :: t -> p c = true -> mt (Chr p) st = [adv_by [c] t st].
Proof. intros E H. simpl. rewrite E, H. reflexivity. Qed.

Lemma mt_chr_miss p c t st :
  rest st = c :: t -> p c = false -> mt (Chr p) st = [].
Proof. intros E H. simpl. rewrite E, H. reflexivity. Qed.

Lemma mt_chr_end p st : rest st = [] -> mt (Chr p) st = [].
Proof. intros E. simpl. rewrite E. reflexivity. Qed.

Lemma mt_chr_in p st st' :
  In st' (mt (Chr p) st) ->
  exists c, rest st = c :: rest st' /\ p c = true /\
            st' = adv_by [c] (rest st') st.
Proof.
  simpl. destruct (rest st) as [|c t] eqn:E; [contradiction|].
  destruct (p c) eqn:Hp; [|contradiction]. intros [<-|[]].
  exists c. repeat split; assumption || reflexivity.
Qed.

Section ClassRepeat.
Variable p : N -> bool.

(** Every result of a repeated class has passed over units of the
    class only, at least the minimum and at most the maximum. *)
Lemma rep_class_in g fuel : forall mn mx st st',
  In st' (rep (mt (Chr p)) g mn mx fuel st) ->
  exists k, rest st = k ++ rest st' /\ st' = adv_by k (rest st') st /\
    forallb p k = true /\ (mn <= length k)%nat /\
    (forall m, mx = Some m -> (length k <= Nat.max m mn)%nat).
Proof.
  induction fuel as [|f IH]; intros mn mx st st' Hin; simpl in Hin.
  - contradiction.
  - assert (Hzero : exists k, rest st = k ++ rest st /\
              st = adv_by k (rest st) st /\ forallb p k = true /\
              (0 <= length k)%nat /\
              (forall m, mx = Some m -> (length k <= Nat.max m 0)%nat)).
    { exists []. split; [reflexivity|]. split; [symmetry; apply adv_by_nil|].
      split; [reflexivity|]. split; [simpl; lia|]. intros; simpl; lia. }
    destruct mn as [|mn'].
    + destruct (is_zero_max mx) eqn:Ez.
      * destruct Hin as [<-|[]]. exact Hzero.
      * assert (Hmore :
          In st' (flat_map
            (fun st1 =>
               if Nat.ltb (length (rest st1)) (length (rest st))
               then rep (mt (Chr p)) g 0 (pred_max mx) f st1 else [])
            (mt (Chr p) st)) ->
          exists k, rest st = k ++ rest st' /\
            st' = adv_by k (rest st') st /\ forallb p k = true /\
            (0 <= length k)%nat /\
            (forall m, mx = Some m -> (length k <= Nat.max m 0)%nat)).
        { intros H. apply in_flat_map in H. destruct H as [st1 [H1 H2]].
          destruct (Nat.ltb _ _); [|contradiction].
          apply mt_chr_in in H1. destruct H1 as [c [E1 [Hc E2]]].
          apply IH in H2. destruct H2 as [k [E3 [E4 [Hk [_ Hmx]]]]].
          exists (c :: k). split; [rewrite E1, E3; reflexivity|].
          split; [rewrite E4, E2, adv_by_adv_by; reflexivity|].
          split; [simpl; rewrite Hc, Hk; reflexivity|].
          split; [lia|].
          intros m ->. simpl in Hmx. specialize (Hmx _ eq_refl).
          destruct m; [discriminate|]. simpl in *. lia. }
        destruct g.
        -- apply in_app_or in Hin. destruct Hin as [H|[<-|[]]];
             [apply Hmore, H|exact Hzero].
        -- destruct Hin as [<-|H]; [exact Hzero|apply Hmore, H].
    + apply in_flat_map in Hin. destruct Hin as [st1 [H1 H2]].
      apply mt_chr_in in H1. destruct H1 as [c [E1 [Hc E2]]].
      apply IH in H2. destruct H2 as [k [E3 [E4 [Hk [Hmn Hmx]]]]].
      exists (c :: k). split; [rewrite E1, E3; reflexivity|].
      split; [rewrite E4, E2, adv_by_adv_by; reflexivity|].
      split; [simpl; rewrite Hc, Hk; reflexivity|].
      split; [simpl; lia|].
      intros m ->. simpl in Hmx. specialize (Hmx _ eq_refl).
      simpl. lia.
Qed.

(** A greedy repetition first takes the whole run. *)
Lemma rep_class_greedy_head : forall run fuel mn mx tail st,
  rest st = run ++ tail -> forallb p run = true -> stops p tail ->
  (mn <= length run)%nat -> (length run < fuel)%nat ->
  (forall m, mx = Some m -> (length run <= m)%nat) ->
  exists l, rep (mt (Chr p)) true mn mx fuel st = adv_by run tail st :: l.
Proof.
  induction run as [|c run IH]; intros fuel mn mx tail st E Hp Hs Hmn Hf Hmx.
  - destruct fuel as [|f]; [simpl in Hf; lia|].
    destruct mn; [|simpl in Hmn; lia]. simpl in E. simpl.
    rewrite <- E, adv_by_nil.
    destruct (is_zero_max mx); [exists []; reflexivity|].
    assert (Hnone : mt (Chr p) st = []).
    { destruct tail as [|d tail].
      - apply mt_chr_end. exact E.
      - eapply mt_chr_miss; [exact E|exact Hs]. }
    cbn [mt] in Hnone. rewrite Hnone. simpl. exists []. reflexivity.
  - destruct fuel as [|f]; [simpl in Hf; lia|].
    simpl in Hp. apply andb_prop in Hp. destruct Hp as [Hc Hp].
    simpl in E.
    assert (Hone : mt (Chr p) st = [adv_by [c] (run ++ tail) st])
      by (eapply mt_chr_hit; eassumption).
    assert (Hmx' : forall m, pred_max mx = Some m -> (length run <= m)%nat).
    { intros m Hm. destruct mx as [m0|]; [|discriminate].
      injection Hm as <-. specialize (Hmx _ eq_refl). simpl in Hmx. lia. }
    cbn [rep]. destruct mn as [|mn'].
    + assert (Ez : is_zero_max mx = false).
      { destruct mx as [[|m0]|]; try reflexivity.
        specialize (Hmx _ eq_refl). simpl in Hmx. lia. }
      rewrite Ez. cbn [mt] in Hone. cbn [mt]. rewrite Hone. cbn [flat_map].
      simpl rest. rewrite E.
      replace (Nat.ltb (length (run ++ tail)) (length (c :: run ++ tail)))
        with true by (symmetry; apply Nat.ltb_lt; simpl; lia).
      destruct (IH f O (pred_max mx) tail (adv_by [c] (run ++ tail) st))
        as [l Hl]; try assumption; try reflexivity; simpl in *; try lia.
      cbn [mt] in Hl. rewrite Hl, adv_by_adv_by. simpl.
      eexists. reflexivity.
    + cbn [mt] in Hone. cbn [mt]. rewrite Hone. cbn [flat_map].
      destruct (IH f mn' (pred_max mx) tail (adv_by [c] (run ++ tail) st))
        as [l Hl]; try assumption; try reflexivity; simpl in *; try lia.
      cbn [mt] in Hl. rewrite Hl, adv_by_adv_by. simpl.
      eexists. reflexivity.
Qed.
End ClassRepeat.

(** ** Sequences, literals and groups *)

Lemma flat_map_single {A : Type} (l : list A) : flat_map (fun x => [x]) l = l.
Proof. induction l; simpl; congruence. Qed.

Lemma flat_map_nil {A B : Type} (f : A -> list B) (l : list A) :
  (forall x, In x l -> f x = []) -> flat_map f l = [].
Proof.
  induction l as [|a l IH]; intros H; simpl; [reflexivity|].
  rewrite (H a (or_introl eq_refl)), IH; [reflexivity|].
  intros x Hx. apply H. right. exact Hx.
Qed.

Lemma mt_seqs_cons a l st :
  mt (seqs (a :: l)) st = flat_map (mt (seqs l)) (mt a st).
Proof.
  destruct l as [|b l]; [|reflexivity].
  simpl seqs. change (mt Eps) with (fun x : mstate => [x]).
  symmetry. apply flat_map_single.
Qed.

Lemma hd_seq a b st x y :
  hd_is a st x -> hd_is b x y -> hd_is (Seq a b) st y.
Proof.
  intros [l Hl] [l' Hl']. unfold hd_is. cbn [mt]. rewrite Hl. simpl.
  rewrite Hl'. eexists. reflexivity.
Qed.

Lemma hd_seqs_cons a l st x y :
  hd_is a st x -> hd_is (seqs l) x y -> hd_is (seqs (a :: l)) st y.
Proof.
  intros [l1 Hl] [l' Hl']. unfold hd_is. rewrite mt_seqs_cons, Hl. simpl.
  rewrite Hl'. eexists. reflexivity.
Qed.

Lemma hd_seqs_nil st : hd_is (seqs []) st st.
Proof. exists []. reflexivity. Qed.

Lemma hd_grp i a st x : hd_is a st x -> hd_is (Grp i a) st (setcap i st x).
Proof.
  intros [l Hl]. unfold hd_is. cbn [mt]. rewrite Hl. eexists. reflexivity.
Qed.

Lemma mt_seqs_none a l st :
  (forall x, In x (mt a st) -> mt (seqs l) x = []) ->
  mt (seqs (a :: l)) st = [].
Proof. intros H. rewrite mt_seqs_cons. apply flat_map_nil, H. Qed.

Lemma mt_lit s : forall st,
  mt (lit s) st =
  match strip_prefix s (rest st) with
  | Some t => [adv_by s t st]
  | None => []
  end.
Proof.
  unfold lit. induction s as [|x s IH]; intros st.
  - simpl. rewrite adv_by_nil. reflexivity.
  - cbn [map]. rewrite mt_seqs_cons. cbn [strip_prefix].
    destruct (rest st) as [|c t] eqn:E.
    + rewrite (mt_chr_end _ _ E). reflexivity.
    + destruct (N.eqb_spec x c) as [->|Hne].
      * rewrite (mt_chr_hit _ _ _ _ E) by apply N.eqb_refl.
        cbn [flat_map]. rewrite IH. simpl rest.
        destruct (strip_prefix s t); [|reflexivity].
        rewrite adv_by_adv_by. reflexivity.
      * rewrite (mt_chr_miss _ _ _ _ E); [reflexivity|].
        unfold is_c. apply N.eqb_neq. congruence.
Qed.

Lemma mt_lit_i key : forall st,
  mt (lit_i key) st =
  match strip_ci key (rest st) with
  | Some (k, t) => [adv_by k t st]
  | None => []
  end.
Proof.
  unfold lit_i. induction key as [|x key IH]; intros st.
  - simpl. rewrite adv_by_nil. reflexivity.
  - cbn [map]. rewrite mt_seqs_cons. cbn [strip_ci].
    destruct (rest st) as [|c t] eqn:E.
    + rewrite (mt_chr_end _ _ E). reflexivity.
    + destruct (is_ci x c) eqn:Hc.
      * rewrite (mt_chr_hit _ _ _ _ E Hc).
        cbn [flat_map]. rewrite IH. simpl rest.
        destruct (strip_ci key t) as [[k t']|]; [|reflexivity].
        rewrite adv_by_adv_by. reflexivity.
      * rewrite (mt_chr_miss _ _ _ _ E Hc). reflexivity.
Qed.

Lemma strip_ci_starts key : forall s,
  starts_ci key s = match strip_ci key s with Some _ => true | None => false end.
Proof.
  induction key as [|x key IH]; intros s; simpl; [reflexivity|].
  destruct s as [|c s]; [reflexivity|].
  destruct (is_ci x c); [|reflexivity]. simpl. rewrite IH.
  destruct (strip_ci key s) as [[k t]|]; reflexivity.
Qed.




(** ** Searching *)

Lemma search_from_hit r bef s m :
  match_at r bef s = Some m -> search_from r bef s = Some m.
Proof. intros H. destruct s; cbn [search_from]; rewrite H; reflexivity. Qed.

Lemma search_from_none r : forall s bef,
  (forall b1 s1, rev b1 ++ s1 = rev bef ++ s -> match_at r b1 s1 = None) ->
  search_from r bef s = None.
Proof.
  induction s as [|c s IH]; intros bef H; cbn [search_from].
  - rewrite (H bef [] eq_refl). reflexivity.
  - rewrite (H bef (c :: s) eq_refl). apply IH.
    intros b1 s1 E. apply H. rewrite E. simpl. rewrite <- app_assoc.
    reflexivity.
Qed.

(** A pattern that begins with [^] matches at the start or nowhere. *)
Lemma exec_anchored l s :
  exec (seqs (Bol :: l)) s = match_at (seqs (Bol :: l)) [] s.
Proof.
  unfold exec.
  assert (Hlater : forall s' c bef, search_from (seqs (Bol :: l)) (c :: bef) s' = None).
  { induction s' as [|d s' IH]; intros c bef; cbn [search_from].
    - rewrite match_at_none; [reflexivity|]. rewrite mt_seqs_cons. reflexivity.
    - rewrite match_at_none; [apply IH|]. rewrite mt_seqs_cons. reflexivity. }
  destruct s as [|c s]; cbn [search_from].
  - destruct (match_at _ [] []); reflexivity.
  - destruct (match_at _ [] (c :: s)); [reflexivity|]. apply Hlater.
Qed.

(** A pattern that begins with a literal under the [i] flag does not
    match in a string without that literal. *)
Lemma search_without_key key l : forall s bef,
  includes_ci s key = false ->
  search_from (seqs (lit_i key :: l)) bef s = None.
Proof.
  assert (Hat : forall bef s, starts_ci key s = false ->
            match_at (seqs (lit_i key :: l)) bef s = None).
  { intros bef s H. apply match_at_none. rewrite mt_seqs_cons, mt_lit_i.
    simpl rest. rewrite strip_ci_starts in H.
    destruct (strip_ci key s); [discriminate|reflexivity]. }
  induction s as [|c s IH]; intros bef H; cbn [includes_ci] in H;
    apply orb_false_iff in H; destruct H as [H1 H2]; cbn [search_from].
  - rewrite Hat by exact H1. reflexivity.
  - rewrite Hat by exact H1. apply IH, H2.
Qed.

Lemma exec_without_key key l s :
  includes_ci s key = false -> exec (seqs (lit_i key :: l)) s = None.
Proof. apply search_without_key. Qed.

(** ** Heads of the usual quantifiers over a class *)

Lemma consumed_adv k t st : rest st = k ++ t -> consumed st (adv_by k t st) = k.
Proof.
  intros E. apply moved_consumed. split; simpl; [exact E|reflexivity].
Qed.

Lemma hd_rep_greedy p mn mx run tail st :
  rest st = run ++ tail -> forallb p run = true -> stops p tail ->
  (mn <= length run)%nat ->
  (forall m, mx = Some m -> (length run <= m)%nat) ->
  hd_is (Rep true mn mx (Chr p)) st (adv_by run tail st).
Proof.
  intros E Hp Hs Hmn Hmx. unfold hd_is. cbn [mt].
  apply rep_class_greedy_head; try assumption.
  rewrite E, length_app. lia.
Qed.

Lemma hd_star p run tail st :
  rest st = run ++ tail -> forallb p run = true -> stops p tail ->
  hd_is (star (Chr p)) st (adv_by run tail st).
Proof.
  intros. apply hd_rep_greedy; try assumption; [lia|discriminate].
Qed.

Lemma hd_plus p run tail st :
  rest st = run ++ tail -> forallb p run = true -> stops p tail ->
  run <> [] ->
  hd_is (plus (Chr p)) st (adv_by run tail st).
Proof.
  intros E Hp Hs Hne. apply hd_rep_greedy; try assumption; [|discriminate].
  destruct run; [contradiction|simpl; lia].
Qed.


Lemma hd_opt_hit p c t st :
  rest st = c :: t -> p c = true -> hd_is (opt (Chr p)) st (adv_by [c] t st).
Proof.
  intros E Hc. unfold hd_is, opt.
  change (mt (Rep true 0 (Some 1%nat) (Chr p)) st)
    with (rep (mt (Chr p)) true 0 (Some 1%nat) (S (0 + length (rest st))) st).
  cbn [rep is_zero_max pred_max Nat.pred].
  rewrite (mt_chr_hit _ _ _ _ E Hc). cbn [flat_map]. simpl rest. rewrite E.
  replace (Nat.ltb (length t) (length (c :: t))) with true
    by (symmetry; apply Nat.ltb_lt; simpl; lia).
  cbn [length Nat.add rep is_zero_max]. eexists. reflexivity.
Qed.

Lemma hd_match r bef s x :
  hd_is r (MState bef s []) x ->
  match_at r bef s = Some (match_of bef s x).
Proof. intros [l Hl]. eapply match_at_head, Hl. Qed.

Lemma exec_hd r s x :
  hd_is r (MState [] s []) x -> exec r s = Some (match_of [] s x).
Proof. intros H. apply search_from_hit, hd_match, H. Qed.

Lemma str_eqb_refl s : str_eqb s s = true.
Proof. induction s; simpl; [reflexivity|]. rewrite N.eqb_refl. exact IHs. Qed.

Lemma str_eqb_eq a : forall b, str_eqb a b = true -> a = b.
Proof.
  induction a as [|x a IH]; intros [|y b] H; simpl in H;
    try discriminate; [reflexivity|].
  apply andb_prop in H. destruct H as [H1 H2].
  apply N.eqb_eq in H1. f_equal; [exact H1|apply IH, H2].
Qed.

Lemma word_range c : is_word c = true -> 48 <= c <= 122.
Proof.
  unfold is_word, is_digit, is_upper, is_lower. intros H.
  repeat match type of H with
  | context [N.leb ?a ?b] => destruct (N.leb_spec a b)
  | context [N.eqb ?a ?b] => destruct (N.eqb_spec a b)
  end; simpl in H; try discriminate; lia.
Qed.

Lemma leb_false a b : b < a -> (a <=? b) = false.
Proof. intros H. apply N.leb_gt, H. Qed.

Lemma eqb_false a b : a <> b -> (a =? b) = false.
Proof. intros H. apply N.eqb_neq, H. Qed.

Lemma word_not_space c : is_word c = true -> is_space c = false.
Proof.
  intros H. apply word_range in H. unfold is_space.
  rewrite (leb_false 8192 c), (leb_false c 13) by lia.
  rewrite !andb_false_r, !andb_false_l. simpl.
  rewrite !eqb_false by lia. reflexivity.
Qed.


(** ** C6: a link card without a URL *)

Lemma cardAttr_absent key attrs :
  includes_ci attrs key = false -> cardAttr key attrs = [].
Proof.
  intros H. unfold cardAttr, quotedAttrRe.
  rewrite exec_without_key by exact H. reflexivity.
Qed.

Lemma replace_all_opt_id r f s :
  (forall bef suf m, rev bef ++ suf = s ->
     match_at r bef suf = Some m -> f m = Some (m_text m)) ->
  replace_all_opt r f s = Some s.
Proof.
  intros H. unfold replace_all_opt, replace_all_st.
  rewrite (replace_loop_id r _ (length s)); [reflexivity|lia|].
  intros b1 s1 m st1 E Hm. rewrite (H b1 s1 m E Hm). destruct st1.
  reflexivity.
Qed.

(** ** C7: quoted and bare attribute values *)



Lemma search_from_skip r : forall pre bef s,
  (forall i, (i < length pre)%nat ->
     match_at r (rev (firstn i pre) ++ bef) (skipn i pre ++ s) = None) ->
  search_from r bef (pre ++ s) = search_from r (rev pre ++ bef) s.
Proof.
  induction pre as [|c pre IH]; intros bef s H; [reflexivity|].
  cbn [app search_from].
  pose proof (H 0%nat ltac:(simpl; lia)) as H0. simpl in H0. rewrite H0.
  rewrite IH.
  - simpl. rewrite <- app_assoc. reflexivity.
  - intros i Hi. specialize (H (S i)). simpl in H.
    rewrite <- app_assoc in H. apply H. lia.
Qed.







(** ** C5: the chat example and the Minecraft avatar *)

Lemma word_unreserved c : is_word c = true -> uri_unreserved c = true.
Proof.
  unfold is_word, uri_unreserved. intros H.
  apply orb_prop in H. destruct H as [H|H].
  - rewrite H. reflexivity.
  - apply N.eqb_eq in H. subst c. reflexivity.
Qed.

Lemma encodeURIComponent_word s :
  forallb is_word s = true -> encodeURIComponent s = Some s.
Proof.
  induction s as [|c s IH]; intros H; simpl; [reflexivity|].
  simpl in H. apply andb_prop in H. destruct H as [Hc Hs].
  rewrite (word_unreserved _ Hc), (IH Hs). reflexivity.
Qed.

Lemma minecraft_name_valid s :
  (3 <= length s <= 16)%nat -> forallb is_word s = true ->
  test Chat.minecraftNamePattern s = true.
Proof.
  intros Hl Hw. unfold test.
  rewrite (exec_hd _ _ (adv_by s [] (MState [] s []))); [reflexivity|].
  unfold Chat.minecraftNamePattern.
  apply hd_seqs_cons with (x := MState [] s []); [exists []; reflexivity|].
  apply hd_seqs_cons with (x := adv_by s [] (MState [] s [])).
  - apply hd_rep_greedy.
    + simpl. rewrite app_nil_r. reflexivity.
    + exact Hw.
    + exact I.
    + lia.
    + intros m Hm. injection Hm as <-. lia.
  - exists []. reflexivity.
Qed.

Lemma minecraft_name_invalid s :
  (length s < 3)%nat \/ (16 < length s)%nat \/ forallb is_word s = false ->
  test Chat.minecraftNamePattern s = false.
Proof.
  intros Hbad. unfold test, Chat.minecraftNamePattern.
  rewrite exec_anchored, match_at_none; [reflexivity|].
  apply mt_seqs_none. intros x Hx. destruct Hx as [<-|[]].
  apply mt_seqs_none. intros y Hy. cbn [mt] in Hy.
  apply rep_class_in in Hy.
  destruct Hy as [k [E [_ [Hk [Hmin Hmax]]]]].
  specialize (Hmax _ eq_refl). simpl rest in E. cbn [seqs mt].
  destruct (rest y) as [|c t]; [|reflexivity]. exfalso.
  rewrite app_nil_r in E. subst k.
  destruct Hbad as [H|[H|H]]; [lia|lia|congruence].
Qed.

(** C5 fails as stated: the second person of the example has no avatar,
    because the one-letter name B is not a Minecraft user name. *)
Lemma C5_no_avatar_for_B :
  ~ exists m1 m2 url,
      Chat.parseChatContent chat_input = Some [m1; m2] /\
      Chat.avatar (Chat.person m2) = Some url /\
      includes url (U "B") = true.
Proof.
  intros [m1 [m2 [url [H [Ha _]]]]].
  assert (E : Chat.parseChatContent chat_input =
    Some [Chat.mkMessage (Chat.mkPerson (U "A") None) (U "hi");
          Chat.mkMessage (Chat.mkPerson (U "B") None) (U "yo")])
    by (vm_compute; reflexivity).
  rewrite E in H. injection H as <- <-. discriminate.
Qed.

(** C5, amended.  The chat body of the example yields exactly two
    messages, from A and from B, and B has no avatar: [avatar:minecraft]
    is resolved to [https://mc-heads.net/avatar/<name>] only for a name of
    3 to 16 letters, digits and underscores, and to no avatar for any other
    name.  With the name Steve the second message carries the URL ending
    in Steve. *)
Theorem C5_chat_example_and_avatar :
  Chat.parseChatContent chat_input =
    Some [Chat.mkMessage (Chat.mkPerson (U "A") None) (U "hi");
          Chat.mkMessage (Chat.mkPerson (U "B") None) (U "yo")] /\
  (forall username,
     (3 <= length username <= 16)%nat -> forallb is_word username = true ->
     Chat.getMinecraftAvatar username =
       Some (U "https://mc-heads.net/avatar/" ++ username)) /\
  (forall username,
     (length username < 3)%nat \/ (16 < length username)%nat \/
     forallb is_word username = false ->
     Chat.getMinecraftAvatar username = Some []) /\
  Chat.parseChatContent steve_chat =
    Some [Chat.mkMessage (Chat.mkPerson (U "A") None) (U "hi");
          Chat.mkMessage
            (Chat.mkPerson (U "Steve")
               (Some (U "https://mc-heads.net/avatar/Steve")))
            (U "yo")].
Proof.
  split; [vm_compute; reflexivity|split; [|split]].
  - intros username Hl Hw. unfold Chat.getMinecraftAvatar.
    rewrite (minecraft_name_valid _ Hl Hw), (encodeURIComponent_word _ Hw).
    reflexivity.
  - intros username Hbad. unfold Chat.getMinecraftAvatar.
    rewrite (minecraft_name_invalid _ Hbad). reflexivity.
  - vm_compute. reflexivity.
Qed.

Lemma C5_chat_example_and_avatar_witness :
  Chat.getMinecraftAvatar (U "Steve") =
    Some (U "https://mc-heads.net/avatar/" ++ U "Steve") /\
  Chat.getMinecraftAvatar (U "B") = Some [].
Proof.
  split.
  - apply (proj1 (proj2 C5_chat_example_and_avatar)).
    + simpl. lia.
    + vm_compute. reflexivity.
  - apply (proj1 (proj2 (proj2 C5_chat_example_and_avatar))).
    left. simpl. lia.
Defined.

(** ** Runs of a class at the head of a string *)

Lemma takeWhile_dropWhile p s : takeWhile p s ++ dropWhile p s = s.
Proof.
  induction s as [|c s IH]; simpl; [reflexivity|].
  destruct (p c); simpl; [rewrite IH|]; reflexivity.
Qed.

Lemma takeWhile_all p s : forallb p (takeWhile p s) = true.
Proof.
  induction s as [|c s IH]; simpl; [reflexivity|].
  destruct (p c) eqn:E; simpl; [rewrite E, IH|]; reflexivity.
Qed.

Lemma dropWhile_stops p s : stops p (dropWhile p s).
Proof.
  induction s as [|c s IH]; simpl; [exact I|].
  destruct (p c) eqn:E; [exact IH|exact E].
Qed.

Lemma takeWhile_app p k t :
  forallb p k = true -> stops p t ->
  takeWhile p (k ++ t) = k /\ dropWhile p (k ++ t) = t.
Proof.
  induction k as [|c k IH]; intros Hk Ht; simpl.
  - destruct t as [|d t]; simpl in *; [split; reflexivity|].
    rewrite Ht. split; reflexivity.
  - simpl in Hk. apply andb_prop in Hk. destruct Hk as [Hc Hk].
    rewrite Hc. destruct (IH Hk Ht) as [-> ->]. split; reflexivity.
Qed.

Lemma digit_not_space c : is_digit c = true -> is_space c = false.
Proof.
  intros H. apply word_not_space. unfold is_word. rewrite H. reflexivity.
Qed.

(** ** C4: the ordered-list scan *)

(** A line of the shape [<indent><digits>.<space>]. *)
Lemma list_item_shape k1 k2 sp t :
  forallb is_space k1 = true -> k2 <> [] -> forallb is_digit k2 = true ->
  is_space sp = true ->
  list_item (k1 ++ k2 ++ 46 :: sp :: t) =
    Some (mkEntry (toNumber (parseInt k2)) (length k1)).
Proof.
  intros H1 Hne H2 Hsp. unfold list_item.
  assert (Hs1 : stops is_space (k2 ++ 46 :: sp :: t)).
  { destruct k2 as [|d k2]; [contradiction|]. simpl in *.
    apply andb_prop in H2. apply digit_not_space, H2. }
  destruct (takeWhile_app is_space k1 _ H1 Hs1) as [-> ->].
  assert (Hs2 : stops is_digit (46 :: sp :: t)) by reflexivity.
  destruct (takeWhile_app is_digit k2 _ H2 Hs2) as [-> ->].
  destruct k2 as [|d k2]; [contradiction|].
  rewrite Hsp. reflexivity.
Qed.

Lemma list_item_inv line e :
  list_item line = Some e ->
  exists k1 k2 sp t, line = k1 ++ k2 ++ 46 :: sp :: t /\
    forallb is_space k1 = true /\ k2 <> [] /\ forallb is_digit k2 = true /\
    is_space sp = true /\ e = mkEntry (toNumber (parseInt k2)) (length k1).
Proof.
  unfold list_item. intros H.
  destruct (takeWhile is_digit (dropWhile is_space line)) as [|d ds] eqn:Ed;
    [discriminate|].
  destruct (dropWhile is_digit (dropWhile is_space line)) as [|dot [|sp t]] eqn:Er;
    try discriminate.
  destruct (dot =? 46) eqn:Edot; [|discriminate].
  destruct (is_space sp) eqn:Esp; [|discriminate].
  simpl in H. injection H as <-. apply N.eqb_eq in Edot. subst dot.
  exists (takeWhile is_space line), (d :: ds), sp, t.
  split.
  - rewrite <- Er, <- Ed, takeWhile_dropWhile, takeWhile_dropWhile. reflexivity.
  - split; [apply takeWhile_all|]. split; [discriminate|].
    split; [rewrite <- Ed; apply takeWhile_all|]. split; [exact Esp|reflexivity].
Qed.

(** The list-item pattern matches exactly the lines of that shape. *)
Lemma listItemRe_shape k1 k2 sp t :
  forallb is_space k1 = true -> k2 <> [] -> forallb is_digit k2 = true ->
  is_space sp = true ->
  exists m, exec listItemRe (k1 ++ k2 ++ 46 :: sp :: t) = Some m /\
    group_s 1 m = k1 /\ group_s 2 m = k2.
Proof.
  intros H1 Hne H2 Hsp.
  set (line := k1 ++ k2 ++ 46 :: sp :: t).
  set (st0 := MState [] line []).
  set (st1 := setcap 1 st0 (adv_by k1 (k2 ++ 46 :: sp :: t) st0)).
  set (st2 := setcap 2 st1 (adv_by k2 (46 :: sp :: t) st1)).
  set (st3 := adv_by [46] (sp :: t) st2).
  set (run := takeWhile is_space (sp :: t)).
  set (st4 := adv_by run (dropWhile is_space (sp :: t)) st3).
  exists (match_of [] line st4). split.
  - apply exec_hd. unfold listItemRe.
    apply hd_seqs_cons with (x := st0); [exists []; reflexivity|].
    apply hd_seqs_cons with (x := st1).
    { apply hd_grp. apply hd_star; [reflexivity|exact H1|].
      destruct k2 as [|d k2]; [contradiction|]. simpl in *.
      apply andb_prop in H2. apply digit_not_space, H2. }
    apply hd_seqs_cons with (x := st2).
    { apply hd_grp. apply hd_plus; [reflexivity|exact H2|reflexivity|exact Hne]. }
    apply hd_seqs_cons with (x := st3).
    { exists []. apply mt_chr_hit; reflexivity. }
    apply hd_seqs_cons with (x := st4); [|apply hd_seqs_nil].
    apply hd_plus.
    + simpl rest. unfold run. symmetry. apply takeWhile_dropWhile.
    + apply takeWhile_all.
    + apply dropWhile_stops.
    + unfold run. simpl. rewrite Hsp. discriminate.
  - unfold group_s, group, match_of. cbn [m_caps]. subst st4 st3 st2 st1.
    unfold setcap, adv_by. cbn [caps getcap Nat.eqb].
    split; apply moved_consumed; split; simpl; reflexivity.
Qed.

Lemma listItemRe_inv line m :
  exec listItemRe line = Some m ->
  exists k1 k2 sp t, line = k1 ++ k2 ++ 46 :: sp :: t /\
    forallb is_space k1 = true /\ k2 <> [] /\ forallb is_digit k2 = true /\
    is_space sp = true.
Proof.
  unfold listItemRe. rewrite exec_anchored. intros H.
  apply match_at_inv in H. destruct H as [st [k [Hin _]]].
  rewrite mt_seqs_cons in Hin. apply in_flat_map in Hin.
  destruct Hin as [x0 [Hx0 Hin]]. destruct Hx0 as [<-|[]].
  rewrite mt_seqs_cons in Hin. apply in_flat_map in Hin.
  destruct Hin as [x1 [Hx1 Hin]]. cbn [mt] in Hx1.
  apply in_map_iff in Hx1. destruct Hx1 as [y1 [<- Hy1]].
  apply rep_class_in in Hy1. destruct Hy1 as [k1 [E1 [_ [Hk1 _]]]].
  rewrite mt_seqs_cons in Hin. apply in_flat_map in Hin.
  destruct Hin as [x2 [Hx2 Hin]]. cbn [mt] in Hx2.
  apply in_map_iff in Hx2. destruct Hx2 as [y2 [<- Hy2]].
  apply rep_class_in in Hy2. destruct Hy2 as [k2 [E2 [_ [Hk2 [Hn2 _]]]]].
  rewrite mt_seqs_cons in Hin. apply in_flat_map in Hin.
  destruct Hin as [x3 [Hx3 Hin]].
  apply mt_chr_in in Hx3. destruct Hx3 as [c [E3 [Hc _]]].
  cbn [seqs mt] in Hin.
  apply rep_class_in in Hin. destruct Hin as [k3 [E4 [_ [Hk3 [Hn3 _]]]]].
  apply N.eqb_eq in Hc. subst c.
  destruct k3 as [|sp k3]; [simpl in Hn3; lia|].
  simpl in Hk3. apply andb_prop in Hk3. destruct Hk3 as [Hsp _].
  simpl in E1, E2, E3.
  exists k1, k2, sp, (k3 ++ rest st).
  split; [rewrite E1, E2, E3, E4; reflexivity|].
  split; [exact Hk1|]. split; [|split; [exact Hk2|exact Hsp]].
  destruct k2; [simpl in Hn2; lia|discriminate].
Qed.

Lemma listItemRe_entry line :
  match exec listItemRe line with
  | Some m =>
      [mkEntry (toNumber (parseInt (group_s 2 m))) (length (group_s 1 m))]
  | None => []
  end = item_of line.
Proof.
  unfold item_of. destruct (list_item line) as [e|] eqn:El.
  - apply list_item_inv in El.
    destruct El as [k1 [k2 [sp [t [-> [H1 [Hne [H2 [Hsp ->]]]]]]]]].
    destruct (listItemRe_shape k1 k2 sp t H1 Hne H2 Hsp) as [m [-> [-> ->]]].
    reflexivity.
  - destruct (exec listItemRe line) as [m|] eqn:Em; [|reflexivity].
    apply listItemRe_inv in Em.
    destruct Em as [k1 [k2 [sp [t [-> [H1 [Hne [H2 Hsp]]]]]]]].
    rewrite list_item_shape in El by assumption. discriminate.
Qed.

Lemma hd_alt_l a b st x : hd_is a st x -> hd_is (Alt a b) st x.
Proof.
  intros [l Hl]. unfold hd_is. cbn [mt]. rewrite Hl. eexists. reflexivity.
Qed.

Lemma hd_alt_r a b st x : mt a st = [] -> hd_is b st x -> hd_is (Alt a b) st x.
Proof.
  intros Ha [l Hl]. unfold hd_is. cbn [mt]. rewrite Ha, Hl. eexists.
  reflexivity.
Qed.

Lemma nil_of_no_in {A : Type} (l : list A) : (forall x, ~ In x l) -> l = [].
Proof.
  destruct l as [|a l]; [reflexivity|]. intros H. exfalso.
  apply (H a). left. reflexivity.
Qed.

(** A run of three or more [ch] at the head of a line. *)
Lemma run3_in ch st x :
  In x (mt (at_least 3 (Chr (is_c ch))) st) ->
  exists t, rest st = ch :: ch :: ch :: t.
Proof.
  intros H. cbn [mt] in H. apply rep_class_in in H.
  destruct H as [k [E [_ [Hk [Hn _]]]]].
  destruct k as [|a [|b [|c k]]]; simpl in Hn; try lia.
  simpl in Hk. unfold is_c in Hk.
  apply andb_prop in Hk. destruct Hk as [Ha Hk].
  apply andb_prop in Hk. destruct Hk as [Hb Hk].
  apply andb_prop in Hk. destruct Hk as [Hc _].
  apply N.eqb_eq in Ha, Hb, Hc. subst. eexists. exact E.
Qed.

Lemma run3_hd ch t st :
  rest st = ch :: ch :: ch :: t ->
  hd_is (at_least 3 (Chr (is_c ch))) st
    (adv_by (takeWhile (is_c ch) (rest st)) (dropWhile (is_c ch) (rest st)) st).
Proof.
  intros E. apply hd_rep_greedy.
  - symmetry. apply takeWhile_dropWhile.
  - apply takeWhile_all.
  - apply dropWhile_stops.
  - rewrite E. simpl. unfold is_c. rewrite N.eqb_refl. simpl. lia.
  - discriminate.
Qed.

Lemma fence_line_cases line :
  is_fence_line line = true ->
  exists ch t, (ch = backtick \/ ch = tilde) /\ line = ch :: ch :: ch :: t.
Proof.
  unfold is_fence_line, startsWith. intros H. apply orb_prop in H.
  destruct H as [H|H].
  - destruct (strip_prefix (U "```") line) as [t|] eqn:E; [|discriminate].
    apply strip_prefix_app in E. exists backtick, t. split; [left; reflexivity|exact E].
  - destruct (strip_prefix (U "~~~") line) as [t|] eqn:E; [|discriminate].
    apply strip_prefix_app in E. exists tilde, t. split; [right; reflexivity|exact E].
Qed.

Lemma codeFence_hit line :
  is_fence_line line = true ->
  exists m, exec codeFenceRe line = Some m /\ group_s 1 m = fence_of line.
Proof.
  intros H. destruct (fence_line_cases _ H) as [ch [t [Hch E]]].
  set (st0 := MState [] line []).
  set (y := adv_by (takeWhile (is_c ch) line) (dropWhile (is_c ch) line) st0).
  exists (match_of [] line (setcap 1 st0 y)). split.
  - apply exec_hd. change codeFenceRe with (seqs [Bol; fence_grp 1]).
    apply hd_seqs_cons with (x := st0); [exists []; reflexivity|].
    apply hd_seqs_cons with (x := setcap 1 st0 y); [|apply hd_seqs_nil].
    unfold fence_grp. apply hd_grp.
    destruct Hch as [->| ->].
    + apply hd_alt_l. apply (run3_hd backtick t st0). exact E.
    + apply hd_alt_r.
      * apply nil_of_no_in. intros x Hx. apply run3_in in Hx.
        destruct Hx as [t' Ht']. simpl in Ht'. rewrite E in Ht'. discriminate.
      * apply (run3_hd tilde t st0). exact E.
  - unfold group_s, group, match_of, setcap. cbn [m_caps caps getcap Nat.eqb].
    unfold y. rewrite consumed_adv.
    + unfold fence_of. rewrite E. reflexivity.
    + symmetry. apply takeWhile_dropWhile.
Qed.

Lemma codeFence_miss line :
  is_fence_line line = false -> exec codeFenceRe line = None.
Proof.
  intros H. change codeFenceRe with (seqs [Bol; fence_grp 1]).
  rewrite exec_anchored. apply match_at_none.
  apply mt_seqs_none. intros x [<-|[]]. cbn [seqs].
  apply nil_of_no_in. intros x Hx. unfold fence_grp in Hx. cbn [mt] in Hx.
  apply in_map_iff in Hx. destruct Hx as [y [_ Hy]].
  apply in_app_or in Hy.
  unfold is_fence_line in H. apply orb_false_iff in H. destruct H as [Hb Ht].
  destruct Hy as [Hy|Hy]; apply run3_in in Hy; destruct Hy as [t Et];
    simpl in Et; subst line.
  - vm_compute in Hb. discriminate.
  - vm_compute in Ht. discriminate.
Qed.

Lemma scanLine_plain st line :
  is_fence_line line = false -> inCodeBlock st = false ->
  scanLine st line =
    mkScan (numbers st ++ item_of line) false (codeBlockFence st).
Proof.
  intros Hf Hin. unfold scanLine. rewrite (codeFence_miss _ Hf), Hin.
  rewrite <- listItemRe_entry.
  destruct (exec listItemRe line); [reflexivity|].
  rewrite app_nil_r. destruct st; simpl in *. subst. reflexivity.
Qed.

Lemma scanLine_open st line :
  is_fence_line line = true -> inCodeBlock st = false ->
  scanLine st line = mkScan (numbers st) true (fence_of line).
Proof.
  intros Hf Hin. unfold scanLine.
  destruct (codeFence_hit _ Hf) as [m [-> Hg]]. rewrite Hin, Hg. reflexivity.
Qed.

Lemma scanLine_inside st line :
  inCodeBlock st = true ->
  is_fence_line line = false \/ startsWith line (codeBlockFence st) = false ->
  scanLine st line = st.
Proof.
  intros Hin H. unfold scanLine. rewrite Hin.
  destruct (is_fence_line line) eqn:Hf.
  - destruct H as [H|H]; [discriminate|].
    destruct (codeFence_hit _ Hf) as [m [-> _]]. simpl. rewrite H. reflexivity.
  - rewrite (codeFence_miss _ Hf). reflexivity.
Qed.

Lemma scanLine_close st line :
  inCodeBlock st = true -> is_fence_line line = true ->
  startsWith line (codeBlockFence st) = true ->
  scanLine st line = mkScan (numbers st) false [].
Proof.
  intros Hin Hf H. unfold scanLine. rewrite Hin.
  destruct (codeFence_hit _ Hf) as [m [-> _]]. simpl. rewrite H. reflexivity.
Qed.

Lemma fold_plain lines : forall st,
  Forall (fun l => is_fence_line l = false) lines -> inCodeBlock st = false ->
  fold_left scanLine lines st =
    mkScan (numbers st ++ flat_map item_of lines) false (codeBlockFence st).
Proof.
  induction lines as [|l lines IH]; intros st Hall Hin.
  - simpl. rewrite app_nil_r. destruct st; simpl in *; subst. reflexivity.
  - inversion Hall as [|? ? Hl Hrest]; subst. cbn [fold_left].
    rewrite (scanLine_plain _ _ Hl Hin), IH by (assumption || reflexivity).
    cbn [numbers codeBlockFence flat_map]. rewrite <- app_assoc. reflexivity.
Qed.

Lemma fold_inside lines : forall st,
  inCodeBlock st = true ->
  Forall (fun l => is_fence_line l = false \/
                   startsWith l (codeBlockFence st) = false) lines ->
  fold_left scanLine lines st = st.
Proof.
  induction lines as [|l lines IH]; intros st Hin Hall; [reflexivity|].
  inversion Hall as [|? ? Hl Hrest]; subst. cbn [fold_left].
  rewrite (scanLine_inside _ _ Hin Hl). apply IH; assumption.
Qed.

(** The entries already found do not influence the scan. *)
Lemma scanLine_numbers ns b f line :
  scanLine (mkScan ns b f) line =
  mkScan (ns ++ numbers (scanLine (mkScan [] b f) line))
         (inCodeBlock (scanLine (mkScan [] b f) line))
         (codeBlockFence (scanLine (mkScan [] b f) line)).
Proof.
  unfold scanLine. cbn [inCodeBlock codeBlockFence numbers].
  destruct (exec codeFenceRe line) as [cm|].
  - destruct b; cbn [negb].
    + destruct (startsWith line f); cbn; rewrite app_nil_r; reflexivity.
    + cbn. rewrite app_nil_r. reflexivity.
  - destruct b.
    + cbn. rewrite app_nil_r. reflexivity.
    + destruct (exec listItemRe line) as [m|]; cbn;
        [reflexivity|rewrite app_nil_r; reflexivity].
Qed.

Lemma fold_numbers_gen lines : forall ns b f,
  numbers (fold_left scanLine lines (mkScan ns b f)) =
  ns ++ numbers (fold_left scanLine lines (mkScan [] b f)).
Proof.
  induction lines as [|l lines IH]; intros ns b f.
  - simpl. rewrite app_nil_r. reflexivity.
  - cbn [fold_left]. rewrite scanLine_numbers, IH.
    destruct (scanLine (mkScan [] b f) l) as [d b' f'] eqn:E.
    cbn [numbers inCodeBlock codeBlockFence].
    rewrite (IH d b' f'), app_assoc. reflexivity.
Qed.

(** Outside a code block the recorded fence is not read. *)
Lemma fold_fence_irrelevant lines : forall f,
  numbers (fold_left scanLine lines (mkScan [] false f)) = scanLines lines.
Proof.
  unfold scanLines. induction lines as [|l lines IH]; intros f; [reflexivity|].
  cbn [fold_left]. unfold scanLine at 2 4. cbn [inCodeBlock numbers codeBlockFence negb].
  destruct (exec codeFenceRe l) as [cm|]; [reflexivity|].
  destruct (exec listItemRe l) as [m|].
  - rewrite fold_numbers_gen, (fold_numbers_gen lines _ false []).
    rewrite IH. reflexivity.
  - apply IH.
Qed.

Lemma fold_numbers lines ns f :
  numbers (fold_left scanLine lines (mkScan ns false f)) =
  ns ++ scanLines lines.
Proof. rewrite fold_numbers_gen, fold_fence_irrelevant. reflexivity. Qed.

(** Below 2^53 the Number of an integer is the integer itself. *)
Lemma toNumber_exact n : n < 2 ^ 53 -> toNumber n = Finite n.
Proof.
  intros H. unfold toNumber.
  replace (N.log2 n <? 53) with true; [reflexivity|].
  symmetry. apply N.ltb_lt.
  destruct (N.eq_dec n 0) as [->|Hn]; [reflexivity|].
  apply N.log2_lt_pow2; [lia|exact H].
Qed.

Lemma item_of_shape k1 k2 sp t :
  forallb is_space k1 = true -> k2 <> [] -> forallb is_digit k2 = true ->
  is_space sp = true ->
  item_of (k1 ++ k2 ++ 46 :: sp :: t) =
    [mkEntry (toNumber (parseInt k2)) (length k1)].
Proof.
  intros H1 Hne H2 Hsp. unfold item_of.
  rewrite list_item_shape by assumption. reflexivity.
Qed.

(** C4.  For the source of the example the scan returns the five entries
    (1,0), (2,0), (1,4), (2,4), (3,0), the nested numbering restarting at
    1.  In general: in a document without fence lines the scan returns,
    in source order, the entry of every line of the shape
    [<indent><digits>.<space>]; the lines from an opening fence to the
    line that closes it contribute nothing and the scan resumes after the
    closing line; after a fence that is not closed nothing more is
    collected.  The entry of a line is the length of its indentation and
    the Number that [parseInt] makes of its digits: the integer they
    write when it is below 2^53, the nearest double otherwise
    (9007199254740993 is collected as 9007199254740992). *)
Theorem C4_ordered_list_scan :
  parseOrderedListNumbers nested_list_source =
    [mkEntry (Finite 1) 0; mkEntry (Finite 2) 0; mkEntry (Finite 1) 4;
     mkEntry (Finite 2) 4; mkEntry (Finite 3) 0] /\
  (forall content,
     Forall (fun l => is_fence_line l = false) (split_nl content) ->
     parseOrderedListNumbers content = flat_map item_of (split_nl content)) /\
  (forall content pre opn body cls post,
     split_nl content = pre ++ opn :: body ++ cls :: post ->
     Forall (fun l => is_fence_line l = false) pre ->
     is_fence_line opn = true ->
     Forall (fun l => is_fence_line l = false \/
                      startsWith l (fence_of opn) = false) body ->
     is_fence_line cls = true -> startsWith cls (fence_of opn) = true ->
     parseOrderedListNumbers content = flat_map item_of pre ++ scanLines post) /\
  (forall content pre opn body,
     split_nl content = pre ++ opn :: body ->
     Forall (fun l => is_fence_line l = false) pre ->
     is_fence_line opn = true ->
     Forall (fun l => is_fence_line l = false \/
                      startsWith l (fence_of opn) = false) body ->
     parseOrderedListNumbers content = flat_map item_of pre) /\
  (forall k1 k2 sp t,
     forallb is_space k1 = true -> k2 <> [] -> forallb is_digit k2 = true ->
     is_space sp = true ->
     item_of (k1 ++ k2 ++ 46 :: sp :: t) =
       [mkEntry (toNumber (parseInt k2)) (length k1)] /\
     (parseInt k2 < 2 ^ 53 -> toNumber (parseInt k2) = Finite (parseInt k2))) /\
  (forall line,
     (forall k1 k2 sp t,
        forallb is_space k1 = true -> k2 <> [] -> forallb is_digit k2 = true ->
        is_space sp = true -> line <> k1 ++ k2 ++ 46 :: sp :: t) ->
     item_of line = []) /\
  parseOrderedListNumbers (U "9007199254740993. x") =
    [mkEntry (Finite 9007199254740992) 0].
Proof.
  split; [vm_compute; reflexivity|].
  split; [|split; [|split; [|split; [|split]]]].
  - intros content H. unfold parseOrderedListNumbers, scanLines.
    rewrite fold_plain; [reflexivity|assumption|reflexivity].
  - intros content pre opn body cls post E Hpre Hopn Hbody Hcls Hclose.
    unfold parseOrderedListNumbers. rewrite E. unfold scanLines at 1.
    rewrite fold_left_app, (fold_plain pre) by first [assumption | reflexivity].
    cbn [fold_left numbers codeBlockFence app].
    rewrite scanLine_open by first [assumption | reflexivity].
    rewrite fold_left_app, (fold_inside body) by first [assumption | reflexivity].
    cbn [fold_left numbers].
    rewrite scanLine_close by first [assumption | reflexivity].
    cbn [numbers]. apply fold_numbers.
  - intros content pre opn body E Hpre Hopn Hbody.
    unfold parseOrderedListNumbers. rewrite E. unfold scanLines.
    rewrite fold_left_app, (fold_plain pre) by first [assumption | reflexivity].
    cbn [fold_left numbers codeBlockFence app].
    rewrite scanLine_open by first [assumption | reflexivity].
    rewrite fold_inside by first [assumption | reflexivity].
    reflexivity.
  - intros k1 k2 sp t H1 Hne H2 Hsp. split.
    + apply item_of_shape; assumption.
    + apply toNumber_exact.
  - intros line H. unfold item_of.
    destruct (list_item line) as [e|] eqn:El; [|reflexivity].
    exfalso. apply list_item_inv in El.
    destruct El as [k1 [k2 [sp [t [E [H1 [Hne [H2 [Hsp _]]]]]]]]].
    exact (H k1 k2 sp t H1 Hne H2 Hsp E).
  - vm_compute. reflexivity.
Qed.

Lemma C4_ordered_list_scan_witness :
  parseOrderedListNumbers (U "1. a" ++ nl ++ U "text" ++ nl ++ U "  12. b") =
    [mkEntry (Finite 1) 0; mkEntry (Finite 12) 2] /\
  parseOrderedListNumbers fenced_list_source =
    [mkEntry (Finite 1) 0; mkEntry (Finite 2) 0] /\
  item_of (U "  " ++ U "12" ++ 46 :: 32 :: U "b") =
    [mkEntry (toNumber (parseInt (U "12"))) 2] /\
  item_of (U "12.b") = [].
Proof.
  split; [|split; [|split]].
  - apply (proj1 (proj2 C4_ordered_list_scan)).
    vm_compute. repeat constructor.
  - apply (proj1 (proj2 (proj2 C4_ordered_list_scan)) fenced_list_source
             [U "1. a"] (U "```") [U "7. not an item"] (U "```") [U "2. b"]).
    + vm_compute. reflexivity.
    + repeat constructor.
    + reflexivity.
    + repeat constructor.
    + reflexivity.
    + reflexivity.
  - apply (proj1 (proj2 (proj2 (proj2 (proj2 C4_ordered_list_scan)))));
      [reflexivity|discriminate|reflexivity|reflexivity].
  - apply (proj1 (proj2 (proj2 (proj2 (proj2 (proj2 C4_ordered_list_scan)))))).
    intros k1 k2 sp t H1 Hne H2 Hsp E.
    apply (f_equal list_item) in E.
    rewrite list_item_shape in E by assumption.
    vm_compute in E. discriminate.
Defined.

(** ** What every match of a pattern contains *)

Lemma moved_unique st k1 k2 x : moved st k1 x -> moved st k2 x -> k1 = k2.
Proof.
  intros H1 H2. rewrite <- (moved_consumed _ _ _ H1).
  apply (moved_consumed _ _ _ H2).
Qed.

Lemma moved_split st y x k k1 :
  moved st k x -> moved st k1 y -> forall k2, moved y k2 x -> k = k1 ++ k2.
Proof.
  intros H H1 k2 H2. eapply moved_unique; [exact H|].
  eapply moved_trans; eassumption.
Qed.

Lemma needs_seq_l Q a b : mono Q -> needs Q a -> needs Q (Seq a b).
Proof.
  intros Hm Ha st x k Hin Hk. cbn [mt] in Hin. apply in_flat_map in Hin.
  destruct Hin as [y [Hy Hx]].
  destruct (mt_moved _ _ _ Hy) as [k1 H1]. destruct (mt_moved _ _ _ Hx) as [k2 H2].
  rewrite (moved_split _ _ _ _ _ Hk H1 _ H2).
  specialize (Hm [] k1 k2 (Ha _ _ _ Hy H1)). exact Hm.
Qed.

Lemma needs_seq_r Q a b : mono Q -> needs Q b -> needs Q (Seq a b).
Proof.
  intros Hm Hb st x k Hin Hk. cbn [mt] in Hin. apply in_flat_map in Hin.
  destruct Hin as [y [Hy Hx]].
  destruct (mt_moved _ _ _ Hy) as [k1 H1]. destruct (mt_moved _ _ _ Hx) as [k2 H2].
  rewrite (moved_split _ _ _ _ _ Hk H1 _ H2).
  specialize (Hm k1 k2 [] (Hb _ _ _ Hx H2)). rewrite app_nil_r in Hm. exact Hm.
Qed.

Lemma needs_seqs_hd Q a l : mono Q -> needs Q a -> needs Q (seqs (a :: l)).
Proof.
  intros Hm Ha. destruct l as [|b l]; [exact Ha|].
  apply needs_seq_l; assumption.
Qed.

Lemma needs_seqs_tl Q a l : mono Q -> l <> [] ->
  needs Q (seqs l) -> needs Q (seqs (a :: l)).
Proof.
  intros Hm Hne Hl. destruct l as [|b l]; [contradiction|].
  apply needs_seq_r; assumption.
Qed.

Lemma needs_alt Q a b : needs Q a -> needs Q b -> needs Q (Alt a b).
Proof.
  intros Ha Hb st x k Hin Hk. cbn [mt] in Hin. apply in_app_or in Hin.
  destruct Hin; [eapply Ha|eapply Hb]; eassumption.
Qed.

Lemma needs_grp Q i a : needs Q a -> needs Q (Grp i a).
Proof.
  intros Ha st x k Hin Hk. cbn [mt] in Hin. apply in_map_iff in Hin.
  destruct Hin as [y [<- Hy]]. eapply Ha; [exact Hy|].
  destruct Hk as [H1 H2]. split; assumption.
Qed.

Lemma needs_chr Q p : (forall d, p d = true -> Q [d]) -> needs Q (Chr p).
Proof.
  intros H st x k Hin Hk. apply mt_chr_in in Hin.
  destruct Hin as [c [E [Hc Ex]]].
  assert (Hm : moved st [c] x).
  { rewrite Ex. split; simpl; [exact E|reflexivity]. }
  rewrite (moved_unique _ _ _ _ Hk Hm). apply H, Hc.
Qed.

Lemma needs_lit Q L : Q L -> needs Q (lit L).
Proof.
  intros H st x k Hin Hk. rewrite mt_lit in Hin.
  destruct (strip_prefix L (rest st)) as [t|] eqn:E; [|contradiction].
  destruct Hin as [<-|[]].
  assert (Hm : moved st L (adv_by L t st)).
  { split; simpl; [apply strip_prefix_app, E|reflexivity]. }
  rewrite (moved_unique _ _ _ _ Hk Hm). exact H.
Qed.

(** A repetition with a positive minimum contains what its body needs. *)
Lemma needs_rep Q g mn mx a : mono Q -> needs Q a -> needs Q (Rep g (S mn) mx a).
Proof.
  intros Hm Ha st x k Hin Hk. cbn [mt rep] in Hin.
  apply in_flat_map in Hin. destruct Hin as [y [Hy Hx]].
  destruct (mt_moved _ _ _ Hy) as [k1 H1].
  destruct (rep_moved (mt a) (mt_moved a) _ _ _ _ _ _ Hx) as [k2 H2].
  rewrite (moved_split _ _ _ _ _ Hk H1 _ H2).
  specialize (Hm [] k1 k2 (Ha _ _ _ Hy H1)). exact Hm.
Qed.

Lemma includes_here s L : startsWith s L = true -> includes s L = true.
Proof. intros H. destruct s; simpl; rewrite H; reflexivity. Qed.

Lemma includes_refl L : includes L L = true.
Proof.
  apply includes_here. unfold startsWith.
  rewrite <- (app_nil_r L) at 2. rewrite strip_prefix_refl. reflexivity.
Qed.

Lemma strip_prefix_app_r L : forall s b t,
  strip_prefix L s = Some t -> strip_prefix L (s ++ b) = Some (t ++ b).
Proof.
  induction L as [|x L IH]; intros s b t H; simpl in *.
  - injection H as <-. reflexivity.
  - destruct s as [|y s]; [discriminate|]. simpl.
    destruct (x =? y); [apply IH, H|discriminate].
Qed.

Lemma includes_app_r s b L : includes s L = true -> includes (s ++ b) L = true.
Proof.
  induction s as [|c s IH]; intros H.
  - simpl in H. rewrite orb_false_r in H. apply includes_here.
    unfold startsWith in *.
    destruct (strip_prefix L []) as [t|] eqn:E; [|discriminate].
    rewrite (strip_prefix_app_r _ _ b _ E). reflexivity.
  - simpl in H. apply orb_prop in H. destruct H as [H|H].
    + apply includes_here. unfold startsWith in *.
      destruct (strip_prefix L (c :: s)) as [t|] eqn:E; [|discriminate].
      rewrite (strip_prefix_app_r _ _ b _ E). reflexivity.
    + simpl. rewrite (IH H). apply orb_true_r.
Qed.

Lemma includes_app_l a s L : includes s L = true -> includes (a ++ s) L = true.
Proof.
  induction a as [|c a IH]; intros H; [exact H|].
  simpl. rewrite (IH H). apply orb_true_r.
Qed.

Lemma mono_has L : mono (has L).
Proof.
  intros a k b H. unfold has in *. apply includes_app_l, includes_app_r, H.
Qed.

Lemma mono_or Q1 Q2 : mono Q1 -> mono Q2 -> mono (fun k => Q1 k \/ Q2 k).
Proof. intros H1 H2 a k b [H|H]; [left; apply H1|right; apply H2]; exact H. Qed.

Lemma needs_weaken (Q Q' : jsstr -> Prop) r :
  (forall k, Q k -> Q' k) -> needs Q r -> needs Q' r.
Proof. intros H Hr st x k Hin Hk. apply H. eapply Hr; eassumption. Qed.

(** A pattern whose matches need what the string lacks matches nowhere
    in it. *)
Lemma needs_no_match Q r s :
  needs Q r -> mono Q -> ~ Q s ->
  forall bef suf, rev bef ++ suf = s -> match_at r bef suf = None.
Proof.
  intros Hr Hm Hs bef suf E.
  destruct (match_at r bef suf) as [m|] eqn:Em; [|reflexivity].
  exfalso. apply match_at_inv in Em.
  destruct Em as [st [k [Hin [Hk _]]]].
  apply Hs. rewrite <- E. destruct Hk as [Hk _]. simpl in Hk. rewrite Hk.
  apply Hm. eapply Hr; [exact Hin|]. split; [exact Hk|].
  destruct (mt_moved _ _ _ Hin) as [k' [Hk1 Hk2]].
  assert (k' = k).
  { simpl in Hk1. rewrite Hk in Hk1. apply app_inv_tail in Hk1. congruence. }
  subst k'. exact Hk2.
Qed.

(** ** Passes without a match *)

Lemma replace_all_st_no_match {St : Type} r
    (f : St -> rmatch -> option (jsstr * St)) s st :
  no_match r s -> replace_all_st r f s st = Some (s, st).
Proof.
  intros H. unfold replace_all_st. apply (replace_loop_id r f (length s)); [lia|].
  intros b1 s1 m st1 E Hm. rewrite (H b1 s1 E) in Hm. discriminate.
Qed.

Lemma replace_all_opt_no_match r f s :
  no_match r s -> replace_all_opt r f s = Some s.
Proof.
  intros H. apply replace_all_opt_id. intros bef suf m E Hm.
  rewrite (H bef suf E) in Hm. discriminate.
Qed.

Lemma replace_all_no_match r f s : no_match r s -> replace_all r f s = s.
Proof.
  intros H. unfold replace_all. rewrite replace_all_opt_no_match by exact H.
  reflexivity.
Qed.

Lemma replace_all_tpl_no_match r n tpl s :
  no_match r s -> replace_all_tpl r n tpl s = s.
Proof. intros H. unfold replace_all_tpl. apply replace_all_no_match, H. Qed.

Lemma needs_has_no_match L r s :
  needs (has L) r -> includes s L = false -> no_match r s.
Proof.
  intros Hr Hs. unfold no_match.
  apply (needs_no_match (has L)); [exact Hr|apply mono_has|].
  unfold has. rewrite Hs. discriminate.
Qed.

(** *** What the patterns of [processContent] need *)

Lemma has_chr c d : (d =? c) = true -> has [c] [d].
Proof. intros H. apply N.eqb_eq in H. subst. apply includes_refl. Qed.

Lemma needs_run3 c : needs (has [c]) (at_least 3 (Chr (is_c c))).
Proof.
  apply needs_rep; [apply mono_has|]. apply needs_chr. intros d H.
  apply has_chr, H.
Qed.

Lemma needs_anyFence :
  needs (fun k => has [backtick] k \/ has [tilde] k) anyFenceBlockRe.
Proof.
  assert (Hm : mono (fun k => has [backtick] k \/ has [tilde] k))
    by (apply mono_or; apply mono_has).
  unfold anyFenceBlockRe. apply needs_seqs_tl; [exact Hm|discriminate|].
  apply needs_seqs_hd; [exact Hm|]. unfold fence_grp.
  apply needs_grp, needs_alt.
  - eapply needs_weaken; [|apply needs_run3]. intros k H. left. exact H.
  - eapply needs_weaken; [|apply needs_run3]. intros k H. right. exact H.
Qed.

Lemma needs_fencedCode : needs (has [backtick]) fencedCodeRe.
Proof.
  unfold fencedCodeRe. apply needs_seqs_tl; [apply mono_has|discriminate|].
  apply needs_seqs_hd; [apply mono_has|]. apply needs_grp, needs_run3.
Qed.

Lemma needs_inlineCode : needs (has [backtick]) inlineCodeRe.
Proof.
  unfold inlineCodeRe. apply needs_seqs_hd; [apply mono_has|].
  apply needs_grp. apply needs_rep; [apply mono_has|].
  apply needs_chr. intros d H. apply has_chr, H.
Qed.

(** A pattern that begins with a literal containing [L]. *)
Lemma needs_lit_first L L' l :
  includes L' L = true -> needs (has L) (seqs (lit L' :: l)).
Proof.
  intros H. apply needs_seqs_hd; [apply mono_has|]. apply needs_lit. exact H.
Qed.

Lemma needs_chr_first c l : needs (has [c]) (seqs (Chr (is_c c) :: l)).
Proof.
  apply needs_seqs_hd; [apply mono_has|]. apply needs_chr.
  intros d H. apply has_chr, H.
Qed.

Lemma needs_sub : needs (has [tilde]) subRe.
Proof.
  unfold subRe. apply needs_seqs_tl; [apply mono_has|discriminate|].
  apply needs_chr_first.
Qed.

(** ** Captures *)

Section RepeatCaps.
Variable m : mstate -> list mstate.
Hypothesis m_caps : forall st x, In x (m st) -> caps x = caps st.

Lemma rep_caps g fuel : forall mn mx st x,
  In x (rep m g mn mx fuel st) -> caps x = caps st.
Proof.
  induction fuel as [|f IH]; intros mn mx st x Hin; simpl in Hin.
  - contradiction.
  - destruct mn as [|mn'].
    + destruct (is_zero_max mx).
      * destruct Hin as [<-|[]]. reflexivity.
      * assert (Hmore :
          In x (flat_map
            (fun st1 =>
               if Nat.ltb (length (rest st1)) (length (rest st))
               then rep m g 0 (pred_max mx) f st1 else []) (m st))
          -> caps x = caps st).
        { intros H. apply in_flat_map in H. destruct H as [st1 [H1 H2]].
          destruct (Nat.ltb _ _); [|contradiction].
          rewrite (IH _ _ _ _ H2). apply m_caps, H1. }
        destruct g.
        -- apply in_app_or in Hin. destruct Hin as [H|[<-|[]]];
             [apply Hmore, H|reflexivity].
        -- destruct Hin as [<-|H]; [reflexivity|apply Hmore, H].
    + apply in_flat_map in Hin. destruct Hin as [st1 [H1 H2]].
      rewrite (IH _ _ _ _ H2). apply m_caps, H1.
Qed.
End RepeatCaps.

(** A pattern without groups leaves the captures as they are. *)
Lemma mt_caps r : no_grp r = true ->
  forall st x, In x (mt r st) -> caps x = caps st.
Proof.
  induction r; intros Hg st x Hin; cbn [no_grp] in Hg; cbn [mt] in Hin;
    try discriminate.
  - destruct Hin as [<-|[]]. reflexivity.
  - apply mt_chr_in in Hin. destruct Hin as [c [_ [_ ->]]]. reflexivity.
  - apply andb_prop in Hg. destruct Hg as [H1 H2].
    apply in_flat_map in Hin. destruct Hin as [y [Hy Hx]].
    rewrite (IHr2 H2 _ _ Hx). apply (IHr1 H1 _ _ Hy).
  - apply andb_prop in Hg. destruct Hg as [H1 H2].
    apply in_app_or in Hin. destruct Hin; [apply IHr1|apply IHr2]; assumption.
  - eapply rep_caps; [|exact Hin]. apply IHr, Hg.
  - destruct (getcap i (caps st)) as [v|].
    + destruct (strip_prefix v (rest st)); [|contradiction].
      destruct Hin as [<-|[]]. reflexivity.
    + destruct Hin as [<-|[]]. reflexivity.
  - destruct (before st); [|contradiction]. destruct Hin as [<-|[]]. reflexivity.
  - destruct (rest st); [|contradiction]. destruct Hin as [<-|[]]. reflexivity.
  - destruct (before st) as [|c ?].
    + destruct Hin as [<-|[]]. reflexivity.
    + destruct (p c); [contradiction|]. destruct Hin as [<-|[]]. reflexivity.
  - destruct (rest st) as [|c ?].
    + destruct Hin as [<-|[]]. reflexivity.
    + destruct (p c); [contradiction|]. destruct Hin as [<-|[]]. reflexivity.
Qed.

(** ** The nested-list pass on lines without indentation *)

Lemma split_chr_nonempty sep s : forall cur, split_chr sep cur s <> [].
Proof.
  induction s as [|c s IH]; intros cur; simpl; [discriminate|].
  destruct (c =? sep); [discriminate|apply IH].
Qed.

Lemma join_split_chr s : forall cur,
  join nl (split_chr 10 cur s) = rev cur ++ s.
Proof.
  induction s as [|c s IH]; intros cur; cbn [split_chr].
  - simpl. rewrite app_nil_r. reflexivity.
  - destruct (N.eqb_spec c 10) as [->|Hne].
    + pose proof (split_chr_nonempty 10 s []) as Hn.
      specialize (IH []). destruct (split_chr 10 [] s) as [|b l]; [contradiction|].
      cbn [join]. cbn [join] in IH. rewrite IH. reflexivity.
    + rewrite IH. simpl. rewrite <- app_assoc. reflexivity.
Qed.

Lemma join_split_nl s : join nl (split_nl s) = s.
Proof. unfold split_nl. rewrite join_split_chr. reflexivity. Qed.

Lemma listLine_indent line lm :
  exec listLineRe line = Some lm ->
  exists t, line = group_s 1 lm ++ t /\ forallb is_space (group_s 1 lm) = true.
Proof.
  unfold listLineRe. rewrite exec_anchored. intros H.
  apply match_at_inv in H. destruct H as [st [k [Hin [_ ->]]]].
  rewrite mt_seqs_cons in Hin. apply in_flat_map in Hin.
  destruct Hin as [x0 [Hx0 Hin]]. destruct Hx0 as [<-|[]].
  rewrite mt_seqs_cons in Hin. apply in_flat_map in Hin.
  destruct Hin as [x1 [Hx1 Hin]]. cbn [mt] in Hx1.
  apply in_map_iff in Hx1. destruct Hx1 as [y1 [<- Hy1]].
  apply rep_class_in in Hy1. destruct Hy1 as [k1 [E1 [Ey1 [Hk1 _]]]].
  rewrite mt_seqs_cons in Hin. apply in_flat_map in Hin.
  destruct Hin as [x2 [Hx2 Hin]].
  change (mt (Grp 2 ?a) ?s) with (map (setcap 2 s) (mt a s)) in Hx2.
  apply in_map_iff in Hx2. destruct Hx2 as [y2 [<- Hy2]].
  apply mt_caps in Hy2; [|reflexivity].
  cbn [seqs mt] in Hin. destruct (rest (setcap 2 _ y2)); [|contradiction].
  destruct Hin as [<-|[]].
  unfold group_s, group. cbn [m_caps setcap caps getcap Nat.eqb].
  rewrite Hy2. cbn [setcap caps getcap Nat.eqb].
  assert (Hc : consumed (MState [] line []) y1 = k1).
  { apply moved_consumed. split; [exact E1|]. rewrite Ey1. reflexivity. }
  rewrite Hc. exists (rest y1). split; [exact E1|exact Hk1].
Qed.

Lemma fixLine_unindented first prev line :
  unindented line = true -> fixLine first prev line = [line].
Proof.
  intros H. unfold fixLine.
  destruct (exec listLineRe line) as [lm|] eqn:E; [|reflexivity].
  destruct (listLine_indent _ _ E) as [t [El Hk]].
  destruct (group_s 1 lm) as [|c k] eqn:Eg.
  - simpl. destruct (exec listLineRe prev); reflexivity.
  - exfalso. rewrite El in H. simpl in H, Hk.
    apply andb_prop in Hk. destruct Hk as [Hc _]. rewrite Hc in H. discriminate.
Qed.

Lemma fixLines_unindented lines : forall first prev,
  forallb unindented lines = true -> fixLines first prev lines = lines.
Proof.
  induction lines as [|l lines IH]; intros first prev H; [reflexivity|].
  simpl in H. apply andb_prop in H. destruct H as [Hl Hr].
  cbn [fixLines]. rewrite (fixLine_unindented _ _ _ Hl), (IH _ _ Hr).
  reflexivity.
Qed.

(** ** C3: processing the output again *)

Lemma fixNestedLists_inert x :
  includes x [backtick] = false -> includes x [tilde] = false ->
  forallb unindented (split_nl x) = true ->
  fixNestedLists x = x.
Proof.
  intros Hb Ht Hl. unfold fixNestedLists.
  rewrite replace_all_st_no_match.
  - cbn [restoreForLists]. rewrite (fixLines_unindented _ _ _ Hl).
    apply join_split_nl.
  - unfold no_match.
    apply (needs_no_match _ _ _ needs_anyFence);
      [apply mono_or; apply mono_has|].
    unfold has. rewrite Hb, Ht. intros [H|H]; discriminate.
Qed.

Lemma protect_inert x : includes x [backtick] = false -> protect x = (x, []).
Proof.
  intros Hb. unfold protect.
  rewrite replace_all_st_no_match
    by (apply (needs_has_no_match [backtick]); [apply needs_fencedCode|exact Hb]).
  rewrite replace_all_st_no_match
    by (apply (needs_has_no_match [backtick]); [apply needs_inlineCode|exact Hb]).
  reflexivity.
Qed.

Lemma restore_inert x cbs : includes x marker = false -> restore x cbs = x.
Proof.
  intros H. unfold restore. apply replace_all_no_match.
  apply (needs_has_no_match marker); [|exact H].
  unfold placeholderRe. apply needs_lit_first. apply includes_refl.
Qed.

Lemma processContent_inert x : inert x = true -> processContent x = Some x.
Proof.
  unfold inert, triggers. intros H. apply andb_prop in H. destruct H as [H Hl].
  cbn [forallb] in H.
  repeat match type of H with
  | (_ && _) = true => apply andb_prop in H; destruct H as [?H H]
  end.
  repeat match goal with
  | H : negb _ = true |- _ => apply negb_true_iff in H
  end.
  unfold processContent. destruct (trim x) as [|c0 t0]; [reflexivity|].
  rewrite fixNestedLists_inert by assumption.
  rewrite protect_inert by assumption.
  assert (Hfence : forall L' l, includes L' (U ":::") = true ->
            no_match (seqs (lit L' :: l)) x).
  { intros L' l HL. apply (needs_has_no_match (U ":::")); [|assumption].
    apply needs_lit_first, HL. }
  rewrite (replace_all_no_match chartRe) by (apply Hfence; reflexivity).
  rewrite (replace_all_no_match videoRe1) by (apply Hfence; reflexivity).
  rewrite (replace_all_no_match videoRe2) by (apply Hfence; reflexivity).
  rewrite (replace_all_no_match alertRe1) by (apply Hfence; reflexivity).
  rewrite (replace_all_no_match alertRe2) by (apply Hfence; reflexivity).
  rewrite (replace_all_tpl_no_match highlightRe)
    by (apply (needs_has_no_match (U "=="));
        [apply needs_lit_first; reflexivity|assumption]).
  rewrite (replace_all_tpl_no_match supRe)
    by (apply (needs_has_no_match (U "^"));
        [apply (needs_chr_first 94)|assumption]).
  rewrite (replace_all_tpl_no_match subRe)
    by (apply (needs_has_no_match [tilde]); [apply needs_sub|assumption]).
  rewrite (replace_all_no_match imageRe)
    by (apply (needs_has_no_match (U "["));
        [apply needs_lit_first; reflexivity|assumption]).
  rewrite (replace_all_no_match titledLinkRe)
    by (apply (needs_has_no_match (U "["));
        [apply (needs_chr_first 91)|assumption]).
  rewrite (replace_all_tpl_no_match iconLinkRe)
    by (apply (needs_has_no_match (U "["));
        [apply (needs_chr_first 91)|assumption]).
  rewrite (replace_all_opt_no_match chatRe1) by (apply Hfence; reflexivity).
  cbn [bind].
  rewrite (replace_all_opt_no_match chatRe2) by (apply Hfence; reflexivity).
  cbn [bind].
  rewrite (replace_all_opt_no_match tabsRe) by (apply Hfence; reflexivity).
  cbn [bind].
  rewrite (replace_all_opt_no_match linkCardRe) by (apply Hfence; reflexivity).
  cbn [bind].
  rewrite (replace_all_opt_no_match chatRe1) by (apply Hfence; reflexivity).
  cbn [bind].
  rewrite (replace_all_opt_no_match chatRe2) by (apply Hfence; reflexivity).
  cbn [bind].
  rewrite (replace_all_opt_no_match timelineRe) by (apply Hfence; reflexivity).
  cbn [bind].
  rewrite restore_inert by assumption. reflexivity.
Qed.


(** ** Decimal numerals *)

Lemma uint_digits_all u : forallb is_digit (uint_digits u) = true.
Proof. induction u; simpl; try rewrite IHu; reflexivity. Qed.

Lemma parseInt_uint u : forall acc,
  fold_left (fun a c => 10 * a + (c - 48)) (uint_digits u) (N.of_nat acc) =
  N.of_nat (Nat.of_uint_acc u acc).
Proof.
  induction u; intros acc; cbn [uint_digits fold_left Nat.of_uint_acc];
    try reflexivity;
    rewrite <- IHu; f_equal; rewrite Nat.tail_mul_spec; lia.
Qed.

Lemma parseInt_num_str n : N.to_nat (parseInt (num_str n)) = n.
Proof.
  unfold parseInt, num_str. change 0 with (N.of_nat 0).
  rewrite parseInt_uint. change (Nat.of_uint_acc ?u 0) with (Nat.of_uint u).
  rewrite DecimalNat.Unsigned.of_to. apply Nat2N.id.
Qed.

Lemma num_str_digits n : forallb is_digit (num_str n) = true.
Proof. apply uint_digits_all. Qed.

Lemma num_str_nonempty n : num_str n <> [].
Proof.
  unfold num_str. intros H.
  assert (E : Nat.to_uint n = Decimal.Nil)
    by (destruct (Nat.to_uint n); simpl in H; try discriminate; reflexivity).
  pose proof (DecimalNat.Unsigned.of_to n) as Hn. rewrite E in Hn.
  simpl in Hn. subst n. discriminate.
Qed.

(** ** Prefixes *)

Lemma startsWith_app s L Y : startsWith s L = true -> startsWith (s ++ Y) L = true.
Proof.
  unfold startsWith. intros H.
  destruct (strip_prefix L s) as [t|] eqn:E; [|discriminate].
  rewrite (strip_prefix_app_r _ _ Y _ E). reflexivity.
Qed.

(** A prefix that would have to pass over a foreign unit ends before
    it. *)
Lemma startsWith_before L : forall w c Y,
  existsb (N.eqb c) L = false ->
  startsWith (w ++ c :: Y) L = true -> startsWith w L = true.
Proof.
  unfold startsWith.
  induction L as [|a L IH]; intros w c Y Hc H; [reflexivity|].
  simpl in Hc. apply orb_false_iff in Hc. destruct Hc as [Hca HcL].
  destruct w as [|b w]; simpl in *.
  - rewrite N.eqb_sym, Hca in H. discriminate.
  - destruct (a =? b); [|discriminate]. eapply IH; eassumption.
Qed.

Lemma startsWith_short L : forall w Y,
  (length L <= length w)%nat ->
  startsWith (w ++ Y) L = true -> startsWith w L = true.
Proof.
  unfold startsWith.
  induction L as [|a L IH]; intros w Y Hl H; [reflexivity|].
  destruct w as [|b w]; simpl in *; [lia|].
  destruct (a =? b); [|discriminate]. apply (IH w Y); [lia|exact H].
Qed.

Lemma includes_startsWith s L : includes s L = false -> startsWith s L = false.
Proof.
  destruct s; simpl; intros H; apply orb_false_iff in H; apply H.
Qed.

Lemma includes_tail c s L : includes (c :: s) L = false -> includes s L = false.
Proof. simpl. intros H. apply orb_false_iff in H. apply H. Qed.

Lemma includes_suffix a s L : includes (a ++ s) L = false -> includes s L = false.
Proof.
  intros H. destruct (includes s L) eqn:E; [|reflexivity].
  rewrite (includes_app_l a _ _ E) in H. discriminate.
Qed.


Lemma takeWhile_prefix p k : forall t r,
  forallb p k = true -> t = k ++ r ->
  exists k', takeWhile p t = k ++ k' /\ r = k' ++ dropWhile p t.
Proof.
  induction k as [|c k IH]; intros t r Hk E; subst t.
  - exists (takeWhile p r). split; [reflexivity|].
    symmetry. apply takeWhile_dropWhile.
  - simpl in Hk. apply andb_prop in Hk. destruct Hk as [Hc Hk].
    destruct (IH (k ++ r) r Hk eq_refl) as [k' [E1 E2]].
    exists k'. simpl. rewrite Hc, E1. split; [reflexivity|exact E2].
Qed.

(** ** Placeholders *)

Lemma placeholder_eq n : placeholder n = ph_text (num_str n).
Proof. reflexivity. Qed.

Lemma ph_text_chr ds : forallb is_digit ds = true -> forallb ph_chr (ph_text ds) = true.
Proof.
  intros H. unfold ph_text. rewrite !forallb_app.
  apply andb_true_intro. split; [reflexivity|].
  apply andb_true_intro. split; [|reflexivity].
  rewrite forallb_forall in *. intros c Hc. unfold ph_chr.
  rewrite (H c Hc). reflexivity.
Qed.

Lemma placeholder_at_intro ds Y :
  ds <> [] -> forallb is_digit ds = true ->
  placeholder_at (ph_text ds ++ Y) = Some (ds, Y).
Proof.
  intros Hne Hd. unfold placeholder_at, ph_text.
  rewrite <- !app_assoc, strip_prefix_refl.
  assert (Hs : stops is_digit (U "___" ++ Y)) by reflexivity.
  destruct (takeWhile_app is_digit ds _ Hd Hs) as [-> ->].
  destruct ds as [|d ds]; [contradiction|].
  rewrite strip_prefix_refl. reflexivity.
Qed.

Lemma placeholder_at_inv s ds post :
  placeholder_at s = Some (ds, post) ->
  s = ph_text ds ++ post /\ ds <> [] /\ forallb is_digit ds = true.
Proof.
  unfold placeholder_at, ph_text. intros H.
  destruct (strip_prefix marker s) as [t|] eqn:E; [|discriminate].
  apply strip_prefix_app in E.
  destruct (takeWhile is_digit t) as [|d ds'] eqn:Ed; [discriminate|].
  destruct (strip_prefix (U "___") (dropWhile is_digit t)) as [p|] eqn:Ep;
    [|discriminate].
  injection H as <- <-. apply strip_prefix_app in Ep.
  split; [|split; [discriminate|rewrite <- Ed; apply takeWhile_all]].
  rewrite E, <- !app_assoc. f_equal.
  rewrite <- (takeWhile_dropWhile is_digit t) at 1. rewrite Ed, Ep.
  reflexivity.
Qed.

Lemma placeholder_at_marker s :
  placeholder_at s <> None -> startsWith s marker = true.
Proof.
  unfold placeholder_at, startsWith.
  destruct (strip_prefix marker s); [reflexivity|]. intros H. contradiction.
Qed.

(** Two ways to split a text, one of whose parts is made of placeholder
    units and the other of which contains a foreign unit. *)
Lemma app_split_foreign rho : forall u c X post,
  forallb ph_chr rho = true -> ph_chr c = false ->
  u ++ c :: X = rho ++ post ->
  exists u', u = rho ++ u' /\ post = u' ++ c :: X.
Proof.
  induction rho as [|a rho IH]; intros u c X post Hr Hc E.
  - exists u. split; [reflexivity|]. symmetry. exact E.
  - simpl in Hr. apply andb_prop in Hr. destruct Hr as [Ha Hr].
    destruct u as [|b u]; simpl in E.
    + injection E as -> _. congruence.
    + injection E as -> E. destruct (IH u c X post Hr Hc E) as [u' [-> ->]].
      exists u'. split; reflexivity.
Qed.

Lemma placeholder_at_local u c X ds post :
  ph_chr c = false ->
  placeholder_at (u ++ c :: X) = Some (ds, post) ->
  exists u', u = ph_text ds ++ u' /\ post = u' ++ c :: X.
Proof.
  intros Hc H. apply placeholder_at_inv in H. destruct H as [E [_ Hd]].
  apply (app_split_foreign (ph_text ds)); [apply ph_text_chr, Hd|exact Hc|exact E].
Qed.

(** A placeholder does not begin in the thirteen units before another
    one. *)
Lemma placeholder_border w Z :
  (1 <= length w <= 13)%nat -> placeholder_at (w ++ marker ++ Z) = None.
Proof.
  intros Hl. unfold placeholder_at.
  let m := eval vm_compute in marker in change marker with m.
  destruct w as [|c1 [|c2 [|c3 [|c4 [|c5 [|c6 [|c7 [|c8 [|c9 [|c10 [|c11 [|c12 [|c13 [|c14 w]]]]]]]]]]]]]];
    simpl in Hl; try lia;
    cbn [app strip_prefix];
    repeat match goal with
    | |- context [N.eqb ?a ?b] =>
        destruct (N.eqb_spec a b); [subst|]; cbn [strip_prefix]
    end; try reflexivity; try discriminate; try lia.
Qed.

Lemma match_of_moved bef s k x :
  moved (MState bef s []) k x -> match_of bef s x = RMatch bef k (caps x) (rest x).
Proof.
  intros H. unfold match_of. f_equal.
  pose proof (moved_consumed _ _ _ H) as Hc. exact Hc.
Qed.

(** The placeholder pattern matches exactly at the strings recognised by
    [placeholder_at]. *)
Lemma placeholder_match bef s :
  match_at placeholderRe bef s =
  match placeholder_at s with
  | Some (ds, post) => Some (RMatch bef (ph_text ds) [(1%nat, ds)] post)
  | None => None
  end.
Proof.
  destruct (placeholder_at s) as [[ds post]|] eqn:Ep.
  - apply placeholder_at_inv in Ep. destruct Ep as [-> [Hne Hd]].
    set (s := ph_text ds ++ post).
    set (st0 := MState bef s []).
    set (st1 := adv_by marker (ds ++ U "___" ++ post) st0).
    set (st2 := setcap 1 st1 (adv_by ds (U "___" ++ post) st1)).
    set (st3 := adv_by (U "___") post st2).
    assert (Hhd : hd_is placeholderRe st0 st3).
    { unfold placeholderRe.
      apply hd_seqs_cons with (x := st1).
      { unfold hd_is. rewrite mt_lit.
        replace (rest st0) with (marker ++ ds ++ U "___" ++ post)
          by (unfold st0, s, ph_text; cbn [rest]; rewrite <- !app_assoc;
              reflexivity).
        rewrite strip_prefix_refl. eexists. reflexivity. }
      apply hd_seqs_cons with (x := st2).
      { apply hd_grp. apply hd_plus; [reflexivity|exact Hd|reflexivity|exact Hne]. }
      apply hd_seqs_cons with (x := st3); [|apply hd_seqs_nil].
      unfold hd_is. rewrite mt_lit.
      change (rest st2) with (U "___" ++ post).
      rewrite strip_prefix_refl. eexists. reflexivity. }
    rewrite (hd_match _ _ _ _ Hhd).
    rewrite (match_of_moved bef s (ph_text ds)).
    + unfold st3, st2, setcap, adv_by. cbn [caps rest]. f_equal. f_equal.
      f_equal. f_equal. apply moved_consumed. split; simpl; reflexivity.
    + split; [reflexivity|]. unfold st3, st2, st1, st0, adv_by, setcap, ph_text.
      cbn [before]. rewrite !rev_app_distr, <- !app_assoc. reflexivity.
  - apply match_at_none. unfold placeholderRe.
    apply mt_seqs_none. intros x Hx. rewrite mt_lit in Hx. simpl rest in Hx.
    unfold placeholder_at in Ep.
    destruct (strip_prefix marker s) as [t|] eqn:Et; [|contradiction].
    destruct Hx as [<-|[]].
    apply mt_seqs_none. intros y Hy. cbn [mt] in Hy.
    apply in_map_iff in Hy. destruct Hy as [z [<- Hz]].
    apply rep_class_in in Hz. destruct Hz as [k [E [Ez [Hk [Hn _]]]]].
    simpl rest in E. cbn [seqs]. rewrite mt_lit. cbn [setcap rest].
    destruct (takeWhile_prefix is_digit k t (rest z) Hk E) as [k' [E1 E2]].
    destruct (takeWhile is_digit t) as [|d ds] eqn:Ed.
    { destruct k; [simpl in Hn; lia|discriminate]. }
    destruct k' as [|c k'].
    + simpl in E2. rewrite E2.
      destruct (strip_prefix (U "___") (dropWhile is_digit t)); [discriminate|].
      reflexivity.
    + assert (Hc : is_digit c = true).
      { pose proof (takeWhile_all is_digit t) as Ha. rewrite Ed, E1 in Ha.
        rewrite forallb_app in Ha. apply andb_prop in Ha. destruct Ha as [_ Ha].
        simpl in Ha. apply andb_prop in Ha. apply Ha. }
      rewrite E2. cbn [app strip_prefix].
      change (U "___") with [95; 95; 95]. cbn [strip_prefix].
      destruct (N.eqb_spec 95 c); [subst c; discriminate|reflexivity].
Qed.

(** ** Restoring *)

Lemma Dec_loop cbs s out :
  Dec cbs s out ->
  forall bef,
    replace_loop placeholderRe
      (fun (_ : unit) m => o <- Some (lookupBlock cbs m) ;; Some (o, tt))
      0 bef s tt = Some (out, tt).
Proof.
  induction 1 as [|s ds post out Hp _ IH|c s out Hp _ IH]; intros bef.
  - apply replace_loop_nil. rewrite placeholder_match. reflexivity.
  - pose proof (placeholder_match bef s) as Hm. rewrite Hp in Hm.
    rewrite (replace_loop_hit _ _ _ _ _ _ Hm).
    + cbn [bind m_text m_post]. rewrite IH. reflexivity.
    + simpl. discriminate.
  - rewrite replace_loop_miss by (rewrite placeholder_match, Hp; reflexivity).
    rewrite IH. reflexivity.
Qed.

Lemma Dec_restore cbs s out : Dec cbs s out -> restore s cbs = out.
Proof.
  intros H. unfold restore, replace_all, replace_all_opt, replace_all_st.
  rewrite (Dec_loop _ _ _ H). reflexivity.
Qed.

(** ** The shape of the protected matches *)

Lemma grp_in i a st x :
  In x (mt (Grp i a) st) -> no_grp a = true ->
  exists k, moved st k x /\ caps x = (i, k) :: caps st.
Proof.
  intros Hin Hg. cbn [mt] in Hin. apply in_map_iff in Hin.
  destruct Hin as [y [<- Hy]].
  destruct (mt_moved _ _ _ Hy) as [k Hk]. exists k.
  split; [apply moved_setcap, Hk|]. unfold setcap. cbn [caps].
  rewrite (moved_consumed _ _ _ Hk), (mt_caps _ Hg _ _ Hy). reflexivity.
Qed.

Lemma seqs_in a l st x :
  In x (mt (seqs (a :: l)) st) ->
  exists y, In y (mt a st) /\ In x (mt (seqs l) y).
Proof. rewrite mt_seqs_cons. intros H. apply in_flat_map in H. exact H. Qed.

Lemma same_units c k : forallb (is_c c) k = true -> c :: k = k ++ [c].
Proof.
  induction k as [|d k IH]; intros H; [reflexivity|].
  simpl in H. apply andb_prop in H. destruct H as [Hd Hk].
  apply N.eqb_eq in Hd. subst d. simpl. rewrite <- (IH Hk). reflexivity.
Qed.

(** A fenced match is its prefix (empty at the start of the document, a
    line break elsewhere) followed by a non-empty code block. *)
Lemma fenced_match_shape bef s m :
  match_at fencedCodeRe bef s = Some m ->
  exists code, m_text m = group_s 1 m ++ code /\ code <> [] /\
    ((group_s 1 m = [] /\ bef = []) \/ group_s 1 m = [10]).
Proof.
  intros H. apply match_at_inv in H. destruct H as [st [k [Hin [Hk ->]]]].
  unfold fencedCodeRe in Hin.
  apply seqs_in in Hin. destruct Hin as [x1 [H1 Hin]].
  pose proof H1 as H1'. apply grp_in in H1'; [|reflexivity].
  destruct H1' as [k1 [M1 C1]].
  apply seqs_in in Hin. destruct Hin as [x2 [H2 Hin]].
  pose proof H2 as H2'. apply grp_in in H2'; [|reflexivity].
  destruct H2' as [k2 [M2 C2]].
  apply seqs_in in Hin. destruct Hin as [x3 [H3 Hin]].
  pose proof H3 as H3'. apply grp_in in H3'; [|reflexivity].
  destruct H3' as [k3 [M3 C3]].
  cbn [seqs] in Hin.
  pose proof (mt_caps (Ref 2) eq_refl _ _ Hin) as C4.
  destruct (mt_moved _ _ _ Hin) as [k4 M4].
  assert (Ek : k = k1 ++ k2 ++ k3 ++ k4).
  { eapply moved_unique; [exact Hk|].
    eapply moved_trans; [exact M1|]. eapply moved_trans; [exact M2|].
    eapply moved_trans; [exact M3|exact M4]. }
  assert (Hg : group_s 1 (RMatch bef k (caps st) (rest st)) = k1).
  { unfold group_s, group. cbn [m_caps]. rewrite C4, C3, C2, C1. reflexivity. }
  rewrite Hg. cbn [m_text]. exists (k2 ++ k3 ++ k4).
  split; [exact Ek|]. split.
  - cbn [mt] in H2. apply in_map_iff in H2. destruct H2 as [y2 [E2x Hy2]].
    apply rep_class_in in Hy2. destruct Hy2 as [k2' [E2 [Ey [_ [Hn _]]]]].
    assert (k2' = k2).
    { (* both are what was passed over between [x1] and [x2] *)
      assert (Hm : moved x1 k2' y2) by (split; [exact E2|rewrite Ey; reflexivity]).
      apply (moved_setcap 2 x1) in Hm.
      eapply moved_unique; [exact Hm|].
      rewrite E2x. exact M2. }
    subst k2'. destruct k2; [simpl in Hn; lia|discriminate].
  - cbn [mt] in H1. apply in_map_iff in H1. destruct H1 as [y1 [E1 Hy1]].
    apply in_app_or in Hy1. destruct Hy1 as [Hy1|Hy1].
    + cbn [mt before] in Hy1. destruct bef; [|contradiction].
      destruct Hy1 as [<-|[]]. left. split; [|reflexivity].
      eapply moved_unique; [exact M1|]. rewrite <- E1.
      apply moved_setcap, moved_refl.
    + right. apply mt_chr_in in Hy1. destruct Hy1 as [c [Ec [Hc Ey]]].
      apply N.eqb_eq in Hc. subst c.
      eapply moved_unique; [exact M1|]. rewrite <- E1.
      apply moved_setcap. split; [exact Ec|rewrite Ey; reflexivity].
Qed.

(** An inline match begins and ends with a backtick. *)
Lemma inline_match_shape bef s m :
  match_at inlineCodeRe bef s = Some m ->
  exists u, m_text m = backtick :: u ++ [backtick].
Proof.
  intros H. apply match_at_inv in H. destruct H as [st [k [Hin [Hk ->]]]].
  unfold inlineCodeRe in Hin.
  apply seqs_in in Hin. destruct Hin as [x1 [H1 Hin]].
  pose proof H1 as H1'. apply grp_in in H1'; [|reflexivity].
  destruct H1' as [k1 [M1 C1]].
  apply seqs_in in Hin. destruct Hin as [x2 [H2 Hin]].
  pose proof H2 as H2'. apply grp_in in H2'; [|reflexivity].
  destruct H2' as [k2 [M2 C2]].
  cbn [seqs mt] in Hin. rewrite C2, C1 in Hin. cbn [getcap Nat.eqb] in Hin.
  destruct (strip_prefix k1 (rest x2)) as [t|] eqn:Et; [|contradiction].
  destruct Hin as [<-|[]].
  assert (M3 : moved x2 k1 (MState (rev k1 ++ before x2) t (caps x2))).
  { split; [apply strip_prefix_app, Et|reflexivity]. }
  assert (Ek : k = k1 ++ k2 ++ k1).
  { eapply moved_unique; [exact Hk|].
    eapply moved_trans; [exact M1|]. eapply moved_trans; [exact M2|exact M3]. }
  cbn [m_text]. rewrite Ek.
  cbn [mt] in H1. apply in_map_iff in H1. destruct H1 as [y1 [E1 Hy1]].
  apply rep_class_in in Hy1. destruct Hy1 as [k1' [E1' [Ey [Hb [Hn _]]]]].
  assert (k1' = k1).
  { assert (Hm : moved (MState bef s []) k1' y1)
      by (split; [exact E1'|rewrite Ey; reflexivity]).
    apply (moved_setcap 1 (MState bef s [])) in Hm. rewrite E1 in Hm.
    eapply moved_unique; eassumption. }
  subst k1'. destruct k1 as [|b k1]; [simpl in Hn; lia|].
  simpl in Hb. apply andb_prop in Hb. destruct Hb as [Hb Hk1].
  apply N.eqb_eq in Hb. subst b.
  exists (k1 ++ k2 ++ k1). rewrite (same_units _ _ Hk1) at 2.
  simpl. rewrite <- !app_assoc. reflexivity.
Qed.

(** ** The list of protected spans only grows *)

Section Growing.
Variable r : regex.
Variable f : list jsstr -> rmatch -> option (jsstr * list jsstr).
Hypothesis f_grows : forall st m out st',
  f st m = Some (out, st') -> exists e, st' = st ++ e.

Lemma replace_loop_grows : forall s k bef st out st',
  replace_loop r f k bef s st = Some (out, st') -> exists e, st' = st ++ e.
Proof.
  induction s as [|c s IH]; intros k bef st out st' H.
  - destruct k; simpl in H.
    + destruct (match_at r bef []) as [m|].
      * destruct (f st m) as [[o st1]|] eqn:Ef; simpl in H; [|discriminate].
        injection H as _ <-. eapply f_grows, Ef.
      * injection H as _ <-. exists []. rewrite app_nil_r. reflexivity.
    + injection H as _ <-. exists []. rewrite app_nil_r. reflexivity.
  - destruct k; cbn [replace_loop] in H.
    + destruct (match_at r bef (c :: s)) as [m|].
      * destruct (f st m) as [[o st1]|] eqn:Ef; simpl in H; [|discriminate].
        destruct (f_grows _ _ _ _ Ef) as [e1 ->].
        destruct (m_text m) as [|? t].
        -- destruct (replace_loop r f 0 (c :: bef) s (st ++ e1))
             as [[tl st2]|] eqn:El; simpl in H; [|discriminate].
           injection H as _ <-. destruct (IH _ _ _ _ _ El) as [e2 ->].
           exists (e1 ++ e2). rewrite app_assoc. reflexivity.
        -- destruct (replace_loop r f (length t) (c :: bef) s (st ++ e1))
             as [[tl st2]|] eqn:El; simpl in H; [|discriminate].
           injection H as _ <-. destruct (IH _ _ _ _ _ El) as [e2 ->].
           exists (e1 ++ e2). rewrite app_assoc. reflexivity.
      * destruct (replace_loop r f 0 (c :: bef) s st)
          as [[tl st2]|] eqn:El; simpl in H; [|discriminate].
        injection H as _ <-. eapply IH, El.
    + eapply IH, H.
Qed.
End Growing.

Lemma protectFenced_grows st m out st' :
  protectFenced st m = Some (out, st') -> exists e, st' = st ++ e.
Proof. unfold protectFenced. intros H. injection H as _ <-. eexists. reflexivity. Qed.

Lemma protectInline_grows st m out st' :
  protectInline st m = Some (out, st') -> exists e, st' = st ++ e.
Proof.
  unfold protectInline. destruct (includes (m_text m) marker); intros H;
    injection H as _ <-.
  - exists []. rewrite app_nil_r. reflexivity.
  - eexists. reflexivity.
Qed.

(** ** C2: masking and restoring *)

Lemma fenced_text_nonempty bef s m :
  match_at fencedCodeRe bef s = Some m -> m_text m <> [].
Proof.
  intros H. destruct (fenced_match_shape _ _ _ H) as [code [E [Hne _]]].
  rewrite E. intros Hn. apply app_eq_nil in Hn. destruct Hn as [_ Hn].
  contradiction.
Qed.

Lemma inline_text_nonempty bef s m :
  match_at inlineCodeRe bef s = Some m -> m_text m <> [].
Proof.
  intros H. destruct (inline_match_shape _ _ _ H) as [u E]. rewrite E.
  discriminate.
Qed.

Lemma match_at_nil_nonempty r bef :
  (forall m, match_at r bef [] = Some m -> m_text m <> []) ->
  match_at r bef [] = None.
Proof.
  intros H. destruct (match_at r bef []) as [m|] eqn:E; [|reflexivity].
  exfalso. apply (H m eq_refl). destruct (match_at_split _ _ _ _ E) as [Hs _].
  symmetry in Hs. apply app_eq_nil in Hs. apply Hs.
Qed.

Lemma protectFenced_out cbs bef s m :
  match_at fencedCodeRe bef s = Some m ->
  exists pfx code,
    m_text m = pfx ++ code /\
    protectFenced cbs m = Some (pfx ++ placeholder (length cbs), cbs ++ [code]) /\
    ((pfx = [] /\ bef = []) \/ pfx = [10]).
Proof.
  intros H. destruct (fenced_match_shape _ _ _ H) as [code [E [_ Hp]]].
  exists (group_s 1 m), code. split; [exact E|]. split; [|exact Hp].
  unfold protectFenced. rewrite E, skipn_app, Nat.sub_diag, skipn_all.
  reflexivity.
Qed.

Lemma marker_foreign c : ph_chr c = false -> existsb (N.eqb c) marker = false.
Proof. unfold ph_chr. intros H. apply orb_false_iff in H. apply H. Qed.

(** Behind the first unit of a document a fenced match begins with a
    line break, so that no marker appears in the output where there is
    none in the input. *)
Lemma fenced_head : forall n s, (length s <= n)%nat ->
  forall bef cbs out cbs' u,
    bef <> [] ->
    replace_loop fencedCodeRe protectFenced 0 bef s cbs = Some (out, cbs') ->
    startsWith (u ++ out) marker = true -> startsWith (u ++ s) marker = true.
Proof.
  induction n as [|n IH]; intros s Hl bef cbs out cbs' u Hb Hloop Hst.
  - destruct s; [|simpl in Hl; lia].
    rewrite replace_loop_nil in Hloop
      by (apply match_at_nil_nonempty; intros m; apply fenced_text_nonempty).
    injection Hloop as <- _. exact Hst.
  - destruct s as [|c s].
    + rewrite replace_loop_nil in Hloop
        by (apply match_at_nil_nonempty; intros m; apply fenced_text_nonempty).
      injection Hloop as <- _. exact Hst.
    + destruct (match_at fencedCodeRe bef (c :: s)) as [m|] eqn:Em.
      * rewrite (replace_loop_hit _ _ _ _ _ _ Em (fenced_text_nonempty _ _ _ Em))
          in Hloop.
        destruct (protectFenced_out cbs _ _ _ Em) as [pfx [code [Et [Ef Hp]]]].
        rewrite Ef in Hloop. cbn [bind] in Hloop.
        destruct (replace_loop _ _ _ _ _ _) as [[tl st2]|]; [|discriminate].
        injection Hloop as <- _.
        destruct Hp as [[_ Hbef]|Hp]; [contradiction|]. subst pfx.
        apply startsWith_app. rewrite <- !app_assoc in Hst. simpl in Hst.
        eapply startsWith_before; [|exact Hst]. reflexivity.
      * rewrite (replace_loop_miss _ _ _ _ _ _ Em) in Hloop.
        destruct (replace_loop _ _ 0 (c :: bef) s cbs) as [[tl st2]|] eqn:El;
          [|discriminate].
        injection Hloop as <- _.
        replace (u ++ c :: s) with ((u ++ [c]) ++ s)
          by (rewrite <- app_assoc; reflexivity).
        apply (IH s ltac:(simpl in Hl; lia) (c :: bef) cbs tl st2);
          [discriminate|exact El|].
        rewrite <- app_assoc. exact Hst.
Qed.

Lemma nth_new {A : Type} (l : list A) (x : A) (e : list A) (d : A) :
  nth (length l) ((l ++ [x]) ++ e) d = x.
Proof.
  rewrite <- app_assoc. rewrite app_nth2 by lia. rewrite Nat.sub_diag.
  reflexivity.
Qed.

(** The first pass of [protect] on a document without marker. *)
Lemma fenced_masked : forall n s, (length s <= n)%nat ->
  forall bef cbs out cbs',
    includes s marker = false ->
    replace_loop fencedCodeRe protectFenced 0 bef s cbs = Some (out, cbs') ->
    forall ext, Masked (cbs' ++ ext) out s.
Proof.
  induction n as [|n IH]; intros s Hl bef cbs out cbs' Hfree Hloop ext.
  - destruct s; [|simpl in Hl; lia].
    rewrite replace_loop_nil in Hloop
      by (apply match_at_nil_nonempty; intros m; apply fenced_text_nonempty).
    injection Hloop as <- _. constructor.
  - destruct s as [|c s].
    + rewrite replace_loop_nil in Hloop
        by (apply match_at_nil_nonempty; intros m; apply fenced_text_nonempty).
      injection Hloop as <- _. constructor.
    + destruct (match_at fencedCodeRe bef (c :: s)) as [m|] eqn:Em.
      * pose proof (fenced_text_nonempty _ _ _ Em) as Hne.
        rewrite (replace_loop_hit _ _ _ _ _ _ Em Hne) in Hloop.
        destruct (protectFenced_out cbs _ _ _ Em) as [pfx [code [Et [Ef Hp]]]].
        rewrite Ef in Hloop. cbn [bind] in Hloop.
        destruct (replace_loop _ _ 0 _ (m_post m) (cbs ++ [code]))
          as [[tl st2]|] eqn:El; [|discriminate].
        injection Hloop as <- <-.
        destruct (match_at_split _ _ _ _ Em) as [Es _].
        destruct (replace_loop_grows _ _ protectFenced_grows _ _ _ _ _ _ El)
          as [e Ee].
        assert (Hpost : Masked (st2 ++ ext) tl (m_post m)).
        { apply (IH (m_post m)) with (bef := rev (m_text m) ++ bef)
            (cbs := cbs ++ [code]).
          - apply (f_equal (@length N)) in Es. rewrite length_app in Es.
            destruct (m_text m); [contradiction|]. simpl in Es, Hl. lia.
          - rewrite Es in Hfree. eapply includes_suffix, Hfree.
          - exact El. }
        assert (Hph : Masked (st2 ++ ext) (placeholder (length cbs) ++ tl)
                        (code ++ m_post m)).
        { replace code with
            (nth (N.to_nat (parseInt (num_str (length cbs)))) (st2 ++ ext)
               (U "undefined")).
          - apply Masked_hit with (post := tl).
            + rewrite placeholder_eq. apply placeholder_at_intro;
                [apply num_str_nonempty|apply num_str_digits].
            + rewrite parseInt_num_str, Ee, !length_app. simpl. lia.
            + exact Hpost.
          - rewrite parseInt_num_str, Ee, <- app_assoc. apply nth_new. }
        rewrite Es, Et, <- !app_assoc.
        destruct Hp as [[-> _]| ->]; [exact Hph|].
        apply Masked_miss; [reflexivity|exact Hph].
      * rewrite (replace_loop_miss _ _ _ _ _ _ Em) in Hloop.
        destruct (replace_loop _ _ 0 (c :: bef) s cbs) as [[tl st2]|] eqn:El;
          [|discriminate].
        injection Hloop as <- <-.
        apply Masked_miss.
        -- destruct (startsWith (c :: tl) marker) eqn:Est; [|reflexivity].
           exfalso.
           assert (Hs : startsWith ([c] ++ s) marker = true).
           { apply (fenced_head (length s) s (le_n _) (c :: bef) cbs tl st2
                      [c]); [discriminate|exact El|exact Est]. }
           change ([c] ++ s) with (c :: s) in Hs.
           rewrite (includes_startsWith _ _ Hfree) in Hs. discriminate.
        -- apply (IH s ltac:(simpl in Hl; lia) (c :: bef) cbs tl st2);
             [eapply includes_tail, Hfree|exact El].
Qed.

Lemma backtick_foreign : ph_chr backtick = false.
Proof. reflexivity. Qed.

Lemma inline_match_head bef s m :
  match_at inlineCodeRe bef s = Some m -> exists t, s = backtick :: t.
Proof.
  intros H. destruct (inline_match_shape _ _ _ H) as [u Eu].
  destruct (match_at_split _ _ _ _ H) as [Es _]. rewrite Eu in Es.
  eexists. exact Es.
Qed.

Lemma protectInline_out cbs m :
  protectInline cbs m =
  if includes (m_text m) marker then Some (m_text m, cbs)
  else Some (placeholder (length cbs), cbs ++ [m_text m]).
Proof. reflexivity. Qed.

(** In the output of the inline pass a placeholder does not begin in
    front of the place where the input has a marker. *)
Lemma inline_head : forall n s, (length s <= n)%nat ->
  forall bef cbs out cbs' w,
    w <> [] ->
    replace_loop inlineCodeRe protectInline 0 bef s cbs = Some (out, cbs') ->
    placeholder_at (w ++ out) <> None -> startsWith (w ++ s) marker = true.
Proof.
  induction n as [|n IH]; intros s Hl bef cbs out cbs' w Hw Hloop Hph.
  - destruct s; [|simpl in Hl; lia].
    rewrite replace_loop_nil in Hloop
      by (apply match_at_nil_nonempty; intros m; apply inline_text_nonempty).
    injection Hloop as <- _. apply placeholder_at_marker, Hph.
  - destruct s as [|c s].
    + rewrite replace_loop_nil in Hloop
        by (apply match_at_nil_nonempty; intros m; apply inline_text_nonempty).
      injection Hloop as <- _. apply placeholder_at_marker, Hph.
    + destruct (match_at inlineCodeRe bef (c :: s)) as [m|] eqn:Em.
      * rewrite (replace_loop_hit _ _ _ _ _ _ Em (inline_text_nonempty _ _ _ Em))
          in Hloop.
        rewrite protectInline_out in Hloop.
        destruct (inline_match_shape _ _ _ Em) as [u Eu].
        apply startsWith_app.
        destruct (includes (m_text m) marker); cbn [bind] in Hloop;
          destruct (replace_loop _ _ _ _ _ _) as [[tl st2]|];
          try discriminate; injection Hloop as <- _.
        -- apply placeholder_at_marker in Hph.
           rewrite Eu in Hph. simpl in Hph.
           eapply startsWith_before; [|exact Hph]. reflexivity.
        -- destruct (Nat.le_gt_cases 14 (length w)) as [Hlen|Hlen].
           ++ apply placeholder_at_marker in Hph.
              eapply startsWith_short; [|exact Hph]. exact Hlen.
           ++ exfalso. apply Hph.
              apply (placeholder_border w
                       ((num_str (length cbs) ++ U "___") ++ tl)).
              destruct w; [contradiction|]. simpl in *. lia.
      * rewrite (replace_loop_miss _ _ _ _ _ _ Em) in Hloop.
        destruct (replace_loop _ _ 0 (c :: bef) s cbs) as [[tl st2]|] eqn:El;
          [|discriminate].
        injection Hloop as <- _.
        replace (w ++ c :: s) with ((w ++ [c]) ++ s)
          by (rewrite <- app_assoc; reflexivity).
        apply (IH s ltac:(simpl in Hl; lia) (c :: bef) cbs tl st2).
        -- destruct w; discriminate.
        -- exact El.
        -- rewrite <- app_assoc. exact Hph.
Qed.

(** The inline pass copies a text without backticks. *)
Lemma inline_pass_through u : forall s bef cbs,
  forallb (fun c => negb (c =? backtick)) u = true ->
  replace_loop inlineCodeRe protectInline 0 bef (u ++ s) cbs =
  ('(tl, st') <- replace_loop inlineCodeRe protectInline 0 (rev u ++ bef) s cbs ;;
   Some (u ++ tl, st')).
Proof.
  induction u as [|c u IH]; intros s bef cbs Hu.
  - simpl. destruct (replace_loop _ _ _ _ _ _) as [[tl st']|]; reflexivity.
  - simpl in Hu. apply andb_prop in Hu. destruct Hu as [Hc Hu].
    cbn [app]. rewrite replace_loop_miss.
    + rewrite (IH s (c :: bef) cbs Hu). simpl. rewrite <- app_assoc.
      destruct (replace_loop _ _ _ _ _ _) as [[tl st']|]; reflexivity.
    + destruct (match_at inlineCodeRe bef (c :: u ++ s)) as [m|] eqn:Em;
        [|reflexivity].
      destruct (inline_match_head _ _ _ Em) as [t Et]. injection Et as -> _.
      discriminate.
Qed.

Lemma ph_text_no_backtick ds :
  forallb is_digit ds = true ->
  forallb (fun c => negb (c =? backtick)) (ph_text ds) = true.
Proof.
  intros H. pose proof (ph_text_chr ds H) as Hp.
  rewrite forallb_forall in *. intros c Hc. specialize (Hp c Hc).
  destruct (N.eqb_spec c backtick) as [->|]; [discriminate|reflexivity].
Qed.

Section Phase2.
Variable cbs1 : list jsstr.

(** A masked text that begins with a clean text ending in a foreign
    unit. *)
Lemma Masked_clean_prefix c : forall u r v,
  ph_chr c = false -> includes (u ++ [c]) marker = false ->
  Masked cbs1 ((u ++ [c]) ++ r) v ->
  exists vr, v = (u ++ [c]) ++ vr /\ Masked cbs1 r vr.
Proof.
  induction u as [|a u IH]; intros r v Hc Hfree HM.
  - cbn [app] in HM. inversion HM; subst.
    + exfalso.
      match goal with
      | H : placeholder_at _ = Some _ |- _ =>
          apply (placeholder_at_local [] c r _ _ Hc) in H;
          destruct H as [u' [Hu _]]
      end.
      unfold ph_text in Hu.
      let m := eval vm_compute in marker in change marker with m in Hu.
      discriminate.
    + eexists. split; [reflexivity|assumption].
  - cbn [app] in HM. inversion HM; subst.
    + exfalso.
      match goal with
      | H : placeholder_at _ = Some _ |- _ =>
          replace (a :: (u ++ [c]) ++ r) with ((a :: u) ++ c :: r) in H
            by (simpl; rewrite <- app_assoc; reflexivity);
          apply (placeholder_at_local _ c r _ _ Hc) in H;
          destruct H as [u' [Hu _]]
      end.
      assert (Hs : startsWith ((a :: u) ++ [c]) marker = true).
      { rewrite Hu. unfold ph_text. rewrite <- !app_assoc.
        unfold startsWith. rewrite strip_prefix_refl. reflexivity. }
      rewrite (includes_startsWith _ _ Hfree) in Hs. discriminate.
    + match goal with
      | H : Masked _ _ _ |- _ =>
          destruct (IH r _ Hc (includes_tail _ _ _ Hfree) H) as [vr [-> Hvr]]
      end.
      exists vr. split; [reflexivity|exact Hvr].
Qed.

Lemma foreign_no_placeholder c X :
  ph_chr c = false -> placeholder_at (c :: X) = None.
Proof.
  intros Hc. destruct (placeholder_at (c :: X)) as [[ds post]|] eqn:E;
    [|reflexivity].
  exfalso. apply placeholder_at_inv in E. destruct E as [E _].
  unfold ph_text in E.
  let m := eval vm_compute in marker in change marker with m in E.
  injection E as -> _. discriminate.
Qed.

(** A masked text that begins with a text ending in a foreign unit:
    what the restoring pass makes of that beginning does not depend on
    what follows. *)
Lemma Masked_prefix c : forall n u, (length u <= n)%nat -> forall r v,
  ph_chr c = false ->
  Masked cbs1 ((u ++ [c]) ++ r) v ->
  exists vt vr, v = vt ++ vr /\ Masked cbs1 r vr /\
    forall e X oX, Dec (cbs1 ++ e) X oX ->
      Dec (cbs1 ++ e) ((u ++ [c]) ++ X) (vt ++ oX).
Proof.
  assert (Hbase : forall r v, ph_chr c = false -> Masked cbs1 (c :: r) v ->
    exists vt vr, v = vt ++ vr /\ Masked cbs1 r vr /\
      forall e X oX, Dec (cbs1 ++ e) X oX ->
        Dec (cbs1 ++ e) (c :: X) (vt ++ oX)).
  { intros r v Hc HM. inversion HM; subst.
    - exfalso.
      match goal with
      | H : placeholder_at _ = Some _ |- _ =>
          rewrite (foreign_no_placeholder c r Hc) in H; discriminate
      end.
    - exists [c]. eexists. split; [reflexivity|]. split; [eassumption|].
      intros e X oX HX. apply Dec_miss; [|exact HX].
      apply foreign_no_placeholder, Hc. }
  induction n as [|n IH]; intros u Hl r v Hc HM.
  - destruct u; [|simpl in Hl; lia]. apply Hbase; assumption.
  - destruct u as [|a u]; [apply Hbase; assumption|].
    cbn [app] in HM. inversion HM; subst.
    + (* a placeholder at the head *)
      match goal with
      | H : placeholder_at _ = Some (?ds0, ?post0) |- _ =>
          rename H into Hp; rename ds0 into ds; rename post0 into post
      end.
      replace (a :: (u ++ [c]) ++ r) with ((a :: u) ++ c :: r) in Hp
        by (simpl; rewrite <- app_assoc; reflexivity).
      pose proof Hp as Hp'.
      apply (placeholder_at_local _ c r ds post Hc) in Hp'.
      destruct Hp' as [u' [Hu ->]].
      apply placeholder_at_inv in Hp. destruct Hp as [_ [Hne Hd]].
      assert (Hlen : (length u' <= n)%nat).
      { apply (f_equal (@length N)) in Hu. rewrite length_app in Hu.
        unfold ph_text in Hu. rewrite length_app in Hu. simpl in Hu, Hl. lia. }
      match goal with
      | H : Masked _ (u' ++ c :: r) ?o |- _ =>
          replace (u' ++ c :: r) with ((u' ++ [c]) ++ r) in H
            by (rewrite <- app_assoc; reflexivity);
          destruct (IH u' Hlen r o Hc H) as [vt [vr [-> [Hvr HX]]]]
      end.
      exists (nth (N.to_nat (parseInt ds)) cbs1 (U "undefined") ++ vt), vr.
      split; [rewrite app_assoc; reflexivity|]. split; [exact Hvr|].
      intros e X oX HD.
      replace (a :: (u ++ [c]) ++ X) with ((a :: u) ++ [c] ++ X)
        by (simpl; rewrite <- app_assoc; reflexivity).
      rewrite Hu, <- !app_assoc.
      replace (nth (N.to_nat (parseInt ds)) cbs1 (U "undefined"))
        with (nth (N.to_nat (parseInt ds)) (cbs1 ++ e) (U "undefined"))
        by (apply app_nth1; assumption).
      apply Dec_hit with (post := u' ++ [c] ++ X).
      * apply placeholder_at_intro; assumption.
      * specialize (HX e X oX HD). rewrite <- app_assoc in HX. exact HX.
    + match goal with
      | H : Masked _ ((u ++ [c]) ++ r) ?o |- _ =>
          destruct (IH u ltac:(simpl in Hl; lia) r o Hc H)
            as [vt [vr [-> [Hvr HX]]]]
      end.
      exists (a :: vt), vr. split; [reflexivity|]. split; [exact Hvr|].
      intros e X oX HD. cbn [app]. apply Dec_miss; [|apply HX, HD].
      destruct (placeholder_at (a :: (u ++ [c]) ++ X)) as [[ds post]|] eqn:E;
        [|reflexivity].
      exfalso.
      replace (a :: (u ++ [c]) ++ X) with ((a :: u) ++ c :: X) in E
        by (simpl; rewrite <- app_assoc; reflexivity).
      apply (placeholder_at_local _ c X ds post Hc) in E.
      destruct E as [u' [Hu _]].
      assert (Hs : startsWith (a :: (u ++ [c]) ++ r) marker = true).
      { replace (a :: (u ++ [c]) ++ r) with ((a :: u) ++ c :: r)
          by (simpl; rewrite <- app_assoc; reflexivity).
        rewrite Hu. unfold ph_text. rewrite <- !app_assoc.
        unfold startsWith. rewrite strip_prefix_refl. reflexivity. }
      congruence.
Qed.
End Phase2.

Section Total.
Context {St : Type}.
Variable r : regex.
Variable f : St -> rmatch -> option (jsstr * St).
Hypothesis f_total : forall st m, f st m <> None.

Lemma replace_loop_total : forall s k bef st,
  replace_loop r f k bef s st <> None.
Proof.
  induction s as [|c s IH]; intros k bef st.
  - destruct k; simpl; [|discriminate].
    destruct (match_at r bef []) as [m|]; [|discriminate].
    destruct (f st m) as [[o st1]|] eqn:E; [discriminate|].
    exfalso. eapply f_total, E.
  - destruct k; cbn [replace_loop]; [|apply IH].
    destruct (match_at r bef (c :: s)) as [m|].
    + destruct (f st m) as [[o st1]|] eqn:E; [|exfalso; eapply f_total, E].
      cbn [bind]. destruct (m_text m) as [|? t].
      * destruct (replace_loop r f 0 (c :: bef) s st1) as [[tl st2]|] eqn:El;
          [discriminate|]. exfalso. eapply IH, El.
      * destruct (replace_loop r f (length t) (c :: bef) s st1)
          as [[tl st2]|] eqn:El; [discriminate|]. exfalso. eapply IH, El.
    + destruct (replace_loop r f 0 (c :: bef) s st) as [[tl st2]|] eqn:El;
        [discriminate|]. exfalso. eapply IH, El.
Qed.
End Total.

Lemma some_pair_eq {A B : Type} (a c : A) (b d : B) :
  Some (a, b) = Some (c, d) -> a = c /\ b = d.
Proof. intros H. inversion H. split; reflexivity. Qed.

(** The second pass of [protect] on a masked text. *)
Lemma inline_masked cbs1 : forall n m, (length m <= n)%nat ->
  forall v bef e out cbs2,
    Masked cbs1 m v ->
    replace_loop inlineCodeRe protectInline 0 bef m (cbs1 ++ e) = Some (out, cbs2) ->
    Dec cbs2 out v.
Proof.
  induction n as [|n IH]; intros m Hl v bef e out cbs2 HM Hloop.
  - destruct m; [|simpl in Hl; lia].
    rewrite replace_loop_nil in Hloop
      by (apply match_at_nil_nonempty; intros m; apply inline_text_nonempty).
    injection Hloop as <- _. inversion HM; subst.
    + constructor.
    + exfalso.
      match goal with
      | H : placeholder_at [] = Some _ |- _ => discriminate H
      end.
  - pose proof HM as HM0. inversion HM; subst.
    + rewrite replace_loop_nil in Hloop
        by (apply match_at_nil_nonempty; intros m; apply inline_text_nonempty).
      injection Hloop as <- _. constructor.
    + (* a placeholder of the first pass *)
      match goal with
      | H : placeholder_at _ = Some (?ds0, ?post0) |- _ =>
          rename H into Hp; rename ds0 into ds; rename post0 into post
      end.
      apply placeholder_at_inv in Hp. destruct Hp as [-> [Hne Hd]].
      rewrite (inline_pass_through _ _ _ _ (ph_text_no_backtick _ Hd)) in Hloop.
      destruct (replace_loop _ _ 0 _ post (cbs1 ++ e)) as [[tl st2]|] eqn:El;
        [|discriminate].
      apply some_pair_eq in Hloop; destruct Hloop as [<- <-].
      destruct (replace_loop_grows _ _ protectInline_grows _ _ _ _ _ _ El)
        as [e2 Ee].
      replace (nth (N.to_nat (parseInt ds)) cbs1 (U "undefined"))
        with (nth (N.to_nat (parseInt ds)) st2 (U "undefined"))
        by (rewrite Ee, <- app_assoc; apply app_nth1; assumption).
      apply Dec_hit with (post := tl).
      * apply placeholder_at_intro; assumption.
      * apply (IH post) with (bef := rev (ph_text ds) ++ bef) (e := e);
          [|assumption|exact El].
        rewrite length_app in Hl. unfold ph_text in Hl.
        rewrite length_app in Hl. simpl in Hl. lia.
    + (* another unit *)
      match goal with
      | H : startsWith (?c0 :: ?s0) marker = false |- _ =>
          rename H into Hst; rename c0 into c; rename s0 into s
      end.
      destruct (match_at inlineCodeRe bef (c :: s)) as [m0|] eqn:Em.
      * pose proof (inline_text_nonempty _ _ _ Em) as Hne.
        rewrite (replace_loop_hit _ _ _ _ _ _ Em Hne) in Hloop.
        rewrite protectInline_out in Hloop.
        destruct (inline_match_shape _ _ _ Em) as [u Eu].
        destruct (match_at_split _ _ _ _ Em) as [Es _].
        assert (Hlen : (length (m_post m0) <= n)%nat).
        { apply (f_equal (@length N)) in Es. rewrite length_app, Eu in Es.
          simpl in Es, Hl. lia. }
        rewrite Es in HM0.
        replace (m_text m0) with ((backtick :: u) ++ [backtick]) in HM0
          by (rewrite Eu; reflexivity).
        destruct (includes (m_text m0) marker) eqn:Einc; cbn [bind] in Hloop.
        -- (* the match is left as it is *)
           destruct (replace_loop _ _ 0 _ (m_post m0) (cbs1 ++ e))
             as [[tl st2]|] eqn:El; [|discriminate].
           apply some_pair_eq in Hloop; destruct Hloop as [<- <-].
           destruct (replace_loop_grows _ _ protectInline_grows _ _ _ _ _ _ El)
             as [e2 Ee].
           destruct (Masked_prefix cbs1 backtick _ _ (le_n _) _ _
                       backtick_foreign HM0) as [vt [vr [-> [Hvr HX]]]].
           rewrite Eu.
           replace (backtick :: u ++ [backtick])
             with ((backtick :: u) ++ [backtick]) by reflexivity.
           rewrite Ee, <- app_assoc. apply HX. rewrite app_assoc, <- Ee.
           apply (IH (m_post m0) Hlen vr _ e tl st2 Hvr El).
        -- (* the match is replaced by a new placeholder *)
           destruct (replace_loop _ _ 0 _ (m_post m0)
                       ((cbs1 ++ e) ++ [m_text m0]))
             as [[tl st2]|] eqn:El; [|discriminate].
           apply some_pair_eq in Hloop; destruct Hloop as [<- <-].
           destruct (replace_loop_grows _ _ protectInline_grows _ _ _ _ _ _ El)
             as [e2 Ee].
           assert (Hfree : includes ((backtick :: u) ++ [backtick]) marker = false)
             by (rewrite <- Einc, Eu; reflexivity).
           destruct (Masked_clean_prefix cbs1 backtick _ _ _
                       backtick_foreign Hfree HM0) as [vr [-> Hvr]].
           replace ((backtick :: u) ++ [backtick]) with
             (nth (N.to_nat (parseInt (num_str (length (cbs1 ++ e))))) st2
                (U "undefined"))
             by (rewrite parseInt_num_str, Ee, Eu; apply nth_new).
           apply Dec_hit with (post := tl).
           ++ rewrite placeholder_eq. apply placeholder_at_intro;
                [apply num_str_nonempty|apply num_str_digits].
           ++ rewrite <- app_assoc in El.
              apply (IH (m_post m0) Hlen vr _ _ tl st2 Hvr El).
      * rewrite (replace_loop_miss _ _ _ _ _ _ Em) in Hloop.
        destruct (replace_loop _ _ 0 (c :: bef) s (cbs1 ++ e))
          as [[tl st2]|] eqn:El; [|discriminate].
        apply some_pair_eq in Hloop; destruct Hloop as [<- <-].
        apply Dec_miss.
        -- destruct (placeholder_at (c :: tl)) as [p|] eqn:Ep; [|reflexivity].
           exfalso.
           assert (Hs : startsWith ([c] ++ s) marker = true).
           { apply (inline_head (length s) s (le_n _) (c :: bef) (cbs1 ++ e)
                      tl st2 [c]); [discriminate|exact El|].
             cbn [app]. rewrite Ep. discriminate. }
           cbn [app] in Hs. congruence.
        -- match goal with
           | H : Masked cbs1 s ?o |- _ =>
               apply (IH s ltac:(simpl in Hl; lia) o (c :: bef) e tl st2 H El)
           end.
Qed.



(** C2 fails as stated: in a document that contains the text of a
    placeholder and no code, restoring puts [undefined] in its place. *)
Lemma C2_placeholder_text_not_restored :
  restore (fst (protect placeholder_text)) (snd (protect placeholder_text)) =
    U "undefined" /\
  restore (fst (protect placeholder_text)) (snd (protect placeholder_text)) <>
    placeholder_text.
Proof. split; [vm_compute; reflexivity|vm_compute; discriminate]. Qed.

(** C2, amended.  For every document that does not contain the
    placeholder marker [___CODE_BLOCK_], masking the code regions and
    restoring them gives the document back. *)
Theorem C2_protect_restore_round_trip :
  forall d, includes d marker = false ->
    restore (fst (protect d)) (snd (protect d)) = d.
Proof.
  intros d Hfree. unfold protect, replace_all_st.
  destruct (replace_loop fencedCodeRe protectFenced 0 [] d [])
    as [[r1 cbs1]|] eqn:E1.
  2:{ exfalso. eapply (replace_loop_total fencedCodeRe protectFenced); [|exact E1].
      intros st m. unfold protectFenced. discriminate. }
  destruct (replace_loop inlineCodeRe protectInline 0 [] r1 cbs1)
    as [[r2 cbs2]|] eqn:E2.
  2:{ exfalso. eapply (replace_loop_total inlineCodeRe protectInline); [|exact E2].
      intros st m. rewrite protectInline_out.
      destruct (includes (m_text m) marker); discriminate. }
  cbn [fst snd]. apply Dec_restore.
  pose proof (fenced_masked (length d) d (le_n _) [] [] r1 cbs1 Hfree E1 [])
    as HM.
  rewrite app_nil_r in HM.
  apply (inline_masked cbs1 (length r1) r1 (le_n _) d [] [] r2 cbs2 HM).
  rewrite app_nil_r. exact E2.
Qed.

Lemma C2_protect_restore_round_trip_witness :
  fst (protect code_sample) =
    U "a ___CODE_BLOCK_1___ b" ++ nl ++ U "___CODE_BLOCK_0___" ++ nl ++
    U "snake_case ___CODE_BLOCK_2___" /\
  restore (fst (protect code_sample)) (snd (protect code_sample)) = code_sample.
Proof.
  split; [vm_compute; reflexivity|].
  apply C2_protect_restore_round_trip. vm_compute. reflexivity.
Defined.

(** ** A search without a match *)


(** ** C10: what does hold of the messages *)

Lemma pushMessage_content p cc ms :
  Forall (fun m => Chat.content m <> []) ms ->
  Forall (fun m => Chat.content m <> []) (Chat.pushMessage p cc ms).
Proof.
  intros H. unfold Chat.pushMessage.
  destruct (trim (join nl cc)) as [|c t]; [exact H|].
  apply Forall_app. split; [exact H|]. constructor; [discriminate|constructor].
Qed.

Lemma step_content st line st' :
  Forall (fun m => Chat.content m <> []) (Chat.messages st) ->
  Chat.step st line = Some st' ->
  Forall (fun m => Chat.content m <> []) (Chat.messages st').
Proof.
  intros H. unfold Chat.step.
  destruct (exec Chat.personRe line) as [pm|].
  - destruct (Chat.currentPerson st) as [p|];
      destruct (Chat.parsePerson (group_s 1 pm)) as [q|]; cbn [bind];
      intros E; try discriminate; injection E as <-; cbn [Chat.messages];
      [apply pushMessage_content, H|exact H].
  - destruct (Chat.currentPerson st); intros E; injection E as <-; exact H.
Qed.

Lemma loop_content lines : forall st st',
  Forall (fun m => Chat.content m <> []) (Chat.messages st) ->
  Chat.loop st lines = Some st' ->
  Forall (fun m => Chat.content m <> []) (Chat.messages st').
Proof.
  induction lines as [|l lines IH]; intros st st' H E; cbn [Chat.loop] in E.
  - injection E as <-. exact H.
  - destruct (Chat.step st l) as [st1|] eqn:Es; [|discriminate].
    cbn [bind] in E. eapply IH; [|exact E]. eapply step_content; eassumption.
Qed.

(** Every message that is returned has a non-empty content. *)
Lemma chat_messages_have_content content msgs :
  Chat.parseChatContent content = Some msgs ->
  Forall (fun m => Chat.content m <> []) msgs.
Proof.
  unfold Chat.parseChatContent.
  destruct (trim content); [intros E; injection E as <-; constructor|].
  destruct (Chat.loop _ _) as [st|] eqn:El; [|discriminate]. cbn [bind].
  pose proof (loop_content _ (Chat.mkLoop [] None []) _ (Forall_nil _) El) as H.
  destruct (Chat.currentPerson st) as [p|]; [destruct (Chat.currentContent st)|];
    intros E; injection E as <-; try exact H.
  apply pushMessage_content, H.
Qed.

(** The lines in front of the first [@person] line are dropped. *)
Lemma chat_preamble_dropped pre : forall lines,
  Forall (fun l => exec Chat.personRe l = None) pre ->
  Chat.loop (Chat.mkLoop [] None []) (pre ++ lines) =
  Chat.loop (Chat.mkLoop [] None []) lines.
Proof.
  induction pre as [|l pre IH]; intros lines H; [reflexivity|].
  inversion H as [|? ? Hl Hr]; subst. cbn [app Chat.loop].
  unfold Chat.step at 1. rewrite Hl. cbn [Chat.currentPerson bind].
  apply IH, Hr.
Qed.

(** No exception leaves [parseChatContent]: a name that passes the
    pattern is encoded without error. *)
Lemma getMinecraftAvatar_total username :
  Chat.getMinecraftAvatar username <> None.
Proof.
  unfold Chat.getMinecraftAvatar.
  destruct (test Chat.minecraftNamePattern username) eqn:Et; [|discriminate].
  destruct (forallb is_word username) eqn:Ew.
  - rewrite (encodeURIComponent_word _ Ew). discriminate.
  - rewrite minecraft_name_invalid in Et by (right; right; exact Ew).
    discriminate.
Qed.

Lemma parsePerson_total attrs : Chat.parsePerson attrs <> None.
Proof.
  unfold Chat.parsePerson.
  destruct (exec Chat.avatarRe (trim attrs)) as [am|]; [|discriminate].
  destruct (trim (group_s 1 am)) as [|c t]; [discriminate|].
  destruct (str_eqb _ _); [|discriminate].
  match goal with
  | |- context [Chat.getMinecraftAvatar ?n] =>
      pose proof (getMinecraftAvatar_total n) as H;
      destruct (Chat.getMinecraftAvatar n) as [[|? ?]|]
  end; cbn [bind]; try discriminate. contradiction.
Qed.

Lemma chat_loop_total lines : forall st, Chat.loop st lines <> None.
Proof.
  induction lines as [|l lines IH]; intros st; cbn [Chat.loop]; [discriminate|].
  assert (Hs : Chat.step st l <> None).
  { unfold Chat.step. destruct (exec Chat.personRe l) as [pm|].
    - pose proof (parsePerson_total (group_s 1 pm)) as Hp.
      destruct (Chat.currentPerson st);
        destruct (Chat.parsePerson (group_s 1 pm)); cbn [bind];
        try discriminate; contradiction.
    - destruct (Chat.currentPerson st); discriminate. }
  destruct (Chat.step st l) as [st1|]; [|contradiction]. cbn [bind]. apply IH.
Qed.

Lemma parseChatContent_total content : Chat.parseChatContent content <> None.
Proof.
  unfold Chat.parseChatContent. destruct (trim content); [discriminate|].
  pose proof (chat_loop_total (Chat.chatLines content) (Chat.mkLoop [] None []))
    as H.
  destruct (Chat.loop _ _) as [st|]; [|contradiction]. cbn [bind].
  destruct (Chat.currentPerson st); [destruct (Chat.currentContent st)|];
    discriminate.
Qed.

(** * The rest of the code *)

(** ** Percent-encoding and its inverse *)

Ltac dm c k :=
  let H1 := fresh "Hdm" in
  let H2 := fresh "Hlt" in
  assert (H1 := N.div_mod c k ltac:(lia));
  assert (H2 := N.mod_lt c k ltac:(lia));
  let q := fresh "q" in
  let r := fresh "r" in
  set (q := c / k) in *; set (r := c mod k) in *; clearbody q r.

Lemma hex_byte_pct_all :
  forallb
    (fun b =>
       match hex_byte (hex_digit (b / 16)) (hex_digit (b mod 16)) with
       | Some b' => b' =? b
       | None => false
       end)
    (map N.of_nat (seq 0 256)) = true.
Proof. vm_compute. reflexivity. Qed.

Lemma hex_byte_pct (b : N) :
  b < 256 -> hex_byte (hex_digit (b / 16)) (hex_digit (b mod 16)) = Some b.
Proof.
  intros Hb.
  assert (Hin : In b (map N.of_nat (seq 0 256))).
  { rewrite <- (N2Nat.id b). apply in_map. apply in_seq. lia. }
  pose proof (proj1 (forallb_forall _ _) hex_byte_pct_all b Hin) as H.
  cbv beta in H.
  destruct (hex_byte (hex_digit (b / 16)) (hex_digit (b mod 16))) as [b'|];
    [|discriminate].
  apply N.eqb_eq in H. now subst.
Qed.

Lemma decode_cons (c : N) (s : jsstr) :
  (c =? 37) = false ->
  decodeURIComponent (c :: s) = (t <- decodeURIComponent s ;; Some (c :: t)).
Proof. intros H. cbn [decodeURIComponent]. now rewrite H. Qed.

Lemma cont_byte_pct (x : N) :
  x < 64 ->
  cont_byte 37 (hex_digit ((128 + x) / 16)) (hex_digit ((128 + x) mod 16))
  = Some x.
Proof.
  intros Hx. unfold cont_byte. cbn [N.eqb Pos.eqb].
  rewrite hex_byte_pct by lia. cbn [bind].
  replace ((128 + x) / 64 =? 2) with true.
  - f_equal. lia.
  - symmetry. apply N.eqb_eq. dm (128 + x) 64. lia.
Qed.

Lemma ltb_true (a b : N) : a < b -> (a <? b) = true.
Proof. apply N.ltb_lt. Qed.

Lemma ltb_false (a b : N) : b <= a -> (a <? b) = false.
Proof. apply N.ltb_ge. Qed.

Lemma decode_1 (c : N) (s : jsstr) :
  c < 128 ->
  decodeURIComponent (flat_map pct (utf8 c) ++ s)
  = (t <- decodeURIComponent s ;; Some (utf16 c ++ t)).
Proof.
  intros Hc. unfold utf8, utf16. rewrite !ltb_true by lia.
  cbn [flat_map pct app decodeURIComponent N.eqb Pos.eqb negb].
  rewrite hex_byte_pct by lia. cbn [bind].
  now rewrite ltb_true by lia.
Qed.

Lemma decode_2 (c : N) (s : jsstr) :
  128 <= c -> c < 2048 ->
  decodeURIComponent (flat_map pct (utf8 c) ++ s)
  = (t <- decodeURIComponent s ;; Some (utf16 c ++ t)).
Proof.
  intros Hc Hc'. unfold utf8. rewrite ltb_false, ltb_true by lia.
  cbn [flat_map pct app decodeURIComponent N.eqb Pos.eqb negb].
  dm c 64.
  rewrite hex_byte_pct by lia. cbn [bind].
  rewrite !ltb_false, ltb_true by lia.
  rewrite cont_byte_pct by lia. cbn [bind].
  replace ((192 + q - 192) * 64 + r) with c by lia.
  unfold checked, valid2. replace (128 <=? c) with true
    by (symmetry; apply N.leb_le; lia).
  reflexivity.
Qed.

Lemma decode_3 (c : N) (s : jsstr) :
  2048 <= c -> c < 65536 -> is_lead c = false -> is_trail c = false ->
  decodeURIComponent (flat_map pct (utf8 c) ++ s)
  = (t <- decodeURIComponent s ;; Some (utf16 c ++ t)).
Proof.
  intros Hc Hc' Hl Ht. unfold utf8. rewrite !ltb_false, ltb_true by lia.
  cbn [flat_map pct app decodeURIComponent N.eqb Pos.eqb negb].
  dm c 64. dm c 4096. dm q 64.
  assert (q0 = q1) by lia. subst q1.
  rewrite hex_byte_pct by lia. cbn [bind].
  rewrite !ltb_false, ltb_true by lia.
  rewrite !cont_byte_pct by lia. cbn [bind].
  replace ((224 + q0 - 224) * 4096 + r1 * 64 + r) with c by lia.
  unfold checked, valid3.
  replace (2048 <=? c) with true by (symmetry; apply N.leb_le; lia).
  replace ((55296 <=? c) && (c <=? 57343)) with false; [reflexivity|].
  unfold is_lead, is_trail in Hl, Ht.
  destruct (N.leb_spec 55296 c); destruct (N.leb_spec c 57343);
    destruct (N.leb_spec c 56319); destruct (N.leb_spec 56320 c);
    try reflexivity; try discriminate; lia.
Qed.

Lemma decode_4 (c : N) (s : jsstr) :
  65536 <= c -> c < 1114112 ->
  decodeURIComponent (flat_map pct (utf8 c) ++ s)
  = (t <- decodeURIComponent s ;; Some (utf16 c ++ t)).
Proof.
  intros Hc Hc'. unfold utf8. rewrite !ltb_false by lia.
  cbn [flat_map pct app decodeURIComponent N.eqb Pos.eqb negb].
  dm c 64. dm c 4096. dm c 262144. dm q 64. dm q0 64.
  assert (q2 = q0) by lia. subst q2.
  assert (q3 = q1) by lia. subst q3.
  rewrite hex_byte_pct by lia. cbn [bind].
  rewrite !ltb_false, ltb_true by lia.
  rewrite !cont_byte_pct by lia. cbn [bind].
  replace ((240 + q1 - 240) * 262144 + r3 * 4096 + r2 * 64 + r) with c by lia.
  unfold checked, valid4.
  replace (65536 <=? c) with true by (symmetry; apply N.leb_le; lia).
  replace (c <=? 1114111) with true by (symmetry; apply N.leb_le; lia).
  reflexivity.
Qed.

Lemma decode_code_point (c : N) (s : jsstr) :
  c < 1114112 -> is_lead c = false -> is_trail c = false ->
  decodeURIComponent (flat_map pct (utf8 c) ++ s)
  = (t <- decodeURIComponent s ;; Some (utf16 c ++ t)).
Proof.
  intros Hc Hl Ht.
  destruct (N.lt_ge_cases c 128); [now apply decode_1|].
  destruct (N.lt_ge_cases c 2048); [now apply decode_2|].
  destruct (N.lt_ge_cases c 65536); [now apply decode_3|].
  now apply decode_4.
Qed.

Lemma unreserved_not_percent (c : N) :
  uri_unreserved c = true -> (c =? 37) = false.
Proof.
  intros H. destruct (c =? 37) eqn:E; [|reflexivity].
  apply N.eqb_eq in E. subst. discriminate.
Qed.

Lemma utf16_pair (c d : N) :
  is_lead c = true -> is_trail d = true ->
  utf16 ((c - 55296) * 1024 + (d - 56320) + 65536) = [c; d].
Proof.
  unfold is_lead, is_trail, utf16. intros Hc Hd.
  apply andb_true_iff in Hc, Hd.
  destruct Hc as [Hc1 Hc2], Hd as [Hd1 Hd2].
  apply N.leb_le in Hc1, Hc2, Hd1, Hd2.
  rewrite ltb_false by lia.
  set (v := (c - 55296) * 1024 + (d - 56320) + 65536 - 65536).
  assert (Hv : v = 1024 * (c - 55296) + (d - 56320)) by (unfold v; lia).
  dm v 1024.
  assert (q = c - 55296 /\ r = d - 56320) as [-> ->] by lia.
  f_equal; [lia|]. f_equal. lia.
Qed.

Lemma encode_decode_len (n : nat) :
  forall s e,
    (length s <= n)%nat -> units s = true ->
    encodeURIComponent s = Some e -> decodeURIComponent e = Some s.
Proof.
  induction n as [|n IH]; intros s e Hn Hu He.
  - destruct s; [|cbn in Hn; lia]. cbn in He. now inversion He.
  - destruct s as [|c s]; [cbn in He; now inversion He|].
    cbn [length] in Hn. cbn [units forallb] in Hu.
    apply andb_true_iff in Hu. destruct Hu as [Hc Hu].
    apply N.ltb_lt in Hc.
    cbn [encodeURIComponent] in He.
    destruct (uri_unreserved c) eqn:Eu.
    + destruct (encodeURIComponent s) as [t|] eqn:Et; [|discriminate].
      cbn [bind] in He. inversion He; subst e.
      rewrite decode_cons by now apply unreserved_not_percent.
      rewrite (IH s t) by (assumption || lia). reflexivity.
    + destruct (is_trail c) eqn:Etr; [discriminate|].
      destruct (is_lead c) eqn:El.
      * destruct s as [|d s]; [discriminate|].
        destruct (is_trail d) eqn:Ed; [|discriminate].
        destruct (encodeURIComponent s) as [t|] eqn:Et; [|discriminate].
        cbn [bind] in He. inversion He; subst e.
        cbn [forallb] in Hu. apply andb_true_iff in Hu.
        destruct Hu as [Hd Hu]. cbn [length] in Hn.
        assert (Hr : 65536 <= (c - 55296) * 1024 + (d - 56320) + 65536
                     < 1114112).
        { unfold is_lead, is_trail in El, Ed.
          apply andb_true_iff in El, Ed.
          destruct El as [E1 E2], Ed as [E3 E4].
          apply N.leb_le in E1, E2, E3, E4. lia. }
        rewrite decode_4 by lia.
        rewrite (IH s t) by (assumption || lia). cbn [bind].
        now rewrite utf16_pair.
      * destruct (encodeURIComponent s) as [t|] eqn:Et; [|discriminate].
        cbn [bind] in He. inversion He; subst e.
        rewrite decode_code_point by (assumption || lia).
        rewrite (IH s t) by (assumption || lia). cbn [bind].
        unfold utf16. now rewrite ltb_true by lia.
Qed.

Lemma decode_of_encode (s e : jsstr) :
  units s = true ->
  encodeURIComponent s = Some e ->
  decodeURIComponent e = Some s.
Proof. intros. now apply (encode_decode_len (length s)). Qed.

(** X1.  [decodeURIComponent] undoes [encodeURIComponent]: whenever a
    string of 16-bit units is encoded without an error, decoding the
    result gives the string back.  This is what carries the text of a
    chat block, of a tab, of a link card and of a chart from the
    attribute written by [processContent] to the component that reads
    it. *)
Theorem decode_encode_round_trip (s e : jsstr) :
  units s = true ->
  encodeURIComponent s = Some e ->
  decodeURIComponent e = Some s.
Proof. apply decode_of_encode. Qed.

Lemma decode_encode_round_trip_witness :
  decodeURIComponent (U "%E4%BD%A0%20%F0%9F%98%80a") = Some emoji_text.
Proof.
  apply (decode_encode_round_trip emoji_text); reflexivity.
Defined.

Lemma pct_chars_all :
  forallb (fun b => forallb uri_char (pct b)) (map N.of_nat (seq 0 256))
  = true.
Proof. vm_compute. reflexivity. Qed.

Lemma pct_chars (b : N) : b < 256 -> forallb uri_char (pct b) = true.
Proof.
  intros Hb.
  assert (Hin : In b (map N.of_nat (seq 0 256))).
  { rewrite <- (N2Nat.id b). apply in_map. apply in_seq. lia. }
  exact (proj1 (forallb_forall _ _) pct_chars_all b Hin).
Qed.

Lemma utf8_octets (c : N) :
  c < 1114112 -> Forall (fun b => b < 256) (utf8 c).
Proof.
  intros Hc. unfold utf8.
  destruct (N.ltb_spec c 128); [repeat constructor; lia|].
  destruct (N.ltb_spec c 2048).
  { dm c 64. repeat constructor; lia. }
  destruct (N.ltb_spec c 65536).
  { dm c 64. dm c 4096. dm q 64. repeat constructor; lia. }
  dm c 64. dm c 4096. dm c 262144. dm q 64. dm q0 64.
  repeat constructor; lia.
Qed.

Lemma utf8_chars (c : N) :
  c < 1114112 -> forallb uri_char (flat_map pct (utf8 c)) = true.
Proof.
  intros Hc. pose proof (utf8_octets c Hc) as H.
  induction H as [|b l Hb _ IH]; [reflexivity|].
  cbn [flat_map]. rewrite forallb_app, pct_chars by exact Hb. exact IH.
Qed.

Lemma encode_chars_len (n : nat) :
  forall s e,
    (length s <= n)%nat -> units s = true ->
    encodeURIComponent s = Some e -> forallb uri_char e = true.
Proof.
  induction n as [|n IH]; intros s e Hn Hu He.
  - destruct s; [|cbn in Hn; lia]. cbn in He. now inversion He.
  - destruct s as [|c s]; [cbn in He; now inversion He|].
    cbn [length] in Hn. cbn [units forallb] in Hu.
    apply andb_true_iff in Hu. destruct Hu as [Hc Hu].
    apply N.ltb_lt in Hc.
    cbn [encodeURIComponent] in He.
    destruct (uri_unreserved c) eqn:Eu.
    + destruct (encodeURIComponent s) as [t|] eqn:Et; [|discriminate].
      cbn [bind] in He. inversion He; subst e.
      cbn [forallb]. unfold uri_char at 1. rewrite Eu. cbn [orb andb].
      apply (IH s t); assumption || lia.
    + destruct (is_trail c) eqn:Etr; [discriminate|].
      destruct (is_lead c) eqn:El.
      * destruct s as [|d s]; [discriminate|].
        destruct (is_trail d) eqn:Ed; [|discriminate].
        destruct (encodeURIComponent s) as [t|] eqn:Et; [|discriminate].
        cbn [bind] in He. inversion He; subst e.
        cbn [forallb] in Hu. apply andb_true_iff in Hu.
        destruct Hu as [Hd Hu]. cbn [length] in Hn.
        rewrite forallb_app. apply andb_true_iff. split.
        -- apply utf8_chars.
           unfold is_lead, is_trail in El, Ed.
           apply andb_true_iff in El, Ed.
           destruct El as [E1 E2], Ed as [E3 E4].
           apply N.leb_le in E1, E2, E3, E4. lia.
        -- apply (IH s t); assumption || lia.
      * destruct (encodeURIComponent s) as [t|] eqn:Et; [|discriminate].
        cbn [bind] in He. inversion He; subst e.
        rewrite forallb_app. apply andb_true_iff. split.
        -- apply utf8_chars. lia.
        -- apply (IH s t); assumption || lia.
Qed.

(** ** Captures are pieces of the subject *)

Lemma moved_rest_all (P : N -> Prop) st k x :
  moved st k x -> Forall P (rest st) -> Forall P k /\ Forall P (rest x).
Proof.
  intros [H _] Hall. rewrite H in Hall. now apply Forall_app in Hall.
Qed.

Section RepeatKeeps.
Variable P : N -> Prop.
Variable m : mstate -> list mstate.
Hypothesis m_moved :
  forall st st', In st' (m st) -> exists k, moved st k st'.
Hypothesis m_keeps :
  forall st x, In x (m st) -> Forall P (rest st) -> caps_all P (caps st) ->
    caps_all P (caps x).

Lemma rep_keeps g fuel : forall mn mx st x,
  In x (rep m g mn mx fuel st) -> Forall P (rest st) ->
  caps_all P (caps st) -> caps_all P (caps x).
Proof.
  induction fuel as [|f IH]; intros mn mx st x Hin Hr Hc; simpl in Hin.
  - contradiction.
  - assert (Hstep : forall st1 mn1 mx1,
              In st1 (m st) -> In x (rep m g mn1 mx1 f st1) ->
              caps_all P (caps x)).
    { intros st1 mn1 mx1 H1 H2.
      destruct (m_moved _ _ H1) as [k Hk].
      apply (IH _ _ _ _ H2).
      - apply (moved_rest_all P _ _ _ Hk Hr).
      - apply (m_keeps _ _ H1 Hr Hc). }
    destruct mn as [|mn'].
    + destruct (is_zero_max mx).
      * destruct Hin as [<-|[]]. exact Hc.
      * assert (Hmore :
          In x (flat_map
            (fun st1 =>
               if Nat.ltb (length (rest st1)) (length (rest st))
               then rep m g 0 (pred_max mx) f st1 else []) (m st))
          -> caps_all P (caps x)).
        { intros H. apply in_flat_map in H. destruct H as [st1 [H1 H2]].
          destruct (Nat.ltb _ _); [|contradiction].
          eapply Hstep; eassumption. }
        destruct g.
        -- apply in_app_or in Hin. destruct Hin as [H|[<-|[]]];
             [apply Hmore, H|exact Hc].
        -- destruct Hin as [<-|H]; [exact Hc|apply Hmore, H].
    + apply in_flat_map in Hin. destruct Hin as [st1 [H1 H2]].
      eapply Hstep; eassumption.
Qed.
End RepeatKeeps.

(** The captures of a match are pieces of the input. *)
Lemma mt_keeps (P : N -> Prop) r : forall st x,
  In x (mt r st) -> Forall P (rest st) -> caps_all P (caps st) ->
  caps_all P (caps x).
Proof.
  induction r; intros st x Hin Hr Hc; cbn [mt] in Hin.
  - destruct Hin as [<-|[]]. exact Hc.
  - apply mt_chr_in in Hin. destruct Hin as [c [_ [_ ->]]]. exact Hc.
  - apply in_flat_map in Hin. destruct Hin as [y [Hy Hx]].
    destruct (mt_moved _ _ _ Hy) as [k Hk].
    apply (IHr2 _ _ Hx).
    + apply (moved_rest_all P _ _ _ Hk Hr).
    + apply (IHr1 _ _ Hy Hr Hc).
  - apply in_app_or in Hin. destruct Hin; [eapply IHr1|eapply IHr2]; eassumption.
  - eapply rep_keeps; [apply mt_moved|exact IHr|exact Hin|exact Hr|exact Hc].
  - apply in_map_iff in Hin. destruct Hin as [y [<- Hy]].
    destruct (mt_moved _ _ _ Hy) as [k Hk].
    unfold setcap. cbn [caps]. constructor.
    + cbn [snd]. rewrite (moved_consumed _ _ _ Hk).
      apply (moved_rest_all P _ _ _ Hk Hr).
    + apply (IHr _ _ Hy Hr Hc).
  - destruct (getcap i (caps st)) as [v|].
    + destruct (strip_prefix v (rest st)); [|contradiction].
      destruct Hin as [<-|[]]. exact Hc.
    + destruct Hin as [<-|[]]. exact Hc.
  - destruct (before st); [|contradiction]. destruct Hin as [<-|[]]. exact Hc.
  - destruct (rest st); [|contradiction]. destruct Hin as [<-|[]]. exact Hc.
  - destruct (before st) as [|c ?].
    + destruct Hin as [<-|[]]. exact Hc.
    + destruct (p c); [contradiction|]. destruct Hin as [<-|[]]. exact Hc.
  - destruct (rest st) as [|c ?].
    + destruct Hin as [<-|[]]. exact Hc.
    + destruct (p c); [contradiction|]. destruct Hin as [<-|[]]. exact Hc.
Qed.

Lemma getcap_all (P : N -> Prop) i cs v :
  caps_all P cs -> getcap i cs = Some v -> Forall P v.
Proof.
  induction 1 as [|[j w] cs Hw _ IH]; cbn [getcap]; [discriminate|].
  destruct (Nat.eqb i j); [|exact IH].
  intros E. injection E as <-. exact Hw.
Qed.

Lemma match_at_all (P : N -> Prop) r bef s m :
  match_at r bef s = Some m -> Forall P s ->
  Forall P (m_text m) /\ Forall P (m_post m) /\ caps_all P (m_caps m).
Proof.
  intros H Hs. destruct (match_at_inv _ _ _ _ H) as [st [k [Hin [Hk ->]]]].
  cbn [m_text m_post m_caps].
  destruct (moved_rest_all P _ _ _ Hk Hs) as [H1 H2].
  split; [exact H1|]. split; [exact H2|].
  apply (mt_keeps P _ _ _ Hin Hs). constructor.
Qed.

Lemma group_s_all (P : N -> Prop) i m :
  caps_all P (m_caps m) -> Forall P (group_s i m).
Proof.
  intros H. unfold group_s, group.
  destruct (getcap i (m_caps m)) eqn:E; [|constructor].
  eapply getcap_all; eassumption.
Qed.

Lemma search_from_all (P : N -> Prop) r s : forall bef m,
  search_from r bef s = Some m -> Forall P s ->
  Forall P (m_text m) /\ Forall P (m_post m) /\ caps_all P (m_caps m).
Proof.
  induction s as [|c s IH]; intros bef m H Hs; cbn [search_from] in H.
  - destruct (match_at r bef []) eqn:E; [|discriminate].
    injection H as <-. eapply match_at_all; eassumption.
  - destruct (match_at r bef (c :: s)) eqn:E.
    + injection H as <-. eapply match_at_all; eassumption.
    + inversion Hs; subst. eapply IH; eassumption.
Qed.

Lemma exec_group_all (P : N -> Prop) r s m i :
  exec r s = Some m -> Forall P s -> Forall P (group_s i m).
Proof.
  intros H Hs. apply group_s_all.
  apply (search_from_all P _ _ _ _ H Hs).
Qed.

Lemma dropWhile_all (P : N -> Prop) p s :
  Forall P s -> Forall P (dropWhile p s).
Proof.
  induction 1 as [|c s Hc Hs IH]; cbn [dropWhile]; [constructor|].
  destruct (p c); [exact IH|]. now constructor.
Qed.

Lemma trim_all (P : N -> Prop) s : Forall P s -> Forall P (trim s).
Proof.
  intros H. unfold trim, trimEnd, trimStart.
  apply Forall_rev, dropWhile_all, Forall_rev, dropWhile_all, H.
Qed.

Lemma units_iff s : units s = true <-> Forall (fun c => c < 65536) s.
Proof.
  unfold units. rewrite forallb_forall, Forall_forall.
  split; intros H c Hc.
  - apply N.ltb_lt. exact (H c Hc).
  - apply N.ltb_lt. exact (H c Hc).
Qed.

(** ** From the written element to the component *)


Lemma encode_nonempty c s e :
  encodeURIComponent (c :: s) = Some e -> e <> [].
Proof.
  cbn [encodeURIComponent].
  assert (Hp : forall x t, flat_map pct (utf8 x) ++ t <> []).
  { intros x t. unfold utf8.
    destruct (x <? 128); [discriminate|].
    destruct (x <? 2048); [discriminate|].
    destruct (x <? 65536); discriminate. }
  destruct (uri_unreserved c).
  - destruct (encodeURIComponent s); cbn [bind]; [|discriminate].
    intros E. injection E as <-. discriminate.
  - destruct (is_trail c); [discriminate|].
    destruct (is_lead c).
    + destruct s as [|d s]; [discriminate|].
      destruct (is_trail d); [|discriminate].
      destruct (encodeURIComponent s); cbn [bind]; [|discriminate].
      intros E. injection E as <-. apply Hp.
    + destruct (encodeURIComponent s); cbn [bind]; [|discriminate].
      intros E. injection E as <-. apply Hp.
Qed.




(** ** The [div] handler *)

Lemma takeWhile_stops p s : stops p (dropWhile p s).
Proof.
  induction s as [|c s IH]; cbn [dropWhile]; [exact I|].
  destruct (p c) eqn:E; [exact IH|exact E].
Qed.

Lemma takeWhile_forallb p s : forallb p (takeWhile p s) = true.
Proof.
  induction s as [|c s IH]; cbn [takeWhile]; [reflexivity|].
  destruct (p c) eqn:E; [|reflexivity]. cbn [forallb]. now rewrite E.
Qed.

Lemma classAlertType_block rest :
  Div.classAlertType (U "alert-block" ++ rest) = U "info".
Proof.
  unfold Div.classAlertType.
  set (run := U "block" ++ takeWhile is_word rest).
  set (tail := dropWhile is_word rest).
  set (s := U "alert-block" ++ rest).
  set (st0 := MState [] s []).
  set (st1 := adv_by (U "alert-") (U "block" ++ rest) st0).
  assert (Hs : U "block" ++ rest = run ++ tail).
  { unfold run, tail. rewrite <- app_assoc.
    now rewrite takeWhile_dropWhile. }
  rewrite (exec_hd _ _ (setcap 1 st1 (adv_by run tail st1))).
  - unfold group_s, group, match_of, setcap. cbn [m_caps caps getcap Nat.eqb].
    replace (consumed st1 (adv_by run tail st1)) with run.
    + reflexivity.
    + symmetry. apply moved_consumed. split; [exact Hs|reflexivity].
  - unfold Div.alertClassRe.
    apply hd_seqs_cons with (x := st1).
    + exists []. rewrite mt_lit. reflexivity.
    + apply hd_grp. apply hd_plus.
      * exact Hs.
      * unfold run. rewrite forallb_app, takeWhile_forallb. reflexivity.
      * apply takeWhile_stops.
      * discriminate.
Qed.

(** X5.  The class-name fallback of the handler cannot tell the types
    apart: the type is read after the first [alert-] of the class
    string, so every element whose class string starts with
    [alert-block], as the one that [processContent] writes does, is
    shown as an [info] alert when it carries no [data-alert-type]. *)
Theorem class_fallback_shows_info isNumeric (Json : Type)
    (jsonParse : jsstr -> option Json) (a : Div.Args) (rest : jsstr) :
  unset (U "data-chart-type") a ->
  unset (U "data-alert-type") a ->
  Div.classText (Div.className a) = U "alert-block" ++ rest ->
  Div.div isNumeric jsonParse a = Div.Alert (U "info") None.
Proof.
  intros Hc Ha Hcls. unfold Div.div.
  destruct Hc as [-> | ->]; destruct Ha as [-> | ->];
    rewrite Hcls, classAlertType_block; reflexivity.
Qed.

Lemma class_fallback_shows_info_witness :
  Div.div (fun _ => false) (fun _ : jsstr => @None unit)
    (Div.mkArgs [] None
       (Some (Div.ClassArr [U "alert-block"; U "alert-warning"])) [])
  = Div.Alert (U "info") None.
Proof.
  apply (class_fallback_shows_info _ _ _ _ (U " alert-warning"));
    try (left; reflexivity); reflexivity.
Defined.

Lemma valid_or_info t :
  str_in (if str_in t validTypes then t else U "info") validTypes = true.
Proof. destruct (str_in t validTypes) eqn:E; [exact E|reflexivity]. Qed.

Lemma linkCardBranch_not_alert (Json : Type) a type title :
  @Div.linkCardBranch Json a <> Div.Alert type title.
Proof.
  unfold Div.linkCardBranch.
  repeat (destruct (decodeURIComponent _); cbn [bind]; try discriminate).
Qed.

Lemma chatBranch_not_alert (Json : Type) a type title :
  @Div.chatBranch Json a <> Div.Alert type title.
Proof.
  unfold Div.chatBranch.
  destruct (Dispatch.orDefault _ _); [discriminate|].
  destruct (decodeURIComponent _); discriminate.
Qed.

Lemma chartBranch_not_alert (Json : Type) jsonParse c a type title :
  @Div.chartBranch Json jsonParse c a <> Div.Alert type title.
Proof.
  unfold Div.chartBranch.
  destruct (Dispatch.orElse _ _) as [[|? ?]|]; try discriminate.
  destruct (decodeURIComponent _); [|discriminate].
  destruct (jsonParse _); [|discriminate].
  destruct (str_eqb _ _); discriminate.
Qed.

(** X6.  Whatever the properties and the class names of an element,
    an alert that the handler shows has one of the four types [info],
    [success], [warning] and [error]; and an element that carries the
    type that [parseAlertAttrs] has chosen for a block is shown as an
    alert of that type. *)
Theorem alert_type_is_always_valid isNumeric (Json : Type)
    (jsonParse : jsstr -> option Json) :
  (forall a type title,
     Div.div isNumeric jsonParse a = Div.Alert type title ->
     str_in type validTypes = true) /\
  (forall a attrs,
     unset (U "data-chart-type") a ->
     Dispatch.orElse
       (Dispatch.getProp (U "data-alert-type") (Div.nodeProps a))
       (Dispatch.getProp (U "data-alert-type") (Div.props a))
     = Some (normalizedType (parseAlertAttrs attrs)) ->
     exists title,
       Div.div isNumeric jsonParse a
       = Div.Alert (normalizedType (parseAlertAttrs attrs)) title).
Proof.
  split.
  - intros a type title.
    unfold Div.div, Div.classAlertType.
    repeat match goal with
    | |- context [match ?x with _ => _ end] =>
        lazymatch x with
        | context [match _ with _ => _ end] => fail
        | _ => destruct x eqn:?
        end
    | |- context [if ?x then _ else _] =>
        lazymatch x with
        | context [if _ then _ else _] => fail
        | context [match _ with _ => _ end] => fail
        | _ => destruct x eqn:?
        end
    end; intros E; try discriminate;
      try (now apply chartBranch_not_alert in E);
      try (now apply chatBranch_not_alert in E);
      try (now apply linkCardBranch_not_alert in E);
      inversion E; subst; first [assumption | reflexivity].
  - intros a attrs Hc Ht.
    assert (Hv : str_in (normalizedType (parseAlertAttrs attrs)) validTypes
                 = true)
      by (unfold parseAlertAttrs; cbn [normalizedType]; apply valid_or_info).
    unfold Div.div.
    destruct Hc as [-> | ->]; rewrite Ht;
      destruct (normalizedType (parseAlertAttrs attrs)) as [|c t] eqn:E;
      try discriminate; rewrite Hv; eexists; reflexivity.
Qed.

Lemma alert_type_is_always_valid_witness :
  str_in (U "info") validTypes = true /\
  exists title,
    Div.div (fun _ => false) (fun _ : jsstr => @None unit)
      (plainArgs [(U "data-alert-type", U "warning")])
    = Div.Alert (U "warning") title.
Proof.
  split.
  - apply (proj1 (alert_type_is_always_valid (fun _ => false) unit
                    (fun _ => None))
             (Div.mkArgs [] None (Some (Div.ClassStr (U "alert-block"))) [])
             (U "info") None).
    reflexivity.
  - apply (proj2 (alert_type_is_always_valid (fun _ => false) unit
                    (fun _ => None))
             (plainArgs [(U "data-alert-type", U "warning")])
             (U "type: warning")).
    + left. reflexivity.
    + vm_compute. reflexivity.
Defined.

Lemma tab_widthStyle isNumeric w :
  TabsPanel.widthStyle isNumeric w = Dispatch.widthStyle isNumeric w.
Proof.
  unfold TabsPanel.widthStyle, Dispatch.widthStyle.
  destruct w; [reflexivity|].
  destruct (includes _ (U "%")); [reflexivity|].
  destruct (includes _ (U "px")); reflexivity.
Qed.

Lemma tab_videoBranch isNumeric nodeProps props :
  TabsPanel.videoBranch isNumeric nodeProps props =
  match Dispatch.videoBranch isNumeric nodeProps props with
  | Some (Dispatch.Video v) => Some (TabsPanel.Video (inTabVideo v))
  | Some (Dispatch.Figure c w v caption) =>
      Some (TabsPanel.Figure c w (inTabVideo v) caption)
  | None => None
  end.
Proof.
  unfold TabsPanel.videoBranch, Dispatch.videoBranch.
  destruct (Dispatch.orElse _ _) as [[|? ?]|]; try reflexivity.
  rewrite !tab_widthStyle.
  destruct (Dispatch.orDefault _ []); reflexivity.
Qed.

Lemma inTab_chat (Json : Type) a :
  inTab (@Div.chatBranch Json a) = TabsPanel.PlainDiv.
Proof.
  unfold Div.chatBranch.
  destruct (Dispatch.orDefault _ _); [reflexivity|].
  destruct (decodeURIComponent _); reflexivity.
Qed.

Lemma inTab_linkCard (Json : Type) a :
  inTab (@Div.linkCardBranch Json a) = TabsPanel.PlainDiv.
Proof.
  unfold Div.linkCardBranch.
  repeat (destruct (decodeURIComponent _); cbn [bind]; try reflexivity).
Qed.

Lemma tab_afterChart isNumeric (Json : Type)
    (jsonParse : jsstr -> option Json) a :
  unset (U "data-chart-type") a ->
  @TabsPanel.afterChart isNumeric Json a
  = inTab (Div.div isNumeric jsonParse a).
Proof.
  intros Hc. unfold TabsPanel.afterChart, Div.div.
  destruct Hc as [Hc | Hc]; rewrite Hc;
    (destruct (Dispatch.orElse
                 (Dispatch.getProp (U "data-alert-type") (Div.nodeProps a))
                 (Dispatch.getProp (U "data-alert-type") (Div.props a)))
       as [[|? ?]|]; try reflexivity;
     (destruct (includes (Div.classText (Div.className a)) _);
        [reflexivity|];
      destruct (Div.classGiven (Div.nodeClass a) && _); [reflexivity|];
      rewrite tab_videoBranch;
      destruct (Dispatch.videoBranch isNumeric _ _) as [[v|c w v cap]|];
        try reflexivity;
      repeat (destruct (_ || _); [reflexivity|]);
      try reflexivity)).
  all: repeat match goal with
       | |- context [if ?b then _ else _] => destruct b
       end; try reflexivity;
       rewrite ?inTab_chat, ?inTab_linkCard; reflexivity.
Qed.

(** X7.  Inside a tab an element without a chart type is handled as
    in the main document as far as alerts and videos go: the same
    alert, the same video but for its [preload] property.  Nested
    tabs, timelines, chat blocks and link cards are not known there:
    they come out as plain [div] elements. *)
Theorem tab_handler_agrees_on_alerts_and_videos isNumeric (Json : Type)
    (jsonParse : jsstr -> option Json) (a : Div.Args) :
  unset (U "data-chart-type") a ->
  TabsPanel.div isNumeric jsonParse a
  = inTab (Div.div isNumeric jsonParse a).
Proof.
  intros Hc. rewrite <- (tab_afterChart isNumeric Json jsonParse a Hc).
  unfold TabsPanel.div. destruct Hc as [-> | ->]; reflexivity.
Qed.

Lemma tab_handler_agrees_on_alerts_and_videos_witness :
  TabsPanel.div (fun _ => false) (fun _ : jsstr => @None unit)
    (plainArgs (chatProps (U "hi")))
  = inTab (Div.div (fun _ => false) (fun _ : jsstr => @None unit)
             (plainArgs (chatProps (U "hi")))).
Proof.
  apply tab_handler_agrees_on_alerts_and_videos. left. reflexivity.
Defined.

(** ** Tabs.tsx and CodeBlock.tsx *)

(** X8.  The text of a tab survives the way through the attribute:
    for a tab whose [data-tab-content] is the encoding of a text, the
    tab shows that text, decoded; when the text is empty, or when the
    attribute is not a valid encoding, the tab shows the children of
    the element instead and no exception leaves the component. *)
Theorem tab_content_round_trip (Node : Type) (ps : Dispatch.Props)
    (children : Node) :
  (forall text e,
     units text = true -> encodeURIComponent text = Some e ->
     Dispatch.getProp (U "data-tab-content") ps = Some e ->
     TabsPanel.content (TabsPanel.tabOf ps children)
     = match text with
       | [] => TabsPanel.Original children
       | _ => TabsPanel.Decoded text
       end) /\
  (forall d,
     Dispatch.getProp (U "data-tab-content") ps = Some d ->
     decodeURIComponent d = None ->
     TabsPanel.content (TabsPanel.tabOf ps children)
     = TabsPanel.Original children).
Proof.
  split.
  - intros text e Hu He Hp. unfold TabsPanel.tabOf. cbn [TabsPanel.content].
    rewrite Hp. destruct text as [|c t].
    + cbn in He. injection He as <-. reflexivity.
    + pose proof (encode_nonempty _ _ _ He) as Hne.
      destruct e as [|x e]; [contradiction|].
      now rewrite (decode_of_encode _ _ Hu He).
  - intros d Hp Hd. unfold TabsPanel.tabOf. cbn [TabsPanel.content].
    rewrite Hp. destruct d; [reflexivity|]. now rewrite Hd.
Qed.

Lemma tab_content_round_trip_witness :
  TabsPanel.content
    (TabsPanel.tabOf [(U "data-tab-content", U "a%20b")] tt)
  = TabsPanel.Decoded (U "a b") /\
  TabsPanel.content
    (TabsPanel.tabOf [(U "data-tab-content", U "100%")] tt)
  = TabsPanel.Original tt.
Proof.
  split.
  - apply (proj1 (tab_content_round_trip unit
                    [(U "data-tab-content", U "a%20b")] tt) (U "a b")
             (U "a%20b")); reflexivity.
  - apply (proj2 (tab_content_round_trip unit
                    [(U "data-tab-content", U "100%")] tt) (U "100%"));
      reflexivity.
Defined.

Lemma final_newline_miss bef c t :
  t <> [] -> match_at finalNewlineRe bef (c :: t) = None.
Proof.
  intros Ht. apply match_at_none. unfold finalNewlineRe. cbn [mt rest].
  destruct (is_c 10 c); [|reflexivity].
  cbn [flat_map advance mt rest]. destruct t; [contradiction|reflexivity].
Qed.

Lemma skipn_cons_app {A : Type} (i : nat) (s : list A) :
  (i < length s)%nat -> exists c t, skipn i s = c :: t.
Proof.
  revert s. induction i as [|i IH]; intros [|c s] H; cbn in H; try lia.
  - exists c, s. reflexivity.
  - apply IH. lia.
Qed.

(** X9.  The code that a code block shows is its text without the
    final line feed: exactly one line feed is dropped at the end,
    nothing else is changed, and a text that does not end in a line
    feed is shown as it is. *)
Theorem shown_code_drops_one_final_newline :
  (forall s, shownCode (s ++ nl) = s) /\
  (forall s, (forall t, s <> t ++ nl) -> shownCode s = s).
Proof.
  split.
  - intros s. unfold shownCode, replace_first, exec.
    replace (search_from finalNewlineRe [] (s ++ nl))
      with (search_from finalNewlineRe (rev s ++ []) nl).
    + rewrite app_nil_r. cbn. now rewrite rev_involutive, app_nil_r.
    + symmetry. apply search_from_skip. intros i Hi.
      destruct (skipn_cons_app i s Hi) as [c [t ->]].
      cbn [app]. apply final_newline_miss. now destruct t.
  - intros s Hs. unfold shownCode, replace_first, exec.
    rewrite search_from_none; [reflexivity|].
    intros b1 s1 E. cbn [rev app] in E.
    destruct s1 as [|c t]; [reflexivity|].
    destruct t as [|d t]; [|apply final_newline_miss; discriminate].
    apply match_at_none. unfold finalNewlineRe. cbn [mt rest].
    destruct (is_c 10 c) eqn:Ec; [|reflexivity].
    exfalso. apply N.eqb_eq in Ec. subst c. apply (Hs (rev b1)).
    symmetry. exact E.
Qed.

Lemma shown_code_drops_one_final_newline_witness :
  shownCode (U "x = 1") = U "x = 1".
Proof.
  apply (proj2 shown_code_drops_one_final_newline).
  intros t E. apply (f_equal (@rev N)) in E.
  rewrite rev_app_distr in E. discriminate.
Defined.

(** ** Chat.tsx: the messages *)

Lemma dropWhile_idem p s : dropWhile p (dropWhile p s) = dropWhile p s.
Proof.
  induction s as [|c s IH]; cbn [dropWhile]; [reflexivity|].
  destruct (p c) eqn:E; [exact IH|]. cbn [dropWhile]. now rewrite E.
Qed.

Lemma dropWhile_stopped p s : stops p s -> dropWhile p s = s.
Proof.
  destruct s as [|c s]; [reflexivity|]. cbn [stops dropWhile].
  now intros ->.
Qed.

Lemma dropWhile_suffix p s : exists k, s = k ++ dropWhile p s.
Proof.
  induction s as [|c s [k IH]]; [exists []; reflexivity|].
  cbn [dropWhile]. destruct (p c).
  - exists (c :: k). cbn [app]. now f_equal.
  - exists []. reflexivity.
Qed.

Lemma trimEnd_prefix s : exists w, s = trimEnd s ++ w.
Proof.
  unfold trimEnd. destruct (dropWhile_suffix is_space (rev s)) as [k Hk].
  exists (rev k). rewrite <- rev_app_distr, <- Hk. now rewrite rev_involutive.
Qed.

Lemma stops_prefix p a w : stops p (a ++ w) -> stops p a.
Proof.
  destruct a as [|c a]; [intros _; exact I|]. cbn. auto.
Qed.

Lemma trim_idem s : trim (trim s) = trim s.
Proof.
  unfold trim. set (x := trimStart s).
  assert (Hx : stops is_space x) by apply dropWhile_stops.
  destruct (trimEnd_prefix x) as [w Hw].
  assert (Ht : stops is_space (trimEnd x)).
  { apply stops_prefix with (w := w). now rewrite <- Hw. }
  unfold trimStart at 1. rewrite (dropWhile_stopped _ _ Ht).
  unfold trimEnd. rewrite rev_involutive, dropWhile_idem. reflexivity.
Qed.

Lemma minecraft_avatar_url name mc :
  Chat.getMinecraftAvatar name = Some mc -> mc <> [] ->
  str_eqb (toLowerCase mc) (U "minecraft") = false.
Proof.
  unfold Chat.getMinecraftAvatar.
  destruct (test Chat.minecraftNamePattern name).
  - destruct (encodeURIComponent name); cbn [bind]; [|discriminate].
    intros E _. injection E as <-. reflexivity.
  - intros E. injection E as <-. contradiction.
Qed.

Lemma parsePerson_avatar attrs p a :
  Chat.parsePerson attrs = Some p -> Chat.avatar p = Some a ->
  str_eqb (toLowerCase a) (U "minecraft") = false.
Proof.
  unfold Chat.parsePerson.
  destruct (exec Chat.avatarRe (trim attrs)) as [am|].
  - destruct (trim (group_s 1 am)) as [|c t] eqn:Ea.
    + intros E. injection E as <-. cbn [Chat.avatar].
      intros E. injection E as <-. reflexivity.
    + destruct (str_eqb (toLowerCase (c :: t)) (U "minecraft")) eqn:Em.
      * destruct (Chat.getMinecraftAvatar _) as [mc|] eqn:Eg;
          cbn [bind]; [|discriminate].
        destruct mc as [|x mc].
        -- intros E. injection E as <-. discriminate.
        -- intros E. injection E as <-. cbn [Chat.avatar].
           intros E. injection E as <-.
           eapply minecraft_avatar_url; [exact Eg|discriminate].
      * intros E. injection E as <-. cbn [Chat.avatar].
        intros E. injection E as <-. exact Em.
  - intros E. injection E as <-. discriminate.
Qed.

Lemma pushMessage_ok p cc ms :
  person_ok p -> Forall message_ok ms ->
  Forall message_ok (Chat.pushMessage p cc ms).
Proof.
  intros Hp H. unfold Chat.pushMessage.
  destruct (trim (join nl cc)) as [|c t] eqn:E; [exact H|].
  apply Forall_app. split; [exact H|]. constructor; [|constructor].
  split; [discriminate|]. split; [|exact Hp].
  cbn [Chat.content]. rewrite <- E. apply trim_idem.
Qed.

Lemma step_ok st line st' :
  state_ok st -> Chat.step st line = Some st' -> state_ok st'.
Proof.
  intros [Hm Hp]. unfold Chat.step.
  destruct (exec Chat.personRe line) as [pm|].
  - destruct (Chat.parsePerson (group_s 1 pm)) as [q|] eqn:Eq.
    + assert (Hq : person_ok q)
        by (intros a Ha; eapply parsePerson_avatar; eassumption).
      destruct (Chat.currentPerson st) as [p|]; cbn [bind];
        intros E; injection E as <-; split; cbn; auto.
      now apply pushMessage_ok.
    + destruct (Chat.currentPerson st); discriminate.
  - destruct (Chat.currentPerson st) eqn:Ec; intros E; injection E as <-.
    + split; cbn; [exact Hm|exact Hp].
    + split; [exact Hm|]. now rewrite Ec.
Qed.

Lemma loop_ok lines : forall st st',
  state_ok st -> Chat.loop st lines = Some st' -> state_ok st'.
Proof.
  induction lines as [|l lines IH]; intros st st' H E; cbn [Chat.loop] in E.
  - injection E as <-. exact H.
  - destruct (Chat.step st l) as [st1|] eqn:Es; [|discriminate].
    cbn [bind] in E. eapply IH; [|exact E]. eapply step_ok; eassumption.
Qed.

(** X10.  [parseChatContent] never throws, and of every message that
    it returns the content is not empty and has no white space around
    it, and the avatar is never the word [minecraft] itself: the word
    is replaced by the address of the player's head or by no avatar. *)
Theorem chat_messages_are_well_formed (content : jsstr) :
  exists msgs,
    Chat.parseChatContent content = Some msgs /\ Forall message_ok msgs.
Proof.
  pose proof (parseChatContent_total content) as Ht.
  destruct (Chat.parseChatContent content) as [msgs|] eqn:E;
    [|contradiction].
  exists msgs. split; [reflexivity|].
  unfold Chat.parseChatContent in E.
  destruct (trim content); [injection E as <-; constructor|].
  destruct (Chat.loop _ _) as [st|] eqn:El; [|discriminate]. cbn [bind] in E.
  assert (H0 : state_ok (Chat.mkLoop [] None [])) by (split; [constructor|exact I]).
  destruct (loop_ok _ _ _ H0 El) as [Hm Hp].
  destruct (Chat.currentPerson st) as [p|];
    [destruct (Chat.currentContent st)|];
    injection E as <-; try exact Hm.
  now apply pushMessage_ok.
Qed.

Lemma pushMessage_length p cc ms :
  (length (Chat.pushMessage p cc ms) <= S (length ms))%nat.
Proof.
  unfold Chat.pushMessage. destruct (trim (join nl cc)); [lia|].
  rewrite length_app. cbn. lia.
Qed.

Lemma step_pending st line st' :
  Chat.step st line = Some st' ->
  (pending st' <= pending st + length (personLines [line]))%nat.
Proof.
  unfold Chat.step, personLines, pending, test. cbn [filter].
  destruct (exec Chat.personRe line) as [pm|].
  - destruct (Chat.parsePerson (group_s 1 pm)) as [q|].
    + destruct (Chat.currentPerson st) as [p|]; cbn [bind];
        intros E; injection E as <-; cbn [Chat.messages Chat.currentPerson length].
      * pose proof (pushMessage_length p (Chat.currentContent st)
                      (Chat.messages st)). lia.
      * lia.
    + destruct (Chat.currentPerson st); discriminate.
  - destruct (Chat.currentPerson st) eqn:Ec; intros E; injection E as <-;
      cbn [Chat.messages Chat.currentPerson length]; rewrite ?Ec; lia.
Qed.

Lemma personLines_cons l lines :
  length (personLines (l :: lines))
  = (length (personLines [l]) + length (personLines lines))%nat.
Proof.
  unfold personLines. cbn [filter]. destruct (test Chat.personRe l); reflexivity.
Qed.

Lemma loop_pending lines : forall st st',
  Chat.loop st lines = Some st' ->
  (pending st' <= pending st + length (personLines lines))%nat.
Proof.
  induction lines as [|l lines IH]; intros st st' E; cbn [Chat.loop] in E.
  - injection E as <-. cbn. lia.
  - destruct (Chat.step st l) as [st1|] eqn:Es; [|discriminate].
    cbn [bind] in E. rewrite personLines_cons.
    pose proof (step_pending _ _ _ Es). pose proof (IH _ _ E). lia.
Qed.

(** X11.  A chat has at most one message for each line that declares
    a person: a person without text gets none, and the text in front
    of the first declaration belongs to nobody.  A chat without any
    [@person] line has no message at all. *)
Theorem chat_has_one_message_per_person_at_most (content : jsstr)
    (msgs : list Chat.ChatMessage) :
  Chat.parseChatContent content = Some msgs ->
  (length msgs <= length (personLines (Chat.chatLines content)))%nat.
Proof.
  unfold Chat.parseChatContent.
  destruct (trim content); [intros E; injection E as <-; cbn; lia|].
  destruct (Chat.loop _ _) as [st|] eqn:El; [|discriminate]. cbn [bind].
  pose proof (loop_pending _ _ _ El) as H. unfold pending in H.
  cbn [Chat.messages Chat.currentPerson length] in H.
  destruct (Chat.currentPerson st) as [p|].
  - destruct (Chat.currentContent st) eqn:Ec; intros E; injection E as <-.
    + lia.
    + pose proof (pushMessage_length p (Chat.currentContent st)
                    (Chat.messages st)) as Hp.
      rewrite Ec in Hp. lia.
  - intros E. injection E as <-. lia.
Qed.

Lemma chat_has_one_message_per_person_at_most_witness :
  (length [Chat.mkMessage (Chat.mkPerson (U "B") None) (U "yo")]
   <= length (personLines (Chat.chatLines two_person_chat)))%nat.
Proof.
  apply chat_has_one_message_per_person_at_most. vm_compute. reflexivity.
Defined.

(** ** The inline passes of [processContent] *)

Lemma sub_match_shape bef suf m :
  match_at subRe bef suf = Some m ->
  exists c t, suf = tilde :: c :: t /\ (c =? tilde) = false /\
    match bef with b :: _ => (b =? tilde) = false | [] => True end.
Proof.
  intros H. apply match_at_inv in H. destruct H as [st [k [Hin _]]].
  unfold subRe in Hin.
  rewrite mt_seqs_cons in Hin. apply in_flat_map in Hin.
  destruct Hin as [x0 [Hx0 Hin]]. cbn [mt before] in Hx0.
  assert (Hb : match bef with b :: _ => (b =? tilde) = false | [] => True end
               /\ x0 = MState bef suf []).
  { destruct bef as [|b bef].
    - destruct Hx0 as [<-|[]]. split; [exact I|reflexivity].
    - unfold is_c in Hx0. destruct (b =? tilde); [contradiction|].
      destruct Hx0 as [<-|[]]. split; reflexivity. }
  destruct Hb as [Hb ->].
  rewrite mt_seqs_cons in Hin. apply in_flat_map in Hin.
  destruct Hin as [x1 [Hx1 Hin]].
  apply mt_chr_in in Hx1. destruct Hx1 as [c1 [E1 [Hc1 Ex1]]].
  cbn [rest] in E1. apply N.eqb_eq in Hc1. subst c1.
  rewrite mt_seqs_cons in Hin. apply in_flat_map in Hin.
  destruct Hin as [x2 [Hx2 _]].
  change (mt (Grp 1 ?a) ?s) with (map (setcap 1 s) (mt a s)) in Hx2.
  apply in_map_iff in Hx2. destruct Hx2 as [y2 [_ Hy2]].
  cbn [mt plus] in Hy2. apply rep_class_in in Hy2.
  destruct Hy2 as [k2 [E2 [_ [Hk2 [Hmin _]]]]].
  destruct k2 as [|c k2]; [cbn in Hmin; lia|].
  cbn [forallb] in Hk2. apply andb_prop in Hk2. destruct Hk2 as [Hc _].
  exists c, (k2 ++ rest y2). split.
  - rewrite E1, E2. reflexivity.
  - split; [|exact Hb].
    unfold none_of in Hc. cbn [existsb] in Hc.
    destruct (N.eqb_spec c tilde) as [->|Hne]; [discriminate|reflexivity].
Qed.

Lemma app_same_length {A : Type} (a b x y : list A) :
  length a = length b -> a ++ x = b ++ y -> a = b /\ x = y.
Proof.
  revert b. induction a as [|c a IH]; intros [|d b] Hl E; cbn in Hl;
    try discriminate.
  - split; [reflexivity|exact E].
  - cbn [app] in E. injection E as -> E. injection Hl as Hl.
    destruct (IH b Hl E) as [-> ->]. split; reflexivity.
Qed.

Lemma split_position (b1 s1 bef s : jsstr) :
  rev b1 ++ s1 = rev bef ++ s -> (length bef <= length b1)%nat ->
  (b1 = bef /\ s1 = s) \/
  (exists c s', s = c :: s' /\ rev b1 ++ s1 = rev (c :: bef) ++ s' /\
                (length (c :: bef) <= length b1)%nat).
Proof.
  intros E Hl.
  destruct (Nat.eq_dec (length b1) (length bef)) as [Heq|Hne].
  - left. apply app_same_length in E; [|now rewrite !length_rev].
    destruct E as [E1 E2]. split; [|exact E2].
    apply (f_equal (@rev N)) in E1. now rewrite !rev_involutive in E1.
  - right. destruct s as [|c s'].
    + apply (f_equal (@length N)) in E. rewrite !length_app, !length_rev in E.
      cbn in E. lia.
    + exists c, s'. split; [reflexivity|]. split.
      * cbn [rev]. rewrite <- app_assoc. exact E.
      * cbn [length]. lia.
Qed.

Lemma lone_tilde_none s : forall bef b1 s1,
  lone_tilde (prev_unit bef) s = false ->
  rev b1 ++ s1 = rev bef ++ s -> (length bef <= length b1)%nat ->
  match_at subRe b1 s1 = None.
Proof.
  induction s as [|c s IH]; intros bef b1 s1 Hl E Hlen.
  - destruct (split_position _ _ _ _ E Hlen) as [[-> ->]|[c [s' [Hs _]]]];
      [|discriminate].
    destruct (match_at subRe bef []) eqn:Em; [|reflexivity].
    apply sub_match_shape in Em. destruct Em as [? [? [Hs _]]]. discriminate.
  - destruct (split_position _ _ _ _ E Hlen) as [[-> ->]|[c' [s' [Hs [E' Hl']]]]].
    + destruct (match_at subRe bef (c :: s)) eqn:Em; [|reflexivity].
      exfalso. apply sub_match_shape in Em.
      destruct Em as [d [t [Hs [Hd Hb]]]]. injection Hs as -> ->.
      cbn [lone_tilde] in Hl. rewrite Hd, N.eqb_refl in Hl.
      assert (Hp : (prev_unit bef =? tilde) = false)
        by (destruct bef; [reflexivity|exact Hb]).
      rewrite Hp in Hl. discriminate.
    + injection Hs as <- <-. apply (IH (c :: bef)); [|exact E'|exact Hl'].
      cbn [lone_tilde] in Hl. apply orb_false_elim in Hl.
      destruct Hl as [_ Hl]. exact Hl.
Qed.

Lemma lone_tilde_no_match s : lone_tilde 0 s = false -> no_match subRe s.
Proof.
  intros H bef suf E. apply (lone_tilde_none s [] bef suf H).
  - exact E.
  - cbn. lia.
Qed.

Lemma lone_tilde_free k : forall p t,
  tilde_free k = true -> k <> [] ->
  lone_tilde p (k ++ t) = lone_tilde (last k 0) t.
Proof.
  induction k as [|c k IH]; intros p t Hk Hne; [contradiction|].
  cbn [tilde_free forallb] in Hk. apply andb_prop in Hk.
  destruct Hk as [Hc Hk]. apply negb_true_iff in Hc.
  cbn [app lone_tilde]. rewrite Hc. cbn [andb].
  destruct k as [|d k].
  - cbn [app last]. destruct t; reflexivity.
  - replace (last (c :: d :: k) 0) with (last (d :: k) 0) by reflexivity.
    rewrite <- (IH c t Hk) by discriminate.
    cbn [app orb]. reflexivity.
Qed.

Lemma lone_tilde_free_end k p :
  tilde_free k = true -> lone_tilde p k = false.
Proof.
  revert p. induction k as [|c k IH]; intros p Hk; [reflexivity|].
  cbn [tilde_free forallb] in Hk. apply andb_prop in Hk.
  destruct Hk as [Hc Hk]. apply negb_true_iff in Hc.
  cbn [lone_tilde]. rewrite Hc, (IH c Hk). destruct k; reflexivity.
Qed.

Lemma lone_tilde_pair p t :
  lone_tilde p (tilde :: tilde :: t) = lone_tilde tilde t.
Proof.
  cbn [lone_tilde]. rewrite !N.eqb_refl. cbn [negb andb orb].
  rewrite andb_false_r. cbn [orb].
  destruct t; [reflexivity|]. cbn [negb andb orb]. reflexivity.
Qed.

Lemma lone_tilde_skip p k t :
  tilde_free k = true ->
  lone_tilde p (k ++ tilde :: tilde :: t)
  = lone_tilde tilde t.
Proof.
  intros Hk. destruct k as [|c k].
  - apply lone_tilde_pair.
  - rewrite lone_tilde_free by (assumption || discriminate).
    apply lone_tilde_pair.
Qed.

(** X14.  The subscript pass leaves struck-through text alone: in a
    text whose only tildes are those of one [~~...~~] span, nothing is
    replaced, so the span reaches the Markdown parser as it was
    written. *)
Theorem strikethrough_is_not_a_subscript (pre x post : jsstr) :
  tilde_free pre = true -> tilde_free x = true -> tilde_free post = true ->
  replace_all_tpl subRe 1 (U "<sub>$1</sub>")
    (pre ++ U "~~" ++ x ++ U "~~" ++ post)
  = pre ++ U "~~" ++ x ++ U "~~" ++ post.
Proof.
  intros Hpre Hx Hpost. apply replace_all_tpl_no_match.
  apply lone_tilde_no_match.
  change (U "~~" ++ x ++ U "~~" ++ post)
    with (tilde :: tilde :: x ++ tilde :: tilde :: post).
  rewrite (lone_tilde_skip 0 pre) by exact Hpre.
  rewrite (lone_tilde_skip tilde x) by exact Hx.
  apply lone_tilde_free_end, Hpost.
Qed.

Lemma strikethrough_is_not_a_subscript_witness :
  replace_all_tpl subRe 1 (U "<sub>$1</sub>") strike_sample = strike_sample.
Proof.
  apply (strikethrough_is_not_a_subscript (U "a ") (U "gone") (U " b"));
    reflexivity.
Defined.

(** ** Timelines and tabs *)

Lemma year_prefix (l : list regex) bef s m :
  match_at (seqs (Bol :: between 4 4 (Chr is_digit) :: l)) bef s = Some m ->
  four_digits s = true.
Proof.
  intros H. apply match_at_inv in H. destruct H as [st [k [Hin _]]].
  rewrite mt_seqs_cons in Hin. apply in_flat_map in Hin.
  destruct Hin as [x0 [Hx0 Hin]]. cbn [mt before] in Hx0.
  destruct bef; [|contradiction]. destruct Hx0 as [<-|[]].
  assert (Hy : exists y, In y (mt (between 4 4 (Chr is_digit)) (MState [] s []))).
  { destruct l as [|a l].
    - cbn [seqs] in Hin. eauto.
    - rewrite mt_seqs_cons in Hin. apply in_flat_map in Hin.
      destruct Hin as [y [Hy _]]. eauto. }
  destruct Hy as [y Hy]. cbn [mt between] in Hy.
  apply rep_class_in in Hy. destruct Hy as [k4 [E [_ [Hk [Hmin _]]]]].
  cbn [rest] in E. subst s.
  destruct k4 as [|a [|b [|c [|d k4]]]]; cbn in Hmin; try lia.
  cbn [forallb] in Hk. cbn [app four_digits].
  repeat (apply andb_prop in Hk; destruct Hk as [? Hk]).
  rewrite H, H0, H1, H2. reflexivity.
Qed.

Lemma yearRe_hit s : four_digits s = true -> test yearRe s = true.
Proof.
  intros H. destruct s as [|a [|b [|c [|d t]]]]; try discriminate.
  cbn [four_digits] in H.
  apply andb_prop in H. destruct H as [H Hd].
  apply andb_prop in H. destruct H as [H Hc].
  apply andb_prop in H. destruct H as [Ha Hb].
  unfold test, yearRe. rewrite exec_anchored. unfold match_at.
  cbn -[is_digit]. rewrite Ha. cbn -[is_digit]. rewrite Hb.
  cbn -[is_digit]. rewrite Hc. cbn -[is_digit]. rewrite Hd.
  reflexivity.
Qed.

Lemma test_anchored_year l s :
  test (seqs (Bol :: between 4 4 (Chr is_digit) :: l)) s = true ->
  four_digits s = true.
Proof.
  unfold test. rewrite exec_anchored.
  destruct (match_at _ [] s) eqn:E; [|discriminate]. intros _.
  eapply year_prefix. exact E.
Qed.

Lemma split_chr_free sep d : forall cur,
  forallb (fun c => negb (c =? sep)) d = true ->
  split_chr sep cur d = [rev cur ++ d].
Proof.
  induction d as [|c d IH]; intros cur H; cbn [split_chr].
  - now rewrite app_nil_r.
  - cbn [forallb] in H. apply andb_prop in H. destruct H as [Hc Hd].
    apply negb_true_iff in Hc. rewrite Hc, IH by exact Hd.
    cbn [rev]. now rewrite <- app_assoc.
Qed.

Lemma split_chr_at sep d s : forall cur,
  forallb (fun c => negb (c =? sep)) d = true ->
  split_chr sep cur (d ++ sep :: s) = (rev cur ++ d) :: split_chr sep [] s.
Proof.
  induction d as [|c d IH]; intros cur H; cbn [app split_chr].
  - now rewrite N.eqb_refl, app_nil_r.
  - cbn [forallb] in H. apply andb_prop in H. destruct H as [Hc Hd].
    apply negb_true_iff in Hc. rewrite Hc, IH by exact Hd.
    cbn [rev]. now rewrite <- app_assoc.
Qed.

Lemma includes_bar d s : includes (d ++ 124 :: s) [124] = true.
Proof. apply includes_app_l, includes_here. cbn. reflexivity. Qed.

Lemma bar_free_includes s : bar_free s = true -> includes s [124] = false.
Proof.
  induction s as [|c s IH]; intros H; [reflexivity|].
  cbn [bar_free forallb] in H. apply andb_prop in H. destruct H as [Hc Hs].
  apply negb_true_iff in Hc. cbn [includes]. unfold startsWith.
  cbn [strip_prefix]. rewrite N.eqb_sym, Hc. apply IH, Hs.
Qed.

(** X15.  The header of a timeline item.  Without a vertical bar the
    header is the date exactly when it starts with four digits, and
    the title otherwise: the pattern for full dates never decides.
    With a bar the date is in front of the first bar and the title
    behind it, both trimmed, and what follows a second bar is
    dropped. *)
Theorem timeline_header_parts :
  (forall header,
     bar_free header = true ->
     parseItemHeader header
     = if four_digits header then (header, []) else ([], header)) /\
  (forall d t,
     bar_free d = true -> bar_free t = true ->
     parseItemHeader (d ++ U "|" ++ t) = (trim d, trim t)) /\
  (forall d t rest,
     bar_free d = true -> bar_free t = true ->
     parseItemHeader (d ++ U "|" ++ t ++ U "|" ++ rest) = (trim d, trim t)).
Proof.
  split; [|split].
  - intros header Hb. unfold parseItemHeader.
    rewrite (bar_free_includes _ Hb).
    destruct (four_digits header) eqn:E.
    + rewrite (yearRe_hit _ E), orb_true_r. reflexivity.
    + destruct (test fullDateRe header) eqn:Ef.
      { apply test_anchored_year in Ef. congruence. }
      destruct (test yearRe header) eqn:Ey.
      { apply (test_anchored_year []) in Ey. congruence. }
      reflexivity.
  - intros d t Hd Ht. unfold parseItemHeader.
    change (U "|" ++ t) with (124 :: t).
    rewrite includes_bar, split_chr_at by exact Hd.
    rewrite split_chr_free by exact Ht. reflexivity.
  - intros d t rest Hd Ht. unfold parseItemHeader.
    change (U "|" ++ t ++ U "|" ++ rest) with (124 :: t ++ 124 :: rest).
    rewrite includes_bar, split_chr_at by exact Hd.
    rewrite split_chr_at by exact Ht. cbn [map rev app].
    destruct (map trim (split_chr 124 [] rest)); reflexivity.
Qed.

Lemma timeline_header_parts_witness :
  parseItemHeader (U "2024 in review") = (U "2024 in review", []) /\
  parseItemHeader (U "2024-05 | Launch | extra") = (U "2024-05", U "Launch").
Proof.
  split.
  - apply (proj1 timeline_header_parts (U "2024 in review")). reflexivity.
  - apply (proj2 (proj2 timeline_header_parts) (U "2024-05 ") (U " Launch ")
             (U " extra")); reflexivity.
Defined.

Lemma split_loop_no_match r n s : forall bef cur,
  (forall b1 s1, rev b1 ++ s1 = rev bef ++ s -> match_at r b1 s1 = None) ->
  split_loop r n 0 bef s cur = [rev cur ++ s].
Proof.
  induction s as [|c s IH]; intros bef cur H; cbn [split_loop].
  - now rewrite app_nil_r.
  - rewrite (H bef (c :: s) eq_refl). rewrite IH.
    + cbn [rev]. now rewrite <- app_assoc.
    + intros b1 s1 E. apply H. rewrite E. cbn [rev].
      now rewrite <- app_assoc.
Qed.

Lemma split_re_no_match r n s : no_match r s -> split_re r n s = [s].
Proof.
  intros H. unfold split_re. destruct s as [|c s].
  - now rewrite (H [] [] eq_refl).
  - apply (split_loop_no_match r n (c :: s) [] []). exact H.
Qed.

Lemma markerLine_no_match kw s :
  includes s kw = false -> no_match (markerLineRe kw) s.
Proof.
  intros H. apply (needs_has_no_match kw); [|exact H].
  unfold markerLineRe. apply needs_lit_first, includes_refl.
Qed.

(** X16.  A [:::tabs] block without any [@tab] line becomes a
    container without tabs and a [:::timeline] block without any
    [@item] line a container without items: the text of such a block
    is not kept anywhere. *)
Theorem block_without_marker_loses_its_text (codeBlocks : list jsstr)
    (m : rmatch) :
  (includes (group_s 1 m) (U "@tab") = false ->
   tabsReplacer codeBlocks m = Some emptyTabs) /\
  (includes (group_s 1 m) (U "@item") = false ->
   timelineReplacer codeBlocks m = Some emptyTimeline).
Proof.
  split; intros H.
  - unfold tabsReplacer.
    rewrite (split_re_no_match _ _ _ (markerLine_no_match _ _ H)).
    reflexivity.
  - unfold timelineReplacer.
    rewrite (split_re_no_match _ _ _ (markerLine_no_match _ _ H)).
    reflexivity.
Qed.

Lemma block_without_marker_loses_its_text_witness :
  tabsReplacer [] (first_match tabsRe tabs_without_marker) = Some emptyTabs.
Proof.
  apply (proj1 (block_without_marker_loses_its_text []
                  (first_match tabsRe tabs_without_marker))).
  vm_compute. reflexivity.
Defined.

(** ** The nested-list pass *)

Lemma listLine_shape line lm :
  exec listLineRe line = Some lm ->
  line = group_s 1 lm ++ group_s 2 lm /\
  forallb is_space (group_s 1 lm) = true /\
  exists d t, group_s 2 lm = d :: t /\ is_digit d = true.
Proof.
  unfold listLineRe. rewrite exec_anchored. intros H.
  apply match_at_inv in H. destruct H as [st [k [Hin [_ ->]]]].
  rewrite mt_seqs_cons in Hin. apply in_flat_map in Hin.
  destruct Hin as [x0 [Hx0 Hin]]. destruct Hx0 as [<-|[]].
  rewrite mt_seqs_cons in Hin. apply in_flat_map in Hin.
  destruct Hin as [x1 [Hx1 Hin]]. cbn [mt] in Hx1.
  apply in_map_iff in Hx1. destruct Hx1 as [y1 [<- Hy1]].
  apply rep_class_in in Hy1. destruct Hy1 as [k1 [E1 [Ey1 [Hk1 _]]]].
  rewrite mt_seqs_cons in Hin. apply in_flat_map in Hin.
  destruct Hin as [x2 [Hx2 Hin]].
  change (mt (Grp 2 ?a) ?s) with (map (setcap 2 s) (mt a s)) in Hx2.
  apply in_map_iff in Hx2. destruct Hx2 as [y2 [<- Hy2]].
  pose proof Hy2 as Hcaps. apply mt_caps in Hcaps; [|reflexivity].
  destruct (mt_moved _ _ _ Hy2) as [k2 Hk2].
  assert (Hd : exists d t, k2 = d :: t /\ is_digit d = true).
  { rewrite mt_seqs_cons in Hy2. apply in_flat_map in Hy2.
    destruct Hy2 as [z [Hz Hy2]]. cbn [mt plus] in Hz.
    apply rep_class_in in Hz. destruct Hz as [kd [Ed [Ez [Hkd [Hmin _]]]]].
    destruct (mt_moved _ _ _ Hy2) as [kr Hkr].
    destruct kd as [|d kd]; [cbn in Hmin; lia|].
    cbn [forallb] in Hkd. apply andb_prop in Hkd. destruct Hkd as [Hdig _].
    exists d, (kd ++ kr). split; [|exact Hdig].
    destruct Hk2 as [Hk2 _]. destruct Hkr as [Hkr _].
    rewrite Ed, Hkr, app_assoc in Hk2.
    apply app_inv_tail in Hk2. rewrite <- Hk2. reflexivity. }
  cbn [seqs mt] in Hin.
  destruct (rest (setcap 2 (setcap 1 (MState [] line []) y1) y2)) eqn:Er;
    [|contradiction].
  destruct Hin as [<-|[]].
  unfold group_s, group. cbn [m_caps setcap caps getcap Nat.eqb].
  rewrite Hcaps. cbn [setcap caps getcap Nat.eqb].
  assert (Hc1 : consumed (MState [] line []) y1 = k1).
  { apply moved_consumed. split; [exact E1|]. rewrite Ey1. reflexivity. }
  rewrite Hc1. rewrite (moved_consumed _ _ _ Hk2).
  cbn [setcap rest] in Er. destruct Hk2 as [Hk2 _].
  cbn [setcap rest] in Hk2. rewrite Er, app_nil_r in Hk2.
  cbn [rest] in E1. rewrite Hk2 in E1.
  split; [exact E1|]. split; [exact Hk1|exact Hd].
Qed.

Lemma digit_stops d t : is_digit d = true -> stops is_space (d :: t).
Proof. intros H. cbn [stops]. apply digit_not_space, H. Qed.

Lemma listLine_indent_is line lm :
  exec listLineRe line = Some lm ->
  group_s 1 lm = takeWhile is_space line /\
  group_s 2 lm = dropWhile is_space line.
Proof.
  intros H. destruct (listLine_shape _ _ H) as [E [Hs [d [t [E2 Hd]]]]].
  destruct (takeWhile_app is_space (group_s 1 lm) (d :: t) Hs
              (digit_stops d t Hd)) as [H1 H2].
  rewrite <- E2, <- E in H1, H2. split; symmetry; assumption.
Qed.

Lemma spaces_space n : forallb is_space (spaces n) = true.
Proof. induction n; [reflexivity|exact IHn]. Qed.

Lemma indent_of_spaces n line lm :
  exec listLineRe line = Some lm ->
  indent_of (spaces n ++ group_s 2 lm) = n /\
  trimStart (spaces n ++ group_s 2 lm) = trimStart line.
Proof.
  intros H. destruct (listLine_shape _ _ H) as [E [Hs [d [t [E2 Hd]]]]].
  destruct (listLine_indent_is _ _ H) as [_ E3].
  unfold indent_of, trimStart. rewrite <- E3, E2.
  destruct (takeWhile_app is_space (spaces n) (d :: t) (spaces_space n)
              (digit_stops d t Hd)) as [-> ->].
  split; [|reflexivity]. unfold spaces. apply repeat_length.
Qed.

Lemma exec_listLine_nil : exec listLineRe [] = None.
Proof. vm_compute. reflexivity. Qed.

Lemma test_exec r s : test r s = true -> exists m, exec r s = Some m.
Proof. unfold test. destruct (exec r s) as [m|]; [eauto|discriminate]. Qed.

Lemma fixLine_settled first prev line l :
  In l (fixLine first prev line) -> test listLineRe l = true ->
  settled (indent_of l).
Proof.
  unfold fixLine. intros Hin Ht.
  destruct (exec listLineRe line) as [lm|] eqn:E.
  - destruct (listLine_indent_is _ _ E) as [E1 _].
    apply in_app_or in Hin. destruct Hin as [Hin|Hin].
    + assert (l = []).
      { destruct (exec listLineRe prev); [|contradiction].
        destruct (_ && _); [|contradiction].
        destruct Hin as [<-|[]]. reflexivity. }
      subst l. unfold test in Ht. rewrite exec_listLine_nil in Ht.
      discriminate.
    + set (n := length (group_s 1 lm)) in *.
      assert (Hn : indent_of line = n) by (unfold indent_of, n; now rewrite E1).
      unfold settled.
      destruct (Nat.ltb_spec 0 n).
      * destruct (Nat.leb_spec 2 n); cbn [andb] in Hin.
        -- destruct (Nat.leb_spec n 4).
           ++ destruct Hin as [<-|[]].
              rewrite (proj1 (indent_of_spaces 4 _ _ E)). lia.
           ++ destruct (Nat.leb_spec 5 n); cbn [andb] in Hin; [|lia].
              destruct (Nat.leb_spec n 6).
              ** destruct Hin as [<-|[]].
                 rewrite (proj1 (indent_of_spaces 7 _ _ E)). lia.
              ** destruct Hin as [<-|[]]. lia.
        -- destruct (Nat.leb_spec 5 n); [lia|]. cbn [andb] in Hin.
           destruct Hin as [<-|[]]. lia.
      * destruct Hin as [<-|[]]. lia.
  - destruct Hin as [<-|[]]. unfold test in Ht. rewrite E in Ht. discriminate.
Qed.

Lemma visible_app a b : visible (a ++ b) = visible a ++ visible b.
Proof. unfold visible. now rewrite map_app, filter_app. Qed.

Lemma fixLine_visible first prev line :
  visible (fixLine first prev line) = visible [line].
Proof.
  unfold fixLine.
  destruct (exec listLineRe line) as [lm|] eqn:E; [|reflexivity].
  rewrite visible_app.
  replace (visible _) with (@nil jsstr).
  - cbn [app].
    destruct (Nat.ltb 0 _); [|reflexivity].
    destruct (_ && _).
    + unfold visible. cbn [map].
      now rewrite (proj2 (indent_of_spaces 4 _ _ E)).
    + destruct (_ && _); [|reflexivity].
      unfold visible. cbn [map].
      now rewrite (proj2 (indent_of_spaces 7 _ _ E)).
  - destruct (exec listLineRe prev); [|reflexivity].
    destruct (_ && _); reflexivity.
Qed.

Lemma fixLines_visible lines : forall first prev,
  visible (fixLines first prev lines) = visible lines.
Proof.
  induction lines as [|l lines IH]; intros first prev; [reflexivity|].
  cbn [fixLines]. rewrite visible_app, fixLine_visible, IH.
  change (l :: lines) with ([l] ++ lines). now rewrite visible_app.
Qed.

Lemma fixLines_settled lines : forall first prev l,
  In l (fixLines first prev lines) -> test listLineRe l = true ->
  settled (indent_of l).
Proof.
  induction lines as [|x lines IH]; intros first prev l Hin Ht;
    [contradiction|].
  cbn [fixLines] in Hin. apply in_app_or in Hin. destruct Hin as [Hin|Hin].
  - eapply fixLine_settled; eassumption.
  - eapply IH; eassumption.
Qed.

Lemma split_nl_join ls :
  ls <> [] -> Forall (fun l => nl_free l = true) ls ->
  split_nl (join nl ls) = ls.
Proof.
  unfold split_nl. induction ls as [|a ls IH]; intros Hne H; [contradiction|].
  inversion H as [|? ? Ha Hls]; subst. destruct ls as [|b ls].
  - cbn [join]. now rewrite split_chr_free by exact Ha.
  - change (join nl (a :: b :: ls)) with (a ++ 10 :: join nl (b :: ls)).
    rewrite split_chr_at by exact Ha. cbn [rev app].
    rewrite IH by (discriminate || assumption). reflexivity.
Qed.

Lemma forallb_rev_eq {A : Type} (p : A -> bool) l :
  forallb p (rev l) = forallb p l.
Proof.
  induction l as [|c l IH]; [reflexivity|].
  cbn [rev forallb]. rewrite forallb_app, IH. cbn [forallb].
  rewrite andb_true_r. apply andb_comm.
Qed.

Lemma split_chr_nl_free s : forall cur,
  nl_free cur = true ->
  Forall (fun l => nl_free l = true) (split_chr 10 cur s).
Proof.
  induction s as [|c s IH]; intros cur Hc; cbn [split_chr].
  - constructor; [|constructor]. unfold nl_free in *.
    now rewrite forallb_rev_eq.
  - destruct (c =? 10) eqn:E.
    + constructor; [|apply IH; reflexivity].
      unfold nl_free in *. now rewrite forallb_rev_eq.
    + apply IH. cbn. now rewrite E.
Qed.

Lemma nl_free_dropWhile p s : nl_free s = true -> nl_free (dropWhile p s) = true.
Proof.
  induction s as [|c s IH]; intros H; [reflexivity|].
  cbn [dropWhile]. destruct (p c); [|exact H].
  cbn in H. apply andb_prop in H. apply IH, H.
Qed.

Lemma nl_free_spaces n s : nl_free s = true -> nl_free (spaces n ++ s) = true.
Proof. intros H. induction n; [exact H|exact IHn]. Qed.

Lemma fixLine_nl_free first prev line :
  nl_free line = true ->
  Forall (fun l => nl_free l = true) (fixLine first prev line).
Proof.
  intros H. unfold fixLine.
  destruct (exec listLineRe line) as [lm|] eqn:E;
    [|constructor; [exact H|constructor]].
  destruct (listLine_indent_is _ _ E) as [_ E2].
  apply Forall_app. split.
  - destruct (exec listLineRe prev); [|constructor].
    destruct (_ && _); [|constructor].
    constructor; [reflexivity|constructor].
  - assert (Hs : forall n, nl_free (spaces n ++ group_s 2 lm) = true)
      by (intros n; rewrite E2; apply nl_free_spaces, nl_free_dropWhile, H).
    destruct (Nat.ltb 0 _); [|constructor; [exact H|constructor]].
    destruct (_ && _); [constructor; [apply Hs|constructor]|].
    destruct (_ && _); constructor; try apply Hs; try exact H; constructor.
Qed.

Lemma fixLines_nl_free lines : forall first prev,
  Forall (fun l => nl_free l = true) lines ->
  Forall (fun l => nl_free l = true) (fixLines first prev lines).
Proof.
  induction lines as [|l lines IH]; intros first prev H; [constructor|].
  inversion H; subst. cbn [fixLines]. apply Forall_app. split.
  - now apply fixLine_nl_free.
  - now apply IH.
Qed.

Lemma fixLine_nonempty first prev line : fixLine first prev line <> [].
Proof.
  unfold fixLine. destruct (exec listLineRe line); [|discriminate].
  intros E. apply app_eq_nil in E. destruct E as [_ E].
  destruct (Nat.ltb 0 _); [|discriminate].
  destruct (_ && _); [discriminate|].
  destruct (_ && _); discriminate.
Qed.

Lemma fixNestedLists_lines text :
  includes text [backtick] = false -> includes text [tilde] = false ->
  split_nl (fixNestedLists text) = fixLines true [] (split_nl text).
Proof.
  intros Hb Ht. unfold fixNestedLists.
  rewrite replace_all_st_no_match.
  - cbn [restoreForLists]. apply split_nl_join.
    + pose proof (split_chr_nonempty 10 text []) as Hne.
      unfold split_nl. destruct (split_chr 10 [] text) as [|l ls];
        [contradiction|].
      cbn [fixLines]. intros E. apply app_eq_nil in E.
      destruct E as [E _]. now apply fixLine_nonempty in E.
    + apply fixLines_nl_free. apply split_chr_nl_free. reflexivity.
  - unfold no_match.
    apply (needs_no_match _ _ _ needs_anyFence);
      [apply mono_or; apply mono_has|].
    unfold has. rewrite Hb, Ht. intros [H|H]; discriminate.
Qed.

(** ** Escaped attribute values *)

Lemma not_in_includes c s : ~ In c s -> includes s [c] = false.
Proof.
  induction s as [|x s IH]; intros H; [reflexivity|].
  cbn [includes]. unfold startsWith. cbn [strip_prefix].
  destruct (N.eqb_spec c x) as [->|Hne].
  - exfalso. apply H. now left.
  - apply IH. intros Hin. apply H. now right.
Qed.

(** X12.  An escaped value holds no double quote, so that the
    attribute written around it ends where [processContent] ends it;
    a value without double quotes is written as it is, and a value
    escaped for a link title holds no apostrophe either. *)
Theorem escaped_value_has_no_quote (v : jsstr) :
  ~ In 34 (escapeQuot v) /\
  (~ In 34 v -> escapeQuot v = v) /\
  (~ In 34 (escapeApos (escapeQuot v)) /\ ~ In 39 (escapeApos (escapeQuot v))).
Proof.
  assert (Hq : forall s, ~ In 34 (escapeQuot s)).
  { induction s as [|c s IH]; [intros []|].
    unfold escapeQuot. cbn [flat_map]. intros H. apply in_app_or in H.
    destruct H as [H|H]; [|exact (IH H)].
    destruct (N.eqb_spec c 34) as [->|Hne].
    - cbn in H. repeat (destruct H as [H|H]; [discriminate|]). exact H.
    - destruct H as [H|[]]. congruence. }
  assert (Ha : forall s, ~ In 34 s ->
            ~ In 34 (escapeApos s) /\ ~ In 39 (escapeApos s)).
  { induction s as [|c s IH]; [intros _; split; intros []|].
    intros Hs. unfold escapeApos. cbn [flat_map].
    destruct IH as [IH1 IH2]; [intros H; apply Hs; now right|].
    split; intros H; apply in_app_or in H; destruct H as [H|H];
      try (now apply IH1); try (now apply IH2);
      destruct (N.eqb_spec c 39) as [->|Hne];
      try (cbn in H; repeat (destruct H as [H|H]; [discriminate|]); exact H).
    - destruct H as [H|[]]. apply Hs. now left.
    - destruct H as [H|[]]. congruence. }
  split; [apply Hq|]. split.
  - induction v as [|c v IH]; intros H; [reflexivity|].
    unfold escapeQuot. cbn [flat_map].
    destruct (N.eqb_spec c 34) as [->|Hne]; [exfalso; apply H; now left|].
    cbn [app]. f_equal. apply IH. intros Hin. apply H. now right.
  - apply Ha, Hq.
Qed.

Lemma escaped_value_has_no_quote_witness :
  escapeQuot (U "plain title") = U "plain title".
Proof.
  apply (proj1 (proj2 (escaped_value_has_no_quote (U "plain title")))).
  cbn. intros H. repeat (destruct H as [H|H]; [discriminate|]). exact H.
Defined.

(** ** Texts without surrogates *)

Lemma plainb_plain s : plainb s = true -> plain s.
Proof.
  unfold plainb, plain. rewrite forallb_forall, Forall_forall.
  intros H c Hc. specialize (H c Hc). unfold not_surrogate.
  apply orb_prop in H. destruct H as [H|H].
  - left. now apply N.ltb_lt.
  - right. apply andb_prop in H. destruct H as [H1 H2].
    split; now apply N.ltb_lt.
Qed.

Lemma ascii_plain s : Forall (fun c => c < 128) s -> plain s.
Proof.
  intros H. eapply Forall_impl; [|exact H]. intros c Hc. cbv beta in Hc.
  left. lia.
Qed.

Lemma plain_app a b : plain a -> plain b -> plain (a ++ b).
Proof. intros Ha Hb. apply Forall_app. split; assumption. Qed.

Lemma plain_app_inv a b : plain (a ++ b) -> plain a /\ plain b.
Proof. apply Forall_app. Qed.

Lemma plain_rev a : plain a -> plain (rev a).
Proof. apply Forall_rev. Qed.

Lemma plain_rev_inv a : plain (rev a) -> plain a.
Proof. intros H. rewrite <- (rev_involutive a). now apply Forall_rev. Qed.

Lemma plain_firstn n a : plain a -> plain (firstn n a).
Proof.
  intros H. rewrite <- (firstn_skipn n a) in H. now apply plain_app_inv in H.
Qed.

Lemma plain_skipn n a : plain a -> plain (skipn n a).
Proof.
  intros H. rewrite <- (firstn_skipn n a) in H. now apply plain_app_inv in H.
Qed.

Lemma plain_trim s : plain s -> plain (trim s).
Proof. apply trim_all. Qed.

Lemma plain_lower s : plain s -> plain (toLowerCase s).
Proof.
  unfold plain, toLowerCase. intros H. apply Forall_map.
  eapply Forall_impl; [|exact H]. intros c Hc. unfold lower_c.
  destruct (is_upper c) eqn:E; [|exact Hc].
  unfold is_upper in E. apply andb_prop in E. destruct E as [E1 E2].
  apply N.leb_le in E1, E2. left. lia.
Qed.

Lemma plain_flat_map (g : N -> jsstr) s :
  (forall c, not_surrogate c -> plain (g c)) -> plain s ->
  plain (flat_map g s).
Proof.
  intros Hg H. induction H as [|c s Hc _ IH]; [constructor|].
  cbn [flat_map]. apply plain_app; [apply Hg, Hc|exact IH].
Qed.

Lemma plain_escapeQuot s : plain s -> plain (escapeQuot s).
Proof.
  apply plain_flat_map. intros c Hc.
  destruct (c =? 34); [apply plainb_plain; reflexivity|].
  constructor; [exact Hc|constructor].
Qed.

Lemma plain_escapeApos s : plain s -> plain (escapeApos s).
Proof.
  apply plain_flat_map. intros c Hc.
  destruct (c =? 39); [apply plainb_plain; reflexivity|].
  constructor; [exact Hc|constructor].
Qed.

Lemma plain_join sep ls : plain sep -> Forall plain ls -> plain (join sep ls).
Proof.
  intros Hs H. induction H as [|a ls Ha Hls IH]; [constructor|].
  destruct ls as [|b ls]; [exact Ha|].
  change (join sep (a :: b :: ls)) with (a ++ sep ++ join sep (b :: ls)).
  apply plain_app; [exact Ha|]. apply plain_app; [exact Hs|exact IH].
Qed.

Lemma plain_split_chr sep s : forall cur,
  plain cur -> plain s -> Forall plain (split_chr sep cur s).
Proof.
  induction s as [|c s IH]; intros cur Hc Hs; cbn [split_chr].
  - constructor; [now apply plain_rev|constructor].
  - inversion Hs; subst. destruct (c =? sep).
    + constructor; [now apply plain_rev|]. apply IH; [constructor|assumption].
    + apply IH; [constructor; assumption|assumption].
Qed.

Lemma plain_units s : plain s -> units s = true.
Proof.
  intros H. apply units_iff. eapply Forall_impl; [|exact H].
  intros c [Hc|[_ Hc]]; cbv beta; lia.
Qed.

Lemma uri_char_ascii c : uri_char c = true -> c < 128.
Proof.
  unfold uri_char, uri_unreserved, is_digit, is_upper, is_lower.
  intros H. destruct (N.lt_ge_cases c 128) as [Hc|Hc]; [exact Hc|].
  exfalso.
  rewrite (proj2 (N.leb_gt c 57)), (proj2 (N.leb_gt c 90)),
    (proj2 (N.leb_gt c 122)) in H by lia.
  rewrite !andb_false_r in H. cbn [orb existsb] in H.
  repeat match type of H with
  | context [c =? ?k] =>
      replace (c =? k) with false in H by (symmetry; apply N.eqb_neq; lia)
  end.
  discriminate.
Qed.

Lemma plain_encode s :
  plain s -> exists e, encodeURIComponent s = Some e /\ plain e.
Proof.
  intros H.
  assert (He : exists e, encodeURIComponent s = Some e).
  { induction H as [|c s Hc _ [e He]]; [exists []; reflexivity|].
    cbn [encodeURIComponent]. rewrite He. cbn [bind].
    assert (Hl : is_lead c = false /\ is_trail c = false).
    { unfold is_lead, is_trail. destruct Hc as [Hc|[Hc _]].
      - rewrite (proj2 (N.leb_gt 55296 c)), (proj2 (N.leb_gt 56320 c)) by lia.
        split; reflexivity.
      - rewrite (proj2 (N.leb_gt c 56319)), (proj2 (N.leb_gt c 57343)) by lia.
        rewrite !andb_false_r. split; reflexivity. }
    destruct Hl as [-> ->]. destruct (uri_unreserved c); eauto. }
  destruct He as [e He]. exists e. split; [exact He|].
  pose proof (encode_chars_len (length s) s e (le_n _) (plain_units _ H) He)
    as Hc.
  apply ascii_plain. apply Forall_forall. intros c Hin.
  apply uri_char_ascii. exact (proj1 (forallb_forall _ _) Hc c Hin).
Qed.

Lemma match_at_plain r bef s m :
  match_at r bef s = Some m -> plain bef -> plain s -> plain_match m.
Proof.
  intros H Hb Hs. destruct (match_at_split _ _ _ _ H) as [_ Hp].
  destruct (match_at_all not_surrogate _ _ _ _ H Hs) as [H1 [H2 H3]].
  unfold plain_match. rewrite Hp. auto.
Qed.

Lemma search_from_plain r s : forall bef m,
  search_from r bef s = Some m -> plain bef -> plain s -> plain_match m.
Proof.
  induction s as [|c s IH]; intros bef m H Hb Hs; cbn [search_from] in H.
  - destruct (match_at r bef []) eqn:E; [|discriminate].
    injection H as <-. eapply match_at_plain; eassumption.
  - destruct (match_at r bef (c :: s)) eqn:E.
    + injection H as <-. eapply match_at_plain; eassumption.
    + inversion Hs; subst. eapply IH; [exact H| |assumption].
      constructor; assumption.
Qed.

Lemma exec_plain r s m : exec r s = Some m -> plain s -> plain_match m.
Proof. intros H Hs. eapply search_from_plain; [exact H|constructor|exact Hs]. Qed.

Lemma plain_group i m : plain_match m -> plain (group_s i m).
Proof. intros [_ [_ [_ H]]]. apply group_s_all, H. Qed.

Lemma plain_replace_first r g s :
  (forall m, plain_match m -> plain (g m)) -> plain s ->
  plain (replace_first r g s).
Proof.
  intros Hg Hs. unfold replace_first.
  destruct (exec r s) as [m|] eqn:E; [|exact Hs].
  pose proof (exec_plain _ _ _ E Hs) as Hm.
  destruct Hm as [H1 [H2 [H3 H4]]].
  apply plain_app; [apply plain_rev, H1|].
  apply plain_app; [apply Hg; repeat split; assumption|exact H3].
Qed.

Section ReplaceKeeps.
Context {St : Type}.
Variable r : regex.
Variable f : St -> rmatch -> option (jsstr * St).
Variable inv : St -> Prop.
Hypothesis f_ok : forall st m,
  inv st -> plain_match m ->
  exists out st', f st m = Some (out, st') /\ plain out /\ inv st'.

Lemma replace_loop_keeps : forall s k bef st,
  plain bef -> plain s -> inv st ->
  exists out st',
    replace_loop r f k bef s st = Some (out, st') /\ plain out /\ inv st'.
Proof.
  induction s as [|c s IH]; intros k bef st Hb Hs Hi.
  - destruct k; cbn [replace_loop];
      [|exists [], st; repeat split; [constructor|exact Hi]].
    destruct (match_at r bef []) as [m|] eqn:Em.
    + destruct (f_ok st m Hi (match_at_plain _ _ _ _ Em Hb Hs))
        as [out [st' [-> [Ho Hi']]]].
      cbn [bind]. exists out, st'. auto.
    + exists [], st. repeat split; [constructor|exact Hi].
  - inversion Hs as [|? ? Hc Hs']; subst.
    assert (Hcb : plain (c :: bef)) by (constructor; assumption).
    destruct k; cbn [replace_loop]; [|apply IH; assumption].
    destruct (match_at r bef (c :: s)) as [m|] eqn:Em.
    + destruct (f_ok st m Hi (match_at_plain _ _ _ _ Em Hb Hs))
        as [out [st1 [-> [Ho Hi1]]]].
      cbn [bind]. destruct (m_text m) as [|? t].
      * destruct (IH 0%nat (c :: bef) st1 Hcb Hs' Hi1)
          as [tl [st2 [-> [Ht Hi2]]]].
        cbn [bind]. exists (out ++ c :: tl), st2. split; [reflexivity|].
        split; [|exact Hi2]. apply plain_app; [exact Ho|].
        constructor; assumption.
      * destruct (IH (length t) (c :: bef) st1 Hcb Hs' Hi1)
          as [tl [st2 [-> [Ht Hi2]]]].
        cbn [bind]. exists (out ++ tl), st2. split; [reflexivity|].
        split; [|exact Hi2]. apply plain_app; assumption.
    + destruct (IH 0%nat (c :: bef) st Hcb Hs' Hi) as [tl [st2 [-> [Ht Hi2]]]].
      cbn [bind]. exists (c :: tl), st2. split; [reflexivity|].
      split; [|exact Hi2]. constructor; assumption.
Qed.

Lemma replace_all_st_keeps s st :
  plain s -> inv st ->
  exists out st',
    replace_all_st r f s st = Some (out, st') /\ plain out /\ inv st'.
Proof. intros Hs Hi. apply replace_loop_keeps; [constructor|exact Hs|exact Hi]. Qed.
End ReplaceKeeps.

Lemma replace_all_opt_keeps r (g : rmatch -> option jsstr) s :
  (forall m, plain_match m -> exists out, g m = Some out /\ plain out) ->
  plain s -> exists out, replace_all_opt r g s = Some out /\ plain out.
Proof.
  intros Hg Hs. unfold replace_all_opt.
  destruct (replace_all_st_keeps r
              (fun (_ : unit) m => o <- g m ;; Some (o, tt))
              (fun _ => True)) with (s := s) (st := tt)
    as [out [st' [-> [Ho _]]]]; [|exact Hs|exact I|].
  - intros st m _ Hm. destruct (Hg m Hm) as [out [-> Ho]].
    cbn [bind]. exists out, tt. auto.
  - cbn [bind]. exists out. auto.
Qed.

Lemma replace_all_keeps r (g : rmatch -> jsstr) s :
  (forall m, plain_match m -> plain (g m)) ->
  plain s -> plain (replace_all r g s).
Proof.
  intros Hg Hs. unfold replace_all.
  destruct (replace_all_opt_keeps r (fun m => Some (g m)) s)
    as [out [-> Ho]]; [|exact Hs|exact Ho].
  intros m Hm. exists (g m). split; [reflexivity|apply Hg, Hm].
Qed.

Lemma plain_getcap i cs :
  caps_all not_surrogate cs ->
  plain (match getcap i cs with Some v => v | None => [] end).
Proof.
  intros H. destruct (getcap i cs) eqn:E; [|constructor].
  eapply getcap_all; eassumption.
Qed.

Lemma plain_getSubstitution matched pre post cs ngroups :
  plain matched -> plain pre -> plain post -> caps_all not_surrogate cs ->
  forall n t, (length t <= n)%nat -> plain t ->
    plain (getSubstitution matched pre post cs ngroups t).
Proof.
  intros Hm Hpre Hpost Hcs. induction n as [|n IH]; intros t Hl Ht.
  - destruct t; [constructor|cbn in Hl; lia].
  - destruct t as [|c t1]; [constructor|].
    inversion Ht as [|? ? Hc Ht1]; subst. cbn [length] in Hl.
    cbn [getSubstitution].
    destruct (negb (c =? 36)).
    { constructor; [exact Hc|]. apply IH; [lia|exact Ht1]. }
    destruct t1 as [|d t2]; [constructor; [exact Hc|constructor]|].
    inversion Ht1 as [|? ? Hd Ht2]; subst. cbn [length] in Hl.
    assert (H2 : plain (getSubstitution matched pre post cs ngroups t2))
      by (apply IH; [lia|exact Ht2]).
    assert (H1 : plain (getSubstitution matched pre post cs ngroups (d :: t2)))
      by (apply IH; [cbn [length]; lia|exact Ht1]).
    destruct (d =? 36); [constructor; [left; lia|exact H2]|].
    destruct (d =? 38); [apply plain_app; assumption|].
    destruct (d =? 96); [apply plain_app; assumption|].
    destruct (d =? 39); [apply plain_app; assumption|].
    destruct (is_digit d); [|constructor; assumption].
    destruct t2 as [|e t3].
    + destruct (_ && _); [apply plain_getcap, Hcs|constructor; assumption].
    + inversion Ht2 as [|? ? He Ht3]; subst. cbn [length] in Hl.
      destruct (is_digit e && _).
      * apply plain_app; [apply plain_getcap, Hcs|].
        apply IH; [lia|exact Ht3].
      * destruct (_ && _).
        -- apply plain_app; [apply plain_getcap, Hcs|exact H2].
        -- constructor; assumption.
Qed.

Lemma replace_all_tpl_keeps r n tpl s :
  plain tpl -> plain s -> plain (replace_all_tpl r n tpl s).
Proof.
  intros Ht Hs. unfold replace_all_tpl. apply replace_all_keeps; [|exact Hs].
  intros m [H1 [H2 [H3 H4]]].
  apply (plain_getSubstitution _ _ _ _ _ H2 (plain_rev _ H1) H3 H4
           (length tpl)); [lia|exact Ht].
Qed.

Lemma plain_find_str pat s : forall bef b post,
  find_str pat bef s = Some (b, post) -> plain bef -> plain s ->
  plain b /\ plain post.
Proof.
  induction s as [|c s IH]; intros bef b post H Hb Hs; cbn [find_str] in H.
  - destruct (strip_prefix pat []) as [p|] eqn:E; [|discriminate].
    injection H as <- <-. apply strip_prefix_app in E.
    split; [exact Hb|].
    destruct pat; [|discriminate]. cbn in E. subst. constructor.
  - destruct (strip_prefix pat (c :: s)) as [p|] eqn:E.
    + injection H as <- <-. apply strip_prefix_app in E.
      rewrite E in Hs. apply plain_app_inv in Hs. split; [exact Hb|apply Hs].
    + inversion Hs; subst. eapply IH; [exact H| |assumption].
      constructor; assumption.
Qed.

Lemma plain_replace_str pat repl s :
  plain pat -> plain repl -> plain s -> plain (replace_str pat repl s).
Proof.
  intros Hp Hr Hs. unfold replace_str.
  destruct (find_str pat [] s) as [[bef post]|] eqn:E; [|exact Hs].
  destruct (plain_find_str _ _ _ _ _ E (Forall_nil _) Hs) as [Hb Hpost].
  apply plain_app; [apply plain_rev, Hb|].
  apply plain_app; [|exact Hpost].
  apply (plain_getSubstitution _ _ _ _ _ Hp (plain_rev _ Hb) Hpost
           (Forall_nil _) (length repl)); [lia|exact Hr].
Qed.

Ltac plain_step :=
  match goal with
  | |- plain [] => constructor
  | |- plain (_ ++ _) => apply plain_app
  | |- plain (attr _ _) => unfold attr
  | |- plain (escapeQuot _) => apply plain_escapeQuot
  | |- plain (escapeApos _) => apply plain_escapeApos
  | |- plain (trim _) => apply plain_trim
  | |- plain (toLowerCase _) => apply plain_lower
  | |- plain (group_s _ _) => apply plain_group
  | |- plain (skipn _ _) => apply plain_skipn
  | |- plain (firstn _ _) => apply plain_firstn
  | |- plain (rev _) => apply plain_rev
  | |- plain (if ?b then _ else _) => destruct b
  | |- plain (match exec ?r ?s with _ => _ end) =>
      let E := fresh "E" in
      destruct (exec r s) eqn:E; [apply exec_plain in E|]
  | |- plain_match _ => assumption
  | H : plain_match ?m |- plain (m_text ?m) => exact (proj1 (proj2 H))
  | H : plain_match ?m |- plain (m_post ?m) => exact (proj1 (proj2 (proj2 H)))
  | H : plain_match ?m |- plain (m_pre ?m) => exact (proj1 H)
  | |- plain _ => assumption
  | |- plain _ => apply plainb_plain; vm_compute; reflexivity
  end.

Ltac plain_tac := repeat plain_step.

Lemma plain_parseCaption keys attrs :
  plain attrs -> plain (parseCaption keys attrs).
Proof.
  intros H. unfold parseCaption.
  destruct (exec _ attrs); [|constructor].
  apply plain_trim, plain_replace_first; [intros; constructor|].
  apply plain_skipn, H.
Qed.

Lemma plain_buildVideoAttrs url attrs :
  plain url -> plain attrs ->
  plain (buildVideoAttrs url (parseVideoAttrs attrs)).
Proof.
  intros Hu Ha. unfold buildVideoAttrs, parseVideoAttrs.
  cbn [v_width v_align v_autoplay v_controls v_loop v_muted v_caption].
  pose proof (plain_parseCaption videoKeys attrs Ha).
  plain_tac.
Qed.

Lemma plain_videoReplacer m : plain_match m -> plain (videoReplacer m).
Proof.
  intros Hm. unfold videoReplacer.
  destruct (trim (group_s 2 m)) as [|c t] eqn:E; [plain_tac|].
  assert (Hc : plain (c :: t)) by (rewrite <- E; plain_tac).
  pose proof (plain_buildVideoAttrs (c :: t) (group_s 1 m) Hc
                (plain_group 1 m Hm)).
  plain_tac.
Qed.

Lemma plain_alertReplacer m : plain_match m -> plain (alertReplacer m).
Proof.
  intros Hm. unfold alertReplacer, buildAlertHtml, parseAlertAttrs.
  cbn [normalizedType title].
  destruct (trim (group_s 2 m)) as [|c t] eqn:E; [plain_tac|].
  assert (Hc : plain (c :: t)) by (rewrite <- E; plain_tac).
  plain_tac.
Qed.

Lemma plain_chartReplacer m : plain_match m -> plain (chartReplacer m).
Proof.
  intros Hm. unfold chartReplacer.
  destruct (plain_encode (trim (group_s 1 m))) as [e [-> He]]; plain_tac.
Qed.

Lemma plain_imageReplacer m : plain_match m -> plain (imageReplacer m).
Proof.
  intros Hm. unfold imageReplacer.
  pose proof (plain_parseCaption [U "align"; U "width"] (group_s 3 m)
                (plain_group 3 m Hm)).
  plain_tac.
Qed.

Lemma plain_titledLinkReplacer m :
  plain_match m -> plain (titledLinkReplacer m).
Proof. intros Hm. unfold titledLinkReplacer. plain_tac. Qed.

Lemma plain_chatDiv e : plain e -> plain (chatDiv e).
Proof. intros H. unfold chatDiv. plain_tac. Qed.

Lemma plain_chatReplacer1 m :
  plain_match m -> exists out, chatReplacer1 m = Some out /\ plain out.
Proof.
  intros Hm. unfold chatReplacer1.
  destruct (trim (group_s 1 m)) as [|c t] eqn:E.
  - eexists. split; [reflexivity|plain_tac].
  - assert (Hc : plain (c :: t)) by (rewrite <- E; plain_tac).
    destruct (plain_encode _ Hc) as [e [-> He]]. cbn [bind].
    eexists. split; [reflexivity|apply plain_chatDiv, He].
Qed.

Lemma plain_chatReplacer2 m :
  plain_match m -> exists out, chatReplacer2 m = Some out /\ plain out.
Proof.
  intros Hm. unfold chatReplacer2.
  destruct (includes _ _); [eexists; split; [reflexivity|plain_tac]|].
  destruct (trim _) as [|c t] eqn:E.
  - eexists. split; [reflexivity|plain_tac].
  - assert (Hc : plain (c :: t)).
    { rewrite <- E. apply plain_trim, plain_replace_first;
        [intros; constructor|plain_tac]. }
    destruct (plain_encode _ Hc) as [e [-> He]]. cbn [bind].
    eexists. split; [reflexivity|apply plain_chatDiv, He].
Qed.

Lemma plain_digits s : forallb is_digit s = true -> plain s.
Proof.
  intros H. apply ascii_plain. apply Forall_forall. intros c Hc.
  pose proof (proj1 (forallb_forall _ _) H c Hc) as Hd.
  unfold is_digit in Hd. apply andb_prop in Hd. destruct Hd as [_ Hd].
  apply N.leb_le in Hd. lia.
Qed.

Lemma plain_num_str n : plain (num_str n).
Proof. apply plain_digits, num_str_digits. Qed.

Lemma plain_nth n cbs d :
  Forall plain cbs -> plain d -> plain (nth n cbs d).
Proof.
  intros H Hd. revert n. induction H as [|a cbs Ha _ IH]; intros [|n];
    cbn [nth]; auto.
Qed.

Lemma plain_restore s cbs : plain s -> Forall plain cbs -> plain (restore s cbs).
Proof.
  intros Hs Hc. unfold restore. apply replace_all_keeps; [|exact Hs].
  intros m _. unfold lookupBlock.
  apply plain_nth; [exact Hc|apply plainb_plain; reflexivity].
Qed.

Lemma plain_groups_of n m : plain_match m -> Forall plain (groups_of n m).
Proof.
  intros Hm. unfold groups_of. apply Forall_map, Forall_forall.
  intros i _. apply plain_group, Hm.
Qed.

Lemma plain_split_loop r n s : forall k bef cur,
  plain bef -> plain cur -> plain s ->
  Forall plain (split_loop r n k bef s cur).
Proof.
  induction s as [|c s IH]; intros k bef cur Hb Hc Hs; cbn [split_loop].
  - constructor; [apply plain_rev, Hc|constructor].
  - inversion Hs as [|? ? Hcc Hs']; subst.
    assert (Hcb : plain (c :: bef)) by (constructor; assumption).
    destruct k; [|apply IH; assumption].
    destruct (match_at r bef (c :: s)) as [m|] eqn:Em.
    + pose proof (match_at_plain _ _ _ _ Em Hb Hs) as Hm.
      destruct (m_text m) as [|? t].
      * destruct cur as [|x cur].
        -- apply IH; [assumption|constructor; [assumption|constructor]|assumption].
        -- constructor; [apply plain_rev, Hc|].
           apply Forall_app. split; [apply plain_groups_of, Hm|].
           apply IH; [assumption|constructor; [assumption|constructor]|assumption].
      * constructor; [apply plain_rev, Hc|].
        apply Forall_app. split; [apply plain_groups_of, Hm|].
        apply IH; [assumption|constructor|assumption].
    + apply IH; [assumption|constructor; assumption|assumption].
Qed.

Lemma plain_split_re r n s : plain s -> Forall plain (split_re r n s).
Proof.
  intros Hs. unfold split_re. destruct s as [|c s].
  - destruct (match_at r [] []); repeat constructor.
  - apply plain_split_loop; [constructor|constructor|exact Hs].
Qed.

Lemma plain_pairs_of parts :
  Forall plain parts ->
  Forall (fun p => plain (fst p) /\ plain (snd p)) (pairs_of parts).
Proof.
  intros H. remember (length parts) as n eqn:En.
  revert parts H En. induction n as [n IH] using lt_wf_ind.
  intros parts H En. destruct parts as [|h [|c tl]]; cbn [pairs_of].
  - constructor.
  - inversion H; subst. constructor; [split; [assumption|constructor]|constructor].
  - inversion H as [|? ? Hh H']; subst. inversion H' as [|? ? Hc Htl]; subst.
    constructor; [split; assumption|].
    apply (IH (length tl)); [cbn; lia|exact Htl|reflexivity].
Qed.

Lemma plain_partsLoop parts :
  Forall plain parts ->
  Forall (fun p => plain (fst p) /\ plain (snd p)) (partsLoop parts).
Proof.
  intros H. unfold partsLoop. apply plain_pairs_of.
  destruct parts; [constructor|]. now inversion H.
Qed.

Lemma plain_concat_opt l :
  Forall (fun x => exists v, x = Some v /\ plain v) l ->
  exists out, concat_opt l = Some out /\ plain out.
Proof.
  induction 1 as [|x l [v [-> Hv]] _ [out [IH Ho]]]; cbn [concat_opt].
  - exists []. split; [reflexivity|constructor].
  - rewrite IH. cbn [bind]. exists (v ++ out). split; [reflexivity|].
    apply plain_app; assumption.
Qed.

Lemma plain_tabsReplacer cbs m :
  Forall plain cbs -> plain_match m ->
  exists out, tabsReplacer cbs m = Some out /\ plain out.
Proof.
  intros Hc Hm. unfold tabsReplacer.
  match goal with
  | |- context [concat_opt ?l] =>
      destruct (plain_concat_opt l) as [body [-> Hb]]
  end.
  - apply Forall_map.
    eapply Forall_impl;
      [|apply plain_partsLoop, plain_split_re, plain_group, Hm].
    intros [lbl c] [Hl Hcc]. cbn [fst snd] in Hl, Hcc.
    destruct (plain_encode (restore c cbs)) as [e [-> He]];
      [apply plain_restore; assumption|].
    cbn [bind]. eexists. split; [reflexivity|plain_tac].
  - cbn [bind]. eexists. split; [reflexivity|plain_tac].
Qed.

Lemma plain_parseItemHeader header :
  plain header ->
  plain (fst (parseItemHeader header)) /\ plain (snd (parseItemHeader header)).
Proof.
  intros H. unfold parseItemHeader.
  destruct (includes header [124]).
  - pose proof (plain_split_chr 124 header [] (Forall_nil _) H) as Hs.
    destruct (split_chr 124 [] header) as [|a [|b l]]; cbn [map fst snd].
    + split; constructor.
    + inversion Hs; subst. split; [plain_tac|constructor].
    + inversion Hs as [|? ? Ha Hs']; subst. inversion Hs'; subst.
      split; plain_tac.
  - destruct (_ || _); cbn [fst snd]; split; plain_tac.
Qed.

Lemma plain_timelineReplacer cbs m :
  Forall plain cbs -> plain_match m ->
  exists out, timelineReplacer cbs m = Some out /\ plain out.
Proof.
  intros Hc Hm. unfold timelineReplacer.
  match goal with
  | |- context [concat_opt ?l] =>
      destruct (plain_concat_opt l) as [body [-> Hb]]
  end.
  - apply Forall_map.
    eapply Forall_impl;
      [|apply plain_partsLoop, plain_split_re, plain_group, Hm].
    intros [hd c] [Hl Hcc]. cbn [fst snd] in Hl, Hcc.
    destruct (plain_parseItemHeader (trim hd)) as [Hd Ht]; [plain_tac|].
    destruct (parseItemHeader (trim hd)) as [date title].
    cbn [fst snd] in Hd, Ht.
    destruct (plain_encode (restore c cbs)) as [e [-> He]];
      [apply plain_restore; assumption|].
    cbn [bind]. eexists. split; [reflexivity|plain_tac].
  - cbn [bind]. eexists. split; [reflexivity|plain_tac].
Qed.

Lemma plain_cardAttr key attrs : plain attrs -> plain (cardAttr key attrs).
Proof. intros H. unfold cardAttr. plain_tac. Qed.

Lemma plain_linkCardReplacer m :
  plain_match m -> exists out, linkCardReplacer m = Some out /\ plain out.
Proof.
  intros Hm. unfold linkCardReplacer.
  pose proof (plain_group 1 m Hm) as H1.
  destruct (cardAttr (U "url:") (group_s 1 m)) as [|c t] eqn:E.
  - eexists. split; [reflexivity|plain_tac].
  - assert (Hu : plain (c :: t)) by (rewrite <- E; apply plain_cardAttr, H1).
    destruct (plain_encode _ Hu) as [eu [-> Heu]].
    match goal with
    | |- context [encodeURIComponent (if ?b then ?x else ?y)] =>
        destruct (plain_encode (if b then x else y)) as [et [-> Het]]
    end.
    { destruct (nonEmpty _); [apply plain_cardAttr, H1|plain_tac]. }
    destruct (plain_encode (cardAttr (U "description:") (group_s 1 m)))
      as [ed [-> Hed]]; [apply plain_cardAttr, H1|].
    destruct (plain_encode (cardAttr (U "image:") (group_s 1 m)))
      as [ei [-> Hei]]; [apply plain_cardAttr, H1|].
    cbn [bind]. eexists. split; [reflexivity|plain_tac].
Qed.

Lemma plain_marker : plain marker.
Proof. apply plainb_plain. reflexivity. Qed.

Lemma plain_placeholder n : plain (placeholder n).
Proof.
  unfold placeholder. apply plain_app; [apply plain_marker|].
  apply plain_app; [apply plain_num_str|apply plainb_plain; reflexivity].
Qed.

Lemma plain_listPlaceholder n : plain (listPlaceholder n).
Proof.
  unfold listPlaceholder. apply plain_app; [apply plainb_plain; reflexivity|].
  apply plain_app; [apply plain_num_str|apply plainb_plain; reflexivity].
Qed.

Lemma plain_protect d :
  plain d -> plain (fst (protect d)) /\ Forall plain (snd (protect d)).
Proof.
  intros Hd. unfold protect.
  destruct (replace_all_st_keeps fencedCodeRe protectFenced (Forall plain))
    with (s := d) (st := @nil jsstr) as [r1 [cbs1 [-> [H1 Hc1]]]];
    [|exact Hd|constructor|].
  { intros st m Hi Hm. unfold protectFenced. eexists _, _.
    split; [reflexivity|]. split.
    - apply plain_app; [plain_tac|apply plain_placeholder].
    - apply Forall_app. split; [exact Hi|]. constructor; [plain_tac|constructor]. }
  destruct (replace_all_st_keeps inlineCodeRe protectInline (Forall plain))
    with (s := r1) (st := cbs1) as [r2 [cbs2 [-> [H2 Hc2]]]];
    [|exact H1|exact Hc1|].
  { intros st m Hi Hm. unfold protectInline.
    destruct (includes _ _); eexists _, _; (split; [reflexivity|]); split.
    - plain_tac.
    - exact Hi.
    - apply plain_placeholder.
    - apply Forall_app. split; [exact Hi|]. constructor; [plain_tac|constructor]. }
  split; assumption.
Qed.

Lemma plain_restoreForLists cbs : forall index result,
  Forall plain cbs -> plain result ->
  plain (restoreForLists index cbs result).
Proof.
  induction cbs as [|cb cbs IH]; intros index result Hc Hr;
    cbn [restoreForLists]; [exact Hr|].
  inversion Hc; subst. apply IH; [assumption|].
  apply plain_replace_str; [apply plain_listPlaceholder|assumption|assumption].
Qed.

Lemma plain_fixLine first prev line :
  plain line -> Forall plain (fixLine first prev line).
Proof.
  intros H. unfold fixLine.
  destruct (exec listLineRe line) as [lm|] eqn:E;
    [|constructor; [exact H|constructor]].
  apply exec_plain in E; [|exact H].
  assert (Hs : forall n, plain (spaces n ++ group_s 2 lm)).
  { intros n. apply plain_app; [|plain_tac].
    apply ascii_plain. unfold spaces. apply Forall_forall.
    intros c Hc. apply repeat_spec in Hc. subst. reflexivity. }
  apply Forall_app. split.
  - destruct (exec listLineRe prev); [|constructor].
    destruct (_ && _); [|constructor].
    constructor; constructor.
  - destruct (Nat.ltb 0 _); [|constructor; [exact H|constructor]].
    destruct (_ && _); [constructor; [apply Hs|constructor]|].
    destruct (_ && _); constructor; try apply Hs; try exact H; constructor.
Qed.

Lemma plain_fixLines lines : forall first prev,
  Forall plain lines -> Forall plain (fixLines first prev lines).
Proof.
  induction lines as [|l lines IH]; intros first prev H; [constructor|].
  inversion H; subst. cbn [fixLines]. apply Forall_app. split.
  - now apply plain_fixLine.
  - now apply IH.
Qed.

Lemma plain_fixNestedLists text : plain text -> plain (fixNestedLists text).
Proof.
  intros H. unfold fixNestedLists.
  destruct (replace_all_st_keeps anyFenceBlockRe protectForLists
              (Forall plain)) with (s := text) (st := @nil jsstr)
    as [masked [cbs [-> [Hm Hc]]]]; [|exact H|constructor|].
  { intros st m Hi Hm. unfold protectForLists. eexists _, _.
    split; [reflexivity|]. split; [apply plain_listPlaceholder|].
    apply Forall_app. split; [exact Hi|]. constructor; [plain_tac|constructor]. }
  apply plain_restoreForLists; [exact Hc|].
  apply plain_join; [apply plainb_plain; reflexivity|].
  apply plain_fixLines. unfold split_nl.
  apply plain_split_chr; [constructor|exact Hm].
Qed.

(** X13.  [processContent] returns for every text without surrogate
    units: no exception leaves it, and its result has no surrogate
    either.  The exceptions that can leave it are those of
    [encodeURIComponent] at half a surrogate pair, which only the
    chart replacer catches: a chat block that holds such a unit makes
    the whole function throw. *)
Theorem processContent_returns_on_plain_text :
  (forall text, plain text ->
     exists out, processContent text = Some out /\ plain out) /\
  processContent broken_chat = None.
Proof.
  split; [|vm_compute; reflexivity].
  intros text H. unfold processContent.
  destruct (trim text); [exists text; split; [reflexivity|exact H]|].
  pose proof (plain_fixNestedLists _ H) as H0.
  destruct (plain_protect _ H0) as [H1 Hc].
  destruct (protect (fixNestedLists text)) as [r1 codeBlocks].
  cbn [fst snd] in H1, Hc.
  assert (H12 :
    plain
      (replace_all_tpl iconLinkRe 3 iconLinkTemplate
         (replace_all titledLinkRe titledLinkReplacer
            (replace_all imageRe imageReplacer
               (replace_all_tpl subRe 1 (U "<sub>$1</sub>")
                  (replace_all_tpl supRe 1 (U "<sup>$1</sup>")
                     (replace_all_tpl highlightRe 1 (U "<mark>$1</mark>")
                        (replace_all alertRe2 alertReplacer
                           (replace_all alertRe1 alertReplacer
                              (replace_all videoRe2 videoReplacer
                                 (replace_all videoRe1 videoReplacer
                                    (replace_all chartRe chartReplacer
                                       r1)))))))))))).
  { repeat first
      [ apply replace_all_tpl_keeps; [apply plainb_plain; reflexivity|]
      | apply replace_all_keeps;
          [first [ exact plain_titledLinkReplacer | exact plain_imageReplacer
                 | exact plain_alertReplacer | exact plain_videoReplacer
                 | exact plain_chartReplacer ]|] ].
    exact H1. }
  cbv zeta.
  set (r12 := replace_all_tpl iconLinkRe 3 iconLinkTemplate _) in *.
  destruct (replace_all_opt_keeps chatRe1 chatReplacer1 r12
              plain_chatReplacer1 H12) as [r13 [-> H13]]. cbn [bind].
  destruct (replace_all_opt_keeps chatRe2 chatReplacer2 r13
              plain_chatReplacer2 H13) as [r14 [-> H14]]. cbn [bind].
  destruct (replace_all_opt_keeps tabsRe (tabsReplacer codeBlocks) r14
              (fun m => plain_tabsReplacer codeBlocks m Hc) H14) as [r15 [-> H15]].
  cbn [bind].
  destruct (replace_all_opt_keeps linkCardRe linkCardReplacer r15
              plain_linkCardReplacer H15) as [r16 [-> H16]]. cbn [bind].
  destruct (replace_all_opt_keeps chatRe1 chatReplacer1 r16
              plain_chatReplacer1 H16) as [r17 [-> H17]]. cbn [bind].
  destruct (replace_all_opt_keeps chatRe2 chatReplacer2 r17
              plain_chatReplacer2 H17) as [r18 [-> H18]]. cbn [bind].
  destruct (replace_all_opt_keeps timelineRe (timelineReplacer codeBlocks) r18
              (fun m => plain_timelineReplacer codeBlocks m Hc) H18) as [r19 [-> H19]].
  cbn [bind].
  eexists. split; [reflexivity|]. apply plain_restore; assumption.
Qed.

Lemma processContent_returns_on_plain_text_witness :
  exists out, processContent chat_block = Some out /\ plain out.
Proof.
  apply (proj1 processContent_returns_on_plain_text).
  apply plainb_plain. reflexivity.
Defined.

(** ** The nested-list pass, run twice *)

Lemma Forall2_flat_map {A B : Type} (R : A -> A -> Prop) (S : B -> B -> Prop)
    (f g : A -> list B) l1 l2 :
  Forall2 R l1 l2 ->
  (forall x y, R x y -> Forall2 S (f x) (g y)) ->
  Forall2 S (flat_map f l1) (flat_map g l2).
Proof.
  intros H Hf. induction H as [|x y l1 l2 Hxy _ IH]; [constructor|].
  cbn [flat_map]. apply Forall2_app; [apply Hf, Hxy|exact IH].
Qed.

Lemma Forall2_in_l {A : Type} (R : A -> A -> Prop) l1 l2 x :
  Forall2 R l1 l2 -> In x l1 -> exists y, In y l2 /\ R x y.
Proof.
  induction 1 as [|a b l1 l2 Hab _ IH]; intros Hin; [contradiction|].
  destruct Hin as [<-|Hin].
  - exists b. split; [now left|exact Hab].
  - destruct (IH Hin) as [y [Hy Hr]]. exists y. split; [now right|exact Hr].
Qed.

Section RepeatBlind.
Variable m : mstate -> list mstate.
Hypothesis m_blind :
  forall x y, same_rest x y -> Forall2 same_rest (m x) (m y).

Lemma rep_blind g fuel : forall mn mx x y,
  same_rest x y ->
  Forall2 same_rest (rep m g mn mx fuel x) (rep m g mn mx fuel y).
Proof.
  induction fuel as [|f IH]; intros mn mx x y Hxy; cbn [rep]; [constructor|].
  destruct mn as [|mn'].
  - destruct (is_zero_max mx); [constructor; [exact Hxy|constructor]|].
    assert (Hmore :
      Forall2 same_rest
        (flat_map
           (fun st' => if Nat.ltb (length (rest st')) (length (rest x))
                       then rep m g 0 (pred_max mx) f st' else []) (m x))
        (flat_map
           (fun st' => if Nat.ltb (length (rest st')) (length (rest y))
                       then rep m g 0 (pred_max mx) f st' else []) (m y))).
    { apply (Forall2_flat_map same_rest); [apply m_blind, Hxy|].
      intros a b Hab. unfold same_rest in Hab, Hxy. rewrite Hab, Hxy.
      destruct (Nat.ltb _ _); [apply IH, Hab|constructor]. }
    destruct g.
    + apply Forall2_app; [exact Hmore|constructor; [exact Hxy|constructor]].
    + constructor; [exact Hxy|exact Hmore].
  - apply (Forall2_flat_map same_rest); [apply m_blind, Hxy|].
    intros a b Hab. apply IH, Hab.
Qed.
End RepeatBlind.

Lemma mt_blind r : blind r = true ->
  forall x y, same_rest x y -> Forall2 same_rest (mt r x) (mt r y).
Proof.
  induction r; intros Hb x y Hxy; cbn [blind] in Hb; try discriminate;
    cbn [mt].
  - constructor; [exact Hxy|constructor].
  - unfold same_rest in Hxy. rewrite Hxy. destruct (rest y) as [|c t];
      [constructor|]. destruct (p c); [|constructor].
    constructor; [reflexivity|constructor].
  - apply andb_prop in Hb. destruct Hb as [H1 H2].
    apply (Forall2_flat_map same_rest); [apply IHr1; assumption|].
    intros a b Hab. apply IHr2; assumption.
  - apply andb_prop in Hb. destruct Hb as [H1 H2].
    apply Forall2_app; [apply IHr1|apply IHr2]; assumption.
  - unfold same_rest in Hxy. rewrite Hxy.
    apply rep_blind; [intros a b Hab; apply IHr; assumption|exact Hxy].
  - pose proof Hxy as E. unfold same_rest in E. rewrite E.
    destruct (rest y);
      [constructor; [exact Hxy|constructor]|constructor].
  - pose proof Hxy as E. unfold same_rest in E. rewrite E.
    destruct (rest y) as [|c t].
    + constructor; [exact Hxy|constructor].
    + destruct (p c); [constructor|constructor; [exact Hxy|constructor]].
Qed.

Lemma listLine_body line lm :
  exec listLineRe line = Some lm ->
  exists x1 y2,
    rest x1 = group_s 2 lm /\ In y2 (mt itemBodyRe x1) /\ rest y2 = [].
Proof.
  unfold listLineRe. rewrite exec_anchored. intros H.
  apply match_at_inv in H. destruct H as [st [k [Hin [_ ->]]]].
  rewrite mt_seqs_cons in Hin. apply in_flat_map in Hin.
  destruct Hin as [x0 [Hx0 Hin]]. destruct Hx0 as [<-|[]].
  rewrite mt_seqs_cons in Hin. apply in_flat_map in Hin.
  destruct Hin as [x1 [Hx1 Hin]].
  rewrite mt_seqs_cons in Hin. apply in_flat_map in Hin.
  destruct Hin as [x2 [Hx2 Hin]].
  change (mt (Grp 2 ?a) ?s) with (map (setcap 2 s) (mt a s)) in Hx2.
  apply in_map_iff in Hx2. destruct Hx2 as [y2 [<- Hy2]].
  pose proof Hy2 as Hcaps. apply mt_caps in Hcaps; [|reflexivity].
  destruct (mt_moved _ _ _ Hy2) as [k2 Hk2].
  cbn [seqs mt] in Hin.
  destruct (rest (setcap 2 x1 y2)) eqn:Er; [|contradiction].
  destruct Hin as [<-|[]].
  exists x1, y2. cbn [setcap rest] in Er.
  split; [|split; [exact Hy2|exact Er]].
  unfold group_s, group. cbn [m_caps setcap caps getcap Nat.eqb].
  rewrite (moved_consumed _ _ _ Hk2).
  destruct Hk2 as [Hk2 _]. rewrite Er, app_nil_r in Hk2. exact Hk2.
Qed.

Lemma listLine_respace ws' line lm :
  exec listLineRe line = Some lm -> forallb is_space ws' = true ->
  exists lm', exec listLineRe (ws' ++ group_s 2 lm) = Some lm'.
Proof.
  intros H Hws.
  destruct (listLine_shape _ _ H) as [_ [_ [d [t [E2 Hd]]]]].
  destruct (listLine_body _ _ H) as [x1 [y2 [Hx1 [Hy2 Hr2]]]].
  set (c := group_s 2 lm) in *.
  set (st0 := MState [] (ws' ++ c) []).
  set (x1' := setcap 1 st0 (adv_by ws' c st0)).
  assert (H1 : hd_is (Grp 1 (star ws)) st0 x1').
  { apply hd_grp, hd_star; [reflexivity|exact Hws|].
    rewrite E2. apply digit_stops, Hd. }
  destruct H1 as [l1 H1].
  assert (Hsame : same_rest x1 x1') by (unfold same_rest; rewrite Hx1; reflexivity).
  destruct (Forall2_in_l _ _ _ _ (mt_blind itemBodyRe eq_refl _ _ Hsame) Hy2)
    as [y2' [Hy2' Hr]].
  unfold same_rest in Hr. rewrite Hr2 in Hr.
  assert (Hin : In (setcap 2 x1' y2')
                  (mt listLineRe st0)).
  { unfold listLineRe. rewrite mt_seqs_cons. cbn [mt before st0 flat_map].
    rewrite app_nil_r. rewrite mt_seqs_cons. apply in_flat_map.
    exists x1'. split; [rewrite H1; now left|].
    rewrite mt_seqs_cons. apply in_flat_map.
    exists (setcap 2 x1' y2'). split.
    - change (mt (Grp 2 ?a) ?s) with (map (setcap 2 s) (mt a s)).
      apply in_map. exact Hy2'.
    - cbn [seqs mt setcap rest]. rewrite <- Hr. now left. }
  assert (Hmt : mt listLineRe st0 <> []) by (intros E; now rewrite E in Hin).
  clear Hin. unfold listLineRe. rewrite exec_anchored. unfold match_at.
  match goal with
  | |- context [match ?res with [] => None | _ => _ end] =>
      destruct res as [|z zs] eqn:Em
  end; [|eauto].
  exfalso. apply Hmt. exact Em.
Qed.

Lemma fixLine_eq first prev line :
  fixLine first prev line
  = (if needsBlank first prev line then [[]] else []) ++ [reindent line].
Proof.
  unfold fixLine, needsBlank, reindent.
  destruct (exec listLineRe line) as [lm|]; [|reflexivity].
  set (n := length (group_s 1 lm)).
  assert (Hn : Nat.ltb 0 n = false -> Nat.leb 2 n = false /\ Nat.leb 5 n = false).
  { intros H. apply Nat.ltb_ge in H. split; apply Nat.leb_gt; lia. }
  destruct (exec listLineRe prev) as [pm|];
    (destruct (Nat.ltb 0 n) eqn:E0;
     [destruct (_ && Nat.leb n 4); [reflexivity|];
      destruct (_ && Nat.leb n 6); reflexivity
     |destruct (Hn eq_refl) as [-> ->]; reflexivity]).
Qed.

Lemma reindent_item line lm :
  exec listLineRe line = Some lm ->
  exists lm',
    exec listLineRe (reindent line) = Some lm' /\
    length (group_s 1 lm') = settle (length (group_s 1 lm)) /\
    group_s 2 lm' = group_s 2 lm.
Proof.
  intros H. unfold reindent, settle. rewrite H. cbv zeta.
  destruct (listLine_shape _ _ H) as [_ [_ [d [t [E2 Hd]]]]].
  assert (Hsp : forall k,
    exists lm', exec listLineRe (spaces k ++ group_s 2 lm) = Some lm' /\
      length (group_s 1 lm') = k /\ group_s 2 lm' = group_s 2 lm).
  { intros k.
    destruct (listLine_respace (spaces k) _ _ H (spaces_space k)) as [lm' H'].
    exists lm'. split; [exact H'|].
    destruct (listLine_indent_is _ _ H') as [-> ->].
    rewrite E2.
    destruct (takeWhile_app is_space (spaces k) (d :: t) (spaces_space k)
                (digit_stops d t Hd)) as [-> ->].
    split; [apply repeat_length|reflexivity]. }
  destruct (_ && _); [apply Hsp|].
  destruct (_ && _); [apply Hsp|].
  exists lm. auto.
Qed.

Lemma reindent_other line :
  exec listLineRe line = None ->
  reindent line = line.
Proof. intros H. unfold reindent. now rewrite H. Qed.

Lemma settle_idem n : settle (settle n) = settle n.
Proof.
  unfold settle.
  destruct (Nat.leb_spec 2 n); destruct (Nat.leb_spec n 4); cbn [andb];
    try reflexivity;
    destruct (Nat.leb_spec 5 n); destruct (Nat.leb_spec n 6); cbn [andb];
    try reflexivity;
    repeat match goal with
    | |- context [Nat.leb ?a ?b] => destruct (Nat.leb_spec a b)
    end; cbn [andb]; lia.
Qed.

Lemma settle_mono a b : (a <= b)%nat -> (settle a <= settle b)%nat.
Proof.
  unfold settle. intros H.
  repeat match goal with
  | |- context [Nat.leb ?x ?y] => destruct (Nat.leb_spec x y)
  end; cbn [andb]; lia.
Qed.

Lemma settle_zero n : settle n = 0%nat <-> n = 0%nat.
Proof.
  unfold settle.
  repeat match goal with
  | |- context [Nat.leb ?x ?y] => destruct (Nat.leb_spec x y)
  end; cbn [andb]; lia.
Qed.

Lemma reindent_idem line : reindent (reindent line) = reindent line.
Proof.
  destruct (exec listLineRe line) as [lm|] eqn:E.
  - destruct (reindent_item _ _ E) as [lm' [E' [Hn Hc]]].
    unfold reindent at 1. rewrite E'. cbv zeta. rewrite Hn, Hc.
    unfold reindent, settle. rewrite E. cbv zeta.
    set (n := length (group_s 1 lm)).
    destruct (Nat.leb_spec 2 n); destruct (Nat.leb_spec n 4); cbn [andb];
      try reflexivity;
      destruct (Nat.leb_spec 5 n); destruct (Nat.leb_spec n 6); cbn [andb];
      try reflexivity;
      repeat match goal with
      | |- context [Nat.leb ?a ?b] => destruct (Nat.leb_spec a b)
      end; cbn [andb]; try reflexivity; lia.
  - rewrite (reindent_other _ E). apply reindent_other, E.
Qed.

Lemma dropWhile_nil p s : dropWhile p s = [] -> forallb p s = true.
Proof.
  induction s as [|c s IH]; [reflexivity|]. cbn [dropWhile forallb].
  destruct (p c); [exact IH|discriminate].
Qed.

Lemma item_not_blank line lm :
  exec listLineRe line = Some lm -> str_eqb (trim line) [] = false.
Proof.
  intros H. destruct (listLine_shape _ _ H) as [_ [_ [d [t [E2 Hd]]]]].
  destruct (listLine_indent_is _ _ H) as [_ E].
  unfold trim, trimStart. rewrite <- E, E2. unfold trimEnd.
  destruct (rev (dropWhile is_space (rev (d :: t)))) as [|x l] eqn:Er;
    [|reflexivity].
  exfalso. apply (f_equal (@rev N)) in Er. rewrite rev_involutive in Er.
  cbn [rev] in Er. apply dropWhile_nil in Er.
  rewrite forallb_app in Er. apply andb_prop in Er. destruct Er as [_ Er].
  cbn in Er. rewrite (digit_not_space _ Hd) in Er. discriminate.
Qed.

Lemma needsBlank_again first prev line :
  needsBlank first prev line = false ->
  needsBlank first (reindent prev) (reindent line) = false.
Proof.
  intros H. unfold needsBlank in *.
  destruct (exec listLineRe line) as [lm|] eqn:El.
  - destruct (reindent_item _ _ El) as [lm' [-> [Hn _]]].
    destruct (exec listLineRe prev) as [pm|] eqn:Ep.
    + destruct (reindent_item _ _ Ep) as [pm' [Ep' [Hpn _]]]. rewrite Ep'.
      rewrite Hn, Hpn. rewrite (item_not_blank _ _ Ep) in H.
      rewrite (item_not_blank _ _ Ep'). cbn [negb] in *.
      rewrite andb_true_r in *.
      destruct first; [now rewrite andb_false_r|].
      cbn [negb] in *. rewrite andb_true_r in *.
      apply andb_false_iff in H. apply andb_false_iff.
      destruct H as [H|H].
      * left. apply Nat.ltb_ge in H. apply Nat.ltb_ge.
        assert (length (group_s 1 lm) = 0%nat) as -> by lia. reflexivity.
      * right. apply Nat.ltb_ge in H. apply Nat.ltb_ge.
        apply settle_mono, H.
    + rewrite (reindent_other _ Ep), Ep. reflexivity.
  - rewrite (reindent_other _ El), El. reflexivity.
Qed.

Lemma fixLine_empty first prev : fixLine first prev [] = [[]].
Proof. unfold fixLine. rewrite exec_listLine_nil. reflexivity. Qed.

Lemma needsBlank_after_empty first line : needsBlank first [] line = false.
Proof.
  unfold needsBlank. rewrite exec_listLine_nil.
  destruct (exec listLineRe line); reflexivity.
Qed.

Lemma fixLines_twice lines : forall first prev,
  fixLines first (reindent prev) (fixLines first prev lines)
  = fixLines first prev lines.
Proof.
  induction lines as [|l ls IH]; intros first prev; [reflexivity|].
  cbn [fixLines]. rewrite fixLine_eq.
  destruct (needsBlank first prev l) eqn:Eb.
  - cbn [app fixLines]. rewrite fixLine_empty.
    rewrite fixLine_eq, needsBlank_after_empty, reindent_idem.
    cbn [app]. rewrite IH. reflexivity.
  - cbn [app fixLines]. rewrite fixLine_eq.
    rewrite (needsBlank_again _ _ _ Eb), reindent_idem.
    cbn [app]. rewrite IH. reflexivity.
Qed.

Lemma in_includes c s : In c s -> includes s [c] = true.
Proof.
  induction s as [|x s IH]; intros H; [contradiction|].
  cbn [includes]. unfold startsWith. cbn [strip_prefix].
  destruct (N.eqb_spec c x) as [->|Hne]; [reflexivity|].
  destruct H as [H|H]; [congruence|]. cbn [orb]. apply IH, H.
Qed.

Lemma includes_not_in c s : includes s [c] = false -> ~ In c s.
Proof. intros H Hin. rewrite (in_includes _ _ Hin) in H. discriminate. Qed.

Section Chars.
Variable P : N -> Prop.
Hypothesis P_space : P 32.
Hypothesis P_nl : P 10.

Lemma split_chr_chars sep s : forall cur,
  Forall P cur -> Forall P s -> Forall (Forall P) (split_chr sep cur s).
Proof.
  induction s as [|c s IH]; intros cur Hc Hs; cbn [split_chr].
  - constructor; [now apply Forall_rev|constructor].
  - inversion Hs; subst. destruct (c =? sep).
    + constructor; [now apply Forall_rev|]. apply IH; [constructor|assumption].
    + apply IH; [constructor; assumption|assumption].
Qed.

Lemma join_chars ls : Forall (Forall P) ls -> Forall P (join nl ls).
Proof.
  intros H. induction H as [|a ls Ha Hls IH]; [constructor|].
  destruct ls as [|b ls]; [exact Ha|].
  change (join nl (a :: b :: ls)) with (a ++ 10 :: join nl (b :: ls)).
  apply Forall_app. split; [exact Ha|]. constructor; [exact P_nl|exact IH].
Qed.

Lemma reindent_chars line : Forall P line -> Forall P (reindent line).
Proof.
  intros H. unfold reindent.
  destruct (exec listLineRe line) as [lm|] eqn:E; [|exact H]. cbv zeta.
  assert (Hs : forall k, Forall P (spaces k ++ group_s 2 lm)).
  { intros k. apply Forall_app. split.
    - unfold spaces. apply Forall_forall. intros c Hc.
      apply repeat_spec in Hc. now subst.
    - apply (exec_group_all P _ _ _ _ E H). }
  destruct (_ && _); [apply Hs|]. destruct (_ && _); [apply Hs|exact H].
Qed.

Lemma fixLines_chars lines : forall first prev,
  Forall (Forall P) lines -> Forall (Forall P) (fixLines first prev lines).
Proof.
  induction lines as [|l lines IH]; intros first prev H; [constructor|].
  inversion H; subst. cbn [fixLines]. rewrite fixLine_eq.
  apply Forall_app. split; [|now apply IH].
  apply Forall_app. split.
  - destruct (needsBlank _ _ _); repeat constructor.
  - constructor; [now apply reindent_chars|constructor].
Qed.
End Chars.

Lemma fixNestedLists_join text :
  includes text [backtick] = false -> includes text [tilde] = false ->
  fixNestedLists text = join nl (fixLines true [] (split_nl text)).
Proof.
  intros Hb Ht. rewrite <- (fixNestedLists_lines _ Hb Ht).
  symmetry. apply join_split_nl.
Qed.

(** X19.  On a text without backticks and tildes the nested-list
    pass is idempotent: running it on its own result changes nothing
    more. *)
Theorem nested_list_pass_is_idempotent (text : jsstr) :
  includes text [backtick] = false -> includes text [tilde] = false ->
  fixNestedLists (fixNestedLists text) = fixNestedLists text.
Proof.
  intros Hb Ht.
  set (P := fun c : N => c <> backtick /\ c <> tilde).
  assert (HP : Forall P text).
  { apply Forall_forall. intros c Hc. split; intros ->.
    - exact (includes_not_in _ _ Hb Hc).
    - exact (includes_not_in _ _ Ht Hc). }
  assert (Hout : Forall P (fixNestedLists text)).
  { rewrite (fixNestedLists_join _ Hb Ht).
    apply join_chars; [split; discriminate|].
    apply fixLines_chars; [split; discriminate|].
    apply split_chr_chars; [constructor|exact HP]. }
  assert (Hb' : includes (fixNestedLists text) [backtick] = false).
  { apply not_in_includes. intros Hin.
    exact (proj1 (proj1 (Forall_forall _ _) Hout _ Hin) eq_refl). }
  assert (Ht' : includes (fixNestedLists text) [tilde] = false).
  { apply not_in_includes. intros Hin.
    exact (proj2 (proj1 (Forall_forall _ _) Hout _ Hin) eq_refl). }
  rewrite (fixNestedLists_join _ Hb' Ht').
  rewrite (fixNestedLists_lines _ Hb Ht).
  change (fixLines true [] (fixLines true [] (split_nl text)))
    with (fixLines true (reindent []) (fixLines true [] (split_nl text))).
  rewrite fixLines_twice. symmetry. apply fixNestedLists_join; assumption.
Qed.

Lemma nested_list_pass_is_idempotent_witness :
  fixNestedLists (fixNestedLists loose_list) = fixNestedLists loose_list.
Proof. apply nested_list_pass_is_idempotent; reflexivity. Defined.

(** ** Chat.tsx: line endings *)

Lemma lineEnd_miss bef c s :
  (c =? 10) = false -> (c =? 13) = false ->
  match_at lineEndRe bef (c :: s) = None.
Proof.
  intros H10 H13. apply match_at_none. unfold lineEndRe, opt.
  cbn [mt rest length Nat.add rep is_zero_max pred_max flat_map app].
  unfold is_c. rewrite H13. cbn [flat_map app mt rest]. unfold is_c.
  rewrite H10. reflexivity.
Qed.

Lemma lineEnd_lf bef s :
  match_at lineEndRe bef (10 :: s) = Some (RMatch bef [10] [] s).
Proof.
  rewrite (match_at_head _ _ _ (MState (10 :: bef) s []) []).
  - rewrite (match_of_moved _ _ [10]); [reflexivity|]. split; reflexivity.
  - reflexivity.
Qed.

Lemma lineEnd_crlf bef s :
  match_at lineEndRe bef (13 :: 10 :: s) = Some (RMatch bef [13; 10] [] s).
Proof.
  rewrite (hd_match _ _ _ (MState (10 :: 13 :: bef) s [])).
  - rewrite (match_of_moved _ _ [13; 10]); [reflexivity|]. split; reflexivity.
  - unfold lineEndRe.
    apply hd_seq with (x := adv_by [13] (10 :: s) (MState bef (13 :: 10 :: s) [])).
    + apply hd_opt_hit; reflexivity.
    + exists []. reflexivity.
Qed.

Lemma split_line l : forall bef cur s,
  eol_free l = true ->
  split_loop lineEndRe 0 0 bef (l ++ s) cur
  = split_loop lineEndRe 0 0 (rev l ++ bef) s (rev l ++ cur).
Proof.
  induction l as [|c l IH]; intros bef cur s H; [reflexivity|].
  cbn [eol_free forallb] in H. apply andb_prop in H. destruct H as [Hc Hl].
  apply andb_prop in Hc. destruct Hc as [H10 H13].
  apply negb_true_iff in H10, H13.
  cbn [app split_loop]. rewrite (lineEnd_miss _ _ _ H10 H13).
  rewrite IH by exact Hl. cbn [rev]. now rewrite <- !app_assoc.
Qed.

Lemma split_lines sep ls :
  sep = nl \/ sep = crlf ->
  Forall (fun l => eol_free l = true) ls -> ls <> [] ->
  forall bef cur,
    split_loop lineEndRe 0 0 bef (join sep ls) cur
    = match ls with
      | l :: rest => (rev cur ++ l) :: rest
      | [] => []
      end.
Proof.
  intros Hsep H. induction H as [|l ls Hl Hls IH]; intros Hne bef cur;
    [contradiction|].
  destruct ls as [|l2 ls].
  - cbn [join]. rewrite <- (app_nil_r l) at 1. rewrite split_line by exact Hl.
    cbn [split_loop]. now rewrite rev_app_distr, rev_involutive.
  - change (join sep (l :: l2 :: ls)) with (l ++ sep ++ join sep (l2 :: ls)).
    rewrite split_line by exact Hl.
    assert (Hrev : rev (rev l ++ cur) = rev cur ++ l)
      by now rewrite rev_app_distr, rev_involutive.
    destruct Hsep as [-> | ->].
    + change (nl ++ ?x) with (10 :: x). cbn [split_loop].
      rewrite lineEnd_lf. cbn [m_text length groups_of seq map app].
      rewrite Hrev. f_equal. rewrite IH by discriminate. reflexivity.
    + change (crlf ++ ?x) with (13 :: 10 :: x). cbn [split_loop].
      rewrite lineEnd_crlf.
      cbn [m_text length groups_of seq map app split_loop].
      rewrite Hrev. f_equal. rewrite IH by discriminate. reflexivity.
Qed.

Lemma split_re_lines sep ls :
  sep = nl \/ sep = crlf ->
  Forall (fun l => eol_free l = true) ls -> ls <> [] ->
  split_re lineEndRe 0 (join sep ls) = ls.
Proof.
  intros Hsep H Hne. unfold split_re.
  destruct (join sep ls) as [|c s] eqn:Ej.
  - destruct ls as [|l [|l2 ls]]; [contradiction| |].
    + cbn in Ej. subst. reflexivity.
    + change (join sep (l :: l2 :: ls))
        with (l ++ sep ++ join sep (l2 :: ls)) in Ej.
      apply app_eq_nil in Ej. destruct Ej as [_ Ej].
      apply app_eq_nil in Ej. destruct Ej as [Ej _].
      destruct Hsep; subst; discriminate.
  - rewrite <- Ej. rewrite (split_lines sep ls Hsep H Hne).
    destruct ls; [contradiction|reflexivity].
Qed.

Lemma dropWhile_all_nil p s : forallb p s = true -> dropWhile p s = [].
Proof.
  induction s as [|c s IH]; [reflexivity|]. cbn [forallb dropWhile].
  intros H. apply andb_prop in H. destruct H as [-> H]. apply IH, H.
Qed.

Lemma trim_nil_iff s : trim s = [] <-> forallb is_space s = true.
Proof.
  unfold trim, trimEnd, trimStart. split.
  - intros H. apply (f_equal (@rev N)) in H. rewrite rev_involutive in H.
    cbn [rev] in H. apply dropWhile_nil in H. rewrite forallb_rev_eq in H.
    pose proof (dropWhile_stops is_space s) as Hs.
    destruct (dropWhile is_space s) as [|c t] eqn:E.
    + apply dropWhile_nil, E.
    + cbn [stops] in Hs. cbn [forallb] in H. rewrite Hs in H. discriminate.
  - intros H. now rewrite (dropWhile_all_nil _ _ H).
Qed.

Lemma join_spaces sep ls :
  forallb is_space sep = true -> ls <> [] ->
  forallb is_space (join sep ls) = forallb (forallb is_space) ls.
Proof.
  intros Hsep. induction ls as [|l ls IH]; intros Hne; [contradiction|].
  destruct ls as [|l2 ls].
  - cbn. now rewrite andb_true_r.
  - change (join sep (l :: l2 :: ls)) with (l ++ sep ++ join sep (l2 :: ls)).
    rewrite !forallb_app, Hsep, IH by discriminate. reflexivity.
Qed.

(** X20.  The line endings of Windows make no difference to a chat:
    the same lines joined by carriage return and line feed or by line
    feeds alone give the same messages. *)
Theorem chat_ignores_carriage_returns (ls : list jsstr) :
  ls <> [] -> Forall (fun l => eol_free l = true) ls ->
  Chat.parseChatContent (join crlf ls) = Chat.parseChatContent (join nl ls).
Proof.
  intros Hne H. unfold Chat.parseChatContent, Chat.chatLines.
  change (Seq (opt (Chr (is_c 13))) (Chr (is_c 10))) with lineEndRe.
  rewrite !split_re_lines by (assumption || auto).
  assert (Hs : forallb is_space (join crlf ls)
               = forallb is_space (join nl ls))
    by (rewrite !join_spaces by (assumption || reflexivity); reflexivity).
  destruct (trim (join crlf ls)) as [|c t] eqn:E1;
    destruct (trim (join nl ls)) as [|c' t'] eqn:E2; try reflexivity.
  - apply trim_nil_iff in E1. rewrite Hs in E1. apply trim_nil_iff in E1.
    rewrite E1 in E2. discriminate.
  - apply trim_nil_iff in E2. rewrite <- Hs in E2. apply trim_nil_iff in E2.
    rewrite E2 in E1. discriminate.
Qed.

Lemma chat_ignores_carriage_returns_witness :
  Chat.parseChatContent (join crlf steve_lines)
  = Chat.parseChatContent (join nl steve_lines).
Proof.
  apply chat_ignores_carriage_returns; [discriminate|].
  repeat constructor.
Defined.

(** ** One mark in a text *)

Section OneHit.
Variable r : regex.
Variable f : rmatch -> jsstr.
Variable c : N.
Hypothesis r_starts : starts_with_unit r c.

Let g := fun (_ : unit) (m : rmatch) => o <- Some (f m) ;; Some (o, tt).

Lemma free_no_match bef s : free_of c s = true -> match_at r bef s = None.
Proof.
  intros H. destruct (match_at r bef s) as [m|] eqn:E; [|reflexivity].
  destruct (r_starts _ _ _ E) as [t ->].
  cbn [free_of forallb] in H. rewrite N.eqb_refl in H. discriminate.
Qed.

Lemma free_suffix_no_match bef a s :
  free_of c (a :: s) = true -> match_at r bef (a :: s) = None.
Proof. apply free_no_match. Qed.

Lemma replace_loop_free : forall s bef,
  free_of c s = true -> replace_loop r g 0 bef s tt = Some (s, tt).
Proof.
  induction s as [|a s IH]; intros bef H.
  - apply replace_loop_nil, free_no_match, H.
  - rewrite replace_loop_miss by (apply free_no_match, H).
    cbn [free_of forallb] in H. apply andb_prop in H. destruct H as [_ H].
    now rewrite IH.
Qed.

Lemma replace_loop_prefix : forall pre bef s,
  free_of c pre = true ->
  (exists t, s = c :: t) ->
  replace_loop r g 0 bef (pre ++ s) tt
  = ('(tl, st') <- replace_loop r g 0 (rev pre ++ bef) s tt ;;
     Some (pre ++ tl, st')).
Proof.
  induction pre as [|a pre IH]; intros bef s H Hs.
  - cbn [app rev]. destruct (replace_loop r g 0 bef s tt) as [[tl st']|];
      reflexivity.
  - cbn [free_of forallb] in H. apply andb_prop in H. destruct H as [Ha H].
    apply negb_true_iff in Ha. cbn [app].
    rewrite replace_loop_miss.
    + rewrite IH by assumption. cbn [rev]. rewrite <- app_assoc. cbn [app].
      destruct (replace_loop r g 0 (rev pre ++ a :: bef) s tt)
        as [[tl st']|]; reflexivity.
    + destruct (match_at r bef (a :: pre ++ s)) as [m|] eqn:E; [|reflexivity].
      destruct (r_starts _ _ _ E) as [t Et]. injection Et as -> _.
      rewrite N.eqb_refl in Ha. discriminate.
Qed.

Lemma replace_one pre mid post m :
  free_of c pre = true -> free_of c post = true ->
  match_at r (rev pre) (mid ++ post) = Some m ->
  m_text m = mid -> mid <> [] ->
  replace_all r f (pre ++ mid ++ post) = pre ++ f m ++ post.
Proof.
  intros Hpre Hpost Hm Ht Hne.
  destruct (match_at_split _ _ _ _ Hm) as [Hs _].
  rewrite Ht in Hs. apply app_inv_head in Hs.
  unfold replace_all, replace_all_opt, replace_all_st. fold g.
  rewrite (replace_loop_prefix pre [] (mid ++ post)); [|exact Hpre|].
  - rewrite app_nil_r. rewrite (replace_loop_hit r g _ _ _ m Hm)
      by (rewrite Ht; exact Hne).
    unfold g at 1. cbn [bind]. rewrite <- Hs.
    rewrite replace_loop_free by exact Hpost. cbn [bind]. reflexivity.
  - destruct (r_starts _ _ _ Hm) as [t Et]. eauto.
Qed.
End OneHit.

Lemma free_of_class c x :
  free_of c x = true -> forallb (none_of [c]) x = true.
Proof.
  unfold free_of, none_of. intros H.
  rewrite forallb_forall in *. intros a Ha. specialize (H a Ha).
  cbn [existsb]. now rewrite orb_false_r.
Qed.

Lemma highlight_starts : starts_with_unit highlightRe 61.
Proof.
  intros bef s m H. apply match_at_inv in H.
  destruct H as [st [k [Hin _]]]. unfold highlightRe in Hin.
  rewrite mt_seqs_cons in Hin. apply in_flat_map in Hin.
  destruct Hin as [x [Hx _]]. rewrite mt_lit in Hx. cbn [rest] in Hx.
  destruct (strip_prefix (U "==") s) as [t|] eqn:E; [|contradiction].
  apply strip_prefix_app in E. rewrite E. exists (61 :: t). reflexivity.
Qed.

Lemma sup_starts : starts_with_unit supRe 94.
Proof.
  intros bef s m H. apply match_at_inv in H.
  destruct H as [st [k [Hin _]]]. unfold supRe in Hin.
  rewrite mt_seqs_cons in Hin. apply in_flat_map in Hin.
  destruct Hin as [x [Hx _]]. apply mt_chr_in in Hx.
  destruct Hx as [a [E [Ha _]]]. cbn [rest] in E.
  apply N.eqb_eq in Ha. subst a. eauto.
Qed.

Lemma sub_starts : starts_with_unit subRe tilde.
Proof.
  intros bef s m H. apply sub_match_shape in H.
  destruct H as [a [t [-> _]]]. eauto.
Qed.

Lemma highlight_hit pre x post :
  free_of 61 x = true -> x <> [] ->
  match_at highlightRe (rev pre) ((U "==" ++ x ++ U "==") ++ post)
  = Some (RMatch (rev pre) (U "==" ++ x ++ U "==") [(1%nat, x)] post).
Proof.
  intros Hx Hne.
  replace ((U "==" ++ x ++ U "==") ++ post)
    with (U "==" ++ x ++ U "==" ++ post)
    by (now rewrite <- !app_assoc).
  set (s := U "==" ++ x ++ U "==" ++ post).
  set (st0 := MState (rev pre) s []).
  set (st1 := adv_by (U "==") (x ++ U "==" ++ post) st0).
  set (st2 := setcap 1 st1 (adv_by x (U "==" ++ post) st1)).
  set (st3 := adv_by (U "==") post st2).
  assert (Hc : consumed st1 (adv_by x (U "==" ++ post) st1) = x)
    by (apply moved_consumed; split; reflexivity).
  rewrite (hd_match _ _ _ st3).
  - rewrite (match_of_moved _ _ (U "==" ++ x ++ U "==")).
    + unfold st3, st2, setcap. cbn [adv_by caps rest]. now rewrite Hc.
    + split.
      * unfold s. cbn [rest st3 adv_by]. now rewrite <- !app_assoc.
      * unfold st3, st2, st1, st0, setcap. cbn [before adv_by rest caps].
        rewrite !rev_app_distr. cbn [rev app].
        rewrite <- !app_assoc. reflexivity.
  - unfold highlightRe.
    apply hd_seqs_cons with (x := st1).
    { exists []. rewrite mt_lit. unfold st0, s. cbn [rest].
      rewrite strip_prefix_refl. reflexivity. }
    apply hd_seqs_cons with (x := st2).
    { apply hd_grp, hd_plus; [reflexivity|apply free_of_class, Hx| |exact Hne].
      reflexivity. }
    exists []. cbn [seqs]. rewrite mt_lit. unfold st2, setcap. cbn [rest adv_by].
    rewrite strip_prefix_refl. reflexivity.
Qed.

Lemma hd_chr p c t st :
  rest st = c :: t -> p c = true -> hd_is (Chr p) st (adv_by [c] t st).
Proof.
  intros E H. exists []. cbn [mt]. rewrite E, H. reflexivity.
Qed.

Lemma sup_hit pre x post :
  free_of 94 x = true -> x <> [] ->
  match_at supRe (rev pre) ((U "^" ++ x ++ U "^") ++ post)
  = Some (RMatch (rev pre) (U "^" ++ x ++ U "^") [(1%nat, x)] post).
Proof.
  intros Hx Hne.
  replace ((U "^" ++ x ++ U "^") ++ post) with (U "^" ++ x ++ U "^" ++ post)
    by (now rewrite <- !app_assoc).
  set (s := U "^" ++ x ++ U "^" ++ post).
  set (st0 := MState (rev pre) s []).
  set (st1 := adv_by [94] (x ++ U "^" ++ post) st0).
  set (st2 := setcap 1 st1 (adv_by x (U "^" ++ post) st1)).
  set (st3 := adv_by [94] post st2).
  assert (Hc : consumed st1 (adv_by x (U "^" ++ post) st1) = x)
    by (apply moved_consumed; split; reflexivity).
  rewrite (hd_match _ _ _ st3).
  - rewrite (match_of_moved _ _ (U "^" ++ x ++ U "^")).
    + unfold st3, st2, setcap. cbn [adv_by caps rest]. now rewrite Hc.
    + split.
      * unfold s. cbn [rest st3 adv_by]. now rewrite <- !app_assoc.
      * unfold st3, st2, st1, st0, setcap. cbn [before adv_by rest caps].
        rewrite !rev_app_distr. cbn [rev app].
        rewrite <- !app_assoc. reflexivity.
  - unfold supRe.
    apply hd_seqs_cons with (x := st1); [apply hd_chr; reflexivity|].
    apply hd_seqs_cons with (x := st2).
    { apply hd_grp, hd_plus; [reflexivity|apply free_of_class, Hx| |exact Hne].
      reflexivity. }
    cbn [seqs]. apply hd_chr; reflexivity.
Qed.

Lemma free_last c pre :
  free_of c pre = true ->
  match rev pre with b :: _ => (b =? c) = false | [] => True end.
Proof.
  intros H. destruct (rev pre) as [|b l] eqn:E; [exact I|].
  assert (Hin : In b pre) by (apply in_rev; rewrite E; now left).
  unfold free_of in H. rewrite forallb_forall in H.
  apply negb_true_iff, H, Hin.
Qed.

Lemma sub_hit pre x post :
  free_of tilde pre = true -> free_of tilde x = true ->
  free_of 10 x = true -> free_of tilde post = true -> x <> [] ->
  match_at subRe (rev pre) ((U "~" ++ x ++ U "~") ++ post)
  = Some (RMatch (rev pre) (U "~" ++ x ++ U "~") [(1%nat, x)] post).
Proof.
  intros Hpre Hx Hnl Hpost Hne.
  replace ((U "~" ++ x ++ U "~") ++ post) with (U "~" ++ x ++ U "~" ++ post)
    by (now rewrite <- !app_assoc).
  set (s := U "~" ++ x ++ U "~" ++ post).
  set (st0 := MState (rev pre) s []).
  set (st1 := adv_by [tilde] (x ++ U "~" ++ post) st0).
  set (st2 := setcap 1 st1 (adv_by x (U "~" ++ post) st1)).
  set (st3 := adv_by [tilde] post st2).
  assert (Hc : consumed st1 (adv_by x (U "~" ++ post) st1) = x)
    by (apply moved_consumed; split; reflexivity).
  rewrite (hd_match _ _ _ st3).
  - rewrite (match_of_moved _ _ (U "~" ++ x ++ U "~")).
    + unfold st3, st2, setcap. cbn [adv_by caps rest]. now rewrite Hc.
    + split.
      * unfold s. cbn [rest st3 adv_by]. now rewrite <- !app_assoc.
      * unfold st3, st2, st1, st0, setcap. cbn [before adv_by rest caps].
        rewrite !rev_app_distr. cbn [rev app].
        rewrite <- !app_assoc. reflexivity.
  - unfold subRe.
    apply hd_seqs_cons with (x := st0).
    { exists []. cbn [mt before st0]. pose proof (free_last _ _ Hpre) as Hl.
      destruct (rev pre) as [|b l]; [reflexivity|].
      unfold is_c. now rewrite Hl. }
    apply hd_seqs_cons with (x := st1); [apply hd_chr; reflexivity|].
    apply hd_seqs_cons with (x := st2).
    { apply hd_grp, hd_plus; [reflexivity| |reflexivity|exact Hne].
      unfold free_of in Hx, Hnl. unfold none_of.
      rewrite forallb_forall in *. intros a Ha.
      specialize (Hx a Ha). specialize (Hnl a Ha).
      apply negb_true_iff in Hx, Hnl. cbn [existsb].
      now rewrite Hx, Hnl. }
    apply hd_seqs_cons with (x := st3); [apply hd_chr; reflexivity|].
    exists []. cbn [seqs mt rest st3 adv_by].
    destruct post as [|a post]; [reflexivity|].
    cbn [free_of forallb] in Hpost. apply andb_prop in Hpost.
    destruct Hpost as [Ha _]. apply negb_true_iff in Ha.
    unfold is_c. now rewrite Ha.
Qed.

(** X21.  One mark in a text.  Where the mark character occurs
    nowhere else, [==x==] becomes [<mark>x</mark>], [^x^] becomes
    [<sup>x</sup>] and, for [x] on one line, [~x~] becomes
    [<sub>x</sub>]; the rest of the text and the marked text itself
    are kept as they are, dollar signs included. *)
Theorem inline_marks_become_elements (pre x post : jsstr) :
  x <> [] ->
  (free_of 61 pre = true -> free_of 61 x = true -> free_of 61 post = true ->
   replace_all_tpl highlightRe 1 (U "<mark>$1</mark>")
     (pre ++ (U "==" ++ x ++ U "==") ++ post)
   = pre ++ (U "<mark>" ++ x ++ U "</mark>") ++ post) /\
  (free_of 94 pre = true -> free_of 94 x = true -> free_of 94 post = true ->
   replace_all_tpl supRe 1 (U "<sup>$1</sup>")
     (pre ++ (U "^" ++ x ++ U "^") ++ post)
   = pre ++ (U "<sup>" ++ x ++ U "</sup>") ++ post) /\
  (free_of tilde pre = true -> free_of tilde x = true ->
   free_of tilde post = true -> free_of 10 x = true ->
   replace_all_tpl subRe 1 (U "<sub>$1</sub>")
     (pre ++ (U "~" ++ x ++ U "~") ++ post)
   = pre ++ (U "<sub>" ++ x ++ U "</sub>") ++ post).
Proof.
  intros Hne. split; [|split].
  - intros Hpre Hx Hpost. unfold replace_all_tpl.
    rewrite (replace_one _ _ 61 highlight_starts pre _ post _ Hpre Hpost
               (highlight_hit pre x post Hx Hne) eq_refl)
      by discriminate.
    reflexivity.
  - intros Hpre Hx Hpost. unfold replace_all_tpl.
    rewrite (replace_one _ _ 94 sup_starts pre _ post _ Hpre Hpost
               (sup_hit pre x post Hx Hne) eq_refl)
      by discriminate.
    reflexivity.
  - intros Hpre Hx Hpost Hnl. unfold replace_all_tpl.
    rewrite (replace_one _ _ tilde sub_starts pre _ post _ Hpre Hpost
               (sub_hit pre x post Hpre Hx Hnl Hpost Hne) eq_refl)
      by discriminate.
    reflexivity.
Qed.

Lemma inline_marks_become_elements_witness :
  replace_all_tpl highlightRe 1 (U "<mark>$1</mark>") marks_sample
  = U "a <mark>b $1</mark> c".
Proof.
  apply (proj1 (inline_marks_become_elements (U "a ") (U "b $1") (U " c")
                  ltac:(discriminate))); reflexivity.
Defined.

(** ** The list numbers and the nested-list pass *)

Lemma no_fence_lines text :
  includes text [backtick] = false -> includes text [tilde] = false ->
  Forall (fun l => is_fence_line l = false) (split_nl text).
Proof.
  intros Hb Ht.
  set (P := fun c : N => c <> backtick /\ c <> tilde).
  assert (HP : Forall P text).
  { apply Forall_forall. intros c Hc. split; intros ->.
    - exact (includes_not_in _ _ Hb Hc).
    - exact (includes_not_in _ _ Ht Hc). }
  pose proof (split_chr_chars P 10 text [] (Forall_nil _) HP) as Hl.
  eapply Forall_impl; [|exact Hl]. intros l Hlp. cbv beta in Hlp.
  unfold is_fence_line, startsWith.
  destruct l as [|c l]; [reflexivity|]. inversion Hlp as [|? ? [H1 H2] _]; subst.
  change (U "```") with [96; 96; 96]. change (U "~~~") with [126; 126; 126].
  cbn [strip_prefix].
  replace (96 =? c) with false
    by (symmetry; apply N.eqb_neq; intros E; exact (H1 (eq_sym E))).
  replace (126 =? c) with false
    by (symmetry; apply N.eqb_neq; intros E; exact (H2 (eq_sym E))).
  reflexivity.
Qed.

Lemma parse_plain text :
  includes text [backtick] = false -> includes text [tilde] = false ->
  parseOrderedListNumbers text = flat_map item_of (split_nl text).
Proof.
  intros Hb Ht. unfold parseOrderedListNumbers, scanLines.
  rewrite fold_plain; [reflexivity|now apply no_fence_lines|reflexivity].
Qed.

Lemma item_number_trimmed l :
  map number (item_of l) = map number (item_of (trimStart l)).
Proof.
  unfold item_of, list_item, trimStart. rewrite dropWhile_idem.
  destruct (takeWhile is_digit (dropWhile is_space l)) as [|d ds];
    [reflexivity|].
  destruct (dropWhile is_digit (dropWhile is_space l)) as [|dot [|sp t]];
    try reflexivity.
  destruct (_ && _); reflexivity.
Qed.

Lemma item_of_blank l : trimStart l = [] -> item_of l = [].
Proof.
  intros H. unfold item_of, list_item. unfold trimStart in H. rewrite H.
  reflexivity.
Qed.

Lemma itemNumbers_visible lines :
  itemNumbers lines = itemNumbers (visible lines).
Proof.
  unfold itemNumbers, visible.
  induction lines as [|l ls IH]; [reflexivity|].
  cbn [flat_map map filter]. rewrite map_app, IH, item_number_trimmed.
  destruct (trimStart l) as [|c t] eqn:E.
  - reflexivity.
  - cbn [nonEmpty flat_map]. rewrite map_app. reflexivity.
Qed.

(** X22.  The nested-list pass keeps the numbers that
    [parseOrderedListNumbers] reads: on a text without backticks and
    tildes the list items of the result carry the same numbers in the
    same order as those of the text, so the numbers taken from the
    source fit the items that are rendered from the result. *)
Theorem nested_list_pass_keeps_the_numbers (text : jsstr) :
  includes text [backtick] = false -> includes text [tilde] = false ->
  map number (parseOrderedListNumbers (fixNestedLists text))
  = map number (parseOrderedListNumbers text).
Proof.
  intros Hb Ht.
  set (P := fun c : N => c <> backtick /\ c <> tilde).
  assert (HP : Forall P text).
  { apply Forall_forall. intros c Hc. split; intros ->.
    - exact (includes_not_in _ _ Hb Hc).
    - exact (includes_not_in _ _ Ht Hc). }
  assert (Hout : Forall P (fixNestedLists text)).
  { rewrite (fixNestedLists_join _ Hb Ht).
    apply join_chars; [split; discriminate|].
    apply fixLines_chars; [split; discriminate|].
    apply split_chr_chars; [constructor|exact HP]. }
  assert (Hb' : includes (fixNestedLists text) [backtick] = false).
  { apply not_in_includes. intros Hin.
    exact (proj1 (proj1 (Forall_forall _ _) Hout _ Hin) eq_refl). }
  assert (Ht' : includes (fixNestedLists text) [tilde] = false).
  { apply not_in_includes. intros Hin.
    exact (proj2 (proj1 (Forall_forall _ _) Hout _ Hin) eq_refl). }
  rewrite (parse_plain _ Hb' Ht'), (parse_plain _ Hb Ht).
  change (itemNumbers (split_nl (fixNestedLists text))
          = itemNumbers (split_nl text)).
  rewrite itemNumbers_visible, (itemNumbers_visible (split_nl text)).
  rewrite (fixNestedLists_lines _ Hb Ht), fixLines_visible. reflexivity.
Qed.

Lemma nested_list_pass_keeps_the_numbers_witness :
  map number (parseOrderedListNumbers (fixNestedLists loose_list))
  = map number (parseOrderedListNumbers loose_list).
Proof. apply nested_list_pass_keeps_the_numbers; reflexivity. Defined.
(** * The claims about attribute lists *)

(** ** The word after a key *)







(** ** C8: the type of an alert *)





(** ** C9: the attributes of a video block *)























(** ** C7: quoted and bare attribute values *)





(** * Documents that the transform returns as they are *)

(** ** A key in a part of a text *)

Lemma starts_ci_more key : forall s b,
  starts_ci key s = true -> starts_ci key (s ++ b) = true.
Proof.
  induction key as [|k key IH]; intros s b H; [reflexivity|].
  destruct s as [|c s]; [discriminate|]. cbn [starts_ci app] in *.
  apply andb_prop in H. destruct H as [H1 H2].
  rewrite H1. cbn. apply IH, H2.
Qed.

Lemma includes_ci_more_r key : forall s b,
  includes_ci s key = true -> includes_ci (s ++ b) key = true.
Proof.
  induction s as [|c s IH]; intros b H.
  - cbn [includes_ci] in H. rewrite orb_false_r in H.
    apply (starts_ci_more key [] b) in H. cbn [app] in *.
    destruct b; cbn [includes_ci]; rewrite H; reflexivity.
  - cbn [includes_ci app] in *. apply orb_prop in H. destruct H as [H|H].
    + apply (starts_ci_more key (c :: s) b) in H. cbn [app] in H.
      rewrite H. reflexivity.
    + rewrite (IH b H). apply orb_true_r.
Qed.

Lemma includes_ci_more_l key a s :
  includes_ci s key = true -> includes_ci (a ++ s) key = true.
Proof.
  induction a as [|c a IH]; intros H; [exact H|].
  cbn [app includes_ci]. rewrite (IH H). apply orb_true_r.
Qed.

Lemma includes_ci_part key a k b :
  includes_ci (a ++ k ++ b) key = false -> includes_ci k key = false.
Proof.
  intros H. destruct (includes_ci k key) eqn:E; [|reflexivity].
  rewrite (includes_ci_more_l key a _ (includes_ci_more_r key _ b E)) in H.
  discriminate.
Qed.

(** The attribute list of a link-card match is a part of the text. *)
Lemma linkCard_attrs_part bef s m :
  match_at linkCardRe bef s = Some m ->
  exists a b, rev bef ++ s = a ++ group_s 1 m ++ b.
Proof.
  intros H. apply match_at_inv in H. destruct H as [st [k [Hin [_ ->]]]].
  unfold linkCardRe in Hin.
  apply seqs_in in Hin. destruct Hin as [x1 [H1 Hin]].
  destruct (mt_moved _ _ _ H1) as [k1 [M1 _]].
  apply seqs_in in Hin. destruct Hin as [x2 [H2 Hin]].
  pose proof H2 as H2'. apply grp_in in H2'; [|reflexivity].
  destruct H2' as [k2 [[M2 _] C2]].
  apply seqs_in in Hin. destruct Hin as [x3 [H3 Hin]].
  apply mt_caps in H3; [|reflexivity].
  apply seqs_in in Hin. destruct Hin as [x4 [H4 Hin]].
  apply mt_caps in H4; [|reflexivity].
  apply seqs_in in Hin. destruct Hin as [x5 [H5 Hin]].
  apply mt_caps in H5; [|reflexivity].
  apply seqs_in in Hin. destruct Hin as [x6 [H6 Hin]].
  apply mt_caps in H6; [|reflexivity].
  apply seqs_in in Hin. destruct Hin as [x7 [H7 Hin]].
  apply grp_in in H7; [|reflexivity]. destruct H7 as [k7 [_ C7]].
  cbn [seqs] in Hin. apply mt_caps in Hin; [|reflexivity].
  exists (rev bef ++ k1), (rest x2).
  unfold group_s, group. cbn [m_caps].
  rewrite Hin, C7, H6, H5, H4, H3, C2. cbn [getcap Nat.eqb].
  cbn [rest] in M1. rewrite M1, M2, <- !app_assoc. reflexivity.
Qed.

(** ** What the patterns for links and images need *)

Tactic Notation "needs_at" integer(n) :=
  do n (apply needs_seqs_tl; [apply mono_has|discriminate|]).

Lemma needs_image_open : needs (has (U "](")) imageRe.
Proof. unfold imageRe. needs_at 2. apply needs_lit_first. reflexivity. Qed.

Lemma needs_image_brace : needs (has (U "{")) imageRe.
Proof. unfold imageRe. needs_at 6. apply (needs_chr_first 123). Qed.

Lemma needs_titled_open : needs (has (U "](")) titledLinkRe.
Proof. unfold titledLinkRe. needs_at 2. apply needs_lit_first. reflexivity. Qed.

Lemma needs_titled_quote : needs (has dq) titledLinkRe.
Proof. unfold titledLinkRe. needs_at 5. apply (needs_chr_first 34). Qed.

Lemma needs_icon_open : needs (has (U "](")) iconLinkRe.
Proof. unfold iconLinkRe. needs_at 2. apply needs_lit_first. reflexivity. Qed.

Lemma needs_icon_brace : needs (has (U "{")) iconLinkRe.
Proof. unfold iconLinkRe. needs_at 6. apply (needs_chr_first 123). Qed.

(** ** The passes on a calm text *)

Lemma no_match_opener L' l x L :
  includes L' L = true -> includes x L = false ->
  no_match (seqs (lit L' :: l)) x.
Proof.
  intros HL Hx. apply (needs_has_no_match L); [|exact Hx].
  apply needs_lit_first, HL.
Qed.

(** On a calm text only the link-card pass can change something: the
    passes between the masking of the code and its restoring give what
    that pass gives, when the later passes find no block in it. *)
Lemma passes_card r1 cbs X :
  calm r1 = true ->
  replace_all_opt linkCardRe linkCardReplacer r1 = Some X ->
  includes X (U ":::chat") = false -> includes X (U ":::timeline") = false ->
  (let r2 := replace_all chartRe chartReplacer r1 in
   let r3 := replace_all videoRe1 videoReplacer r2 in
   let r4 := replace_all videoRe2 videoReplacer r3 in
   let r5 := replace_all alertRe1 alertReplacer r4 in
   let r6 := replace_all alertRe2 alertReplacer r5 in
   let r7 := replace_all_tpl highlightRe 1 (U "<mark>$1</mark>") r6 in
   let r8 := replace_all_tpl supRe 1 (U "<sup>$1</sup>") r7 in
   let r9 := replace_all_tpl subRe 1 (U "<sub>$1</sub>") r8 in
   let r10 := replace_all imageRe imageReplacer r9 in
   let r11 := replace_all titledLinkRe titledLinkReplacer r10 in
   let r12 := replace_all_tpl iconLinkRe 3 iconLinkTemplate r11 in
   r13 <- replace_all_opt chatRe1 chatReplacer1 r12 ;;
   r14 <- replace_all_opt chatRe2 chatReplacer2 r13 ;;
   r15 <- replace_all_opt tabsRe (tabsReplacer cbs) r14 ;;
   r16 <- replace_all_opt linkCardRe linkCardReplacer r15 ;;
   r17 <- replace_all_opt chatRe1 chatReplacer1 r16 ;;
   r18 <- replace_all_opt chatRe2 chatReplacer2 r17 ;;
   r19 <- replace_all_opt timelineRe (timelineReplacer cbs) r18 ;;
   Some (restore r19 cbs)) = Some (restore X cbs).
Proof.
  unfold calm, block_openers. intros H Hc HXc HXt.
  apply andb_prop in H. destruct H as [H Hlink].
  cbn [forallb app] in H.
  repeat match type of H with
  | (_ && _) = true => apply andb_prop in H; destruct H as [?H H]
  end.
  repeat match goal with
  | H : negb _ = true |- _ => apply negb_true_iff in H
  end.
  cbv zeta.
  rewrite (replace_all_no_match chartRe)
    by (apply (no_match_opener _ _ _ (U ":::chart")); [reflexivity|assumption]).
  rewrite (replace_all_no_match videoRe1)
    by (apply (no_match_opener _ _ _ (U ":::video{")); [reflexivity|assumption]).
  rewrite (replace_all_no_match videoRe2)
    by (apply (no_match_opener _ _ _ (U ":::video{")); [reflexivity|assumption]).
  rewrite (replace_all_no_match alertRe1)
    by (apply (no_match_opener _ _ _ (U ":::alert{")); [reflexivity|assumption]).
  rewrite (replace_all_no_match alertRe2)
    by (apply (no_match_opener _ _ _ (U ":::alert{")); [reflexivity|assumption]).
  rewrite (replace_all_tpl_no_match highlightRe)
    by (apply (needs_has_no_match (U "=="));
        [apply needs_lit_first; reflexivity|assumption]).
  rewrite (replace_all_tpl_no_match supRe)
    by (apply (needs_has_no_match (U "^"));
        [apply (needs_chr_first 94)|assumption]).
  rewrite (replace_all_tpl_no_match subRe)
    by (apply (needs_has_no_match [tilde]); [apply needs_sub|assumption]).
  assert (Hl : no_match imageRe r1 /\ no_match titledLinkRe r1 /\
               no_match iconLinkRe r1).
  { apply orb_prop in Hlink. destruct Hlink as [Ho|Hb].
    - apply negb_true_iff in Ho. repeat split.
      + apply (needs_has_no_match (U "](")); [apply needs_image_open|exact Ho].
      + apply (needs_has_no_match (U "](")); [apply needs_titled_open|exact Ho].
      + apply (needs_has_no_match (U "](")); [apply needs_icon_open|exact Ho].
    - apply andb_prop in Hb. destruct Hb as [Hb Hq].
      apply negb_true_iff in Hb, Hq. repeat split.
      + apply (needs_has_no_match (U "{")); [apply needs_image_brace|exact Hb].
      + apply (needs_has_no_match dq); [apply needs_titled_quote|exact Hq].
      + apply (needs_has_no_match (U "{")); [apply needs_icon_brace|exact Hb]. }
  destruct Hl as [Hl1 [Hl2 Hl3]].
  rewrite (replace_all_no_match imageRe) by exact Hl1.
  rewrite (replace_all_no_match titledLinkRe) by exact Hl2.
  rewrite (replace_all_tpl_no_match iconLinkRe) by exact Hl3.
  rewrite (replace_all_opt_no_match chatRe1)
    by (apply (no_match_opener _ _ _ (U ":::chat")); [reflexivity|assumption]).
  cbn [bind].
  rewrite (replace_all_opt_no_match chatRe2)
    by (apply (no_match_opener _ _ _ (U ":::chat")); [reflexivity|assumption]).
  cbn [bind].
  rewrite (replace_all_opt_no_match tabsRe)
    by (apply (no_match_opener _ _ _ (U ":::tabs")); [reflexivity|assumption]).
  cbn [bind].
  rewrite Hc. cbn [bind].
  rewrite (replace_all_opt_no_match chatRe1)
    by (apply (no_match_opener _ _ _ (U ":::chat")); [reflexivity|exact HXc]).
  cbn [bind].
  rewrite (replace_all_opt_no_match chatRe2)
    by (apply (no_match_opener _ _ _ (U ":::chat")); [reflexivity|exact HXc]).
  cbn [bind].
  rewrite (replace_all_opt_no_match timelineRe)
    by (apply (no_match_opener _ _ _ (U ":::timeline")); [reflexivity|exact HXt]).
  reflexivity.
Qed.

Lemma calm_opener x L :
  calm x = true -> existsb (str_eqb L) block_openers = true ->
  includes x L = false.
Proof.
  unfold calm. intros H HL. apply andb_prop in H. destruct H as [H _].
  apply existsb_exists in HL. destruct HL as [L' [HL E]].
  apply str_eqb_eq in E. subst L'.
  apply negb_true_iff.
  apply (proj1 (forallb_forall _ _) H L).
  apply in_or_app. right. exact HL.
Qed.

(** The passes between the masking of the code and its restoring leave
    a calm text as it is, when the link-card pass does. *)
Lemma passes_quiet r1 cbs :
  calm r1 = true ->
  replace_all_opt linkCardRe linkCardReplacer r1 = Some r1 ->
  (let r2 := replace_all chartRe chartReplacer r1 in
   let r3 := replace_all videoRe1 videoReplacer r2 in
   let r4 := replace_all videoRe2 videoReplacer r3 in
   let r5 := replace_all alertRe1 alertReplacer r4 in
   let r6 := replace_all alertRe2 alertReplacer r5 in
   let r7 := replace_all_tpl highlightRe 1 (U "<mark>$1</mark>") r6 in
   let r8 := replace_all_tpl supRe 1 (U "<sup>$1</sup>") r7 in
   let r9 := replace_all_tpl subRe 1 (U "<sub>$1</sub>") r8 in
   let r10 := replace_all imageRe imageReplacer r9 in
   let r11 := replace_all titledLinkRe titledLinkReplacer r10 in
   let r12 := replace_all_tpl iconLinkRe 3 iconLinkTemplate r11 in
   r13 <- replace_all_opt chatRe1 chatReplacer1 r12 ;;
   r14 <- replace_all_opt chatRe2 chatReplacer2 r13 ;;
   r15 <- replace_all_opt tabsRe (tabsReplacer cbs) r14 ;;
   r16 <- replace_all_opt linkCardRe linkCardReplacer r15 ;;
   r17 <- replace_all_opt chatRe1 chatReplacer1 r16 ;;
   r18 <- replace_all_opt chatRe2 chatReplacer2 r17 ;;
   r19 <- replace_all_opt timelineRe (timelineReplacer cbs) r18 ;;
   Some (restore r19 cbs)) = Some (restore r1 cbs).
Proof.
  intros H Hc. apply passes_card; try assumption.
  - apply (calm_opener _ _ H). reflexivity.
  - apply (calm_opener _ _ H). reflexivity.
Qed.

(** The link-card pass changes nothing when the replacer finds no URL
    in any block. *)
Lemma cards_without_url r1 :
  (forall bef suf m, rev bef ++ suf = r1 ->
     match_at linkCardRe bef suf = Some m ->
     cardAttr (U "url:") (group_s 1 m) = []) ->
  replace_all_opt linkCardRe linkCardReplacer r1 = Some r1.
Proof.
  intros H. apply replace_all_opt_id. intros bef suf m E Hm.
  unfold linkCardReplacer. rewrite (H bef suf m E Hm). reflexivity.
Qed.

Lemma passes_calm r1 cbs :
  calm r1 = true ->
  includes r1 (U ":::link-card{") = false \/
  includes_ci r1 (U "url:") = false ->
  (let r2 := replace_all chartRe chartReplacer r1 in
   let r3 := replace_all videoRe1 videoReplacer r2 in
   let r4 := replace_all videoRe2 videoReplacer r3 in
   let r5 := replace_all alertRe1 alertReplacer r4 in
   let r6 := replace_all alertRe2 alertReplacer r5 in
   let r7 := replace_all_tpl highlightRe 1 (U "<mark>$1</mark>") r6 in
   let r8 := replace_all_tpl supRe 1 (U "<sup>$1</sup>") r7 in
   let r9 := replace_all_tpl subRe 1 (U "<sub>$1</sub>") r8 in
   let r10 := replace_all imageRe imageReplacer r9 in
   let r11 := replace_all titledLinkRe titledLinkReplacer r10 in
   let r12 := replace_all_tpl iconLinkRe 3 iconLinkTemplate r11 in
   r13 <- replace_all_opt chatRe1 chatReplacer1 r12 ;;
   r14 <- replace_all_opt chatRe2 chatReplacer2 r13 ;;
   r15 <- replace_all_opt tabsRe (tabsReplacer cbs) r14 ;;
   r16 <- replace_all_opt linkCardRe linkCardReplacer r15 ;;
   r17 <- replace_all_opt chatRe1 chatReplacer1 r16 ;;
   r18 <- replace_all_opt chatRe2 chatReplacer2 r17 ;;
   r19 <- replace_all_opt timelineRe (timelineReplacer cbs) r18 ;;
   Some (restore r19 cbs)) = Some (restore r1 cbs).
Proof.
  intros H Hcard. apply passes_quiet; [exact H|].
  destruct Hcard as [Hc|Hc].
  - apply replace_all_opt_no_match.
    eapply no_match_opener; [|exact Hc]. reflexivity.
  - apply cards_without_url. intros bef suf m E Hm.
    destruct (linkCard_attrs_part _ _ _ Hm) as [a [b Hab]].
    rewrite E in Hab. rewrite Hab in Hc.
    apply includes_ci_part in Hc. apply cardAttr_absent, Hc.
Qed.



(** ** The nested-list pass on steady lines *)






(** * Blocks as whole documents *)

(** ** All the results of a repetition, in the order of preference *)








(** ** The first result of a sequence whose first choices fail *)





(** ** Line breaks *)

Lemma newline_in y x :
  In x (mt newline y) ->
  (exists t, rest y = 10 :: t /\ rest x = t) \/
  (exists t, rest y = 13 :: 10 :: t /\ rest x = t).
Proof.
  unfold newline, crlf_opt, opt. intros H. cbn [mt] in H.
  apply in_flat_map in H. destruct H as [y1 [H1 H2]].
  apply rep_class_in in H1. destruct H1 as [k [E [_ [Hk [_ Hmax]]]]].
  specialize (Hmax _ eq_refl). cbn in Hmax.
  apply mt_chr_in in H2. destruct H2 as [c [Ec [Hc _]]].
  unfold is_c in Hc. apply N.eqb_eq in Hc. subst c.
  destruct k as [|a [|b k]]; [| |simpl in Hmax; lia].
  - left. exists (rest x). cbn [app] in E. rewrite E. split; [exact Ec|reflexivity].
  - right. simpl in Hk. rewrite andb_true_r in Hk. unfold is_c in Hk.
    apply N.eqb_eq in Hk. subst a. exists (rest x). cbn [app] in E.
    rewrite E, Ec. split; reflexivity.
Qed.


Lemma newline_end y : rest y = [] -> mt newline y = [].
Proof.
  intros E. apply nil_of_no_in. intros x Hx. apply newline_in in Hx.
  destruct Hx as [[t [E1 _]]|[t [E1 _]]]; rewrite E in E1; discriminate.
Qed.


(** ** A block between an opening line and a closing line *)




Section Block.
Variable op : jsstr.


End Block.
(** * One block as the whole document *)

(** ** Where a text can occur *)

Lemma startsWith_cons c s x L :
  startsWith (c :: s) (x :: L) = (x =? c) && startsWith s L.
Proof.
  unfold startsWith. cbn [strip_prefix]. destruct (x =? c); reflexivity.
Qed.

Lemma startsWith_in L : forall s c,
  startsWith s L = true -> In c L -> In c s.
Proof.
  induction L as [|x L IH]; intros s c H Hin; [contradiction|].
  destruct s as [|y s]; [discriminate|].
  rewrite startsWith_cons in H. apply andb_prop in H. destruct H as [E H].
  apply N.eqb_eq in E. subst y. destruct Hin as [<-|Hin]; [now left|].
  right. apply (IH s c H Hin).
Qed.

(** A text with a unit that [s] lacks does not occur in [s]. *)
Lemma includes_char c s L : In c L -> ~ In c s -> includes s L = false.
Proof.
  intros HL. induction s as [|x s IH]; intros Hs.
  - destruct L; [contradiction|reflexivity].
  - cbn [includes]. rewrite IH by (intros H; apply Hs; now right).
    rewrite orb_false_r.
    destruct (startsWith (x :: s) L) eqn:E; [|reflexivity].
    exfalso. apply Hs. apply (startsWith_in L _ _ E HL).
Qed.





(** ** What an encoded text contains *)







Lemma encode_not_in s e c :
  units s = true -> encodeURIComponent s = Some e ->
  uri_char c = false -> ~ In c e.
Proof.
  intros Hu He Hc Hin.
  pose proof (encode_chars_len (length s) s e (le_n _) Hu He) as H.
  rewrite (proj1 (forallb_forall _ _) H c Hin) in Hc. discriminate.
Qed.

(** ** The passes on a text that they do not match *)



(** ** A pattern that matches the whole text *)



(** ** The lines and the parts of a block *)




(** ** Elements with encoded attribute values *)





(** ** A block as the whole document *)







(** * Blocks through the whole transform *)





(** ** A link-card block as the whole document *)









(** ** The values of an attribute list are parts of it *)










(** ** Link-card blocks through the transform *)








(** * The claims about the second run and about link cards *)





(** * The nested-list pass, line by line *)

Lemma listLine_not_blank line lm :
  exec listLineRe line = Some lm -> str_eqb (trim line) [] = false.
Proof.
  intros H. destruct (listLine_shape _ _ H) as [E [_ [d [t [E2 Hd]]]]].
  destruct (trim line) as [|c k] eqn:Et; [|reflexivity].
  exfalso. apply trim_nil_iff in Et. rewrite E, E2, forallb_app in Et.
  apply andb_prop in Et. destruct Et as [_ Et]. cbn [forallb] in Et.
  apply andb_prop in Et. destruct Et as [Et _].
  pose proof (digit_stops d t Hd) as Hs. cbn [stops] in Hs. congruence.
Qed.

Lemma needsBlank_eq first prev line :
  (first = true -> prev = []) ->
  needsBlank first prev line = blankBefore prev line.
Proof.
  intros Hf. unfold needsBlank, blankBefore, test, indent_of.
  destruct (exec listLineRe line) as [lm|] eqn:El.
  - destruct (exec listLineRe prev) as [pm|] eqn:Ep; [|reflexivity].
    destruct (listLine_indent_is _ _ El) as [E1 _].
    destruct (listLine_indent_is _ _ Ep) as [E2 _].
    rewrite E1, E2, (listLine_not_blank _ _ Ep).
    destruct first.
    + rewrite (Hf eq_refl) in Ep. rewrite exec_listLine_nil in Ep. discriminate.
    + cbn [negb andb]. rewrite !andb_true_r.
      destruct (Nat.ltb_spec (length (takeWhile is_space prev))
                  (length (takeWhile is_space line))) as [H|H].
      * rewrite andb_true_r. apply Nat.ltb_lt. lia.
      * apply andb_false_r.
  - destruct (exec listLineRe prev); reflexivity.
Qed.

Lemma fixLines_relined lines : forall first prev,
  (first = true -> prev = []) ->
  fixLines first prev lines = relined prev lines.
Proof.
  induction lines as [|l ls IH]; intros first prev Hf; [reflexivity|].
  cbn [fixLines relined]. rewrite fixLine_eq, (needsBlank_eq _ _ _ Hf).
  rewrite (IH false l) by discriminate.
  rewrite <- app_assoc. reflexivity.
Qed.

Lemma reindent_cases line :
  (test listLineRe line = false -> reindent line = line) /\
  (test listLineRe line = true ->
   ((2 <= indent_of line <= 4)%nat ->
      reindent line = spaces 4 ++ trimStart line) /\
   ((5 <= indent_of line <= 6)%nat ->
      reindent line = spaces 7 ++ trimStart line) /\
   ((indent_of line <= 1 \/ 7 <= indent_of line)%nat ->
      reindent line = line)).
Proof.
  unfold test, reindent, indent_of, trimStart.
  destruct (exec listLineRe line) as [lm|] eqn:E.
  - split; [discriminate|]. intros _.
    destruct (listLine_indent_is _ _ E) as [E1 E2]. cbv zeta.
    rewrite E1, E2. set (n := length (takeWhile is_space line)).
    split; [|split]; intros H.
    + replace (Nat.leb 2 n && Nat.leb n 4) with true; [reflexivity|].
      symmetry. apply andb_true_iff. split; apply Nat.leb_le; lia.
    + replace (Nat.leb 2 n && Nat.leb n 4) with false.
      * replace (Nat.leb 5 n && Nat.leb n 6) with true; [reflexivity|].
        symmetry. apply andb_true_iff. split; apply Nat.leb_le; lia.
      * symmetry. apply andb_false_iff. right. apply Nat.leb_gt. lia.
    + replace (Nat.leb 2 n && Nat.leb n 4) with false.
      * replace (Nat.leb 5 n && Nat.leb n 6) with false; [reflexivity|].
        symmetry. apply andb_false_iff.
        destruct H; [left|right]; apply Nat.leb_gt; lia.
      * symmetry. apply andb_false_iff.
        destruct H; [left|right]; apply Nat.leb_gt; lia.
  - split; [reflexivity|discriminate].
Qed.

(** X17.  On a text without backticks and tildes the nested-list pass
    keeps every line that is no list item as it is, indentation
    included, and every list item that is indented by at most one unit
    or by seven or more.  A list item indented by two to four units is
    written with four spaces in front of its text, one indented by five
    or six units with seven spaces.  An empty line is put in front of a
    list item exactly when the line before it is a list item with a
    smaller indentation.  Nothing else changes: the lines of the result
    are these lines in the same order.  So the texts of the lines
    without their indentation stay the same, and every list item of the
    result is indented by 0, 1, 4 or at least 7 units. *)
Theorem nested_list_pass_only_indents (text : jsstr) :
  includes text [backtick] = false -> includes text [tilde] = false ->
  split_nl (fixNestedLists text) = relined [] (split_nl text) /\
  (forall line,
     (test listLineRe line = false -> reindent line = line) /\
     (test listLineRe line = true ->
      ((2 <= indent_of line <= 4)%nat ->
         reindent line = spaces 4 ++ trimStart line) /\
      ((5 <= indent_of line <= 6)%nat ->
         reindent line = spaces 7 ++ trimStart line) /\
      ((indent_of line <= 1 \/ 7 <= indent_of line)%nat ->
         reindent line = line))) /\
  visible (split_nl (fixNestedLists text)) = visible (split_nl text) /\
  (forall l, In l (split_nl (fixNestedLists text)) ->
     test listLineRe l = true -> settled (indent_of l)).
Proof.
  intros Hb Ht. rewrite (fixNestedLists_lines _ Hb Ht).
  split; [apply fixLines_relined; reflexivity|].
  split; [exact reindent_cases|]. split.
  - apply fixLines_visible.
  - intros l. apply fixLines_settled.
Qed.

Lemma nested_list_pass_only_indents_witness :
  split_nl (fixNestedLists loose_list) =
    [U "1. a"; []; U "    1. b"; []; U "       2. c"].
Proof.
  rewrite (proj1 (nested_list_pass_only_indents loose_list eq_refl eq_refl)).
  reflexivity.
Defined.
(** * Blocks from the document to the component *)

(** X2.  An encoded string consists of letters, digits, the marks
    [-_.!~*'()] and the percent sign: it holds no double quote, no
    angle bracket, no ampersand and no colon.  This holds of what the
    encoder returns.  The attribute value that [processContent] writes
    in the end is that string only when no later pass changes it: a
    placeholder of a code span passes the encoder as it is and is
    replaced by the raw code afterwards, and two tildes in an encoded
    chart are taken for a subscript, which puts angle brackets into the
    value. *)
Theorem encoded_text_is_attribute_safe :
  (forall s e,
     units s = true -> encodeURIComponent s = Some e ->
     forallb uri_char e = true /\
     includes e dq = false /\
     includes e (U ":::") = false /\
     (forall c, In c (U "<>&") -> ~ In c e)) /\
  (forall n, encodeURIComponent (placeholder n) = Some (placeholder n)) /\
  processContent chat_with_code =
    Some (chatDiv (U "%40person%20name%3AA%0Asale%20`100%`")) /\
  processContent chart_with_tildes =
    Some (chartDiv
            (U "%7B%22a%22%3A%22<sub>1%22%2C%22b%22%3A%22</sub>2%22%7D")).
Proof.
  split; [|split; [|split; vm_compute; reflexivity]].
  - intros s e Hu He.
    pose proof (encode_chars_len (length s) s e (le_n _) Hu He) as H.
    split; [exact H|].
    assert (Hnot : forall c, uri_char c = false -> ~ In c e)
      by (intros c; apply (encode_not_in s e c Hu He)).
    split; [apply (includes_char 34); [now left|apply Hnot; reflexivity]|].
    split; [apply (includes_char 58); [now left|apply Hnot; reflexivity]|].
    intros c Hc. apply Hnot.
    cbn in Hc. destruct Hc as [<-|[<-|[<-|[]]]]; reflexivity.
  - intros n. unfold placeholder.
    assert (Hk : forall k, forallb uri_unreserved k = true ->
                   encodeURIComponent k = Some k).
    { induction k as [|c k IH]; intros H; [reflexivity|].
      cbn [forallb] in H. apply andb_prop in H. destruct H as [Hc Hk].
      cbn [encodeURIComponent]. rewrite Hc, (IH Hk). reflexivity. }
    apply Hk. rewrite !forallb_app.
    change (forallb uri_unreserved marker) with true.
    change (forallb uri_unreserved (U "___")) with true.
    rewrite andb_true_r. cbn [andb].
    apply forallb_forall. intros c Hc.
    pose proof (num_str_digits n) as Hd.
    rewrite forallb_forall in Hd. specialize (Hd c Hc).
    unfold uri_unreserved. rewrite Hd. reflexivity.
Qed.

Lemma encoded_text_is_attribute_safe_witness :
  includes (U "%E4%BD%A0%20%F0%9F%98%80a") dq = false.
Proof.
  apply (proj1 encoded_text_is_attribute_safe emoji_text); reflexivity.
Defined.

Section HandlerOnText.
Variable isNumeric : jsstr -> bool.
Variable Json : Type.
Variable jsonParse : jsstr -> option Json.




End HandlerOnText.






